(** * Field extraction, receipt anchors and run-safe substitution

    A shallow embedding of the core of the document-transmittal / receipt
    generator: [extractInfoFromText], [safeReplaceInXml], [findReceiptPage],
    [scoreReceiptPage], [findReceiptLabel] and the strike-target part of
    [detectPositions] / [generateReceipt].

    JavaScript strings are sequences of UTF-16 code units; they are modelled
    as [list N].  The regular expressions of the source are values of an
    abstract syntax [regex], run by a backtracking matcher that follows the
    ECMAScript matching rules (priority of alternatives, greedy and lazy
    quantifiers, rejected empty iterations, negative lookahead, captures). *)

From Stdlib Require Import String Ascii.
From Stdlib Require Import List Arith NArith ZArith QArith Bool Lia.
Import ListNotations.
Open Scope nat_scope.

Set Implicit Arguments.

(** ** JavaScript strings *)

Module JsString.

Definition char := N.
Bind Scope N_scope with char.
Definition jsstring := list char.

(** Decoding of the UTF-8 bytes of a Rocq string literal into code points,
    so that the literals of the source can be written as they are. *)
Fixpoint utf8_decode (bs : list N) : list N :=
  match bs with
  | [] => []
  | b0 :: t0 =>
    if (b0 <? 128)%N then b0 :: utf8_decode t0
    else if (b0 <? 224)%N then
      match t0 with
      | b1 :: t1 => ((b0 - 192) * 64 + (b1 - 128))%N :: utf8_decode t1
      | [] => [b0]
      end
    else if (b0 <? 240)%N then
      match t0 with
      | b1 :: b2 :: t2 =>
        ((b0 - 224) * 4096 + (b1 - 128) * 64 + (b2 - 128))%N :: utf8_decode t2
      | _ => [b0]
      end
    else
      match t0 with
      | b1 :: b2 :: b3 :: t3 =>
        ((b0 - 240) * 262144 + (b1 - 128) * 4096 + (b2 - 128) * 64 + (b3 - 128))%N
          :: utf8_decode t3
      | _ => [b0]
      end
  end.

(** A code point above the basic plane is a surrogate pair in UTF-16. *)
Definition utf16_units (cp : N) : list char :=
  if (cp <? 65536)%N then [cp]
  else [(55296 + (cp - 65536) / 1024)%N; (56320 + (cp - 65536) mod 1024)%N].

Definition bytes_of_string (s : string) : list N :=
  List.map N_of_ascii (list_ascii_of_string s).

(** [js "..."] is the JavaScript string written by the literal. *)
Definition js (s : string) : jsstring :=
  flat_map utf16_units (utf8_decode (bytes_of_string s)).

(** The one character of a one-character literal. *)
Definition ch (s : string) : char := hd 0%N (js s).

Definition char_eqb (a b : char) : bool := N.eqb a b.

Fixpoint str_eqb (a b : jsstring) : bool :=
  match a, b with
  | [], [] => true
  | x :: a', y :: b' => N.eqb x y && str_eqb a' b'
  | _, _ => false
  end.

(** [s.startsWith(p)] *)
Fixpoint startsWith (s p : jsstring) : bool :=
  match p, s with
  | [], _ => true
  | y :: p', x :: s' => N.eqb x y && startsWith s' p'
  | _ :: _, [] => false
  end.

(** [s.indexOf(p)], [None] standing for -1. *)
Fixpoint indexOf_from (i : nat) (s p : jsstring) : option nat :=
  if startsWith s p then Some i
  else match s with
       | [] => None
       | _ :: s' => indexOf_from (S i) s' p
       end.

Definition indexOf (s p : jsstring) : option nat := indexOf_from 0 s p.

(** [s.includes(p)] *)
Definition includes (s p : jsstring) : bool :=
  match indexOf s p with Some _ => true | None => false end.

(** [s.endsWith(p)] *)
Definition endsWith (s p : jsstring) : bool :=
  startsWith (rev s) (rev p).

(** [s.substring(a, b)] for [a <= b]; [s.substring(a)] is [skipn a s]. *)
Definition substring (a b : nat) (s : jsstring) : jsstring :=
  firstn (b - a) (skipn a s).

(** The white space of ECMAScript: [\s] in a regular expression and the
    characters removed by [trim]. *)
Definition is_ws (c : char) : bool :=
  ((9 <=? c) && (c <=? 13) || (c =? 32) || (c =? 160) || (c =? 5760)
   || (8192 <=? c) && (c <=? 8202) || (c =? 8232) || (c =? 8233)
   || (c =? 8239) || (c =? 8287) || (c =? 12288) || (c =? 65279))%N.

Fixpoint trimStart (s : jsstring) : jsstring :=
  match s with
  | x :: s' => if is_ws x then trimStart s' else s
  | [] => []
  end.

Definition trim (s : jsstring) : jsstring :=
  rev (trimStart (rev (trimStart s))).

(** [a.join('')] *)
Definition join (l : list jsstring) : jsstring := List.concat l.

End JsString.

Import JsString.

(** ** Regular expressions

    The fragment of ECMAScript regular expressions that the source uses:
    character classes, sequence, alternation, greedy and lazy quantifiers
    with bounds, capture groups, negative lookahead and the anchors [^] and
    [$] (no flag [m] is ever set).  No pattern of the source puts a capture
    group under a quantifier, so the reset of captures at each iteration has
    nothing to do and is left out. *)

Module Regex.

Inductive regex : Type :=
| Eps
| Cls (c : char -> bool)
| Seq (a b : regex)
| Alt (a b : regex)
| Rep (lo : nat) (hi : option nat) (greedy : bool) (r : regex)
| Grp (i : nat) (r : regex)
| NLook (r : regex)
| Bol
| Eol.

(** Captures: the latest binding of a group number is the one in force;
    a group that took no part in the match is [undefined] ([None]). *)
Definition caps := list (nat * jsstring).

Fixpoint getcap (i : nat) (cs : caps) : option jsstring :=
  match cs with
  | [] => None
  | (j, v) :: t => if Nat.eqb i j then Some v else getcap i t
  end.

Definition setcap (i : nat) (v : jsstring) (cs : caps) : caps := (i, v) :: cs.

(** The state of a match in progress: the index reached, the input that is
    left from there, and the captures so far. *)
Record mstate := MState { pos : nat; rest : jsstring; mcaps : caps }.

Definition cont := mstate -> option mstate.

Definition orElse (a : option mstate) (b : unit -> option mstate) : option mstate :=
  match a with
  | Some r => Some r
  | None => b tt
  end.

(** RepeatMatcher: [lo] iterations are owed, at most [hi] are allowed; once
    none is owed, an iteration that consumed nothing is rejected.  A greedy
    quantifier tries one more iteration before the continuation, a lazy one
    the continuation first.  [fuel] bounds the number of iterations;
    [rmatch_complete] shows that [lo + length + 1] is never what makes a
    pattern without lookahead fail. *)
Fixpoint rep (m : mstate -> cont -> option mstate) (lo : nat) (hi : option nat)
    (greedy : bool) (fuel : nat) (st : mstate) (k : cont) : option mstate :=
  match fuel with
  | 0 => None
  | S fuel' =>
    let iter := fun _ : unit =>
      match hi with
      | Some 0 => None
      | _ =>
        m st (fun st' =>
          if Nat.eqb lo 0 && Nat.eqb (length (rest st')) (length (rest st))
          then None
          else rep m (Nat.pred lo) (option_map Nat.pred hi) greedy fuel' st' k)
      end in
    if Nat.ltb 0 lo then iter tt
    else if greedy then orElse (iter tt) (fun _ => k st)
    else orElse (k st) iter
  end.

Fixpoint rmatch (r : regex) (st : mstate) (k : cont) {struct r} : option mstate :=
  match r with
  | Eps => k st
  | Cls c =>
    match rest st with
    | x :: t => if c x then k (MState (S (pos st)) t (mcaps st)) else None
    | [] => None
    end
  | Seq a b => rmatch a st (fun st' => rmatch b st' k)
  | Alt a b => orElse (rmatch a st k) (fun _ => rmatch b st k)
  | Rep lo hi g r' => rep (rmatch r') lo hi g (lo + S (length (rest st))) st k
  | Grp i r' =>
    rmatch r' st (fun st' =>
      k (MState (pos st') (rest st')
           (setcap i (firstn (pos st' - pos st) (rest st)) (mcaps st'))))
  | NLook r' =>
    match rmatch r' st (fun s => Some s) with
    | Some _ => None
    | None => k st
    end
  | Bol => if Nat.eqb (pos st) 0 then k st else None
  | Eol => match rest st with [] => k st | _ :: _ => None end
  end.

(** *** Character classes and pattern combinators *)

Definition c_is (a : char) : char -> bool := fun x => N.eqb x a.
Definition c_in (s : string) : char -> bool := fun x => existsb (N.eqb x) (js s).
Definition c_range (a b : N) : char -> bool := fun x => (N.leb a x && N.leb x b)%bool.
Definition c_or (c d : char -> bool) : char -> bool := fun x => (c x || d x)%bool.
Definition c_not (c : char -> bool) : char -> bool := fun x => negb (c x).
Definition c_all : char -> bool := fun _ => true.

(** [\d], [\s], [.] and the ideograph, hiragana and katakana ranges. *)
Definition c_digit : char -> bool := c_range 48 57.
Definition c_space : char -> bool := is_ws.
Definition c_dot : char -> bool :=
  fun x => negb (N.eqb x 10 || N.eqb x 13 || N.eqb x 8232 || N.eqb x 8233).
Definition c_kanji : char -> bool := c_range 19968 40959.
Definition c_hira : char -> bool := c_range 12352 12447.
Definition c_kata : char -> bool := c_range 12448 12543.
(** [[０-９]] *)
Definition c_fwdigit : char -> bool := c_range 65296 65305.

Fixpoint seqs (l : list regex) : regex :=
  match l with
  | [] => Eps
  | [r] => r
  | r :: l' => Seq r (seqs l')
  end.

Fixpoint alts (l : list regex) : regex :=
  match l with
  | [] => NLook Eps
  | [r] => r
  | r :: l' => Alt r (alts l')
  end.

(** A literal run of characters. *)
Definition lit (s : string) : regex := seqs (List.map (fun a => Cls (c_is a)) (js s)).

Definition star (r : regex) : regex := Rep 0 None true r.
Definition plus (r : regex) : regex := Rep 1 None true r.
Definition opt (r : regex) : regex := Rep 0 (Some 1) true r.
Definition between (lo hi : nat) (r : regex) : regex := Rep lo (Some hi) true r.
Definition between_lazy (lo hi : nat) (r : regex) : regex := Rep lo (Some hi) false r.
(** [\s*] and [\s+] *)
Definition ws0 : regex := star (Cls c_space).
Definition ws1 : regex := plus (Cls c_space).

(** *** Running a pattern on a string *)

(** What [exec] and [match] return: [m.index], [m[0]] and the groups. *)
Record Match := MkMatch { index : nat; m0 : jsstring; groups : caps }.

(** [m[i]] for [i >= 1] *)
Definition group (i : nat) (m : Match) : option jsstring := getcap i (groups m).

(** One attempt, at index [p] where [s] is the input left. *)
Definition try_at (r : regex) (p : nat) (s : jsstring) : option Match :=
  match rmatch r (MState p s []) (fun st => Some st) with
  | Some st' => Some (MkMatch p (firstn (pos st' - p) s) (mcaps st'))
  | None => None
  end.

(** The leftmost match at or after index [p]. *)
Fixpoint scan (r : regex) (p : nat) (s : jsstring) : option Match :=
  match try_at r p s with
  | Some m => Some m
  | None =>
    match s with
    | [] => None
    | _ :: t => scan r (S p) t
    end
  end.

(** [s.match(r)] and [r.exec(s)] for a pattern without flag [g]. *)
Definition exec (r : regex) (s : jsstring) : option Match := scan r 0 s.

(** [r.test(s)] *)
Definition test (r : regex) (s : jsstring) : bool :=
  match exec r s with Some _ => true | None => false end.

(** All the matches of a pattern with flag [g], as the loop
    [while ((m = r.exec(s)) !== null)] and [s.replace(r, ...)] find them:
    each search resumes where the last match ended.  Past an empty match
    the index advances by one, as [replace] does; the patterns that the
    source loops over with [exec] cannot match the empty string. *)
Fixpoint matchAll_from (fuel : nat) (r : regex) (p : nat) (s : jsstring) : list Match :=
  match fuel with
  | 0 => []
  | S fuel' =>
    match scan r p s with
    | None => []
    | Some m =>
      let e := index m + length (m0 m) in
      let s_e := skipn (e - p) s in
      if Nat.eqb (length (m0 m)) 0 then
        match s_e with
        | [] => [m]
        | _ :: t => m :: matchAll_from fuel' r (S e) t
        end
      else m :: matchAll_from fuel' r e s_e
    end
  end.

Definition matchAll (r : regex) (s : jsstring) : list Match :=
  matchAll_from (S (length s)) r 0 s.

(** Rebuilding the subject around the matches: the text between matches is
    kept, each match gives way to its replacement. *)
Fixpoint splice (p : nat) (s : jsstring) (ms : list (nat * nat * jsstring)) : jsstring :=
  match ms with
  | [] => s
  | (i, n, v) :: ms' =>
    firstn (i - p) s ++ v ++ splice (i + n) (skipn (i + n - p) s) ms'
  end.

(** [s.replace(r, f)] for a pattern with flag [g] and a callback. *)
Definition replaceAllFn (r : regex) (s : jsstring) (f : Match -> jsstring) : jsstring :=
  splice 0 s (List.map (fun m => (index m, length (m0 m), f m)) (matchAll r s)).

(** [s.replace(r, v)] for a pattern with flag [g]; no replacement string of
    the source contains [$]. *)
Definition replaceAll (r : regex) (s v : jsstring) : jsstring :=
  replaceAllFn r s (fun _ => v).

(** [s.replace(r, f)] and [s.replace(r, v)] for a pattern without [g]. *)
Definition replaceFn (r : regex) (s : jsstring) (f : Match -> jsstring) : jsstring :=
  match exec r s with
  | None => s
  | Some m => firstn (index m) s ++ f m ++ skipn (index m + length (m0 m)) s
  end.

Definition replace (r : regex) (s v : jsstring) : jsstring :=
  replaceFn r s (fun _ => v).

End Regex.

Import Regex.

(** [s.split(r)] for a pattern without flags, following SplitMatcher: the
    pattern is tried at each index [q] in turn; a match that ends where the
    last piece ended is passed over; the captures of a match are spliced in
    between the pieces ([ngroups] of them, an unset one as the empty
    string, which no pattern of the source can produce). *)
Module Split.

Fixpoint split_loop (fuel : nat) (r : regex) (ngroups : nat) (whole : jsstring)
    (p q : nat) : list jsstring :=
  match fuel with
  | 0 => [skipn p whole]
  | S fuel' =>
    if Nat.leb (length whole) q then [skipn p whole]
    else
      match try_at r q (skipn q whole) with
      | None => split_loop fuel' r ngroups whole p (S q)
      | Some m =>
        let e := Nat.min (q + length (m0 m)) (length whole) in
        if Nat.eqb e p then split_loop fuel' r ngroups whole p (S q)
        else
          substring p q whole
            :: List.map (fun i => match group i m with Some v => v | None => [] end)
                 (seq 1 ngroups)
            ++ split_loop fuel' r ngroups whole e e
      end
  end.

Definition split (r : regex) (ngroups : nat) (s : jsstring) : list jsstring :=
  match s with
  | [] => match try_at r 0 [] with Some _ => [] | None => [[]] end
  | _ => split_loop (2 * S (length s)) r ngroups s 0 0
  end.

End Split.

(** ** Field extraction: [extractInfoFromText] *)

Module Extract.

(** [config.json]: the names and fax numbers of the filer's own office. *)
Record Config := MkConfig { lawyerNames : list jsstring; faxNumbers : list jsstring }.

(** The default [CONFIG] of the source. *)
Definition defaultConfig : Config := MkConfig [] [].

(** [COURT_FAX_MAP], in the order of the object literal. *)
Definition COURT_FAX_MAP : list (jsstring * jsstring) :=
  [ (js "神戸地方裁判所尼崎支部", js "06-6438-1710");
    (js "大阪地方裁判所", js "06-6316-2804");
    (js "大阪高等裁判所", js "06-6316-2804");
    (js "東京地方裁判所", js "03-3580-5611");
    (js "東京高等裁判所", js "03-3580-5611");
    (js "広島地方裁判所", js "082-228-0197");
    (js "広島高等裁判所", js "082-228-0197");
    (js "広島地方裁判所福山支部", js "084-923-2897");
    (js "岡山地方裁判所", js "086-222-6961");
    (js "福岡地方裁判所", js "092-781-3141");
    (js "名古屋地方裁判所", js "052-204-7780");
    (js "京都地方裁判所", js "075-211-4226");
    (js "神戸地方裁判所", js "078-367-1478");
    (js "横浜地方裁判所", js "045-212-0947");
    (js "さいたま地方裁判所", js "048-863-8761");
    (js "千葉地方裁判所", js "043-227-5601");
    (js "仙台地方裁判所", js "022-266-0091");
    (js "札幌地方裁判所", js "011-271-1456");
    (js "山口地方裁判所", js "083-922-1440") ].

(** [COURT_FAX_MAP[key]] *)
Fixpoint lookupFax (key : jsstring) (m : list (jsstring * jsstring)) : option jsstring :=
  match m with
  | [] => None
  | (k, v) :: m' => if str_eqb key k then Some v else lookupFax key m'
  end.

(** The record under construction; an absent property is [None]. *)
Record Info := MkInfo {
  courtName : option jsstring;
  caseNumber : option jsstring;
  caseNumberGuessed : option bool;
  caseName : option jsstring;
  plaintiffName : option jsstring;
  defendantName : option jsstring;
  plaintiffLawyer : option jsstring;
  courtFax : option jsstring;
  courtFaxFromPdf : option jsstring;
  plaintiffLawyerFax : option jsstring
}.

(** JavaScript truthiness of a property that is a string or absent. *)
Definition truthy (v : option jsstring) : bool :=
  match v with
  | Some (_ :: _) => true
  | _ => false
  end.

(** [text.replace(/\r\n/g, '\n').replace(/\r/g, '\n')] *)
Definition normalizeText (text : jsstring) : jsstring :=
  replaceAll (Cls (c_is 13))
    (replaceAll (seqs [Cls (c_is 13); Cls (c_is 10)]) text [10%N]) [10%N].

(** [s.replace(/\s+/g, '')] *)
Definition stripWs (s : jsstring) : jsstring := replaceAll ws1 s [].

(** *** Court name *)

Definition cityNames : list string :=
  [ "東京"; "大阪"; "名古屋"; "広島"; "福岡"; "仙台"; "札幌"; "高松"; "京都"; "神戸";
    "横浜"; "さいたま"; "千葉"; "山口"; "岡山"; "福山"; "松山"; "高知"; "那覇"; "長崎";
    "熊本"; "鹿児島"; "大分"; "宮崎"; "佐賀"; "秋田"; "青森"; "盛岡"; "山形"; "福島";
    "水戸"; "宇都宮"; "前橋"; "甲府"; "長野"; "新潟"; "富山"; "金沢"; "福井"; "津";
    "大津"; "奈良"; "和歌山"; "鳥取"; "松江"; "徳島"; "旭川"; "釧路"; "函館" ]%string.

(** [[０-９\d]] *)
Definition c_anydigit : char -> bool := c_or c_fwdigit c_digit.

Definition courtPattern : regex :=
  Grp 1 (seqs
    [ alts (List.map lit cityNames); ws0;
      alts [lit "地方"; lit "高等"; lit "家庭"; lit "簡易"]; ws0;
      lit "裁判"; ws0; lit "所";
      opt (seqs [ws0; plus (Cls c_kanji); ws0; lit "支部"]);
      opt (seqs [ws0; lit "民事"; ws0; lit "第"; ws0; plus (Cls c_anydigit); ws0; lit "部"]) ]).

(** The cleaned matches, in the order the [exec] loop pushes them. *)
Definition courtCandidates (normalizedText : jsstring) : list jsstring :=
  List.map (fun m => stripWs (match group 1 m with Some v => v | None => [] end))
    (matchAll courtPattern normalizedText).

(** [l.reduce((a, b) => a.length >= b.length ? a : b)] *)
Definition longest (l : list jsstring) : option jsstring :=
  match l with
  | [] => None
  | a :: l' => Some (fold_left (fun a b => if Nat.leb (length b) (length a) then a else b) l' a)
  end.

Definition extractCourtName (normalizedText : jsstring) : option jsstring :=
  longest (courtCandidates normalizedText).

(** *** Case number *)

Definition caseSymbols : char -> bool := c_in "ワヲネレモハノニナラ行わをねれもはのになら".
(** [[（(]] and [[）)]] *)
Definition c_lparen : char -> bool := c_in "（(".
Definition c_rparen : char -> bool := c_in "）)".

Definition caseNumberPatterns : list regex :=
  [ Grp 1 (seqs [Cls (c_in "令平"); lit "和"; plus (Cls c_digit); lit "年"; Cls c_lparen;
                 Cls caseSymbols; Cls c_rparen; ws0; opt (lit "第"); ws0;
                 plus (Cls c_digit); lit "号"]);
    Grp 1 (seqs [Cls (c_in "令平"); ws0; lit "和"; ws0; plus (Cls c_digit); ws0; lit "年"; ws0;
                 Cls c_lparen; ws0; Cls caseSymbols; ws0; Cls c_rparen; ws0;
                 opt (lit "第"); ws0; plus (Cls c_digit); ws0; lit "号"]);
    Grp 1 (seqs [Cls (c_in "令平"); ws0; lit "和"; ws0; plus (Cls c_digit); ws0; lit "年"; ws0;
                 lit "("; ws0; Cls caseSymbols; ws0; lit ")"; ws0;
                 opt (lit "第"); ws0; plus (Cls c_digit); ws0; lit "号"]);
    Grp 1 (seqs [lit "令"; ws0; lit "和"; ws0; Grp 2 (plus (Cls c_digit)); ws0; lit "年"; ws0;
                 Cls c_lparen; ws0; Grp 3 (Cls caseSymbols); ws0; Cls c_rparen; ws0;
                 lit "第"; ws0; Grp 4 (plus (Cls c_digit)); ws0; lit "号"]) ].

(** [cn.replace(/（/g, '(').replace(/）/g, ')')] *)
Definition halfWidthParens (cn : jsstring) : jsstring :=
  replaceAll (lit "）") (replaceAll (lit "（") cn (js "(")) (js ")").

(** The loop over the four patterns: the first that matches decides. *)
Fixpoint firstCaseNumber (ps : list regex) (normalizedText : jsstring) : option jsstring :=
  match ps with
  | [] => None
  | p :: ps' =>
    match exec p normalizedText with
    | Some m =>
      let cn := stripWs (match group 1 m with Some v => v | None => [] end) in
      Some (halfWidthParens cn)
    | None => firstCaseNumber ps' normalizedText
    end
  end.

(** *** Numbers

    The numbers of the program are doubles.  Those it reads with [parseInt]
    from a run of decimal digits are the integers that a double holds, or
    [Infinity]. *)
Inductive Number : Type :=
| Finite (n : N)
| Infinity.

(** The integer that a run of decimal digits denotes. *)
Definition decimalValue (ds : jsstring) : N :=
  fold_left (fun acc d => (acc * 10 + (d - 48))%N) ds 0%N.

(** The double nearest to an integer, the one with the even significand
    when two are as near; [Infinity] from [2^1024 - 2^970]. *)
Definition toDouble (n : N) : Number :=
  if (n <? 2 ^ 53)%N then Finite n
  else
    let e := (N.log2 n - 52)%N in
    let q := N.shiftr n e in
    let r := (n - N.shiftl q e)%N in
    let half := (2 ^ (e - 1))%N in
    let q' := if (half <? r)%N || ((r =? half)%N && N.odd q) then (q + 1)%N else q in
    let v := N.shiftl q' e in
    if (v <? 2 ^ 1024)%N then Finite v else Infinity.

(** [parseInt(ds)] on a run of decimal digits: the double nearest to the
    integer written, as Node computes it (the language lets an engine
    take the digits after the twentieth for zeros, which Node does not). *)
Definition parseInt (ds : jsstring) : Number := toDouble (decimalValue ds).

Definition number_eqb (a b : Number) : bool :=
  match a, b with
  | Finite m, Finite n => (m =? n)%N
  | Infinity, Infinity => true
  | _, _ => false
  end.

(** The decimal digits of an integer. *)
Fixpoint digits_fuel (fuel : nat) (n : N) (acc : jsstring) : jsstring :=
  match fuel with
  | 0 => acc
  | S f =>
    let acc' := (48 + n mod 10)%N :: acc in
    if (n <? 10)%N then acc' else digits_fuel f (n / 10)%N acc'
  end.

Definition decimalDigits (n : N) : jsstring := digits_fuel (S (N.to_nat (N.log2 n))) n [].

(** The decimal that a double is printed as: of the integers that
    [toDouble] sends to [n], one with the fewest significant digits, the
    nearest to [n] of those, the one with the even last digit when two are
    as near.  [digitCount] is the number of digits of [n], [k] the number
    of significant digits tried. *)
Fixpoint shortest_from (fuel k : nat) (digitCount : nat) (n : N) : N :=
  match fuel with
  | 0 => n
  | S f =>
    let unit := (10 ^ N.of_nat (digitCount - k))%N in
    let lo := (n / unit * unit)%N in
    let hi := (lo + unit)%N in
    let okLo := number_eqb (toDouble lo) (Finite n) in
    let okHi := number_eqb (toDouble hi) (Finite n) in
    if okLo && okHi then
      (if (n - lo <? hi - n)%N then lo
       else if (hi - n <? n - lo)%N then hi
       else if N.even (n / unit) then lo else hi)
    else if okLo then lo
    else if okHi then hi
    else shortest_from f (S k) digitCount n
  end.

Definition shortestDecimal (n : N) : N :=
  let digitCount := length (decimalDigits n) in
  shortest_from digitCount 1 digitCount n.

(** The digits without the zeros at the end. *)
Fixpoint dropZeros (ds : jsstring) : jsstring :=
  match ds with
  | [] => []
  | d :: ds' => if N.eqb d 48 then dropZeros ds' else ds
  end.

Definition significantDigits (ds : jsstring) : jsstring := rev (dropZeros (rev ds)).

(** A number in a template string, [`${x}`]: the digits of the decimal
    that the double is printed as when it is below [10^21], and from there
    the first digit, the other significant digits after a point if there
    are any, [e+] and the exponent. *)
Definition numberToString (x : Number) : jsstring :=
  match x with
  | Infinity => js "Infinity"
  | Finite n =>
    let ds := decimalDigits (shortestDecimal n) in
    if (shortestDecimal n <? 10 ^ 21)%N then ds
    else
      match significantDigits ds with
      | [] => ds
      | d :: more =>
        (d :: match more with [] => [] | _ :: _ => ch "." :: more end)
          ++ js "e+" ++ decimalDigits (N.of_nat (length ds - 1))
      end
  end.

(** [Math.min(a, b)] *)
Definition minNumber (a b : Number) : Number :=
  match a, b with
  | Finite m, Finite n => Finite (N.min m n)
  | Finite m, Infinity => Finite m
  | Infinity, _ => b
  end.

(** [Math.min(...l)], taken where the engine passes that many arguments
    (see [callExtractInfoFromText] for where it does not); [Infinity] on no
    argument. *)
Definition minOf (l : list Number) : Number := fold_left minNumber l Infinity.

Definition displaySection : regex :=
  seqs [lit "事"; ws0; lit "件"; ws0; lit "の"; ws0; lit "表"; ws0; lit "示";
        star (Cls (c_or (c_in "】]") c_space));
        Grp 1 (between 1 80 (Cls (c_not (c_is 10))))].

Definition displayFull : regex :=
  seqs [opt (lit "令"); ws0; opt (lit "和"); ws0; Grp 1 (plus (Cls c_digit)); ws0;
        opt (lit "年"); ws0; Cls c_lparen; ws0; Grp 2 (Cls caseSymbols); ws0;
        Cls c_rparen; ws0; lit "第"; ws0; Grp 3 (plus (Cls c_digit)); ws0; lit "号"].

Definition displayNum : regex :=
  seqs [lit "第"; ws0; Grp 1 (plus (Cls c_digit)); ws0; lit "号"].

Definition displaySymbol : regex :=
  seqs [Cls c_lparen; ws0; Grp 1 (Cls caseSymbols); ws0; Cls c_rparen].

Definition yearRegex : regex :=
  seqs [lit "令"; ws0; lit "和"; ws0; Grp 1 (plus (Cls c_digit)); ws0; lit "年"].

Definition cap (i : nat) (m : Match) : jsstring :=
  match group i m with Some v => v | None => [] end.

(** The fallback on the "display of the case" section; it returns the case
    number and the flag [caseNumberGuessed]. *)
Definition caseNumberFromDisplay (normalizedText : jsstring)
    : option jsstring * option bool :=
  match exec displaySection normalizedText with
  | None => (None, None)
  | Some dm =>
    let sectionText := cap 1 dm in
    match exec displayFull sectionText with
    | Some fm =>
      (Some (js "令和" ++ cap 1 fm ++ js "年(" ++ cap 2 fm ++ js ")第" ++ cap 3 fm ++ js "号"),
       None)
    | None =>
      match exec displayNum sectionText with
      | None => (None, None)
      | Some nm =>
        let caseNum := cap 1 nm in
        let symbolMatch := exec displaySymbol sectionText in
        let symbol := match symbolMatch with Some sm => cap 1 sm | None => js "ワ" end in
        let guessed := match symbolMatch with Some _ => false | None => true end in
        let yearMatches :=
          List.map (fun ym => parseInt (cap 1 ym)) (matchAll yearRegex normalizedText) in
        match yearMatches with
        | _ :: _ =>
          (Some (js "令和" ++ numberToString (minOf yearMatches) ++ js "年(" ++ symbol
                   ++ js ")第" ++ caseNum ++ js "号"),
           Some guessed)
        | [] =>
          (Some (js "(" ++ symbol ++ js ")第" ++ caseNum ++ js "号"), Some true)
        end
      end
    end
  end.

Definition extractCaseNumber (normalizedText : jsstring) : option jsstring * option bool :=
  match firstCaseNumber caseNumberPatterns normalizedText with
  | Some cn => (Some cn, None)
  | None => caseNumberFromDisplay normalizedText
  end.

(** *** Case name *)

Definition caseNamePatterns : list regex :=
  [ seqs [lit "損害"; ws0; lit "賠償"; between_lazy 0 50 (Cls c_all); lit "請求"; ws0; lit "事件"];
    seqs [lit "号"; ws0;
          Grp 1 (seqs [plus (Cls c_kanji); alts [lit "請求"; lit "確認"; opt (lit "等")];
                       ws0; lit "事件"])];
    Grp 1 (alts [lit "損害賠償請求事件"; lit "貸金返還請求事件"; lit "建物明渡請求事件";
                 lit "不当利得返還請求事件"; seqs [plus (Cls c_kanji); lit "請求事件"]]);
    Grp 1 (seqs [plus (Cls c_kanji); ws1; alts [lit "請求"; lit "確認"]; ws0; lit "事件"]) ].

(** [/([一-鿿]+請求事件|[一-鿿]+確認事件)/] *)
Definition caseNameCleanup : regex :=
  Grp 1 (alts [seqs [plus (Cls c_kanji); lit "請求事件"];
               seqs [plus (Cls c_kanji); lit "確認事件"]]).

(** What is done with the first pattern that matches. *)
Definition caseNameOfMatch (m : Match) : option jsstring :=
  let caseName :=
    if truthy (group 1 m) && negb (startsWith (m0 m) (js "損害"))
    then cap 1 m else m0 m in
  let caseName := replace (seqs [Bol; lit "号"; ws0]) caseName [] in
  let caseName := replaceAll (plus (Cls (c_or c_space (c_or (c_is 10) (c_is 13)))))
                    caseName [] in
  match exec caseNameCleanup caseName with
  | Some cleaned => Some (cap 1 cleaned)
  | None => if includes caseName (js "事件") then Some caseName else None
  end.

Fixpoint firstCaseName (ps : list regex) (normalizedText : jsstring) : option jsstring :=
  match ps with
  | [] => None
  | p :: ps' =>
    match exec p normalizedText with
    | Some m => caseNameOfMatch m
    | None => firstCaseName ps' normalizedText
    end
  end.

Definition extractCaseName (normalizedText : jsstring) : option jsstring :=
  firstCaseName caseNamePatterns normalizedText.

(** *** Party names *)

(** [/\s*(外\s*\d+\s*名)\s*$/] and [/ (外\d+名)$/] *)
Definition othersSuffix : regex :=
  seqs [ws0; Grp 1 (seqs [lit "外"; ws0; plus (Cls c_digit); ws0; lit "名"]); ws0; Eol].
Definition othersSplit : regex :=
  seqs [lit " "; Grp 1 (seqs [lit "外"; plus (Cls c_digit); lit "名"]); Eol].

(** The treatment of a captured party name, written four times in the
    source with the same text: trim, set the "and N others" suffix apart
    by one space, and strip the white space of each part. *)
Definition partyName (captured : jsstring) : jsstring :=
  let name := trim captured in
  let name := replaceFn othersSuffix name (fun m => js " " ++ stripWs (cap 1 m)) in
  let parts := Split.split othersSplit 1 name in
  match parts with
  | p0 :: p1 :: _ => stripWs p0 ++ js " " ++ p1
  | _ => stripWs name
  end.

Definition partySectionPattern : regex :=
  seqs [lit "当"; ws0; lit "事"; ws0; lit "者"; between 0 200 (Cls c_all)].

(** [[_\s]*] *)
Definition underscores : regex := star (Cls (c_or (c_is 95) c_space)).

Definition plaintiffInPartyPattern : regex :=
  seqs [lit "原"; ws0; Cls (c_in "告&"); ws0; underscores;
        Grp 1 (between 1 40 (Cls (c_not (c_or (c_is 10) (c_in "原被")))))].

Definition defendantInPartyPattern : regex :=
  seqs [lit "被"; ws0; lit "告"; ws0; underscores;
        Grp 1 (between 1 40 (Cls (c_not (c_or (c_is 10) (c_in "原被")))))].

(** [(?!.*(?:訴訟|代理))] *)
Definition notCounsel : regex :=
  NLook (seqs [star (Cls c_dot); alts [lit "訴訟"; lit "代理"]]).

Definition plaintiffPatterns : list regex :=
  [ seqs [Cls (c_in "【["); ws0; lit "原"; ws0; lit "告"; ws0; Cls (c_in "】]"); ws0;
          Grp 1 (between 1 30 (Cls (c_not (c_or (c_is 10) (c_in "【[")))))];
    seqs [lit "原"; ws0; lit "告"; ws1; notCounsel;
          Grp 1 (between 1 20 (Cls (c_not (c_or (c_is 10) (c_in "（(被代訴")))))] ].

Definition defendantPatterns : list regex :=
  [ seqs [Cls (c_in "【["); ws0; alts [lit "被"; lit "a"]; ws0; lit "告"; ws0;
          Cls (c_in "】]"); ws0;
          Grp 1 (between 1 30 (Cls (c_not (c_or (c_is 10) (c_in "【[")))))];
    seqs [lit "被"; ws0; lit "告"; ws1; notCounsel;
          Grp 1 (between 1 30 (Cls (c_not (c_or (c_is 10) (c_in "（(原代訴")))))] ].

Fixpoint firstPartyName (ps : list regex) (normalizedText : jsstring) : option jsstring :=
  match ps with
  | [] => None
  | p :: ps' =>
    match exec p normalizedText with
    | Some m => Some (partyName (cap 1 m))
    | None => firstPartyName ps' normalizedText
    end
  end.

(** The name found in the parties section, if there is a section and the
    label is found in it. *)
Definition partyInSection (labelPattern : regex) (normalizedText : jsstring)
    : option jsstring :=
  match exec partySectionPattern normalizedText with
  | None => None
  | Some ps =>
    match exec labelPattern (m0 ps) with
    | Some m => Some (partyName (cap 1 m))
    | None => None
    end
  end.

(** The section first, then, when the property is still falsy, the
    patterns anchored on the label. *)
Definition extractParty (labelPattern : regex) (fallback : list regex)
    (normalizedText : jsstring) : option jsstring :=
  let inSection := partyInSection labelPattern normalizedText in
  if truthy inSection then inSection
  else
    match firstPartyName fallback normalizedText with
    | Some n => Some n
    | None => inSection
    end.

Definition extractPlaintiffName := extractParty plaintiffInPartyPattern plaintiffPatterns.
Definition extractDefendantName := extractParty defendantInPartyPattern defendantPatterns.

(** *** Counsel name *)

Definition c_cjk : char -> bool := c_or c_kanji (c_or c_hira c_kata).

(** [cleanLawyerName]; [None] is the [null] it returns. *)
Definition cleanLawyerName (rawName : jsstring) : option jsstring :=
  let name := trim rawName in
  match matchAll (plus (Cls c_cjk)) name with
  | [] => None
  | cjkChars =>
    let name := join (List.map m0 cjkChars) in
    let name := replace (seqs [lit "宛て"; Eol]) name [] in
    let name := replace (seqs [plus (Cls (c_in "宛殿様御中方和")); Eol]) name [] in
    if Nat.ltb (length name) 2 || Nat.ltb 6 (length name) then None
    else if test (seqs [Bol; Cls (c_in "法会事件番号裁判")]) name then None
    else Some name
  end.

Record Candidate := MkCandidate { name : jsstring; priority : nat }.

(** [[^\n]{lo,hi}] *)
Definition lineChars (lo hi : nat) : regex := between lo hi (Cls (c_not (c_is 10))).

Definition formalPattern : regex :=
  seqs [lit "原告"; ws0; opt (lit "ら"); ws0; opt (seqs [lit "訴"; ws0; lit "訟"]); ws0;
        lit "代理"; ws0; lit "人"; ws0; lit "弁護"; ws0; lit "士"; ws0;
        Grp 1 (lineChars 2 20)].
Definition senderPattern : regex :=
  seqs [lit "人"; ws0; lit "弁護"; ws0; lit "士"; ws0; Grp 1 (lineChars 2 20)].
Definition atePattern : regex :=
  seqs [lit "弁護"; ws0; lit "士"; ws0; Grp 1 (lineChars 2 15); ws0; lit "宛"].
Definition generalPattern : regex :=
  seqs [lit "弁護"; ws0; lit "士"; ws0; Grp 1 (lineChars 2 15)].

(** [normalizedText.substring(Math.max(0, i - n), i)] *)
Definition contextBefore (n : nat) (normalizedText : jsstring) (i : nat) : jsstring :=
  substring (i - n) i normalizedText.

(** The four loops that push the candidates, in the order of the source. *)
Definition formalCandidates (normalizedText : jsstring) : list Candidate :=
  flat_map (fun lm =>
      match cleanLawyerName (cap 1 lm) with
      | Some n => [MkCandidate n 1]
      | None => []
      end)
    (matchAll formalPattern normalizedText).

Definition senderCandidates (normalizedText : jsstring) : list Candidate :=
  flat_map (fun lm =>
      if includes (contextBefore 30 normalizedText (index lm)) (js "被告") then []
      else match cleanLawyerName (cap 1 lm) with
           | Some n => [MkCandidate n 2]
           | None => []
           end)
    (matchAll senderPattern normalizedText).

Definition ateCandidates (normalizedText : jsstring) : list Candidate :=
  flat_map (fun lm =>
      match cleanLawyerName (cap 1 lm) with
      | Some n => [MkCandidate n 3]
      | None => []
      end)
    (matchAll atePattern normalizedText).

Definition generalCandidates (cfg : Config) (normalizedText : jsstring) : list Candidate :=
  flat_map (fun lm =>
      if includes (contextBefore 50 normalizedText (index lm)) (js "被告") then []
      else match cleanLawyerName (cap 1 lm) with
           | Some n =>
             if existsb (fun own => includes n own) (lawyerNames cfg) then []
             else [MkCandidate n 4]
           | None => []
           end)
    (matchAll generalPattern normalizedText).

Definition lawyerCandidates (cfg : Config) (normalizedText : jsstring) : list Candidate :=
  formalCandidates normalizedText ++ senderCandidates normalizedText
    ++ ateCandidates normalizedText ++ generalCandidates cfg normalizedText.

(** [[...new Set(l)]]: the first occurrence of each name, in order. *)
Fixpoint dedup (seen : list jsstring) (l : list jsstring) : list jsstring :=
  match l with
  | [] => []
  | x :: l' =>
    if existsb (str_eqb x) seen then dedup seen l'
    else x :: dedup (x :: seen) l'
  end.

(** [Array.prototype.sort] is stable: an element goes after those that do
    not compare greater than it. *)
Section Sort.
Variable A : Type.
Variable cmp : A -> A -> Z.

Fixpoint insertSorted (x : A) (l : list A) : list A :=
  match l with
  | [] => [x]
  | y :: l' => if (cmp x y <? 0)%Z then x :: l else y :: insertSorted x l'
  end.

Definition stableSort (l : list A) : list A :=
  fold_left (fun acc x => insertSorted x acc) l [].
End Sort.

(** The candidate kept for a name: the one of least priority number. *)
Definition bestOfName (cands : list Candidate) (n : jsstring) : option Candidate :=
  hd_error (stableSort (fun a b => Z.of_nat (priority a) - Z.of_nat (priority b))%Z
              (filter (fun c => str_eqb (name c) n) cands)).

Definition uniqueCandidates (cands : list Candidate) : list Candidate :=
  flat_map (fun n => match bestOfName cands n with Some c => [c] | None => [] end)
    (dedup [] (List.map name cands)).

Definition ideal (c : Candidate) : Z :=
  if Nat.leb 3 (length (name c)) && Nat.leb (length (name c)) 4 then 0%Z else 1%Z.

(** The comparator of the final sort. *)
Definition candidateOrder (a b : Candidate) : Z :=
  if negb (Nat.eqb (priority a) (priority b))
  then (Z.of_nat (priority a) - Z.of_nat (priority b))%Z
  else if negb (Z.eqb (ideal a) (ideal b)) then (ideal a - ideal b)%Z
  else (Z.of_nat (length (name b)) - Z.of_nat (length (name a)))%Z.

Definition rankedCandidates (cands : list Candidate) : list Candidate :=
  stableSort candidateOrder (uniqueCandidates cands).

(** The winner, [uniqueCandidates[0].name] after the sort. *)
Definition winner (cands : list Candidate) : option jsstring :=
  option_map name (hd_error (rankedCandidates cands)).

(** The winner, with the fifth character of a five-character name dropped
    when a candidate of at most three characters is a prefix of it. *)
Definition chooseLawyer (cands : list Candidate) : option jsstring :=
  match rankedCandidates cands with
  | [] => None
  | best :: _ =>
    let bestName := name best in
    if Nat.eqb (length bestName) 5
       && existsb (fun c => Nat.leb (length (name c)) 3 && startsWith bestName (name c))
            (rankedCandidates cands)
    then Some (substring 0 4 bestName)
    else Some bestName
  end.

Definition extractPlaintiffLawyer (cfg : Config) (normalizedText : jsstring)
    : option jsstring :=
  chooseLawyer (lawyerCandidates cfg normalizedText).

(** *** Fax numbers *)

(** The dictionary key: the court name without its division. *)
Definition courtBase (courtName : jsstring) : jsstring :=
  replace (seqs [lit "第"; plus (Cls c_anydigit); Cls (c_in "民刑"); lit "事部"; Eol])
    (replace (seqs [lit "民事第"; plus (Cls c_anydigit); lit "部"; star (Cls c_dot); Eol])
       courtName [])
    [].

(** [COURT_FAX_MAP[courtBase] || ''] *)
Definition dictionaryFax (courtName : jsstring) : jsstring :=
  match lookupFax (courtBase courtName) COURT_FAX_MAP with
  | Some v => v
  | None => []
  end.

(** [Object.values(COURT_FAX_MAP)] *)
Definition courtFaxValues : list jsstring := List.map snd COURT_FAX_MAP.

Definition normalizeFax (raw : jsstring) : jsstring :=
  replaceAll (Cls (c_in "－ー"))
    (replaceAllFn (Cls c_fwdigit) raw
       (fun m => match m0 m with c :: _ => [(c - 65248)%N] | [] => [] end))
    (js "-").

(** [(?:FAX|ＦＡＸ|[Ff]ax)] and [[0-9０-９\-－ー]+] *)
Definition faxLabel : regex := alts [lit "FAX"; lit "ＦＡＸ"; seqs [Cls (c_in "Ff"); lit "ax"]].
Definition faxDigits : regex := plus (Cls (c_or c_digit (c_or c_fwdigit (c_in "-－ー")))).

Definition explicitCourtFaxPattern : regex :=
  seqs [lit "裁"; ws0; lit "判"; ws0; lit "所"; between_lazy 0 60 (Cls c_all);
        Cls c_lparen; ws0; faxLabel; ws0; Grp 1 faxDigits; ws0; Cls c_rparen].

Definition explicitFaxRegex : regex :=
  seqs [Grp 1 (between 1 10 (Cls c_kanji)); ws0; Cls c_lparen; ws0; faxLabel; ws0;
        Grp 2 faxDigits; ws0; Cls c_rparen].

Definition faxRegex : regex :=
  seqs [faxLabel; star (Cls (c_or (c_in "：:") c_space)); Grp 1 faxDigits].

Definition nearPlaintiffCounsel : regex :=
  seqs [lit "原告"; ws0; opt (lit "ら"); ws0; lit "訴"; ws0; lit "訟"; ws0; lit "代"; ws0;
        lit "理"; ws0; lit "人"].
Definition nearDefendantCounsel : regex :=
  seqs [lit "被告"; ws0; opt (lit "ら"); ws0; lit "訴"; ws0; lit "訟"; ws0; lit "代"; ws0;
        lit "理"; ws0; lit "人"].

(** The two properties that the fax loops read and write. *)
Record FaxState := MkFaxState { fromPdf : option jsstring; counselFax : option jsstring }.

(** [ownFaxPatterns.some(p => fax.includes(p))] *)
Definition isOwnFax (cfg : Config) (fax : jsstring) : bool :=
  existsb (fun p => includes fax p) (faxNumbers cfg).

Record ExplicitFax := MkExplicitFax { label : jsstring; efax : jsstring }.

Definition allExplicitFaxes (normalizedText : jsstring) : list ExplicitFax :=
  List.map (fun efm => MkExplicitFax (cap 1 efm) (normalizeFax (cap 2 efm)))
    (matchAll explicitFaxRegex normalizedText).

(** The body of the loop over the labelled faxes. *)
Definition explicitStep (cfg : Config) (st : FaxState) (ef : ExplicitFax) : FaxState :=
  if includes (label ef) (js "裁判") || includes (label ef) (js "裁判所") then st
  else if truthy (fromPdf st)
          && match fromPdf st with Some c => str_eqb (efax ef) c | None => false end
  then st
  else if negb (isOwnFax cfg (efax ef)) && negb (truthy (counselFax st))
  then MkFaxState (fromPdf st) (Some (efax ef))
  else st.

Record FaxEntry := MkFaxEntry { fax : jsstring; faxIndex : nat }.

Definition allFaxEntries (normalizedText : jsstring) : list FaxEntry :=
  List.map (fun fm => MkFaxEntry (normalizeFax (cap 1 fm)) (index fm))
    (matchAll faxRegex normalizedText).

(** The 200 characters before a fax occurrence. *)
Definition textBefore (normalizedText : jsstring) (entry : FaxEntry) : jsstring :=
  substring (faxIndex entry - 200) (faxIndex entry) normalizedText.

Definition isNearDefendantLawyer (normalizedText : jsstring) (entry : FaxEntry) : bool :=
  test nearDefendantCounsel (textBefore normalizedText entry).

Definition isNearPlaintiffLawyer (normalizedText : jsstring) (entry : FaxEntry) : bool :=
  test nearPlaintiffCounsel (textBefore normalizedText entry)
  || test (seqs [lit "弁護"; ws0; lit "士"]) (textBefore normalizedText entry)
     && negb (includes (textBefore normalizedText entry) (js "被告")).

Definition isKnownCourtFax (entry : FaxEntry) : bool :=
  existsb (fun cf => includes (fax entry) cf) courtFaxValues.

(** The body of the loop over the unlabelled fax occurrences. *)
Definition entryStep (cfg : Config) (normalizedText : jsstring) (st : FaxState)
    (entry : FaxEntry) : FaxState :=
  if isOwnFax cfg (fax entry) then st
  else if truthy (fromPdf st)
          && match fromPdf st with Some c => includes (fax entry) c | None => false end
  then st
  else if isNearDefendantLawyer normalizedText entry then st
  else if isKnownCourtFax entry then
    (if truthy (fromPdf st) then st else MkFaxState (Some (fax entry)) (counselFax st))
  else if isNearPlaintiffLawyer normalizedText entry then
    (if truthy (counselFax st) then st else MkFaxState (fromPdf st) (Some (fax entry)))
  else
    (if truthy (counselFax st) then st else MkFaxState (fromPdf st) (Some (fax entry))).

Definition extractFaxes (cfg : Config) (normalizedText : jsstring) : FaxState :=
  let st0 := MkFaxState
    (match exec explicitCourtFaxPattern normalizedText with
     | Some m => Some (normalizeFax (cap 1 m))
     | None => None
     end) None in
  let st1 := fold_left (explicitStep cfg) (allExplicitFaxes normalizedText) st0 in
  fold_left (entryStep cfg normalizedText) (allFaxEntries normalizedText) st1.

(** *** The whole extraction *)

Definition extractInfoFromText (cfg : Config) (text : jsstring) : Info :=
  let normalizedText := normalizeText text in
  let court := extractCourtName normalizedText in
  let cn := extractCaseNumber normalizedText in
  let faxes := extractFaxes cfg normalizedText in
  let dictFax := if truthy court then option_map dictionaryFax court else None in
  {| courtName := court;
     caseNumber := fst cn;
     caseNumberGuessed := snd cn;
     caseName := extractCaseName normalizedText;
     plaintiffName := extractPlaintiffName normalizedText;
     defendantName := extractDefendantName normalizedText;
     plaintiffLawyer := extractPlaintiffLawyer cfg normalizedText;
     courtFax := if truthy (fromPdf faxes) then fromPdf faxes else dictFax;
     courtFaxFromPdf := fromPdf faxes;
     plaintiffLawyerFax := counselFax faxes |}.

(** *** The call

    [extractInfoFromText] above is the record that a call returns.  A call
    does not always return: [Math.min(...yearMatches)] passes every year of
    the text as an argument, and the engine raises RangeError when there
    are more of them than it can pass.  That bound depends on the engine and
    on the stack left; it is the parameter [maxArguments] here. *)

(** The number of arguments of [Math.min(...yearMatches)] in a call that
    reaches it, and 0 in a call that does not: it is reached when no pattern
    of a case number matches, the display of the case is found, gives no
    complete case number and gives a serial number, and the text names a
    year. *)
Definition spreadArguments (normalizedText : jsstring) : nat :=
  match firstCaseNumber caseNumberPatterns normalizedText with
  | Some _ => 0
  | None =>
    match exec displaySection normalizedText with
    | None => 0
    | Some dm =>
      match exec displayFull (cap 1 dm) with
      | Some _ => 0
      | None =>
        match exec displayNum (cap 1 dm) with
        | None => 0
        | Some _ => length (matchAll yearRegex normalizedText)
        end
      end
    end
  end.

Inductive Outcome : Type :=
| Returned (info : Info)
| RangeError.

Definition callExtractInfoFromText (maxArguments : nat) (cfg : Config) (text : jsstring)
    : Outcome :=
  if Nat.ltb maxArguments (spreadArguments (normalizeText text)) then RangeError
  else Returned (extractInfoFromText cfg text).

End Extract.

(** ** Run-safe substitution: [safeReplaceInXml] *)

Module Substitution.

(** The pattern of a paragraph element (a lazy scan up to the first closing
    tag) and the pattern of a [w:t] element, whose groups are the attribute
    text and the run text. *)
Definition paraRegex : regex :=
  Grp 1 (seqs [lit "<w:p"; Cls (c_or c_space (c_in ">")); Rep 0 None false (Cls c_all);
               lit "</w:p>"]).
Definition wtRegex : regex :=
  seqs [lit "<w:t"; Grp 1 (star (Cls (c_not (c_in ">")))); lit ">";
        Grp 2 (star (Cls (c_not (c_in "<")))); lit "</w:t>"].

(** One [w:t] element of a paragraph, as the scan records it; [segId] is
    its place in [segments] and stands for the identity of the object. *)
Record Seg := MkSeg {
  segId : nat;
  fullMatch : jsstring;
  attrs : jsstring;
  text : jsstring;
  segIndex : nat;
  startPos : nat;
  endPos : nat
}.

(** The scan of a paragraph, with the cumulative positions that the source
    writes into the segments afterwards. *)
Fixpoint mkSegments (id cumulative : nat) (ms : list Match) : list Seg :=
  match ms with
  | [] => []
  | m :: ms' =>
    let t := Extract.cap 2 m in
    MkSeg id (m0 m) (Extract.cap 1 m) t (index m) cumulative (cumulative + length t)
      :: mkSegments (S id) (cumulative + length t) ms'
  end.

Definition segmentsOf (paraXml : jsstring) : list Seg :=
  mkSegments 0 0 (matchAll wtRegex paraXml).

Definition joinedText (segments : list Seg) : jsstring := join (List.map text segments).

(** [xml:space="preserve"] and the attribute text that replaces the
    attributes of a rewritten element which lacks it. *)
Definition preserveAttr : jsstring := js "xml:space=" ++ [34%N] ++ js "preserve" ++ [34%N].
Definition newAttrsOf (attrs : jsstring) : jsstring :=
  if includes attrs preserveAttr then attrs else js " " ++ preserveAttr.

Definition wt (attrs text : jsstring) : jsstring :=
  js "<w:t" ++ attrs ++ js ">" ++ text ++ js "</w:t>".

Definition isAffected (matchStart matchEnd : nat) (seg : Seg) : bool :=
  Nat.ltb matchStart (endPos seg) && Nat.ltb (startPos seg) matchEnd.

Definition sameSeg (a : Seg) (b : option Seg) : bool :=
  match b with
  | Some b' => Nat.eqb (segId a) (segId b')
  | None => false
  end.

(** The callback of the second scan, for the element met at call [segIdx]. *)
Definition rewriteSeg (segments affectedSegs : list Seg) (matchStart matchEnd : nat)
    (newText : jsstring) (segIdx : nat) (m : Match) : jsstring :=
  match nth_error segments segIdx with
  | None => m0 m
  | Some seg =>
    let attrs := Extract.cap 1 m in
    let text := Extract.cap 2 m in
    if negb (existsb (fun a => Nat.eqb (segId a) (segId seg)) affectedSegs) then m0 m
    else
      let isFirst := sameSeg seg (hd_error affectedSegs) in
      let isLast := sameSeg seg (last (List.map Some affectedSegs) None) in
      let newAttrs := newAttrsOf attrs in
      if isFirst && isLast then
        wt newAttrs (substring 0 (matchStart - startPos seg) text ++ newText
                       ++ skipn (matchEnd - startPos seg) text)
      else if isFirst then
        wt newAttrs (substring 0 (matchStart - startPos seg) text ++ newText)
      else if isLast then
        let remaining := skipn (matchEnd - startPos seg) text in
        if Nat.ltb 0 (length remaining) then wt newAttrs remaining else wt attrs []
      else wt attrs []
  end.

(** [s.replace(r, f)] with flag [g], for a callback that counts its calls. *)
Definition replaceAllCounting (r : regex) (s : jsstring) (f : nat -> Match -> jsstring)
    : jsstring :=
  let ms := matchAll r s in
  splice 0 s (List.map (fun im => (index (snd im), length (m0 (snd im)), f (fst im) (snd im)))
                (combine (seq 0 (length ms)) ms)).

(** The callback of [safeReplaceInXml], applied to one paragraph. *)
Definition replaceInParagraph (paraXml oldText newText : jsstring) : jsstring :=
  let segments := segmentsOf paraXml in
  match segments with
  | [] => paraXml
  | _ =>
    match indexOf (joinedText segments) oldText with
    | None => paraXml
    | Some matchStart =>
      let matchEnd := matchStart + length oldText in
      let affectedSegs := filter (isAffected matchStart matchEnd) segments in
      match affectedSegs with
      | [] => paraXml
      | [seg] =>
        let localStart := matchStart - startPos seg in
        let localEnd := matchEnd - startPos seg in
        let newSegText :=
          substring 0 localStart (text seg) ++ newText ++ skipn localEnd (text seg) in
        firstn (segIndex seg) paraXml ++ wt (newAttrsOf (attrs seg)) newSegText
          ++ skipn (segIndex seg + length (fullMatch seg)) paraXml
      | _ =>
        replaceAllCounting wtRegex paraXml
          (rewriteSeg segments affectedSegs matchStart matchEnd newText)
      end
    end
  end.

Definition safeReplaceInXml (xml oldText newText : jsstring) : jsstring :=
  replaceAllFn paraRegex xml (fun m => replaceInParagraph (m0 m) oldText newText).

End Substitution.

(** ** Receipt page and strike target *)

Module Receipt.

(** A recognised word with its box, in pixels. *)
Record OcrWord := MkWord { x1 : Z; y1 : Z; x2 : Z; y2 : Z; wtext : jsstring }.

(** What [runOcr] returns for a page. *)
Record OcrResult := MkOcr { words : list OcrWord; imgWidth : Z; imgHeight : Z }.

(** [findReceiptLabel]: [Some y] for [{found: true, y}], [None] for
    [{found: false, y: null}]. *)
Definition findReceiptLabel (words : list OcrWord) : option Z :=
  match find (fun w => includes (wtext w) (js "受領書") || includes (wtext w) (js "受領")) words with
  | Some direct => Some (y1 direct)
  | None =>
    let juWords := filter (fun w => str_eqb (wtext w) (js "受")) words in
    match
      find (fun ju =>
          match find (fun w => str_eqb (wtext w) (js "領")
                               && (Z.abs (y1 w - y1 ju) <? 50)%Z
                               && (x1 ju <? x1 w)%Z && (x1 w <? x1 ju + 300)%Z) words with
          | Some _ => true
          | None => false
          end) juWords
    with
    | Some ju => Some (y1 ju)
    | None => None
    end
  end.

Definition scoreReceiptPage (words : list OcrWord) : Z :=
  let allText := join (List.map wtext words) in
  let score := 0%Z in
  let score := match findReceiptLabel words with Some _ => (score + 50)%Z | None => score end in
  let score := if test (lit "令和") allText then (score + 10)%Z else score in
  let score := if test (lit "代理人") allText then (score + 10)%Z else score in
  let score := if Nat.ltb 200 (length words) then (score - 20)%Z else score in
  let score := if Nat.ltb 300 (length words) then (score - 20)%Z else score in
  score.

(** Calls of the OCR collaborator are the one effect of the page search:
    a computation threads the log of the pages it had recognised. *)
Definition Ocr (A : Type) : Type := list nat -> A * list nat.

Definition ret {A : Type} (a : A) : Ocr A := fun log => (a, log).
Definition bind {A B : Type} (m : Ocr A) (f : A -> Ocr B) : Ocr B :=
  fun log => let (a, log') := m log in f a log'.

Notation "x <- m ;; f" := (bind m (fun x => f))
  (at level 61, m at next level, right associativity).

Section Locator.
(** The page images and their recognition are outside the core. *)
Variable recognise : nat -> OcrResult.

Definition runOcr (pageNum : nat) : Ocr OcrResult :=
  fun log => (recognise pageNum, log ++ [pageNum]).

(** [[1, totalPages, 2, ..., totalPages - 1]] *)
Definition scanOrder (totalPages : nat) : list nat :=
  1 :: totalPages :: seq 2 (totalPages - 2).

(** [score > bestScore], where [None] is the initial [-Infinity]. *)
Definition beats (score : Z) (bestScore : option Z) : bool :=
  match bestScore with
  | None => true
  | Some b => (b <? score)%Z
  end.

Record Located := MkLocated { pageNum : nat; ocr : option OcrResult }.

(** The loop over the scan order, with its early return. *)
Fixpoint scanPages (order : list nat) (bestPageNum : nat) (bestOcr : option OcrResult)
    (bestScore : option Z) : Ocr Located :=
  match order with
  | [] => ret (MkLocated bestPageNum bestOcr)
  | p :: order' =>
    o <- runOcr p ;;
    let score := scoreReceiptPage (words o) in
    let better := beats score bestScore in
    if (50 <=? score)%Z then ret (MkLocated p (Some o))
    else scanPages order'
           (if better then p else bestPageNum)
           (if better then Some o else bestOcr)
           (if better then Some score else bestScore)
  end.

Definition findReceiptPage (totalPages : nat) : Ocr Located :=
  if Nat.eqb totalPages 1 then
    o <- runOcr 1 ;; ret (MkLocated 1 (Some o))
  else scanPages (scanOrder totalPages) 1 None None.
End Locator.

(** [findReceiptSectionStart] *)
Definition findReceiptSectionStart (words : list OcrWord) : Z :=
  match findReceiptLabel words with
  | Some y => Z.max 0 (y - 50)
  | None => 0%Z
  end.

(** [l.reduce((a, b) => pick a b ? a : b)] on a list that is not empty. *)
Definition reduceWords (pick : OcrWord -> OcrWord -> bool) (l : list OcrWord)
    : option OcrWord :=
  match l with
  | [] => None
  | a :: l' => Some (fold_left (fun a b => if pick a b then a else b) l' a)
  end.

(** The words of the receipt section. *)
Definition receiptWords (words : list OcrWord) : list OcrWord :=
  filter (fun w => (findReceiptSectionStart words <=? y1 w)%Z) words.

(** Step 1 of [detectPositions]: the word to strike, [gyouWord]. *)
Definition detectGyou (words : list OcrWord) : option OcrWord :=
  let rw := receiptWords words in
  let allGyouWords := filter (fun w => str_eqb (wtext w) (js "行")) rw in
  match allGyouWords with
  | [] => None
  | _ =>
    let onCounselLine :=
      match find (fun w => includes (wtext w) (js "弁護") || includes (wtext w) (js "護士")) rw with
      | Some bengoWordInReceipt =>
        let bengoY := y1 bengoWordInReceipt in
        reduceWords (fun a b => (x1 b <? x1 a)%Z)
          (filter (fun w => (Z.abs (y1 w - bengoY) <? 60)%Z) allGyouWords)
      | None => None
      end in
    match onCounselLine with
    | Some g => Some g
    | None => reduceWords (fun a b => (y1 a <? y1 b)%Z) allGyouWords
    end
  end.

(** Coordinates on the page are taken as exact rationals. *)
Record Point := MkPoint { px : Q; py : Q }.

Definition px2pdf (x y imgW imgH : Z) (pgW pgH : Q) : Point :=
  MkPoint (inject_Z x * pgW / inject_Z imgW)%Q
          (pgH - inject_Z y * pgH / inject_Z imgH)%Q.

Record GyouPdf := MkGyouPdf {
  gleft : Point; gright : Point; gtop : Q; gwidth : Q; gheight : Q; pxY1 : Z
}.

(** The field [gyou] of what [detectPositions] returns. *)
Definition gyouPdf (words : list OcrWord) (imgW imgH : Z) (pgW pgH : Q)
    : option GyouPdf :=
  match detectGyou words with
  | Some g =>
    Some (MkGyouPdf
      (px2pdf (x1 g) (y2 g) imgW imgH pgW pgH)
      (px2pdf (x2 g) (y2 g) imgW imgH pgW pgH)
      (py (px2pdf (x1 g) (y1 g) imgW imgH pgW pgH))
      (inject_Z (x2 g - x1 g) * pgW / inject_Z imgW)%Q
      (inject_Z (y2 g - y1 g) * pgH / inject_Z imgH)%Q
      (y1 g))
  | None => None
  end.

(** What the annotation step asks the page to draw. *)
Inductive DrawOp : Type :=
| DrawLine (sx sy ex ey thickness : Q)
| DrawText (t : jsstring) (x y size : Q).

(** Step 1 of [generateReceipt]: two strike lines over the word and the
    honorific written after it, or nothing at all.  [gyouCharW] is the
    width of the struck character in the embedded font. *)
Definition strikeAnnotation (gyouCharW : Q) (gyou : option GyouPdf) : list DrawOp :=
  match gyou with
  | Some g =>
    let fs_ := (21 # 2)%Q in
    let strikeW := if Qle_bool (gwidth g) gyouCharW then gwidth g else gyouCharW in
    let midY := (py (gleft g) + fs_ * (2 # 5))%Q in
    let lx1 := px (gleft g) in
    let lx2 := (px (gleft g) + strikeW)%Q in
    [ DrawLine lx1 (midY + (3 # 2))%Q lx2 (midY + (3 # 2))%Q (4 # 5)%Q;
      DrawLine lx1 (midY - (3 # 2))%Q lx2 (midY - (3 # 2))%Q (4 # 5)%Q;
      DrawText (js "先生") (px (gright g) + 2)%Q (py (gleft g)) fs_ ]
  | None => []
  end.

End Receipt.

(** ** The cover letter: [applyInfoToTemplate] *)

Module CoverLetter.
Import Extract Substitution.

(** [str.replace(/[0-9]/g, c => String.fromCharCode(c.charCodeAt(0) + 0xFEE0))] *)
Definition toFullWidthNumber (str : jsstring) : jsstring :=
  replaceAllFn (Cls c_digit) str
    (fun m => match m0 m with c :: _ => [((c + 65248) mod 65536)%N] | [] => [] end).

(** What [getTodayReiwa] reads of [new Date()], and what it returns. *)
Record Date := MkDate { getFullYear : Z; getMonth : Z; getDate : Z }.
Record Reiwa := MkReiwa { year : Z; month : Z; day : Z }.

Definition getTodayReiwa (now : Date) : Reiwa :=
  MkReiwa (getFullYear now - 2018) (getMonth now + 1) (getDate now).

(** An integer in a template string; the components of a date are small
    integers, which are printed with all their digits. *)
Definition integerToString (z : Z) : jsstring :=
  if (z <? 0)%Z then js "-" ++ decimalDigits (Z.to_N (- z))
  else decimalDigits (Z.to_N z).

(** The string that a property holds; read only where [truthy] holds. *)
Definition valueOf (v : option jsstring) : jsstring :=
  match v with Some s => s | None => [] end.

Definition ORIG_COURT : jsstring := js "神戸地方裁判所尼崎支部第２民事部".
Definition ORIG_LAWYER : jsstring := js "四方久寛".

(** [applyInfoToTemplate]; the clock that it reads is the argument [now]. *)
Definition applyInfoToTemplate (now : Date) (docXml : jsstring) (info : Info)
    (documentTitle : jsstring) : jsstring :=
  let today := getTodayReiwa now in
  let docXml :=
    if truthy (courtName info) then
      let courtDiff :=
        (Z.of_nat (length ORIG_COURT) - Z.of_nat (length (valueOf (courtName info))))%Z in
      let courtPad :=
        if (0 <? courtDiff)%Z then repeat 12288%N (Z.to_nat courtDiff) else [] in
      safeReplaceInXml docXml ORIG_COURT (valueOf (courtName info) ++ courtPad)
    else docXml in
  let docXml :=
    if truthy (courtFax info) then
      let docXml := safeReplaceInXml docXml (js "06-6438-1710") (valueOf (courtFax info)) in
      let fullWidthFax :=
        replaceAll (lit "-") (toFullWidthNumber (valueOf (courtFax info))) (js "－") in
      safeReplaceInXml docXml (js "０６―６４３８－１７１０") fullWidthFax
    else docXml in
  let docXml :=
    if truthy (plaintiffLawyer info) then
      let lawyerDiff :=
        (Z.of_nat (length ORIG_LAWYER)
         - Z.of_nat (length (valueOf (plaintiffLawyer info))))%Z in
      let lawyerPad :=
        if (0 <? lawyerDiff)%Z then repeat 12288%N (Z.to_nat lawyerDiff) else [] in
      safeReplaceInXml docXml ORIG_LAWYER (valueOf (plaintiffLawyer info) ++ lawyerPad)
    else docXml in
  let docXml :=
    if truthy (plaintiffLawyerFax info) then
      safeReplaceInXml docXml (js "06-4708-3638") (valueOf (plaintiffLawyerFax info))
    else docXml in
  let docXml :=
    safeReplaceInXml docXml (js "令和6年11月7日")
      (js "令和" ++ integerToString (year today) ++ js "年"
         ++ integerToString (month today) ++ js "月"
         ++ integerToString (day today) ++ js "日") in
  let docXml :=
    safeReplaceInXml docXml (js "令和6年9月")
      (js "令和" ++ integerToString (year today) ++ js "年"
         ++ integerToString (month today) ++ js "月") in
  let docXml :=
    if truthy (caseNumber info) then
      let fullWidthCaseNumber := toFullWidthNumber (valueOf (caseNumber info)) in
      safeReplaceInXml docXml (js "令和３年（ワ）第８００号") fullWidthCaseNumber
    else docXml in
  let docXml :=
    if truthy (caseName info) then
      safeReplaceInXml docXml (js "損害賠償請求事件") (valueOf (caseName info))
    else docXml in
  let docXml :=
    if truthy (plaintiffName info) then
      safeReplaceInXml docXml (js "木村治紀") (valueOf (plaintiffName info))
    else docXml in
  let docXml :=
    if truthy (defendantName info) then
      safeReplaceInXml docXml (js "独立行政法人国立病院機構") (valueOf (defendantName info))
    else docXml in
  safeReplaceInXml docXml (js "被告第９準備書面") documentTitle.

(** [getDocumentTitleFromFilename]; [basename] stands for
    [p => path.basename(p, path.extname(p))] of the platform. *)
Definition getDocumentTitleFromFilename (basename : jsstring -> jsstring)
    (pdfPath : jsstring) : jsstring :=
  let baseName := basename pdfPath in
  let baseName :=
    replace (seqs [Bol; lit "【"; plus (Cls (c_not (c_in "】"))); lit "】"; ws0])
      baseName [] in
  let baseName :=
    replace (seqs [Bol; plus (Cls c_kanji); lit "事案"; plus (Cls (c_or c_space (c_in "　")))])
      baseName [] in
  baseName.

End CoverLetter.

(** ** The anchors of the date and of the signature *)

Module Anchors.
Import Receipt.

(** [a > b] on numbers of which one is half an integer. *)
Definition Qgt_bool (a b : Q) : bool := negb (Qle_bool a b).

(** Step 2 of [detectPositions]: the word of the signature line, [agentWord],
    as it is found; [None] where the source goes on to an estimate. *)
Definition detectAgent (words : list OcrWord) (imgH : Z) : option OcrWord :=
  let receiptStartY := findReceiptSectionStart words in
  let rw := receiptWords words in
  let agentCandidates :=
    filter (fun w => includes (wtext w) (js "代理人") || includes (wtext w) (js "代理")) rw in
  match agentCandidates with
  | _ :: _ => reduceWords (fun a b => (y1 b <? y1 a)%Z) agentCandidates
  | [] =>
    let midY :=
      (inject_Z receiptStartY + (inject_Z imgH - inject_Z receiptStartY) * (1 # 2))%Q in
    let agentCandidates2 :=
      filter (fun w => Qgt_bool (inject_Z (y1 w)) midY
                       && (includes (wtext w) (js "被告") || includes (wtext w) (js "原告")))
        rw in
    match agentCandidates2 with
    | _ :: _ => reduceWords (fun a b => (y1 b <? y1 a)%Z) agentCandidates2
    | [] => None
    end
  end.

(** Step 3 of [detectPositions]: the word of the date line, [dateWord], as
    it is found; [None] where the source goes on to an estimate. *)
Definition detectDate (words : list OcrWord) (imgH : Z) : option OcrWord :=
  let receiptStartY := findReceiptSectionStart words in
  let rw := receiptWords words in
  let gyouWord := detectGyou words in
  let agentWord := detectAgent words imgH in
  let searchTopY :=
    match gyouWord with Some g => (y1 g + 20)%Z | None => receiptStartY end in
  let searchBottomY :=
    match agentWord with Some a => (y1 a - 10)%Z | None => imgH end in
  let reiwaWords :=
    filter (fun w => (searchTopY <? y1 w)%Z && (y1 w <? searchBottomY)%Z
                     && (str_eqb (wtext w) (js "令") || str_eqb (wtext w) (js "令和")
                         || startsWith (wtext w) (js "令")))
      rw in
  match reiwaWords with
  | _ :: _ => reduceWords (fun a b => (y1 a <? y1 b)%Z) reiwaWords
  | [] =>
    let dateish :=
      filter (fun w => (searchTopY <? y1 w)%Z && (y1 w <? searchBottomY)%Z
                       && (includes (wtext w) (js "年") || includes (wtext w) (js "月")))
        rw in
    match dateish with
    | _ :: _ => reduceWords (fun a b => (y1 a <? y1 b)%Z) dateish
    | [] => None
    end
  end.

End Anchors.

(** ** The words of an OCR page (receipt.js, [runOcr])

    What [runOcr] does with the HOCR text that Tesseract has written: the
    loop that collects the words. *)

Module Hocr.
Import Extract Receipt.

(** [/<span[^>]+class='ocrx_word'[^>]+title='bbox (\d+) (\d+) (\d+) (\d+)[^>]*>([\s\S]*?)<\/span>/g] *)
Definition re : regex :=
  seqs [ lit "<span"; plus (Cls (c_not (c_in ">"))); lit "class='ocrx_word'";
         plus (Cls (c_not (c_in ">"))); lit "title='bbox ";
         Grp 1 (plus (Cls c_digit)); lit " "; Grp 2 (plus (Cls c_digit)); lit " ";
         Grp 3 (plus (Cls c_digit)); lit " "; Grp 4 (plus (Cls c_digit));
         star (Cls (c_not (c_in ">"))); lit ">";
         Grp 5 (Rep 0 None false (Cls c_all)); lit "</span>" ].

(** [/<[^>]+>/g] *)
Definition tagRegex : regex := seqs [lit "<"; plus (Cls (c_not (c_in ">"))); lit ">"].

(** [+m[i]] on a run of digits; the value is exact as long as it is below
    2^53, which the pixel coordinates of a page are. *)
Definition toNumber (ds : jsstring) : Z := Z.of_N (decimalValue ds).

(** The body of the loop: the text is [m[5].replace(/<[^>]+>/g, '').trim()],
    and a match whose text is empty pushes nothing. *)
Definition wordOf (m : Match) : list OcrWord :=
  let text := trim (replaceAll tagRegex (cap 5 m) []) in
  match text with
  | [] => []
  | _ :: _ =>
    [MkWord (toNumber (cap 1 m)) (toNumber (cap 2 m)) (toNumber (cap 3 m))
            (toNumber (cap 4 m)) text]
  end.

(** [while ((m = re.exec(hocr)) !== null) ...] *)
Definition hocrWords (hocr : jsstring) : list OcrWord :=
  flat_map wordOf (matchAll re hocr).

End Hocr.

Import Extract Substitution Receipt CoverLetter Anchors Hocr.

(** * Statements

    The predicates, relations and sample inputs that the theorems below are
    stated with. *)

(** What a successful match of a pattern can be: the word it consumed and
    the captures it leaves.  Lookahead and anchors consume nothing; the
    relation says nothing of what they tested. *)
Inductive Sem : regex -> jsstring -> caps -> caps -> Prop :=
| SEps cs : Sem Eps [] cs cs
| SCls c x cs : c x = true -> Sem (Cls c) [x] cs cs
| SSeq a b w1 w2 cs cs' cs'' :
    Sem a w1 cs cs' -> Sem b w2 cs' cs'' -> Sem (Seq a b) (w1 ++ w2) cs cs''
| SAltL a b w cs cs' : Sem a w cs cs' -> Sem (Alt a b) w cs cs'
| SAltR a b w cs cs' : Sem b w cs cs' -> Sem (Alt a b) w cs cs'
| SRepDone hi g r cs : Sem (Rep 0 hi g r) [] cs cs
| SRepIter lo hi g r w1 w2 cs cs' cs'' :
    hi <> Some 0 ->
    Sem r w1 cs cs' ->
    Sem (Rep (Nat.pred lo) (option_map Nat.pred hi) g r) w2 cs' cs'' ->
    Sem (Rep lo hi g r) (w1 ++ w2) cs cs''
| SGrp i r w cs cs' : Sem r w cs cs' -> Sem (Grp i r) w cs (setcap i w cs')
| SNLook r cs : Sem (NLook r) [] cs cs
| SBol cs : Sem Bol [] cs cs
| SEol cs : Sem Eol [] cs cs.

(** The continuation of a matcher is reached with the word consumed taken
    off the input. *)
Definition sound (m : mstate -> cont -> option mstate) (r : regex) : Prop :=
  forall st k res,
    m st k = Some res ->
    exists w st',
      Sem r w (mcaps st) (mcaps st') /\
      rest st = w ++ rest st' /\
      pos st' = pos st + length w /\
      k st' = Some res.

(** Every class of the pattern lies within [P]. *)
Fixpoint chars_in (P : char -> Prop) (r : regex) : Prop :=
  match r with
  | Cls c => forall x, c x = true -> P x
  | Seq a b | Alt a b => chars_in P a /\ chars_in P b
  | Rep _ _ _ r' | Grp _ r' => chars_in P r'
  | Eps | NLook _ | Bol | Eol => True
  end.

(** Every group numbered [i] in the pattern has its classes within [P]. *)
Fixpoint group_in (P : char -> Prop) (i : nat) (r : regex) : Prop :=
  match r with
  | Seq a b | Alt a b => group_in P i a /\ group_in P i b
  | Rep _ _ _ r' => group_in P i r'
  | Grp j r' => (j = i -> chars_in P r') /\ group_in P i r'
  | Eps | Cls _ | NLook _ | Bol | Eol => True
  end.

Definition cap_in (P : char -> Prop) (i : nat) (cs : caps) : Prop :=
  forall v, getcap i cs = Some v -> Forall P v.

(** The input stops here, or goes on with a character outside the class. *)
Definition boundary (c : char -> bool) (s : jsstring) : Prop :=
  match s with
  | [] => True
  | x :: _ => c x = false
  end.

Definition allb (c : char -> bool) (s : jsstring) : Prop := Forall (fun x => c x = true) s.

Fixpoint takeWhile (c : char -> bool) (s : jsstring) : jsstring :=
  match s with
  | x :: t => if c x then x :: takeWhile c t else []
  | [] => []
  end.

Fixpoint dropWhile (c : char -> bool) (s : jsstring) : jsstring :=
  match s with
  | x :: t => if c x then dropWhile c t else s
  | [] => []
  end.

Definition wsfree (s : jsstring) : Prop := Forall (fun x => is_ws x = false) s.

(** The half-width form of a parenthesis. *)
Definition halfParen (x : char) : char :=
  if N.eqb x (ch "（") then ch "(" else if N.eqb x (ch "）") then ch ")" else x.

(** The half-width form of a character of a fax number. *)
Definition faxChar (x : char) : char :=
  if c_fwdigit x then (x - 65248)%N
  else if c_in "－ー" x then ch "-" else x.

(** The characters of a case number: the era, the year and serial digits,
    the half-width parentheses, the case symbol, and the fixed words. *)
Definition caseNumberChar (x : char) : bool :=
  c_digit x || caseSymbols x || c_in "令平和年()第号" x.

(** The characters of a number that is not printed in digits alone: those
    of the exponent notation and of [Infinity]. *)
Definition exponentChar (x : char) : bool := c_in ".e+Infinity" x.

Definition printedCaseNumberChar (x : char) : bool := caseNumberChar x || exponentChar x.

(** The years that [令和N年] names in the text, as they are written, and
    the numbers that [parseInt] reads from them. *)
Definition yearRuns (normalizedText : jsstring) : list jsstring :=
  List.map (cap 1) (matchAll yearRegex normalizedText).

Definition reiwaYears (normalizedText : jsstring) : list Number :=
  List.map (fun ym => parseInt (cap 1 ym)) (matchAll yearRegex normalizedText).

(** Every year that the text names is below [2^53]. *)
Definition exactYears (normalizedText : jsstring) : Prop :=
  Forall (fun ds => (decimalValue ds < 2 ^ 53)%N) (yearRuns normalizedText).

(** The order of the numbers. *)
Definition numberLe (a b : Number) : Prop :=
  match a, b with
  | Finite m, Finite n => (m <= n)%N
  | _, Infinity => True
  | Infinity, Finite _ => False
  end.

(** The same with white space and full-width parentheses, as matched. *)
Definition rawCaseChar (x : char) : bool :=
  is_ws x || c_digit x || caseSymbols x || c_in "令平和年()第号（）" x.

Definition nonws (x : char) : bool := negb (is_ws x).

(** The characters of a number in a template string. *)
Definition numberChar (x : char) : bool := c_digit x || exponentChar x.

(** The characters of the "and N others" suffix. *)
Definition othersChar (x : char) : bool := c_digit x || c_in "外名" x.

(** A party name is free of white space, but for the one space that sets
    the "and N others" suffix apart. *)
Definition partyShape (v : jsstring) : Prop :=
  wsfree v \/
  exists a b, v = a ++ js " " ++ b /\ wsfree a /\ Forall (fun x => othersChar x = true) b.

Definition cjkName (v : jsstring) : Prop := Forall (fun x => c_cjk x = true) v.

Definition cjkNames (cands : list Candidate) : Prop :=
  forall c, In c cands -> cjkName (name c).

(** The characters of a fax number as matched, and as returned. *)
Definition rawFaxChar : char -> bool := c_or c_digit (c_or c_fwdigit (c_in "-－ー")).
Definition faxNumberChar (x : char) : bool := c_digit x || c_is (ch "-") x.
Definition faxNumber (v : jsstring) : Prop := Forall (fun x => faxNumberChar x = true) v.

Definition faxesOk (st : FaxState) : Prop :=
  (forall v, fromPdf st = Some v -> faxNumber v) /\
  (forall v, counselFax st = Some v -> faxNumber v).

(** The score of a page as the collaborator recognises it. *)
Definition pageScore (recognise : nat -> OcrResult) (p : nat) : Z :=
  scoreReceiptPage (words (recognise p)).

(** Five pages of which only the fourth carries the receipt label. *)
Definition fivePages (n : nat) : OcrResult :=
  if Nat.eqb n 4 then MkOcr [MkWord 40 30 200 70 (js "受領書")] 2480 3508
  else MkOcr [MkWord 40 30 200 70 (js "準備書面")] 2480 3508.

(** The words among which the strike target is chosen. *)
Definition gyouWords (words : list OcrWord) : list OcrWord :=
  filter (fun w => str_eqb (wtext w) (js "行")) (receiptWords words).

(** A receipt whose addressee line uses other honorifics: words that
    contain the character, but none that is the character alone. *)
Definition honorificPage : list OcrWord :=
  [ MkWord 1100 180 1260 230 (js "受領書");
    MkWord 300 400 520 450 (js "弁護士");
    MkWord 540 400 700 450 (js "山田太郎");
    MkWord 720 400 770 450 (js "殿");
    MkWord 300 520 420 570 (js "銀行");
    MkWord 440 520 560 570 (js "行き");
    MkWord 300 640 380 690 (js "宛") ].

Definition nl : jsstring := [10%N].

(** A header that names the court and a body that names its division. *)
Definition twoCourtsText : jsstring :=
  js "東京地方裁判所 御中" ++ nl ++ js "東京 地方 裁判所 民事 第2部 係属" ++ nl.

(** The example of the counsel name, and a text in which the shorter
    candidate has four characters. *)
Definition noisyCounselText : jsstring :=
  js "原告訴訟代理人弁護士 石 口 俊 一 知" ++ nl ++ js "弁護士 石口" ++ nl.
Definition fourPrefixText : jsstring :=
  js "原告訴訟代理人弁護士 石口俊一知" ++ nl ++ js "弁護士 石口俊一" ++ nl.

(** The counsel-name claim as the specification words it: any shorter
    candidate that is a strict prefix of a five-character winner has the
    winner trimmed. *)
Definition trimmedOnAnyShorterPrefix (cfg : Config) (text : jsstring) : Prop :=
  forall w,
    winner (lawyerCandidates cfg (normalizeText text)) = Some w ->
    length w = 5 ->
    (exists c, In c (lawyerCandidates cfg (normalizeText text)) /\
               length (name c) < length w /\ startsWith w (name c) = true) ->
    plaintiffLawyer (extractInfoFromText cfg text) = Some (firstn 4 w).

(** An office with one fax number of its own, and a cover sheet that shows
    it before the fax number of the other side. *)
Definition ownOffice : Config := MkConfig [js "山田太郎"] [js "06-4708-3638"].
Definition ownFaxText : jsstring :=
  js "送信者 FAX 06-4708-3638" ++ nl ++ js "原告訴訟代理人弁護士 石口俊一 FAX 06-1111-1111" ++ nl.

Definition notOwn (cfg : Config) (st : FaxState) : Prop :=
  forall f, counselFax st = Some f -> isOwnFax cfg f = false.

(** A cover sheet with a parties section, and one with every field. *)
Definition partiesText : jsstring :=
  js "当事者 原告　山田民子 外1名" ++ [10%N] ++ js "被告　国立大学法人広島大学" ++ [10%N].

Definition coverSheetText : jsstring :=
  js "広島地方裁判所 民事第２部 御中 (FAX 082-228-0197)" ++ [10%N]
  ++ js "令和6年(ワ)第228号 損害賠償請求事件" ++ [10%N]
  ++ js "当事者 原告　山田民子 外1名" ++ [10%N]
  ++ js "被告　国立大学法人広島大学" ++ [10%N]
  ++ js "原告訴訟代理人弁護士 石口俊一" ++ [10%N]
  ++ js "TEL 082-222-0072 FAX 082-222-0073" ++ [10%N].

(** The invariant of the record as the specification words it. *)
Definition allFieldsWhitespaceFree (info : Info) : Prop :=
  forall v,
    In (Some v) [courtName info; caseNumber info; caseName info; plaintiffName info;
                 defendantName info; plaintiffLawyer info; courtFax info;
                 plaintiffLawyerFax info] ->
    wsfree v.

(** A sheet whose display of the case gives the serial number alone, and
    which names a year of twenty-three digits. *)
Definition longYearSheet : jsstring :=
  js "事件の表示　第123号" ++ [10%N] ++ js "令和12345678901234567890123年".

(** A paragraph as the scan sees it: runs, each with the markup that comes
    before its [w:t] element, and the markup after the last one. *)
Record Run := MkRun { gap : jsstring; runAttrs : jsstring; runText : jsstring }.
Record Block := MkBlock { runs : list Run; closing : jsstring }.

Definition element (r : Run) : jsstring := wt (runAttrs r) (runText r).

Fixpoint renderRuns (rs : list Run) : jsstring :=
  match rs with
  | [] => []
  | r :: rs' => gap r ++ element r ++ renderRuns rs'
  end.

Definition render (b : Block) : jsstring := renderRuns (runs b) ++ closing b.

(** The concatenated run text. *)
Definition blockText (b : Block) : jsstring := join (List.map runText (runs b)).

(** What the code reads of a match of the element pattern. *)
Definition matchView (m : Match) : nat * jsstring * jsstring * jsstring :=
  (index m, m0 m, Extract.cap 1 m, Extract.cap 2 m).

Fixpoint expectedViews (off : nat) (rs : list Run)
    : list (nat * jsstring * jsstring * jsstring) :=
  match rs with
  | [] => []
  | r :: rs' =>
    (off + length (gap r), element r, runAttrs r, runText r)
      :: expectedViews (off + length (gap r) + length (element r)) rs'
  end.

(** The block is the parse of its rendering: the scan finds the elements
    of the runs, each where it is, and nothing else. *)
Definition parses (b : Block) : Prop :=
  List.map matchView (matchAll wtRegex (render b)) = expectedViews 0 (runs b).

(** The segments that the scan of a block builds. *)
Fixpoint segsOfRuns (id off cum : nat) (rs : list Run) : list Seg :=
  match rs with
  | [] => []
  | r :: rs' =>
    MkSeg id (element r) (runAttrs r) (runText r) (off + length (gap r)) cum
          (cum + length (runText r))
      :: segsOfRuns (S id) (off + length (gap r) + length (element r))
           (cum + length (runText r)) rs'
  end.

(** The outcome for a run whose text begins at [s], by position alone:
    [a] and [z] are the bounds of the match in the concatenated text. *)
Definition overlaps (a z s e : nat) : bool := Nat.ltb a e && Nat.ltb s z.

Definition outText (a z s : nat) (newText t : jsstring) : jsstring :=
  if overlaps a z s (s + length t) then
    (if Nat.leb s a then firstn (a - s) t ++ newText else [])
    ++ (if Nat.leb z (s + length t) then skipn (z - s) t else [])
  else t.

Definition outAttrs (a z s : nat) (attrs t : jsstring) : jsstring :=
  if overlaps a z s (s + length t) then
    if Nat.leb s a then newAttrsOf attrs
    else if Nat.leb z (s + length t) && Nat.ltb 0 (length (skipn (z - s) t))
         then newAttrsOf attrs
         else attrs
  else attrs.

Fixpoint rewriteRuns (a z : nat) (newText : jsstring) (cum : nat) (rs : list Run)
    : list Run :=
  match rs with
  | [] => []
  | r :: rs' =>
    MkRun (gap r) (outAttrs a z cum (runAttrs r) (runText r))
          (outText a z cum newText (runText r))
      :: rewriteRuns a z newText (cum + length (runText r)) rs'
  end.

(** The block that the substitution is to return. *)
Definition substituted (b : Block) (oldText newText : jsstring) : Block :=
  match indexOf (blockText b) oldText with
  | None => b
  | Some a => MkBlock (rewriteRuns a (a + length oldText) newText 0 (runs b)) (closing b)
  end.

(** The segments are laid end to end, and numbered in order. *)
Fixpoint chain (id cum : nat) (segs : list Seg) : Prop :=
  match segs with
  | [] => True
  | g :: rest =>
    segId g = id /\ startPos g = cum /\ endPos g = cum + length (text g)
    /\ chain (S id) (endPos g) rest
  end.

(** The last element of the list of affected segments. *)
Definition lastOf (l : list Seg) : option Seg := last (List.map Some l) None.

(** A paragraph of two runs, "ABC" and "DEF", and what the replacement of
    "CD" by "XYZ" is to make of it. *)
Definition abcdef : Block :=
  MkBlock [ MkRun (js "<w:p><w:r>") [] (js "ABC");
            MkRun (js "</w:r><w:r><w:rPr/>") [] (js "DEF") ]
          (js "</w:r></w:p>").


(** A paragraph of three runs, the match running from the first into the
    third. *)
Definition threeRuns : Block :=
  MkBlock [ MkRun (js "<w:p><w:r>") [] (js "令和");
            MkRun (js "</w:r><w:r>") (js " w:x=1") (js "6");
            MkRun (js "</w:r><w:r>") [] (js "年9月分") ]
          (js "</w:r></w:p>").

(** A paragraph of one run. *)
Definition oneRun : Block :=
  MkBlock [MkRun (js "<w:p><w:r>") [] (js "ABC")] (js "</w:r></w:p>").


(** The text that comes before run [i]. *)
Definition textBeforeRun (i : nat) (rs : list Run) : jsstring :=
  join (List.map runText (firstn i rs)).

(** A document body around one paragraph. *)
Definition docOf (b : Block) : jsstring :=
  js "<w:body>" ++ render b ++ js "<w:sectPr/></w:body>".

(** The second run of [threeRuns], and what is to be left of it. *)
Definition midRun : Run := MkRun (js "</w:r><w:r>") (js " w:x=1") (js "6").
Definition emptiedRun : Run := MkRun (js "</w:r><w:r>") (js " w:x=1") [].

(** The patterns without lookahead and anchors: for them [Sem] says all
    there is to say. *)
Fixpoint plain (r : regex) : bool :=
  match r with
  | Eps | Cls _ => true
  | Seq a b | Alt a b => plain a && plain b
  | Rep _ _ _ r' | Grp _ r' => plain r'
  | NLook _ | Bol | Eol => false
  end.

(** If a word of the pattern lies at the head of the input, and the
    continuation accepts what follows it whatever the captures, the
    matcher returns a result. *)
Definition complete (m : mstate -> cont -> option mstate) (r : regex) : Prop :=
  forall w cs cs' st k s',
    Sem r w cs cs' ->
    rest st = w ++ s' ->
    (forall c', k (MState (pos st + length w) s' c') <> None) ->
    m st k <> None.

(** The iterations of a quantifier, none of them empty once none is owed. *)
Inductive Iters (r : regex) : nat -> option nat -> list jsstring -> Prop :=
| ItDone hi : Iters r 0 hi []
| ItStep lo hi w ws cs cs' :
    hi <> Some 0 ->
    Sem r w cs cs' ->
    (lo = 0 -> w <> []) ->
    Iters r (Nat.pred lo) (option_map Nat.pred hi) ws ->
    Iters r lo hi (w :: ws).

(** [hi] allows what [hi'] allows. *)
Definition looser (hi hi' : option nat) : Prop :=
  match hi, hi' with
  | _, None => True
  | Some a, Some b => a <= b
  | None, Some _ => False
  end.

(** The parts of a case number: the era character, the digits of the
    year, the brackets and the case symbol, whether the word for "number"
    is there, and the digits of the serial number. *)
Record CaseNo := MkCaseNo {
  cnEra : char; cnYear : jsstring; cnOpen : char; cnSymbol : char; cnClose : char;
  cnDai : bool; cnSerial : jsstring }.

Definition digitsRun (d : jsstring) : Prop :=
  d <> [] /\ Forall (fun x => c_digit x = true) d.

Definition wellFormed (c : CaseNo) : Prop :=
  c_in "令平" (cnEra c) = true /\ digitsRun (cnYear c) /\ c_lparen (cnOpen c) = true
  /\ caseSymbols (cnSymbol c) = true /\ c_rparen (cnClose c) = true
  /\ digitsRun (cnSerial c).

(** The word for "number", where the case number has it. *)
Definition daiWord (c : CaseNo) : jsstring := if cnDai c then [ch "第"] else [].

(** The case number with the white space [g i] after its token [i]. *)
Definition spacedWith (g : nat -> jsstring) (c : CaseNo) : jsstring :=
  [cnEra c] ++ g 0 ++ [ch "和"] ++ g 1 ++ cnYear c ++ g 2 ++ [ch "年"] ++ g 3
  ++ [cnOpen c] ++ g 4 ++ [cnSymbol c] ++ g 5 ++ [cnClose c] ++ g 6
  ++ daiWord c ++ g 7 ++ cnSerial c ++ g 8 ++ [ch "号"].

Definition unspaced (c : CaseNo) : jsstring := spacedWith (fun _ => []) c.

Definition whiteSpace (g : nat -> jsstring) : Prop :=
  forall i, Forall (fun x => is_ws x = true) (g i).

(** No era character. *)
Definition noEra (s : jsstring) : Prop := Forall (fun x => c_in "令平" x = false) s.

(** One space between every two characters. *)
Fixpoint spaceOut (s : jsstring) : jsstring :=
  match s with
  | [] => []
  | [x] => [x]
  | x :: s' => x :: 32%N :: spaceOut s'
  end.

(** The invariance as the specification words it, for a case number [s]
    spaced out in a text. *)
Definition spacingInvariant (pre s post : jsstring) : Prop :=
  caseNumber (extractInfoFromText defaultConfig (pre ++ spaceOut s ++ post))
  = caseNumber (extractInfoFromText defaultConfig s).

(** The case-number patterns are sequences of these. *)
Inductive Item :=
| ICls (c : char -> bool)
| ISpaces
| IDigits
| IOpt (c : char -> bool).

Definition itemRe (it : Item) : regex :=
  match it with
  | ICls c => Cls c
  | ISpaces => ws0
  | IDigits => plus (Cls c_digit)
  | IOpt c => opt (Cls c)
  end.

Inductive Fits : list Item -> jsstring -> Prop :=
| FNil : Fits [] []
| FCls c x its w : c x = true -> Fits its w -> Fits (ICls c :: its) (x :: w)
| FSpaces g its w :
    Forall (fun x => is_ws x = true) g -> Fits its w -> Fits (ISpaces :: its) (g ++ w)
| FDigits d its w : digitsRun d -> Fits its w -> Fits (IDigits :: its) (d ++ w)
| FOptNo c its w : Fits its w -> Fits (IOpt c :: its) w
| FOptYes c x its w : c x = true -> Fits its w -> Fits (IOpt c :: its) (x :: w).

Fixpoint dropSpaces (its : list Item) : list Item :=
  match its with
  | [] => []
  | ISpaces :: t => dropSpaces t
  | it :: t => it :: dropSpaces t
  end.

(** The classes of the items hold no white space. *)
Fixpoint solid (its : list Item) : Prop :=
  match its with
  | [] => True
  | ICls c :: t | IOpt c :: t => (forall x, c x = true -> nonws x = true) /\ solid t
  | _ :: t => solid t
  end.

Definition strictItems : list Item :=
  [ICls (c_in "令平"); ICls (c_is (ch "和")); IDigits; ICls (c_is (ch "年"));
   ICls c_lparen; ICls caseSymbols; ICls c_rparen; ISpaces; IOpt (c_is (ch "第"));
   ISpaces; IDigits; ICls (c_is (ch "号"))].

Definition spacedItems : list Item :=
  [ICls (c_in "令平"); ISpaces; ICls (c_is (ch "和")); ISpaces; IDigits; ISpaces;
   ICls (c_is (ch "年")); ISpaces; ICls c_lparen; ISpaces; ICls caseSymbols; ISpaces;
   ICls c_rparen; ISpaces; IOpt (c_is (ch "第")); ISpaces; IDigits; ISpaces;
   ICls (c_is (ch "号"))].

Definition coreItems : list Item :=
  [ICls (c_in "令平"); ICls (c_is (ch "和")); IDigits; ICls (c_is (ch "年"));
   ICls c_lparen; ICls caseSymbols; ICls c_rparen; IOpt (c_is (ch "第"));
   IDigits; ICls (c_is (ch "号"))].

(** A word of the strict or of the spaced pattern, and a text in which
    such words begin at index [p] only. *)
Definition caseShaped (w : jsstring) : Prop := Fits strictItems w \/ Fits spacedItems w.

Definition onlyAt (p : nat) (t : jsstring) : Prop :=
  forall l w r, t = l ++ w ++ r -> caseShaped w -> length l = p.

(** Whether one of the two patterns matches at index [i]. *)
Definition startsCase (i : nat) (t : jsstring) : bool :=
  match try_at (Grp 1 (seqs (List.map itemRe strictItems))) i (skipn i t),
        try_at (Grp 1 (seqs (List.map itemRe spacedItems))) i (skipn i t) with
  | None, None => false
  | _, _ => true
  end.

Definition startsCaseOnlyAt (p : nat) (t : jsstring) : bool :=
  forallb (fun i => Nat.eqb i p || negb (startsCase i t)) (seq 0 (S (length t))).

(** A case number, one space after each token, in a sheet that begins with
    its date. *)
Definition sampleCaseNo : CaseNo :=
  MkCaseNo (ch "令") (js "6") (ch "(") (ch "ワ") (ch ")") true (js "228").

Definition oneSpace : nat -> jsstring := fun _ => [32%N].

Definition sheetDate : jsstring := js "令和7年1月10日" ++ [10%N] ++ js "事件番号 ".
Definition sheetCaseName : jsstring := js " 損害賠償請求事件".

Definition spacedSheet : jsstring :=
  sheetDate ++ spacedWith oneSpace sampleCaseNo ++ sheetCaseName.

(** The characters a fax label begins with, and the
    characters of a fax number and of what may come between a label and a
    number. *)
Definition c_faxStart : char -> bool := c_in "FＦf".
Definition c_faxDigit : char -> bool := c_or c_digit (c_or c_fwdigit (c_in "-－ー")).
Definition c_faxSep : char -> bool := c_or (c_in "：:") c_space.

(** The labelled patterns need an opening bracket and, after it and any
    white space, the start of a fax label. *)
Definition labelled (w : jsstring) : Prop :=
  exists a p g f b,
    w = a ++ [p] ++ g ++ f :: b /\ c_lparen p = true
    /\ Forall (fun x => is_ws x = true) g /\ c_faxStart f = true.

(** A text in which no such word lies. *)
Definition unlabelled (t : jsstring) : Prop :=
  forall l w r, t = l ++ w ++ r -> labelled w -> False.

Definition defendantLine : jsstring := js "被告訴訟代理人 FAX 03-0000-0000".
Definition plaintiffLine : jsstring := js "原告訴訟代理人 FAX 06-1111-1111".

Definition space : jsstring := [32%N].

(** No start of a fax label. *)
Definition silent (s : jsstring) : Prop := Forall (fun x => c_faxStart x = false) s.

(** No first character of the phrase for the counsel of the defendant. *)
Definition noDefendant (s : jsstring) : Prop := Forall (fun x => c_is (ch "被") x = false) s.

(** The classification as the specification words it: whatever stands
    before, between and after the two lines. *)
Definition faxRolesAsWorded : Prop :=
  forall pre mid post,
    plaintiffLawyerFax
      (extractInfoFromText defaultConfig (pre ++ defendantLine ++ mid ++ plaintiffLine ++ post))
    = Some (js "06-1111-1111").

(** A cover sheet with the two lines two hundred characters apart. *)
Definition sheetHead : jsstring := js "送付書" ++ [10%N].
Definition sheetFiller : jsstring := List.concat (repeat (js "以下余白。") 40).
Definition sheetFoot : jsstring := [10%N].
Definition farApartSheet : jsstring :=
  sheetHead ++ defendantLine ++ sheetFiller ++ plaintiffLine ++ sheetFoot.

(** The two lines of the example one after the other, as a cover sheet
    has them. *)
Definition newline : jsstring := [10%N].
Definition adjacentLines : jsstring := defendantLine ++ newline ++ plaintiffLine.

(** What [s.replace(r, f)] makes of the input left at index [p]. *)
Definition replaceFrom (r : regex) (f : Match -> jsstring) (p : nat) (s : jsstring)
    : jsstring :=
  splice p s (List.map (fun m => (index m, length (m0 m), f m))
                (matchAll_from (S (length s)) r p s)).

(** The full-width form of a character, as [toFullWidthNumber] writes it. *)
Definition fullWidthChar (x : char) : char :=
  if c_digit x then (x + 65248)%N else x.

(** The characters that [normalizeFax] rewrites. *)
Definition wideFaxChar : char -> bool := c_or c_fwdigit (c_in "－ー").

(** [toFullWidthNumber(fax).replace(/-/g, '－')], the fax number that
    [applyInfoToTemplate] writes over the full-width placeholder. *)
Definition fullWidthFax (fax : jsstring) : jsstring :=
  replaceAll (lit "-") (toFullWidthNumber fax) (js "－").

(** The values of the template that [applyInfoToTemplate] searches for. *)
Definition placeholders : list jsstring :=
  [ ORIG_COURT; js "06-6438-1710"; js "０６―６４３８－１７１０"; ORIG_LAWYER;
    js "06-4708-3638"; js "令和6年11月7日"; js "令和6年9月"; js "令和３年（ワ）第８００号";
    js "損害賠償請求事件"; js "木村治紀"; js "独立行政法人国立病院機構"; js "被告第９準備書面" ].

(** No paragraph of the document reads one of the values. *)
Definition noPlaceholder (docXml : jsstring) : bool :=
  forallb (fun m =>
      forallb (fun p => negb (includes (joinedText (segmentsOf (m0 m))) p)) placeholders)
    (matchAll paraRegex docXml).

(** A court and a fax number to write, on a day of Reiwa 8. *)
Definition sampleInfo : Info :=
  MkInfo (Some (js "広島地方裁判所民事第２部")) (Some (js "令和6年(ワ)第228号")) None
    (Some (js "損害賠償請求事件")) None None (Some (js "石口俊一"))
    (Some (js "082-228-0197")) None (Some (js "082-222-0073")).
Definition sampleDay : Date := MkDate 2026 10 2.

(** The text with each CR LF, and each CR that is left, made one LF. *)
Fixpoint unixLines (s : jsstring) : jsstring :=
  match s with
  | [] => []
  | x :: t =>
    if N.eqb x 13 then
      10%N :: match t with
              | y :: t' => if N.eqb y 10 then unixLines t' else unixLines t
              | [] => []
              end
    else x :: unixLines t
  end.

(** The two prefixes that [getDocumentTitleFromFilename] takes off. *)
Definition tagPrefix : regex :=
  seqs [Bol; lit "【"; plus (Cls (c_not (c_in "】"))); lit "】"; ws0].
Definition matterPrefix : regex :=
  seqs [Bol; plus (Cls c_kanji); lit "事案"; plus (Cls (c_or c_space (c_in "　")))].

(** The first character of the string, if any, is outside the class. *)
Definition startsOutside (c : char -> bool) (s : jsstring) : Prop :=
  match s with
  | [] => True
  | x :: _ => c x = false
  end.

Definition c_wide : char -> bool := c_or c_space (c_in "　").

(** What [cleanLawyerName] lets through: two to six characters, the first
    of which is not one of those that begin a heading. *)
Definition c_heading : char -> bool := c_in "法会事件番号裁判".
Definition counselShape (v : jsstring) : Prop :=
  2 <= length v <= 6 /\ startsOutside c_heading v.

(** No capturing group in the pattern. *)
Fixpoint groupless (r : regex) : bool :=
  match r with
  | Seq a b | Alt a b => groupless a && groupless b
  | Rep _ _ _ r' => groupless r'
  | Grp _ _ => false
  | Eps | Cls _ | NLook _ | Bol | Eol => true
  end.

(** A sheet whose display of the case gives the serial number alone, and
    which names two years of Reiwa further down. *)
Definition serialOnlySheet : jsstring :=
  js "事件の表示　第228号 損害賠償請求事件" ++ [10%N] ++ js "令和6年11月7日" ++ [10%N]
    ++ js "令和5年3月1日".

(** The two patterns that [courtBase] takes a division off with. *)
Definition divisionAfter : regex :=
  seqs [lit "民事第"; plus (Cls c_anydigit); lit "部"; star (Cls c_dot); Eol].
Definition divisionBefore : regex :=
  seqs [lit "第"; plus (Cls c_anydigit); Cls (c_in "民刑"); lit "事部"; Eol].

(** A court name of the dictionary: none of its characters begins a division. *)
Definition plainKey (k : jsstring) : bool := forallb (fun x => negb (c_in "民第" x)) k.

(** The joined text of a page, as [scoreReceiptPage] reads it. *)
Definition pageText (words : list OcrWord) : jsstring := join (List.map wtext words).

(** A word that reads 受 with a word 領 close to its right. *)
Definition splitLabel (words : list OcrWord) (ju : OcrWord) : Prop :=
  wtext ju = js "受"
  /\ exists ryou, In ryou words /\ wtext ryou = js "領"
       /\ (Z.abs (y1 ryou - y1 ju) < 50)%Z
       /\ (x1 ju < x1 ryou)%Z /\ (x1 ryou < x1 ju + 300)%Z.

(** The words 行 on the line of the counsel, and the word that marks that
    line. *)
Definition counselWord (words : list OcrWord) : option OcrWord :=
  find (fun w => includes (wtext w) (js "弁護") || includes (wtext w) (js "護士"))
    (receiptWords words).
Definition onCounselLine (words : list OcrWord) (bengo : OcrWord) : list OcrWord :=
  filter (fun w => (Z.abs (y1 w - y1 bengo) <? 60)%Z) (gyouWords words).

(** A page with three words 行: one above the label, one on the line of
    the counsel, one below it. *)
Definition threeGyouPage : list OcrWord :=
  [ MkWord 900 40 950 90 (js "行");
    MkWord 1100 180 1260 230 (js "受領書");
    MkWord 300 400 520 450 (js "弁護士");
    MkWord 540 410 700 460 (js "山田太郎");
    MkWord 720 405 770 455 (js "行");
    MkWord 300 640 350 690 (js "行") ].

(** The range in which the date line is looked for: below the struck word
    (or from the start of the section), above the signature line (or down
    to the foot of the page). *)
Definition searchTop (words : list OcrWord) : Z :=
  match detectGyou words with
  | Some g => (y1 g + 20)%Z
  | None => findReceiptSectionStart words
  end.
Definition searchBottom (words : list OcrWord) (imgH : Z) : Z :=
  match detectAgent words imgH with
  | Some a => (y1 a - 10)%Z
  | None => imgH
  end.

(** A receipt with its label, the line of the counsel, an empty date line
    and the signature line. *)
Definition receiptPage : list OcrWord :=
  [ MkWord 300 60 520 110 (js "令和6年11月7日");
    MkWord 1100 180 1260 230 (js "受領書");
    MkWord 300 400 520 450 (js "弁護士");
    MkWord 540 410 700 460 (js "山田太郎");
    MkWord 720 405 770 455 (js "行");
    MkWord 300 560 400 610 (js "令和");
    MkWord 520 562 560 612 (js "年");
    MkWord 300 700 620 750 (js "被告訴訟代理人");
    MkWord 300 820 520 870 (js "原告訴訟代理人") ].

(** The markup before a run and after the last one holds no [<w:t], the
    attribute text of a run no [>] and its text no [<]. *)
Definition wellFormedRun (r : Run) : bool :=
  negb (includes (gap r) (js "<w:t"))
  && forallb (fun x => negb (c_in ">" x)) (runAttrs r)
  && forallb (fun x => negb (c_in "<" x)) (runText r).
Definition wellFormedBlock (b : Block) : bool :=
  forallb wellFormedRun (runs b) && negb (includes (closing b) (js "<w:t")).

(** The attribute text of the run holds no [>] and its text no [<]. *)
Definition plainRun (r : Run) : bool :=
  forallb (fun x => negb (c_in ">" x)) (runAttrs r)
  && forallb (fun x => negb (c_in "<" x)) (runText r).

(** No element begins in the markup before a run, nor in the markup after
    the last one. *)
Fixpoint silentRuns (rs : list Run) (closing0 : jsstring) : Prop :=
  match rs with
  | [] => forall i q, i < length closing0 -> try_at wtRegex q (skipn i closing0) = None
  | r :: rs' =>
    (forall i q, i < length (gap r) ->
       try_at wtRegex q (skipn i (gap r) ++ element r ++ renderRuns rs' ++ closing0) = None)
    /\ silentRuns rs' closing0
  end.

(** The same markup before each run. *)
Definition sameGaps (rs rs' : list Run) : Prop :=
  Forall2 (fun r r' => gap r' = gap r) rs rs'.


(** A paragraph opening, [<w:p] and a white space or [>], begins the
    string. *)
Definition opensParagraph (s : jsstring) : bool :=
  startsWith s (js "<w:p")
  && match skipn 4 s with
     | c :: _ => c_or c_space (c_in ">") c
     | [] => false
     end.

(** No paragraph opening begins in the markup. *)
Definition paragraphFree (lead : jsstring) : bool :=
  forallb (fun i => negb (opensParagraph (skipn i lead))) (seq 0 (length lead)).

(** The string ends with [</w:p>], which does not occur in it before. *)
Definition closesParagraph (closing0 : jsstring) : bool :=
  match indexOf closing0 (js "</w:p>") with
  | Some j => Nat.eqb (j + 6) (length closing0)
  | None => false
  end.

(** A paragraph element: the string begins with a paragraph opening and
    ends with [</w:p>], which occurs nowhere before in it. *)
Definition paragraphElement (p : jsstring) : bool :=
  opensParagraph p && closesParagraph p.

(** A document: paragraphs, each after some markup, and the markup after
    the last one. *)
Record Doc := MkDoc { paragraphs : list (jsstring * Block); trailer : jsstring }.

Fixpoint renderParagraphs (f : Block -> jsstring) (ps : list (jsstring * Block))
    : jsstring :=
  match ps with
  | [] => []
  | (lead, b) :: ps' => lead ++ f b ++ renderParagraphs f ps'
  end.

Definition renderDoc (d : Doc) : jsstring :=
  renderParagraphs render (paragraphs d) ++ trailer d.

Definition mapDoc (f : Block -> Block) (d : Doc) : Doc :=
  MkDoc (List.map (fun lb => (fst lb, f (snd lb))) (paragraphs d)) (trailer d).

(** Paragraph elements, each after markup in which no paragraph opening
    begins, and such markup after the last one. *)
Definition wellFormedDoc (d : Doc) : bool :=
  forallb (fun lb => paragraphFree (fst lb) && paragraphElement (render (snd lb)))
          (paragraphs d)
  && paragraphFree (trailer d).

(** Every paragraph is read by the scan of [safeReplaceInXml] as its
    runs. *)
Definition parsedDoc (d : Doc) : Prop :=
  Forall (fun lb => parses (snd lb)) (paragraphs d).

(** No [</w:p>] begins in [u] when [t] follows. *)
Definition noClose (u t : jsstring) : Prop :=
  forall i, i < length u -> startsWith (skipn i u ++ t) (js "</w:p>") = false.

(** The string ends with [</w:p>], and [</w:p>] begins nowhere before. *)
Definition closesTail (s : jsstring) : Prop :=
  exists U, s = U ++ js "</w:p>" /\ noClose U (js "</w:p>").

(** What a substitution makes of a run: the markup before it stays, its
    attribute text stays or holds no [<], and its text holds no [<]. *)
Definition keepsClose (r r' : Run) : Prop :=
  gap r' = gap r
  /\ (runAttrs r' = runAttrs r
      \/ forallb (fun x => negb (c_in "<" x)) (runAttrs r') = true)
  /\ forallb (fun x => negb (c_in "<" x)) (runText r') = true.

(** The values that [applyInfoToTemplate] searches for and what it writes
    for each, in the order of its steps; a step whose field is absent or
    empty is left out. *)
Definition substitutions (now : Date) (info : Info) (documentTitle : jsstring)
    : list (jsstring * jsstring) :=
  let today := getTodayReiwa now in
  (if truthy (courtName info) then
     [(ORIG_COURT,
       valueOf (courtName info)
         ++ (if (0 <? Z.of_nat (length ORIG_COURT)
                      - Z.of_nat (length (valueOf (courtName info))))%Z
             then repeat 12288%N
                    (Z.to_nat (Z.of_nat (length ORIG_COURT)
                               - Z.of_nat (length (valueOf (courtName info)))))
             else []))]
   else [])
  ++ (if truthy (courtFax info) then
        [(js "06-6438-1710", valueOf (courtFax info));
         (js "０６―６４３８－１７１０",
          replaceAll (lit "-") (toFullWidthNumber (valueOf (courtFax info))) (js "－"))]
      else [])
  ++ (if truthy (plaintiffLawyer info) then
        [(ORIG_LAWYER,
          valueOf (plaintiffLawyer info)
            ++ (if (0 <? Z.of_nat (length ORIG_LAWYER)
                         - Z.of_nat (length (valueOf (plaintiffLawyer info))))%Z
                then repeat 12288%N
                       (Z.to_nat (Z.of_nat (length ORIG_LAWYER)
                                  - Z.of_nat (length (valueOf (plaintiffLawyer info)))))
                else []))]
      else [])
  ++ (if truthy (plaintiffLawyerFax info) then
        [(js "06-4708-3638", valueOf (plaintiffLawyerFax info))]
      else [])
  ++ [(js "令和6年11月7日",
       js "令和" ++ integerToString (year today) ++ js "年"
         ++ integerToString (month today) ++ js "月"
         ++ integerToString (day today) ++ js "日");
      (js "令和6年9月",
       js "令和" ++ integerToString (year today) ++ js "年"
         ++ integerToString (month today) ++ js "月")]
  ++ (if truthy (caseNumber info) then
        [(js "令和３年（ワ）第８００号", toFullWidthNumber (valueOf (caseNumber info)))]
      else [])
  ++ (if truthy (caseName info) then
        [(js "損害賠償請求事件", valueOf (caseName info))]
      else [])
  ++ (if truthy (plaintiffName info) then
        [(js "木村治紀", valueOf (plaintiffName info))]
      else [])
  ++ (if truthy (defendantName info) then
        [(js "独立行政法人国立病院機構", valueOf (defendantName info))]
      else [])
  ++ [(js "被告第９準備書面", documentTitle)].

(** The substitutions of a list, one after the other, in a paragraph. *)
Definition substituteAll (subs : list (jsstring * jsstring)) (b : Block) : Block :=
  fold_left (fun b on => substituted b (fst on) (snd on)) subs b.

(** No value to write holds a [<]. *)
Definition plainValues (subs : list (jsstring * jsstring)) : bool :=
  forallb (fun on => forallb (fun x => negb (c_in "<" x)) (snd on)) subs.

(** A paragraph with a tab element before its second run and tab stops in
    its properties. *)
Definition tabbedParagraph : Block :=
  MkBlock [ MkRun (js "<w:p><w:pPr><w:tabs><w:tab/></w:tabs></w:pPr><w:r>") [] (js "AB");
            MkRun (js "</w:r><w:r><w:tab/>") (js " xml:space='preserve'") (js "C D") ]
          (js "</w:r></w:p>").

(** A document of three paragraphs. *)
Definition twoParagraphs : Doc :=
  MkDoc [(js "<w:body>", abcdef); ([], threeRuns); ([], tabbedParagraph)]
        (js "<w:sectPr><w:pgSz/></w:sectPr></w:body>").

(** A template of three paragraphs: the court, split over two runs with
    a tab element between them, the fax number of the court and the
    title. *)
Definition templateDoc : Doc :=
  MkDoc
    [ (js "<w:body>",
       MkBlock [ MkRun (js "<w:p><w:pPr><w:tabs><w:tab/></w:tabs></w:pPr><w:r>") []
                       (js "神戸地方裁判所");
                 MkRun (js "</w:r><w:r><w:rPr/><w:tab/>") [] (js "尼崎支部第２民事部　御中") ]
               (js "</w:r></w:p>"));
      ([],
       MkBlock [ MkRun (js "<w:p><w:pPr/><w:r>") [] (js "FAX 06-6438-1710") ]
               (js "</w:r></w:p>"));
      ([],
       MkBlock [ MkRun (js "<w:p><w:r>") [] (js "被告第９準備書面") ]
               (js "</w:r></w:p>")) ]
    (js "<w:sectPr><w:pgSz/></w:sectPr></w:body>").

(** Every word of the pattern holds a character of the class. *)
Fixpoint needs (c : char -> bool) (r : regex) : Prop :=
  match r with
  | Cls d => forall x, d x = true -> c x = true
  | Seq a b => needs c a \/ needs c b
  | Alt a b => needs c a /\ needs c b
  | Grp _ r' => needs c r'
  | Rep lo _ _ r' => 0 < lo /\ needs c r'
  | Eps | NLook _ | Bol | Eol => False
  end.

(** The text holds no character of the class. *)
Definition lacks (c : char -> bool) (s : jsstring) : Prop :=
  Forall (fun x => c x = false) s.

(** A notice that names the court and the case number and nothing else. *)
Definition bareNotice : jsstring := js "広島地方裁判所 令和6年(ワ)第123号".

(** A notice that gives the telephone of the court only. *)
Definition phoneOnly : jsstring := js "広島地方裁判所民事第２部 TEL 082-228-0421".

(** A word element as Tesseract writes it:
    [<span] beforeClass [class='ocrx_word'] beforeTitle [title='bbox ] x1 y1 x2 y2 afterBox [>]
    content [</span>], the four numbers separated by one space. *)
Record WordSpan := MkSpan {
  beforeClass : jsstring; beforeTitle : jsstring;
  bx1 : jsstring; by1 : jsstring; bx2 : jsstring; by2 : jsstring;
  afterBox : jsstring; content : jsstring }.

Definition classAttr : jsstring := js "class='ocrx_word'".
Definition titleAttr : jsstring := js "title='bbox ".

Definition afterTitle (e : WordSpan) : jsstring :=
  bx1 e ++ js " " ++ by1 e ++ js " " ++ bx2 e ++ js " " ++ by2 e ++ afterBox e.
Definition afterClass (e : WordSpan) : jsstring := beforeTitle e ++ titleAttr ++ afterTitle e.

Definition renderSpan (e : WordSpan) : jsstring :=
  js "<span" ++ beforeClass e ++ classAttr ++ afterClass e ++ js ">" ++ content e ++ js "</span>".

Definition isNumber (ds : jsstring) : bool :=
  negb (Nat.eqb (length ds) 0) && forallb c_digit ds.

Definition inTag (s : jsstring) : bool := forallb (fun x => negb (c_in ">" x)) s.

(** The attributes stay inside the tag, the class and the box are named
    once, the numbers are runs of digits, the last of them is not followed
    by a digit, and the content holds no [</span>]. *)
Definition wellFormedSpan (e : WordSpan) : bool :=
  negb (Nat.eqb (length (beforeClass e)) 0) && inTag (beforeClass e)
  && negb (Nat.eqb (length (beforeTitle e)) 0) && inTag (beforeTitle e) && inTag (afterBox e)
  && isNumber (bx1 e) && isNumber (by1 e) && isNumber (bx2 e) && isNumber (by2 e)
  && match afterBox e with [] => true | x :: _ => negb (c_digit x) end
  && negb (includes (afterClass e) classAttr)
  && negb (includes (afterTitle e) titleAttr)
  && negb (includes (content e) (js "</span>")).

(** Some [<] of the markup has no [>] after it. *)
Fixpoint openTag (s : jsstring) : bool :=
  match s with
  | [] => false
  | x :: t => (N.eqb x (ch "<") && negb (existsb (N.eqb (ch ">")) t)) || openTag t
  end.

(** Markup between the word elements: it does not name the class of a word
    and leaves no tag open. *)
Definition wordFree (sep : jsstring) : bool :=
  negb (includes sep classAttr) && negb (openTag sep).

(** A page: word elements, each after some markup, and the markup after the
    last one. *)
Record Page := MkPage { spans : list (jsstring * WordSpan); footer : jsstring }.

Fixpoint renderSpans (l : list (jsstring * WordSpan)) : jsstring :=
  match l with
  | [] => []
  | (sep, e) :: l' => sep ++ renderSpan e ++ renderSpans l'
  end.

Definition renderPage (d : Page) : jsstring := renderSpans (spans d) ++ footer d.

Definition wellFormedPage (d : Page) : bool :=
  forallb (fun se => wordFree (fst se) && wellFormedSpan (snd se)) (spans d)
  && wordFree (footer d).

(** The text of a word: the content without its tags, trimmed. *)
Definition wordText (e : WordSpan) : jsstring := trim (replaceAll tagRegex (content e) []).

(** The word that an element stands for, none when no text is left. *)
Definition spanWord (e : WordSpan) : list OcrWord :=
  match wordText e with
  | [] => []
  | _ :: _ =>
    [MkWord (toNumber (bx1 e)) (toNumber (by1 e)) (toNumber (bx2 e)) (toNumber (by2 e))
            (wordText e)]
  end.

(** The captures of the match of a word element. *)
Definition spanCaps (e : WordSpan) : caps :=
  [(5, content e); (4, by2 e); (3, bx2 e); (2, by1 e); (1, bx1 e)].

(** A line of three word elements: a word, a word in bold type, and an
    element that holds a space only. *)
Definition sampleLine : Page :=
  MkPage
    [ (js "<div class='ocr_page'><span class='ocr_line' id='line_1_1' title='bbox 36 90 500 120'>",
       MkSpan (js " ") (js " id='word_1_1' ") (js "36") (js "92") (js "96") (js "116")
              (js "; x_wconf 92'") (js "受領書"));
      (js " ",
       MkSpan (js " ") (js " id='word_1_2' ") (js "420") (js "92") (js "450") (js "116")
              (js "; x_wconf 88'") (js "<strong>行</strong>"));
      (js " ",
       MkSpan (js " ") (js " id='word_1_3' ") (js "460") (js "92") (js "470") (js "116")
              (js "; x_wconf 10'") (js " ")) ]
    (js " </span></div>").

(** * Proofs *)

(** ** Strings *)

Lemma str_eqb_eq a b : str_eqb a b = true <-> a = b.
Proof.
  revert b; induction a as [|x a IH]; intros [|y b]; simpl; split; try congruence; auto.
  - intros H. apply andb_true_iff in H as [H1 H2].
    apply N.eqb_eq in H1. apply IH in H2. congruence.
  - intros H. injection H as -> ->. rewrite N.eqb_refl. simpl. now apply IH.
Qed.

Lemma str_eqb_refl a : str_eqb a a = true.
Proof. now apply str_eqb_eq. Qed.

(** ** Facts about the matcher *)

Lemma rep_sound r :
  sound (rmatch r) r ->
  forall fuel lo hi g, sound (fun st k => rep (rmatch r) lo hi g fuel st k) (Rep lo hi g r).
Proof.
  intros Hr fuel. induction fuel as [|fuel IH]; intros lo hi g st k res H.
  - discriminate H.
  - simpl in H.
    match type of H with
    | (if _ then ?it else _) = _ => set (iter := it) in *
    end.
    assert (Hiter : forall res', iter = Some res' ->
      exists w st', Sem (Rep lo hi g r) w (mcaps st) (mcaps st') /\
        rest st = w ++ rest st' /\ pos st' = pos st + length w /\ k st' = Some res').
    { intros res' Hi. subst iter.
      assert (Hhi : hi <> Some 0) by (destruct hi as [[|n]|]; congruence).
      assert (Hi' : rmatch r st (fun st' =>
               if Nat.eqb lo 0 && Nat.eqb (length (rest st')) (length (rest st))
               then None
               else rep (rmatch r) (Nat.pred lo) (option_map Nat.pred hi) g fuel st' k)
               = Some res') by (destruct hi as [[|n]|]; [discriminate Hi | exact Hi | exact Hi]).
      apply Hr in Hi' as (w1 & st1 & S1 & R1 & P1 & K1).
      destruct (Nat.eqb lo 0 && Nat.eqb (length (rest st1)) (length (rest st)));
        [discriminate K1|].
      apply IH in K1 as (w2 & st2 & S2 & R2 & P2 & K2).
      exists (w1 ++ w2), st2. split; [|split; [|split]].
      - eapply SRepIter; eauto.
      - rewrite R1, R2, app_assoc. reflexivity.
      - rewrite P2, P1, length_app. lia.
      - exact K2. }
    assert (Hdone : forall res', lo = 0 -> k st = Some res' ->
      exists w st', Sem (Rep lo hi g r) w (mcaps st) (mcaps st') /\
        rest st = w ++ rest st' /\ pos st' = pos st + length w /\ k st' = Some res').
    { intros res' -> Hk. exists [], st. split; [constructor|]. simpl. auto with arith. }
    clearbody iter.
    destruct (Nat.ltb 0 lo) eqn:Hlo.
    + apply Hiter. exact H.
    + apply Nat.ltb_ge in Hlo. assert (lo = 0) by lia.
      destruct g; unfold orElse in H.
      * destruct iter eqn:E.
        -- injection H as <-. apply Hiter. reflexivity.
        -- apply Hdone; [assumption | exact H].
      * destruct (k st) eqn:E.
        -- injection H as <-. apply Hdone; [assumption | reflexivity].
        -- apply Hiter. exact H.
Qed.

Theorem rmatch_sound r : sound (rmatch r) r.
Proof.
  induction r as [|c|a IHa b IHb|a IHa b IHb|lo hi g r IH|i r IH|r IH| |];
    intros st k res H; simpl in H.
  - exists [], st. split; [constructor|]. simpl. auto with arith.
  - destruct (rest st) as [|x t] eqn:E; [discriminate|].
    destruct (c x) eqn:C; [|discriminate].
    exists [x], (MState (S (pos st)) t (mcaps st)). simpl.
    split; [constructor; exact C|]. split; [reflexivity|]. split; [lia | exact H].
  - apply IHa in H as (w1 & st1 & S1 & R1 & P1 & K1).
    apply IHb in K1 as (w2 & st2 & S2 & R2 & P2 & K2).
    exists (w1 ++ w2), st2. split; [econstructor; eauto|].
    split; [rewrite R1, R2, app_assoc; reflexivity|].
    split; [rewrite P2, P1, length_app; lia | exact K2].
  - unfold orElse in H. destruct (rmatch a st k) eqn:E.
    + injection H as <-. apply IHa in E as (w & st' & S1 & R1 & P1 & K1).
      exists w, st'. split; [apply SAltL; exact S1 | auto].
    + apply IHb in H as (w & st' & S1 & R1 & P1 & K1).
      exists w, st'. split; [apply SAltR; exact S1 | auto].
  - exact (rep_sound IH _ lo hi g st k H).
  - apply IH in H as (w & st' & S1 & R1 & P1 & K1).
    exists w, (MState (pos st') (rest st') (setcap i (firstn (pos st' - pos st) (rest st)) (mcaps st'))).
    simpl. split; [|auto].
    replace (firstn (pos st' - pos st) (rest st)) with w.
    + constructor. exact S1.
    + rewrite R1, P1. replace (pos st + length w - pos st) with (length w) by lia.
      rewrite firstn_app, Nat.sub_diag, firstn_all. simpl. rewrite app_nil_r. reflexivity.
  - destruct (rmatch r st (fun s => Some s)); [discriminate|].
    exists [], st. split; [constructor|]. simpl. auto with arith.
  - destruct (Nat.eqb (pos st) 0); [|discriminate].
    exists [], st. split; [constructor|]. simpl. auto with arith.
  - destruct (rest st) eqn:E; [|discriminate].
    exists [], st. split; [constructor|]. simpl. rewrite E. auto with arith.
Qed.

(** A match found at an index is a word of the pattern that lies there. *)
Lemma try_at_sound r p s m :
  try_at r p s = Some m ->
  index m = p /\ Sem r (m0 m) [] (groups m) /\ exists s', s = m0 m ++ s'.
Proof.
  unfold try_at. intros H.
  destruct (rmatch r (MState p s []) (fun st => Some st)) as [st'|] eqn:E; [|discriminate].
  injection H as <-. simpl.
  apply rmatch_sound in E as (w & st1 & S1 & R1 & P1 & K1).
  injection K1 as <-. simpl in *.
  replace (firstn (pos st1 - p) s) with w.
  - split; [reflexivity|]. split; [exact S1|]. exists (rest st1). exact R1.
  - rewrite R1, P1. replace (p + length w - p) with (length w) by lia.
    rewrite firstn_app, Nat.sub_diag, firstn_all. simpl. rewrite app_nil_r. reflexivity.
Qed.

Lemma scan_sound r p s m :
  scan r p s = Some m ->
  Sem r (m0 m) [] (groups m) /\
  exists pre s', s = pre ++ m0 m ++ s' /\ index m = p + length pre.
Proof.
  revert p. induction s as [|x s IH]; intros p; simpl.
  - destruct (try_at r p []) eqn:E; [|discriminate].
    intros H. injection H as <-.
    apply try_at_sound in E as (I & S1 & s' & Hs).
    split; [exact S1|]. exists [], s'. simpl. split; [exact Hs | lia].
  - destruct (try_at r p (x :: s)) eqn:E.
    + intros H. injection H as <-.
      apply try_at_sound in E as (I & S1 & s' & Hs).
      split; [exact S1|]. exists [], s'. simpl. split; [exact Hs | lia].
    + intros H. apply IH in H as (S1 & pre & s' & Hs & I).
      split; [exact S1|]. exists (x :: pre), s'. simpl. split; [congruence | lia].
Qed.

(** Every match that a global scan collects is a word of the pattern. *)
Lemma matchAll_from_sound r fuel p s m :
  In m (matchAll_from fuel r p s) -> Sem r (m0 m) [] (groups m).
Proof.
  revert p s. induction fuel as [|fuel IH]; intros p s; simpl; [tauto|].
  destruct (scan r p s) as [m'|] eqn:E; [|simpl; tauto].
  pose proof (scan_sound _ _ _ E) as [S1 _].
  destruct (Nat.eqb (length (m0 m')) 0).
  - destruct (skipn _ s); simpl.
    + intros [<- | []]. exact S1.
    + intros [<- | H]; [exact S1 | eapply IH; exact H].
  - simpl. intros [<- | H]; [exact S1 | eapply IH; exact H].
Qed.

Lemma matchAll_sound r s m : In m (matchAll r s) -> Sem r (m0 m) [] (groups m).
Proof. apply matchAll_from_sound. Qed.

(** *** What the words and the captures are made of *)

Lemma Sem_chars P r w cs cs' : Sem r w cs cs' -> chars_in P r -> Forall P w.
Proof.
  induction 1; simpl; intros HP; try constructor; auto.
  - destruct HP. apply Forall_app. auto.
  - tauto.
  - tauto.
  - apply Forall_app. auto.
Qed.

Lemma Sem_group P i r w cs cs' :
  Sem r w cs cs' -> group_in P i r -> cap_in P i cs -> cap_in P i cs'.
Proof.
  induction 1; simpl; intros HP Hcs; auto.
  - destruct HP. auto.
  - destruct HP. auto.
  - destruct HP. auto.
  - destruct HP as [Hc Hg]. intros v. unfold setcap. simpl.
    destruct (Nat.eqb i i0) eqn:E.
    + apply Nat.eqb_eq in E. subst. intros Hv. injection Hv as <-.
      eapply Sem_chars; eauto.
    + apply IHSem; auto.
Qed.

Lemma cap_in_nil P i : cap_in P i [].
Proof. intros v H. discriminate H. Qed.

(** A capture of a match, read with [cap], is within [P] as soon as the
    group is. *)
Lemma cap_chars P i r m :
  Sem r (m0 m) [] (groups m) -> group_in P i r -> Forall P (cap i m).
Proof.
  intros S1 Hg. unfold cap, group.
  destruct (getcap i (groups m)) eqn:E; [|constructor].
  eapply (Sem_group S1 Hg); [apply cap_in_nil | exact E].
Qed.

(** *** Steps of a successful match *)

Lemma step_cls c x p t cs k :
  c x = true ->
  rmatch (Cls c) (MState p (x :: t) cs) k = k (MState (S p) t cs).
Proof. intros H. simpl. rewrite H. reflexivity. Qed.

Lemma step_cls_fail c x p t cs k :
  c x = false -> rmatch (Cls c) (MState p (x :: t) cs) k = None.
Proof. intros H. simpl. rewrite H. reflexivity. Qed.

Lemma step_cls_end c p cs k : rmatch (Cls c) (MState p [] cs) k = None.
Proof. reflexivity. Qed.

Lemma rep_unfold (m : mstate -> cont -> option mstate) lo hi g fuel st k :
  rep m lo hi g (S fuel) st k
  = if Nat.ltb 0 lo then
      match hi with
      | Some 0 => None
      | _ => m st (fun st' =>
               if Nat.eqb lo 0 && Nat.eqb (length (rest st')) (length (rest st))
               then None
               else rep m (Nat.pred lo) (option_map Nat.pred hi) g fuel st' k)
      end
    else if g then
      orElse
        match hi with
        | Some 0 => None
        | _ => m st (fun st' =>
                 if Nat.eqb lo 0 && Nat.eqb (length (rest st')) (length (rest st))
                 then None
                 else rep m (Nat.pred lo) (option_map Nat.pred hi) g fuel st' k)
        end
        (fun _ => k st)
    else
      orElse (k st)
        (fun _ =>
           match hi with
           | Some 0 => None
           | _ => m st (fun st' =>
                    if Nat.eqb lo 0 && Nat.eqb (length (rest st')) (length (rest st))
                    then None
                    else rep m (Nat.pred lo) (option_map Nat.pred hi) g fuel st' k)
           end).
Proof. reflexivity. Qed.

(** A greedy, unbounded repetition of a class takes the whole run when the
    continuation succeeds after it. *)
Lemma rep_cls_greedy c run : forall rest0 lo fuel p cs k res,
  allb c run -> boundary c rest0 ->
  lo <= length run -> length run < fuel ->
  k (MState (p + length run) rest0 cs) = Some res ->
  rep (rmatch (Cls c)) lo None true fuel (MState p (run ++ rest0) cs) k = Some res.
Proof.
  induction run as [|x run IH]; intros rest0 lo fuel p cs k res Hall Hb Hlo Hfuel Hk.
  - simpl in Hlo. assert (lo = 0) by lia. subst lo.
    destruct fuel as [|fuel]; [simpl in Hfuel; lia|].
    rewrite rep_unfold. simpl Nat.ltb. cbv iota.
    simpl length in Hk. rewrite Nat.add_0_r in Hk. simpl app.
    destruct rest0 as [|y t].
    + rewrite step_cls_end. exact Hk.
    + simpl in Hb. rewrite step_cls_fail by exact Hb. exact Hk.
  - inversion Hall as [|? ? Hx Hall']; subst.
    destruct fuel as [|fuel]; [simpl in Hfuel; lia|].
    simpl in Hlo, Hfuel.
    assert (Hrec : rep (rmatch (Cls c)) (Nat.pred lo) None true fuel
                     (MState (S p) (run ++ rest0) cs) k = Some res).
    { apply IH; auto; try lia.
      simpl in Hk. rewrite <- Nat.add_succ_comm in Hk. exact Hk. }
    rewrite rep_unfold. simpl app. rewrite step_cls by exact Hx.
    cbn [rest option_map].
    assert (Hne : Nat.eqb (length (run ++ rest0)) (length (x :: run ++ rest0)) = false)
      by (apply Nat.eqb_neq; simpl; lia).
    rewrite Hne, andb_false_r. rewrite Hrec.
    destruct (Nat.ltb 0 lo); reflexivity.
Qed.

Lemma step_star c run rest0 p cs k res :
  allb c run -> boundary c rest0 ->
  k (MState (p + length run) rest0 cs) = Some res ->
  rmatch (star (Cls c)) (MState p (run ++ rest0) cs) k = Some res.
Proof.
  intros Hall Hb Hk. unfold star.
  change (rep (rmatch (Cls c)) 0 None true (S (length (run ++ rest0)))
            (MState p (run ++ rest0) cs) k = Some res).
  apply rep_cls_greedy; auto; try lia. rewrite length_app. lia.
Qed.

Lemma step_plus c run rest0 p cs k res :
  allb c run -> run <> [] -> boundary c rest0 ->
  k (MState (p + length run) rest0 cs) = Some res ->
  rmatch (plus (Cls c)) (MState p (run ++ rest0) cs) k = Some res.
Proof.
  intros Hall Hne Hb Hk. unfold plus.
  change (rep (rmatch (Cls c)) 1 None true (1 + S (length (run ++ rest0)))
            (MState p (run ++ rest0) cs) k = Some res).
  apply rep_cls_greedy; auto.
  - destruct run; [congruence | simpl; lia].
  - rewrite length_app. lia.
Qed.

(** An optional character that is there is taken. *)
Lemma step_opt c x p t cs k res :
  c x = true ->
  k (MState (S p) t cs) = Some res ->
  rmatch (opt (Cls c)) (MState p (x :: t) cs) k = Some res.
Proof.
  intros Hx Hk. unfold opt.
  change (rep (rmatch (Cls c)) 0 (Some 1) true (S (S (length t)))
            (MState p (x :: t) cs) k = Some res).
  rewrite rep_unfold. simpl Nat.ltb. cbv iota.
  rewrite step_cls by exact Hx. cbn [rest option_map Nat.pred].
  assert (Hne : Nat.eqb (length t) (length (x :: t)) = false)
    by (apply Nat.eqb_neq; simpl; lia).
  rewrite Hne, andb_false_r. rewrite rep_unfold. simpl Nat.ltb. cbv iota.
  unfold orElse. rewrite Hk. reflexivity.
Qed.

(** *** From the matcher to [try_at] and [scan] *)

Lemma try_at_of_rmatch r p s w st' :
  rmatch r (MState p s []) (fun st => Some st) = Some st' ->
  s = w ++ rest st' ->
  try_at r p s = Some (MkMatch p w (mcaps st')).
Proof.
  intros H Hs. unfold try_at. rewrite H.
  apply rmatch_sound in H as (w' & st1 & S1 & R1 & P1 & K1).
  injection K1 as ->. simpl in *.
  assert (w' = w).
  { rewrite R1 in Hs. apply app_inv_tail in Hs. exact Hs. }
  subst w'. rewrite P1. replace (p + length w - p) with (length w) by lia.
  rewrite R1, firstn_app, Nat.sub_diag, firstn_all. simpl. rewrite app_nil_r. reflexivity.
Qed.

(** The scan passes over a stretch where no match can begin. *)
Lemma scan_skip r a : forall p s,
  (forall x, In x a -> forall q t, try_at r q (x :: t) = None) ->
  scan r p (a ++ s) = scan r (p + length a) s.
Proof.
  induction a as [|x a IH]; intros p s H; simpl.
  - rewrite Nat.add_0_r. reflexivity.
  - rewrite (H x (or_introl eq_refl)).
    rewrite IH by (intros; apply H; right; assumption).
    rewrite Nat.add_succ_comm. reflexivity.
Qed.

Lemma scan_none r s p :
  (forall x, In x s -> forall q t, try_at r q (x :: t) = None) ->
  (forall q, try_at r q [] = None) ->
  scan r p s = None.
Proof.
  intros H Hend. rewrite <- (app_nil_r s). rewrite scan_skip by exact H.
  simpl. rewrite Hend. reflexivity.
Qed.

Lemma scan_here r p s m : try_at r p s = Some m -> scan r p s = Some m.
Proof. intros H. destruct s; simpl; rewrite H; reflexivity. Qed.

(** The whole-pattern group of a match is the match. *)
Lemma Sem_grp_top i r w cs cs' : Sem (Grp i r) w cs cs' -> getcap i cs' = Some w.
Proof.
  intros H. inversion H; subst. simpl. rewrite Nat.eqb_refl. reflexivity.
Qed.

(** One step of the collection of all matches. *)
Lemma matchAll_from_step r fuel p s m :
  length s < fuel ->
  scan r p s = Some m ->
  m0 m <> [] ->
  matchAll_from fuel r p s
  = m :: matchAll_from (Nat.pred fuel) r (index m + length (m0 m))
           (skipn (index m + length (m0 m) - p) s).
Proof.
  intros Hf Hs Hne. destruct fuel as [|fuel]; [lia|]. simpl. rewrite Hs.
  destruct (m0 m) as [|x w]; [congruence|]. reflexivity.
Qed.

Lemma matchAll_from_none r fuel p s :
  scan r p s = None -> matchAll_from fuel r p s = [].
Proof. intros Hs. destruct fuel; simpl; [|rewrite Hs]; reflexivity. Qed.

(** *** Replacing the runs of a class *)

Lemma take_drop_while c s : s = takeWhile c s ++ dropWhile c s.
Proof. induction s as [|x t IH]; simpl; [|destruct (c x); simpl; congruence]; reflexivity. Qed.

Lemma skipn_takeWhile c s : skipn (length (takeWhile c s)) s = dropWhile c s.
Proof. induction s as [|x t IH]; simpl; [|destruct (c x); simpl]; auto. Qed.

Lemma takeWhile_all c s : allb c (takeWhile c s).
Proof.
  induction s as [|x t IH]; simpl; [constructor|].
  destruct (c x) eqn:E; constructor; assumption.
Qed.

Lemma dropWhile_boundary c s : boundary c (dropWhile c s).
Proof.
  induction s as [|x t IH]; simpl; [exact I|].
  destruct (c x) eqn:E; [exact IH | exact E].
Qed.

Lemma dropWhile_length c s : length (dropWhile c s) <= length s.
Proof. induction s as [|x t IH]; simpl; [|destruct (c x); simpl]; lia. Qed.

Lemma filter_takeWhile_neg c s : filter (fun x => negb (c x)) (takeWhile c s) = [].
Proof.
  induction s as [|x t IH]; simpl; [reflexivity|].
  destruct (c x) eqn:E; simpl; [rewrite E; exact IH | reflexivity].
Qed.

Lemma try_at_plus_cls c p x t :
  c x = true ->
  try_at (plus (Cls c)) p (x :: t)
  = Some (MkMatch p (x :: takeWhile c t) []).
Proof.
  intros Hx.
  assert (H : rmatch (plus (Cls c)) (MState p ((x :: takeWhile c t) ++ dropWhile c t) [])
                (fun st => Some st)
              = Some (MState (p + length (x :: takeWhile c t)) (dropWhile c t) [])).
  { apply step_plus; auto.
    - constructor; [exact Hx | apply takeWhile_all].
    - discriminate.
    - apply dropWhile_boundary. }
  simpl app in H. rewrite <- take_drop_while in H.
  apply (try_at_of_rmatch _ _ (x :: takeWhile c t) H).
  simpl. rewrite <- take_drop_while. reflexivity.
Qed.

Lemma try_at_plus_cls_fail c q x t :
  c x = false -> try_at (plus (Cls c)) q (x :: t) = None.
Proof. intros H. unfold try_at, plus. simpl. rewrite H. reflexivity. Qed.

Lemma try_at_plus_cls_end c q : try_at (plus (Cls c)) q [] = None.
Proof. reflexivity. Qed.

(** [s.replace(/c+/g, '')] removes the characters of the class. *)
Lemma splice_plus_cls c n : forall s p fuel,
  length s <= n -> length s < fuel ->
  splice p s (List.map (fun m => (index m, length (m0 m), @nil char))
                (matchAll_from fuel (plus (Cls c)) p s))
  = filter (fun x => negb (c x)) s.
Proof.
  induction n as [|n IH]; intros s p fuel Hn Hf.
  - destruct s; [|simpl in Hn; lia].
    rewrite matchAll_from_none by reflexivity. reflexivity.
  - rewrite (take_drop_while (fun x => negb (c x)) s) at 1 2.
    set (a := takeWhile (fun x => negb (c x)) s).
    assert (Ha : forall x, In x a -> c x = false).
    { intros x Hx. pose proof (takeWhile_all (fun x => negb (c x)) s) as Hall.
      unfold allb in Hall. rewrite Forall_forall in Hall.
      apply Hall in Hx. apply negb_true_iff in Hx. exact Hx. }
    assert (Hfa : filter (fun x => negb (c x)) a = a).
    { apply forallb_filter_id. apply forallb_forall. intros x Hx.
      rewrite (Ha x Hx). reflexivity. }
    assert (Hlen : length s = length a + length (dropWhile (fun x => negb (c x)) s)).
    { rewrite (take_drop_while (fun x => negb (c x)) s) at 1. apply length_app. }
    rewrite (take_drop_while (fun x => negb (c x)) s) at 3.
    fold a. rewrite filter_app, Hfa.
    destruct (dropWhile (fun x => negb (c x)) s) as [|x t] eqn:Ed.
    + rewrite matchAll_from_none.
      * simpl. rewrite app_nil_r. reflexivity.
      * apply scan_none; [|apply try_at_plus_cls_end].
        rewrite app_nil_r. intros y Hy q t'. apply try_at_plus_cls_fail. auto.
    + pose proof (dropWhile_boundary (fun x => negb (c x)) s) as Hb.
      rewrite Ed in Hb. simpl in Hb. apply negb_false_iff in Hb.
      assert (Hscan : scan (plus (Cls c)) p (a ++ x :: t)
                      = Some (MkMatch (p + length a) (x :: takeWhile c t) [])).
      { rewrite scan_skip by (intros; apply try_at_plus_cls_fail; auto).
        apply scan_here. apply try_at_plus_cls. exact Hb. }
      assert (Hf' : length (a ++ x :: t) < fuel).
      { rewrite length_app, <- Hlen. exact Hf. }
      assert (Hne' : m0 (MkMatch (p + length a) (x :: takeWhile c t) []) <> [])
        by discriminate.
      rewrite (@matchAll_from_step _ _ _ _ _ Hf' Hscan Hne').
      { simpl index. simpl m0.
        simpl map. simpl splice.
        replace (p + length a - p) with (length a) by lia.
        rewrite firstn_app, Nat.sub_diag, firstn_all. simpl firstn. rewrite app_nil_r.
        f_equal.
        rewrite skipn_app, (skipn_all2 a) by lia. simpl app.
        replace (p + length a + S (length (takeWhile c t)) - p - length a)
          with (S (length (takeWhile c t))) by lia.
        cbn [skipn]. rewrite skipn_takeWhile.
        rewrite IH.
        -- simpl. rewrite Hb. simpl.
           rewrite (take_drop_while c t) at 2.
           rewrite filter_app, filter_takeWhile_neg. reflexivity.
        -- pose proof (dropWhile_length c t). simpl in Hlen. lia.
        -- pose proof (dropWhile_length c t). simpl in Hlen. lia. }
Qed.

Lemma replaceAll_plus_cls c s :
  replaceAll (plus (Cls c)) s [] = filter (fun x => negb (c x)) s.
Proof.
  unfold replaceAll, replaceAllFn, matchAll.
  apply (splice_plus_cls c (n := length s)); lia.
Qed.

Lemma try_at_cls c p x t :
  c x = true -> try_at (Cls c) p (x :: t) = Some (MkMatch p [x] []).
Proof.
  intros Hx. unfold try_at. rewrite step_cls by exact Hx. cbn [pos mcaps].
  replace (S p - p) with 1 by lia. reflexivity.
Qed.

Lemma try_at_cls_fail c q x t : c x = false -> try_at (Cls c) q (x :: t) = None.
Proof. intros H. unfold try_at. rewrite step_cls_fail by exact H. reflexivity. Qed.

(** [s.replace(/[c]/g, f)] rewrites the characters of the class one by
    one. *)
Lemma splice_cls c (f : Match -> jsstring) (g : jsstring -> jsstring) :
  (forall m, f m = g (m0 m)) ->
  forall s p fuel,
  length s < fuel ->
  splice p s (List.map (fun m => (index m, length (m0 m), f m))
                (matchAll_from fuel (Cls c) p s))
  = flat_map (fun x => if c x then g [x] else [x]) s.
Proof.
  intros Hf s. remember (length s) as n eqn:Hn. revert s Hn.
  induction n as [n IH] using lt_wf_ind. intros s Hn p fuel Hfuel.
  rewrite (take_drop_while (fun x => negb (c x)) s) at 1 2.
  set (a := takeWhile (fun x => negb (c x)) s).
  assert (Ha : forall x, In x a -> c x = false).
  { intros x Hx. pose proof (takeWhile_all (fun x => negb (c x)) s) as Hall.
    unfold allb in Hall. rewrite Forall_forall in Hall.
    apply Hall in Hx. apply negb_true_iff in Hx. exact Hx. }
  assert (Hfa : flat_map (fun x => if c x then g [x] else [x]) a = a).
  { clearbody a. induction a as [|y a IHa]; [reflexivity|]. simpl.
    rewrite (Ha y (or_introl eq_refl)). simpl. f_equal.
    apply IHa. intros; apply Ha; right; assumption. }
  assert (Hlen : length s = length a + length (dropWhile (fun x => negb (c x)) s)).
  { rewrite (take_drop_while (fun x => negb (c x)) s) at 1. apply length_app. }
  rewrite (take_drop_while (fun x => negb (c x)) s) at 3.
  fold a. rewrite flat_map_app, Hfa.
  destruct (dropWhile (fun x => negb (c x)) s) as [|x t] eqn:Ed.
  - rewrite matchAll_from_none.
    + simpl. rewrite app_nil_r. reflexivity.
    + apply scan_none; [|reflexivity].
      rewrite app_nil_r. intros y Hy q t'. apply try_at_cls_fail. auto.
  - pose proof (dropWhile_boundary (fun x => negb (c x)) s) as Hb.
    rewrite Ed in Hb. simpl in Hb. apply negb_false_iff in Hb.
    assert (Hscan : scan (Cls c) p (a ++ x :: t) = Some (MkMatch (p + length a) [x] [])).
    { rewrite scan_skip by (intros; apply try_at_cls_fail; auto).
      apply scan_here. apply try_at_cls. exact Hb. }
    assert (Hf' : length (a ++ x :: t) < fuel) by (rewrite length_app, <- Hlen; lia).
    assert (Hne' : m0 (MkMatch (p + length a) [x] []) <> []) by discriminate.
    rewrite (@matchAll_from_step _ _ _ _ _ Hf' Hscan Hne').
    cbn [index m0 List.map splice length].
    replace (p + length a - p) with (length a) by lia.
    rewrite firstn_app, Nat.sub_diag, firstn_all. simpl firstn. rewrite app_nil_r.
    f_equal. rewrite Hf. cbn [m0 flat_map]. rewrite Hb. f_equal.
    replace (p + length a + 1 - p) with (length a + 1) by lia.
    rewrite skipn_app, (skipn_all2 a) by lia. simpl app.
    replace (length a + 1 - length a) with 1 by lia. cbn [skipn].
    apply (IH (length t)); [simpl in Hlen; lia | reflexivity | simpl in Hlen; lia].
Qed.

Lemma replaceAllFn_cls c f g s :
  (forall m, f m = g (m0 m)) ->
  replaceAllFn (Cls c) s f = flat_map (fun x => if c x then g [x] else [x]) s.
Proof.
  intros Hf. unfold replaceAllFn, matchAll. apply (splice_cls c f g Hf). lia.
Qed.

Lemma replaceAll_cls c v s :
  replaceAll (Cls c) s v = flat_map (fun x => if c x then v else [x]) s.
Proof.
  unfold replaceAll. apply (replaceAllFn_cls c (fun _ => v) (fun _ => v)). reflexivity.
Qed.

(** *** The normalisations of the extraction *)

Lemma stripWs_filter s : stripWs s = filter (fun x => negb (is_ws x)) s.
Proof. apply replaceAll_plus_cls. Qed.

Lemma stripWs_wsfree s : wsfree (stripWs s).
Proof.
  rewrite stripWs_filter. apply Forall_forall. intros x Hx.
  apply filter_In in Hx as [_ Hx]. apply negb_true_iff. exact Hx.
Qed.

Lemma stripWs_id s : wsfree s -> stripWs s = s.
Proof.
  intros H. rewrite stripWs_filter. apply forallb_filter_id.
  apply forallb_forall. intros x Hx. unfold wsfree in H. rewrite Forall_forall in H.
  rewrite (H x Hx). reflexivity.
Qed.

Lemma halfWidthParens_map s : halfWidthParens s = List.map halfParen s.
Proof.
  unfold halfWidthParens.
  change (lit "）") with (Cls (c_is (ch "）"))).
  change (lit "（") with (Cls (c_is (ch "（"))).
  rewrite !replaceAll_cls.
  induction s as [|x s IH]; [reflexivity|].
  cbn [flat_map List.map]. rewrite <- IH. unfold halfParen, c_is.
  destruct (N.eqb x (ch "（")) eqn:E1.
  - apply N.eqb_eq in E1. subst x. reflexivity.
  - cbn [app flat_map]. destruct (N.eqb x (ch "）")) eqn:E2; reflexivity.
Qed.

Lemma normalizeFax_map s : normalizeFax s = List.map faxChar s.
Proof.
  unfold normalizeFax.
  rewrite replaceAll_cls.
  rewrite (replaceAllFn_cls c_fwdigit _
             (fun w => match w with c :: _ => [(c - 65248)%N] | [] => [] end))
    by reflexivity.
  induction s as [|x s IH]; [reflexivity|].
  cbn [flat_map List.map]. rewrite flat_map_app, IH. unfold faxChar.
  destruct (c_fwdigit x) eqn:E1.
  - cbn [flat_map app].
    assert (E2 : c_in "－ー" (x - 65248)%N = false).
    { unfold c_fwdigit, c_range in E1. apply andb_true_iff in E1 as [L U].
      apply N.leb_le in L, U. unfold c_in. vm_compute js. simpl.
      rewrite !orb_false_r. apply orb_false_iff. split; apply N.eqb_neq; lia. }
    rewrite E2. reflexivity.
  - cbn [flat_map app]. destruct (c_in "－ー" x); reflexivity.
Qed.

Lemma c_in_spec s x : c_in s x = true <-> In x (js s).
Proof.
  unfold c_in. rewrite existsb_exists. split.
  - intros (y & Hy & E). apply N.eqb_eq in E. subst. exact Hy.
  - intros H. exists x. split; [exact H | apply N.eqb_refl].
Qed.

Lemma c_is_spec a x : c_is a x = true <-> x = a.
Proof. unfold c_is. apply N.eqb_eq. Qed.

Lemma c_range_spec a b x : c_range a b x = true <-> (a <= x <= b)%N.
Proof.
  unfold c_range. rewrite andb_true_iff, !N.leb_le. tauto.
Qed.

(** Printable ASCII, and the characters above the ideographic space (the
    byte-order mark apart), are not white space. *)
Lemma nonws_ascii x : (32 < x)%N -> (x < 160)%N -> is_ws x = false.
Proof.
  intros L U. unfold is_ws.
  repeat match goal with
         | |- context [N.eqb ?a ?b] => destruct (N.eqb_spec a b); [lia|]
         end.
  repeat match goal with
         | |- context [N.leb ?a ?b] => destruct (N.leb_spec a b)
         end; simpl; try reflexivity; lia.
Qed.

Lemma nonws_high x : (12288 < x)%N -> x <> 65279%N -> is_ws x = false.
Proof.
  intros L U. unfold is_ws.
  repeat match goal with
         | |- context [N.eqb ?a ?b] => destruct (N.eqb_spec a b); [lia|]
         end.
  repeat match goal with
         | |- context [N.leb ?a ?b] => destruct (N.leb_spec a b)
         end; simpl; try reflexivity; lia.
Qed.

Lemma chars_in_seqs P l : Forall (chars_in P) l -> chars_in P (seqs l).
Proof.
  induction 1 as [|r l Hr Hl IH]; simpl; [exact I|].
  destruct l; [exact Hr | split; [exact Hr | exact IH]].
Qed.

Lemma chars_in_alts P l : Forall (chars_in P) l -> chars_in P (alts l).
Proof.
  induction 1 as [|r l Hr Hl IH]; simpl; [exact I|].
  destruct l; [exact Hr | split; [exact Hr | exact IH]].
Qed.

Lemma chars_in_lit (P : char -> Prop) s : Forall P (js s) -> chars_in P (lit s).
Proof.
  intros H. unfold lit. apply chars_in_seqs.
  induction H as [|x l Hx Hl IH]; simpl; constructor; [|exact IH].
  simpl. intros y Hy. apply c_is_spec in Hy. subst. exact Hx.
Qed.

Lemma group_in_seqs P i l : Forall (group_in P i) l -> group_in P i (seqs l).
Proof.
  induction 1 as [|r l Hr Hl IH]; simpl; [exact I|].
  destruct l; [exact Hr | split; [exact Hr | exact IH]].
Qed.

Lemma group_in_alts P i l : Forall (group_in P i) l -> group_in P i (alts l).
Proof.
  induction 1 as [|r l Hr Hl IH]; simpl; [exact I|].
  destruct l; [exact Hr | split; [exact Hr | exact IH]].
Qed.

Lemma group_in_lit (P : char -> Prop) i s : group_in P i (lit s).
Proof.
  unfold lit. apply group_in_seqs.
  induction (js s); simpl; constructor; [exact I | assumption].
Qed.

(** *** Case number *)

Lemma forallb_Forall (p : char -> bool) l : forallb p l = true -> Forall (fun x => p x = true) l.
Proof. intros H. apply Forall_forall. apply forallb_forall. exact H. Qed.

(** A class given by its members lies within a predicate that holds of
    each of them. *)
Lemma c_in_sub (p : char -> bool) s :
  forallb p (js s) = true -> forall x, c_in s x = true -> p x = true.
Proof.
  intros H x Hx. apply c_in_spec in Hx.
  rewrite forallb_forall in H. auto.
Qed.

Lemma c_is_sub (p : char -> bool) a : p a = true -> forall x, c_is a x = true -> p x = true.
Proof. intros H x Hx. apply c_is_spec in Hx. subst. exact H. Qed.

Lemma c_or_sub (p c d : char -> bool) :
  (forall x, c x = true -> p x = true) -> (forall x, d x = true -> p x = true) ->
  forall x, c_or c d x = true -> p x = true.
Proof. intros Hc Hd x Hx. apply orb_prop in Hx. destruct Hx; auto. Qed.

Create HintDb classes.

Ltac class_sub :=
  first [ solve [intros ? H; exact H] | solve [auto with classes] | class_sub_cases ]
with class_sub_cases :=
  lazymatch goal with
  | |- forall x, c_or _ _ x = true -> _ => apply c_or_sub; class_sub
  | |- forall x, c_in _ x = true -> _ => apply c_in_sub; vm_compute; reflexivity
  | |- forall x, c_is _ x = true -> _ => apply c_is_sub; vm_compute; reflexivity
  | |- forall x, ?c x = true -> ?p x = true =>
      let x := fresh "x" in let Hx := fresh "Hx" in
      intros x Hx; unfold p; unfold c_space, c_lparen, c_rparen in *;
      first [ rewrite Hx; rewrite ?orb_true_r; reflexivity
            | revert x Hx; apply c_in_sub; vm_compute; reflexivity ]
  end.

Ltac chars_tac :=
  lazymatch goal with
  | |- chars_in _ (seqs _) => apply chars_in_seqs; repeat (constructor; [chars_tac|])
  | |- chars_in _ (alts _) => apply chars_in_alts; repeat (constructor; [chars_tac|])
  | |- chars_in _ (lit _) => apply chars_in_lit; apply forallb_Forall; vm_compute; reflexivity
  | |- chars_in _ (Cls _) => cbn [chars_in]; class_sub
  | |- chars_in ?P (Grp _ ?r) => change (chars_in P r); chars_tac
  | |- chars_in ?P (star ?r) => change (chars_in P r); chars_tac
  | |- chars_in ?P (plus ?r) => change (chars_in P r); chars_tac
  | |- chars_in ?P (opt ?r) => change (chars_in P r); chars_tac
  | |- chars_in ?P (between _ _ ?r) => change (chars_in P r); chars_tac
  | |- chars_in ?P ws0 => change (chars_in P (Cls c_space)); chars_tac
  | |- chars_in ?P ws1 => change (chars_in P (Cls c_space)); chars_tac
  | |- chars_in _ ?r => unfold r; chars_tac
  end; try apply Forall_nil.

Ltac group_tac :=
  lazymatch goal with
  | |- group_in _ _ (seqs _) => apply group_in_seqs; repeat (constructor; [group_tac|])
  | |- group_in _ _ (alts _) => apply group_in_alts; repeat (constructor; [group_tac|])
  | |- group_in _ _ (lit _) => apply group_in_lit
  | |- group_in _ _ (Cls _) => exact I
  | |- group_in _ _ Eol => exact I
  | |- group_in _ _ Bol => exact I
  | |- group_in _ _ (NLook _) => exact I
  | |- group_in ?P ?i (Grp _ ?r) =>
      split; [intros ?; first [discriminate | chars_tac] | change (group_in P i r); group_tac]
  | |- group_in ?P ?i (star ?r) => change (group_in P i r); group_tac
  | |- group_in ?P ?i (plus ?r) => change (group_in P i r); group_tac
  | |- group_in ?P ?i (opt ?r) => change (group_in P i r); group_tac
  | |- group_in ?P ?i (between _ _ ?r) => change (group_in P i r); group_tac
  | |- group_in ?P ?i (between_lazy _ _ ?r) => change (group_in P i r); group_tac
  | |- group_in ?P ?i ws0 => exact I
  | |- group_in ?P ?i ws1 => exact I
  | |- group_in _ _ ?r => unfold r; group_tac
  end; try apply Forall_nil.

(** *** Classes without white space *)

Lemma nonws_wsfree s : Forall (fun x => nonws x = true) s <-> wsfree s.
Proof.
  unfold wsfree, nonws. split; intros H; eapply Forall_impl; try exact H;
    intros x Hx; simpl in *; [apply negb_true_iff | apply negb_true_iff]; exact Hx.
Qed.

Lemma range_nonws_high a b x :
  (12288 < a)%N -> (b < 65279)%N -> c_range a b x = true -> nonws x = true.
Proof.
  intros La Ub H. apply c_range_spec in H. unfold nonws.
  rewrite nonws_high; [reflexivity | lia | lia].
Qed.

Lemma kanji_nonws x : c_kanji x = true -> nonws x = true.
Proof. apply range_nonws_high; reflexivity. Qed.

Lemma cjk_nonws x : c_cjk x = true -> nonws x = true.
Proof.
  unfold c_cjk, c_or, c_hira, c_kata. intros H.
  apply orb_prop in H as [H | H]; [exact (kanji_nonws _ H)|].
  apply orb_prop in H as [H | H]; eapply range_nonws_high; try exact H; reflexivity.
Qed.

Lemma digit_nonws x : c_digit x = true -> nonws x = true.
Proof.
  intros H. apply c_range_spec in H. unfold nonws.
  rewrite nonws_ascii; [reflexivity | lia | lia].
Qed.

#[local] Hint Resolve kanji_nonws cjk_nonws digit_nonws : classes.

Lemma Forall_app2 (A : Type) (P : A -> Prop) l1 l2 :
  Forall P l1 -> Forall P l2 -> Forall P (l1 ++ l2).
Proof. intros. apply Forall_app. split; assumption. Qed.

Lemma wsfree_app a b : wsfree a -> wsfree b -> wsfree (a ++ b).
Proof. apply Forall_app2. Qed.

Lemma wsfree_firstn n s : wsfree s -> wsfree (firstn n s).
Proof.
  intros H. apply Forall_forall. intros x Hx.
  unfold wsfree in H. rewrite Forall_forall in H. apply H.
  rewrite <- (firstn_skipn n s). apply in_or_app. left. exact Hx.
Qed.

(** *** Case number *)

Lemma caseNumberPatterns_raw :
  Forall (group_in (fun x => rawCaseChar x = true) 1) caseNumberPatterns.
Proof.
  unfold caseNumberPatterns. repeat (constructor; [group_tac|]). constructor.
Qed.

Lemma halfParen_digit x : c_digit x = true -> caseNumberChar (halfParen x) = true.
Proof.
  intros H.
  assert (Hx : halfParen x = x).
  { apply c_range_spec in H. unfold halfParen.
    assert (E1 : ch "（" = 65288%N) by (vm_compute; reflexivity).
    assert (E2 : ch "）" = 65289%N) by (vm_compute; reflexivity).
    rewrite E1, E2.
    destruct (N.eqb_spec x 65288) as [E | _]; [lia|].
    destruct (N.eqb_spec x 65289) as [E | _]; [lia|].
    reflexivity. }
  rewrite Hx. unfold caseNumberChar. rewrite H. reflexivity.
Qed.

Lemma halfParen_symbol x : caseSymbols x = true -> caseNumberChar (halfParen x) = true.
Proof.
  revert x. apply (c_in_sub (fun x => caseNumberChar (halfParen x))).
  vm_compute. reflexivity.
Qed.

Lemma halfParen_word x :
  c_in "令平和年()第号（）" x = true -> caseNumberChar (halfParen x) = true.
Proof.
  revert x. apply (c_in_sub (fun x => caseNumberChar (halfParen x))).
  vm_compute. reflexivity.
Qed.

Lemma halfParen_case x :
  rawCaseChar x = true -> is_ws x = false -> caseNumberChar (halfParen x) = true.
Proof.
  unfold rawCaseChar. intros H Hws. rewrite Hws, orb_false_l in H. clear Hws.
  apply orb_prop in H as [H | H]; [apply orb_prop in H as [H | H]|].
  - apply halfParen_digit. exact H.
  - apply halfParen_symbol. exact H.
  - apply halfParen_word. exact H.
Qed.

Lemma symbol_nonws x : caseSymbols x = true -> nonws x = true.
Proof. revert x. apply (c_in_sub nonws). vm_compute. reflexivity. Qed.

Lemma word_nonws x : c_in "令平和年()第号" x = true -> nonws x = true.
Proof. revert x. apply (c_in_sub nonws). vm_compute. reflexivity. Qed.

Lemma caseNumberChar_nonws x : caseNumberChar x = true -> nonws x = true.
Proof.
  unfold caseNumberChar. intros H.
  apply orb_prop in H as [H | H]; [apply orb_prop in H as [H | H]|].
  - apply digit_nonws. exact H.
  - apply symbol_nonws. exact H.
  - apply word_nonws. exact H.
Qed.

Lemma firstCaseNumber_chars ps t cn :
  Forall (group_in (fun x => rawCaseChar x = true) 1) ps ->
  firstCaseNumber ps t = Some cn ->
  Forall (fun x => caseNumberChar x = true) cn.
Proof.
  induction 1 as [|p ps Hp Hps IH]; simpl; [discriminate|].
  destruct (exec p t) as [m|] eqn:E; [|exact IH].
  intros H. injection H as <-.
  apply scan_sound in E as [S1 _].
  pose proof (@cap_chars _ 1 _ _ S1 Hp) as Hcap. unfold cap, group in Hcap.
  rewrite halfWidthParens_map, stripWs_filter.
  apply Forall_forall. intros y Hy. apply in_map_iff in Hy as (x & <- & Hx).
  apply filter_In in Hx as [Hx Hws]. apply negb_true_iff in Hws.
  rewrite Forall_forall in Hcap. apply halfParen_case; auto.
Qed.

Lemma digits_fuel_digits fuel : forall n acc,
  Forall (fun x => c_digit x = true) acc ->
  Forall (fun x => c_digit x = true) (digits_fuel fuel n acc).
Proof.
  induction fuel as [|fuel IH]; intros n acc Hacc; simpl; [exact Hacc|].
  assert (Hd : c_digit (48 + n mod 10)%N = true).
  { apply c_range_spec. assert (Hm : (n mod 10 < 10)%N) by (apply N.mod_upper_bound; discriminate).
    revert Hm. generalize (n mod 10)%N. intros m Hm. lia. }
  destruct (n <? 10)%N; [constructor; assumption|].
  apply IH. constructor; assumption.
Qed.

Lemma decimalDigits_digits n : Forall (fun x => c_digit x = true) (decimalDigits n).
Proof. apply digits_fuel_digits. constructor. Qed.

(** *** Doubles *)

Lemma toDouble_small n : (n < 2 ^ 53)%N -> toDouble n = Finite n.
Proof. intros H. unfold toDouble. apply N.ltb_lt in H. rewrite H. reflexivity. Qed.

(** Rounding does not bring a number below [2^53]. *)
Lemma toDouble_large v m : (2 ^ 53 <= v)%N -> toDouble v = Finite m -> (2 ^ 53 <= m)%N.
Proof.
  intros Hv. unfold toDouble.
  assert (Hlt : (v <? 2 ^ 53)%N = false) by (apply N.ltb_ge; exact Hv).
  rewrite Hlt. cbv zeta.
  set (e := (N.log2 v - 52)%N). set (q := N.shiftr v e).
  match goal with |- context [N.shiftl ?x e] => set (q' := x) end.
  destruct (N.shiftl q' e <? 2 ^ 1024)%N; [|discriminate].
  intros H. injection H as <-.
  assert (Hpos : (0 < v)%N) by (apply N.lt_le_trans with (2 ^ 53)%N; [reflexivity | exact Hv]).
  destruct (N.log2_spec v Hpos) as [Hlo _].
  assert (Hlog : (53 <= N.log2 v)%N).
  { apply N.log2_le_mono in Hv. rewrite N.log2_pow2 in Hv by discriminate. exact Hv. }
  assert (Elog : N.log2 v = (e + 52)%N) by (unfold e; lia).
  assert (Hq : (2 ^ 52 <= q)%N).
  { unfold q. rewrite N.shiftr_div_pow2.
    rewrite Elog, N.pow_add_r in Hlo.
    apply N.div_le_lower_bound; [apply N.pow_nonzero; discriminate|].
    rewrite N.mul_comm in Hlo. rewrite N.mul_comm. exact Hlo. }
  assert (Hq' : (q <= q')%N).
  { unfold q'. match goal with |- context [if ?c then _ else _] => destruct c end; lia. }
  rewrite N.shiftl_mul_pow2.
  assert (He : (2 <= 2 ^ e)%N).
  { change 2%N with (2 ^ 1)%N at 1. apply N.pow_le_mono_r; [discriminate | unfold e; lia]. }
  change (2 ^ 53)%N with (2 ^ 52 * 2)%N.
  apply N.mul_le_mono; lia.
Qed.

Lemma toDouble_exact v n : (n < 2 ^ 53)%N -> toDouble v = Finite n -> v = n.
Proof.
  intros Hn H. destruct (N.lt_ge_cases v (2 ^ 53)) as [Hv | Hv].
  - rewrite (toDouble_small Hv) in H. injection H as ->. reflexivity.
  - pose proof (@toDouble_large v n Hv H). lia.
Qed.

Lemma number_eqb_eq a b : number_eqb a b = true -> a = b.
Proof.
  destruct a, b; simpl; intros H; try discriminate; [|reflexivity].
  apply N.eqb_eq in H. subst. reflexivity.
Qed.

Lemma shortest_from_sound fuel : forall k digitCount n,
  shortest_from fuel k digitCount n = n
  \/ toDouble (shortest_from fuel k digitCount n) = Finite n.
Proof.
  induction fuel as [|fuel IH]; intros k digitCount n; cbn [shortest_from]; [left; reflexivity|].
  cbv zeta.
  set (unit := (10 ^ N.of_nat (digitCount - k))%N).
  set (lo := (n / unit * unit)%N). set (hi := (lo + unit)%N).
  destruct (number_eqb (toDouble lo) (Finite n)) eqn:Elo;
    destruct (number_eqb (toDouble hi) (Finite n)) eqn:Ehi; cbn [andb].
  - apply number_eqb_eq in Elo, Ehi.
    destruct (n - lo <? hi - n)%N; [right; exact Elo|].
    destruct (hi - n <? n - lo)%N; [right; exact Ehi|].
    destruct (N.even (n / unit)); right; assumption.
  - right. apply number_eqb_eq. exact Elo.
  - right. apply number_eqb_eq. exact Ehi.
  - apply IH.
Qed.

(** A number below [2^53] is printed with all its digits. *)
Lemma shortestDecimal_exact n : (n < 2 ^ 53)%N -> shortestDecimal n = n.
Proof.
  intros Hn. unfold shortestDecimal.
  destruct (shortest_from_sound (length (decimalDigits n)) 1 (length (decimalDigits n)) n)
    as [E | E]; [exact E|].
  exact (@toDouble_exact _ n Hn E).
Qed.

Lemma numberToString_exact n :
  (n < 2 ^ 53)%N -> numberToString (Finite n) = decimalDigits n.
Proof.
  intros Hn. unfold numberToString. rewrite (shortestDecimal_exact Hn).
  assert (H : (n <? 10 ^ 21)%N = true).
  { apply N.ltb_lt. apply N.lt_trans with (2 ^ 53)%N; [exact Hn | reflexivity]. }
  rewrite H. reflexivity.
Qed.

Lemma parseInt_exact ds :
  (decimalValue ds < 2 ^ 53)%N -> parseInt ds = Finite (decimalValue ds).
Proof. apply toDouble_small. Qed.

(** What the program prints for some years, as Node prints them. *)
Lemma numberToString_samples :
  numberToString (parseInt (js "0006")) = js "6"
  /\ numberToString (parseInt (js "9007199254740993")) = js "9007199254740992"
  /\ numberToString (parseInt (js "18446744073709551616")) = js "18446744073709552000"
  /\ numberToString (parseInt (js "999999999999999999999")) = js "1e+21"
  /\ numberToString (parseInt (js "12345678901234567890123")) = js "1.2345678901234568e+22"
  /\ numberToString (parseInt (js "100000000000000000000000")) = js "1e+23"
  /\ numberToString (parseInt (repeat (ch "9") 400)) = js "Infinity".
Proof. repeat split; vm_compute; reflexivity. Qed.

Lemma rev_Forall (P : char -> Prop) s : Forall P s -> Forall P (rev s).
Proof. intros H. apply Forall_forall. intros x Hx. apply in_rev in Hx.
  rewrite Forall_forall in H. auto. Qed.

Lemma dropZeros_Forall (P : char -> Prop) s : Forall P s -> Forall P (dropZeros s).
Proof.
  induction 1 as [|x s Hx Hs IH]; simpl; [constructor|].
  destruct (N.eqb x 48); [exact IH | constructor; assumption].
Qed.

Lemma numberToString_chars x : Forall (fun c => numberChar c = true) (numberToString x).
Proof.
  assert (D : forall n, Forall (fun c => numberChar c = true) (decimalDigits n)).
  { intros n. eapply Forall_impl; [|apply decimalDigits_digits].
    intros c Hc. unfold numberChar. rewrite Hc. reflexivity. }
  destruct x as [n|]; unfold numberToString.
  - destruct (shortestDecimal n <? 10 ^ 21)%N; [apply D|].
    pose proof (rev_Forall (dropZeros_Forall (rev_Forall (D (shortestDecimal n))))) as Hs.
    fold (significantDigits (decimalDigits (shortestDecimal n))) in Hs.
    destruct (significantDigits (decimalDigits (shortestDecimal n))) as [|d more]; [apply D|].
    inversion Hs as [|? ? Hd Hmore]; subst.
    cbn [app]. constructor; [exact Hd|].
    apply Forall_app. split.
    + destruct more; [constructor|]. constructor; [vm_compute; reflexivity | exact Hmore].
    + apply Forall_app. split; [|apply D].
      apply forallb_Forall. vm_compute. reflexivity.
  - apply forallb_Forall. vm_compute. reflexivity.
Qed.

Lemma numberLe_refl a : numberLe a a.
Proof. destruct a; simpl; [lia | exact I]. Qed.

Lemma numberLe_trans a b c : numberLe a b -> numberLe b c -> numberLe a c.
Proof. destruct a, b, c; simpl; try tauto; lia. Qed.

Lemma minNumber_spec a b :
  (minNumber a b = a \/ minNumber a b = b)
  /\ numberLe (minNumber a b) a /\ numberLe (minNumber a b) b.
Proof.
  destruct a as [m|], b as [n|]; simpl.
  - destruct (N.min_spec m n) as [[H ->] | [H ->]]; split; auto; split; lia.
  - split; [auto|]. split; [lia | exact I].
  - split; [auto|]. split; [exact I | lia].
  - split; [auto|]. split; exact I.
Qed.

Lemma fold_minNumber l : forall a,
  In (fold_left minNumber l a) (a :: l)
  /\ forall y, In y (a :: l) -> numberLe (fold_left minNumber l a) y.
Proof.
  induction l as [|b l IH]; intros a.
  - simpl. split; [auto|]. intros y [<- | []]. apply numberLe_refl.
  - cbn [fold_left]. destruct (IH (minNumber a b)) as [Hin Hle].
    destruct (minNumber_spec a b) as (Hor & Ha & Hb). split.
    + destruct Hin as [E | Hin].
      * rewrite <- E. destruct Hor as [-> | ->]; simpl; auto.
      * right. right. exact Hin.
    + intros y [<- | [<- | Hy]].
      * eapply numberLe_trans; [apply Hle; left; reflexivity | exact Ha].
      * eapply numberLe_trans; [apply Hle; left; reflexivity | exact Hb].
      * apply Hle. right. exact Hy.
Qed.

(** [Math.min] of at least one argument is one of them, and the least. *)
Lemma minOf_least l :
  l <> [] -> In (minOf l) l /\ forall y, In y l -> numberLe (minOf l) y.
Proof.
  intros Hne. unfold minOf. destruct (fold_minNumber l Infinity) as [Hin Hle].
  split; [|intros y Hy; apply Hle; right; exact Hy].
  destruct Hin as [E | Hin]; [|exact Hin].
  destruct l as [|b l]; [congruence|].
  pose proof (Hle b (or_intror (or_introl eq_refl))) as Hb.
  rewrite <- E in Hb. destruct b; [contradiction|].
  rewrite <- E. left. reflexivity.
Qed.

Lemma digit_caseNumberChar x : c_digit x = true -> caseNumberChar x = true.
Proof. unfold caseNumberChar. intros ->. reflexivity. Qed.

Lemma symbol_caseNumberChar x : caseSymbols x = true -> caseNumberChar x = true.
Proof. unfold caseNumberChar. intros ->. rewrite orb_true_r. reflexivity. Qed.

#[local] Hint Resolve digit_caseNumberChar symbol_caseNumberChar : classes.

Lemma lit_caseNumberChar s :
  forallb caseNumberChar (js s) = true -> Forall (fun x => caseNumberChar x = true) (js s).
Proof. apply forallb_Forall. Qed.

(** A string put together from literal characters, literals and pieces
    already known to be within the predicate. *)
Ltac pieces2 L HP :=
  repeat first
    [ assumption
    | apply Forall_nil
    | apply L; vm_compute; reflexivity
    | apply Forall_cons; [apply HP; vm_compute; reflexivity|]
    | apply Forall_app2; [assumption|] ].

Lemma reiwaYears_runs t : reiwaYears t = List.map parseInt (yearRuns t).
Proof. unfold reiwaYears, yearRuns. rewrite map_map. reflexivity. Qed.

(** With every year below [2^53] the least of them is one of them, read
    exactly. *)
Lemma minOf_exact t :
  exactYears t -> reiwaYears t <> [] ->
  exists ds, In ds (yearRuns t) /\ (decimalValue ds < 2 ^ 53)%N
             /\ minOf (reiwaYears t) = Finite (decimalValue ds).
Proof.
  intros Hx Hne. destruct (minOf_least Hne) as [Hin _].
  rewrite reiwaYears_runs in Hin at 2. apply in_map_iff in Hin as (ds & E & Hds).
  unfold exactYears in Hx. rewrite Forall_forall in Hx.
  exists ds. split; [exact Hds|]. split; [apply Hx; exact Hds|].
  rewrite <- E. apply parseInt_exact. apply Hx. exact Hds.
Qed.

(** The case number of the display of the case is made of characters of
    case numbers and of the printed year. *)
Lemma caseNumberFromDisplay_pieces (P : char -> Prop) t cn :
  (forall x, caseNumberChar x = true -> P x) ->
  (reiwaYears t <> [] -> Forall P (numberToString (minOf (reiwaYears t)))) ->
  fst (caseNumberFromDisplay t) = Some cn -> Forall P cn.
Proof.
  intros HP Hyear. unfold caseNumberFromDisplay. fold (reiwaYears t).
  destruct (exec displaySection t) as [dm|]; [|discriminate].
  pose (Q := fun x => caseNumberChar x = true).
  assert (HQ : forall s, Forall Q s -> Forall P s).
  { intros s Hs. eapply Forall_impl; [|exact Hs]. exact HP. }
  assert (L : forall s, forallb caseNumberChar (js s) = true -> Forall P (js s))
    by (intros; apply HQ; apply lit_caseNumberChar; assumption).
  destruct (exec displayFull (cap 1 dm)) as [fm|] eqn:Ef.
  - cbn [fst]. intros H. injection H as <-.
    apply scan_sound in Ef as [S1 _].
    assert (H1 : Forall P (cap 1 fm))
      by (apply HQ; apply (@cap_chars Q 1 _ _ S1); unfold Q; group_tac).
    assert (H2 : Forall P (cap 2 fm))
      by (apply HQ; apply (@cap_chars Q 2 _ _ S1); unfold Q; group_tac).
    assert (H3 : Forall P (cap 3 fm))
      by (apply HQ; apply (@cap_chars Q 3 _ _ S1); unfold Q; group_tac).
    pieces2 L HP.
  - destruct (exec displayNum (cap 1 dm)) as [nm|] eqn:En; [|discriminate].
    apply scan_sound in En as [S1 _].
    assert (H1 : Forall P (cap 1 nm))
      by (apply HQ; apply (@cap_chars Q 1 _ _ S1); unfold Q; group_tac).
    assert (Hsym : Forall P match exec displaySymbol (cap 1 dm) with
                            | Some sm => cap 1 sm
                            | None => js "ワ"
                            end).
    { destruct (exec displaySymbol (cap 1 dm)) as [sm|] eqn:Es.
      - apply scan_sound in Es as [S2 _].
        apply HQ. apply (@cap_chars Q 1 _ _ S2); unfold Q; group_tac.
      - apply L. vm_compute. reflexivity. }
    destruct (reiwaYears t) as [|y ys]; cbn [fst]; intros H; injection H as <-.
    + pieces2 L HP.
    + assert (Hnum : Forall P (numberToString (minOf (y :: ys))))
        by (apply Hyear; discriminate).
      pieces2 L HP.
Qed.

Lemma printed_of_case x : caseNumberChar x = true -> printedCaseNumberChar x = true.
Proof. unfold printedCaseNumberChar. intros ->. reflexivity. Qed.

Lemma printed_of_number x : numberChar x = true -> printedCaseNumberChar x = true.
Proof.
  unfold numberChar, printedCaseNumberChar, caseNumberChar. intros H.
  apply orb_prop in H as [H | H]; rewrite H; [reflexivity | apply orb_true_r].
Qed.

Lemma caseNumberFromDisplay_chars t cn :
  fst (caseNumberFromDisplay t) = Some cn ->
  Forall (fun x => printedCaseNumberChar x = true) cn
  /\ (exactYears t -> Forall (fun x => caseNumberChar x = true) cn).
Proof.
  intros H. split.
  - apply (@caseNumberFromDisplay_pieces (fun x => printedCaseNumberChar x = true) t cn);
      [exact printed_of_case | | exact H].
    intros _. eapply Forall_impl; [|apply numberToString_chars].
    exact printed_of_number.
  - intros Hx.
    apply (@caseNumberFromDisplay_pieces (fun x => caseNumberChar x = true) t cn);
      [auto | | exact H].
    intros Hne. destruct (minOf_exact Hx Hne) as (ds & _ & Hlt & ->).
    rewrite (numberToString_exact Hlt).
    eapply Forall_impl; [|apply decimalDigits_digits].
    exact digit_caseNumberChar.
Qed.

Lemma extractCaseNumber_chars t cn :
  fst (extractCaseNumber t) = Some cn ->
  Forall (fun x => printedCaseNumberChar x = true) cn
  /\ (exactYears t -> Forall (fun x => caseNumberChar x = true) cn).
Proof.
  unfold extractCaseNumber.
  destruct (firstCaseNumber caseNumberPatterns t) as [cn'|] eqn:E.
  - simpl. intros H. injection H as <-.
    assert (Hc : Forall (fun x => caseNumberChar x = true) cn').
    { eapply firstCaseNumber_chars; [apply caseNumberPatterns_raw | exact E]. }
    split; [|intros _; exact Hc].
    eapply Forall_impl; [|exact Hc]. exact printed_of_case.
  - apply caseNumberFromDisplay_chars.
Qed.

Lemma Forall_concat (A : Type) (P : A -> Prop) (ls : list (list A)) :
  (forall l, In l ls -> Forall P l) -> Forall P (List.concat ls).
Proof.
  induction ls as [|l ls IH]; intros H; simpl; [constructor|].
  apply Forall_app2; [apply H; left; reflexivity|].
  apply IH. intros; apply H; right; assumption.
Qed.

Lemma Forall_firstn (A : Type) (P : A -> Prop) n (l : list A) :
  Forall P l -> Forall P (firstn n l).
Proof.
  intros H. rewrite <- (firstn_skipn n l) in H. apply Forall_app in H. tauto.
Qed.

Lemma Forall_skipn (A : Type) (P : A -> Prop) n (l : list A) :
  Forall P l -> Forall P (skipn n l).
Proof.
  intros H. rewrite <- (firstn_skipn n l) in H. apply Forall_app in H. tauto.
Qed.

(** Cutting a match out of a string leaves characters of the string. *)
Lemma replace_nil_Forall (P : char -> Prop) r s :
  Forall P s -> Forall P (replace r s []).
Proof.
  intros H. unfold replace, replaceFn.
  destruct (exec r s); [|exact H].
  apply Forall_app2; [apply Forall_firstn; exact H|].
  apply Forall_skipn. exact H.
Qed.

Lemma filter_Forall_neg (c : char -> bool) s :
  Forall (fun x => c x = false) (filter (fun x => negb (c x)) s).
Proof.
  apply Forall_forall. intros x Hx. apply filter_In in Hx as [_ Hx].
  apply negb_true_iff. exact Hx.
Qed.

(** *** Court name *)

Lemma fold_longest_In (l : list jsstring) (a : jsstring) :
  In (fold_left (fun a b => if Nat.leb (length b) (length a) then a else b) l a) (a :: l).
Proof.
  revert a. induction l as [|b l IH]; intros a; simpl; [auto|].
  destruct (Nat.leb (length b) (length a)).
  - destruct (IH a) as [H | H]; auto.
  - right. apply IH.
Qed.

Lemma extractCourtName_wsfree t c : extractCourtName t = Some c -> wsfree c.
Proof.
  unfold extractCourtName, longest.
  destruct (courtCandidates t) as [|a l] eqn:E; [discriminate|].
  intros H. injection H as <-.
  pose proof (fold_longest_In l a) as Hin. rewrite <- E in Hin.
  unfold courtCandidates in Hin. apply in_map_iff in Hin as (m & <- & _).
  apply stripWs_wsfree.
Qed.

(** *** Case name *)

Lemma caseNameCleanup_nonws :
  group_in (fun x => nonws x = true) 1 caseNameCleanup.
Proof. group_tac. Qed.

Lemma caseNameOfMatch_wsfree m v : caseNameOfMatch m = Some v -> wsfree v.
Proof.
  unfold caseNameOfMatch.
  set (c := c_or c_space (c_or (c_is 10) (c_is 13))).
  match goal with
  | |- context [replaceAll (plus (Cls c)) ?s []] => set (caseName := s)
  end.
  rewrite replaceAll_plus_cls.
  assert (Hws : wsfree (filter (fun x => negb (c x)) caseName)).
  { eapply Forall_impl; [|apply filter_Forall_neg].
    intros x Hx. unfold c, c_or, c_space in Hx.
    apply orb_false_iff in Hx. tauto. }
  destruct (exec caseNameCleanup _) as [cleaned|] eqn:E.
  - intros H. injection H as <-.
    apply scan_sound in E as [S1 _].
    apply nonws_wsfree. apply (@cap_chars _ 1 _ _ S1). apply caseNameCleanup_nonws.
  - destruct (includes _ _); [|discriminate].
    intros H. injection H as <-. exact Hws.
Qed.

Lemma firstCaseName_wsfree ps t v : firstCaseName ps t = Some v -> wsfree v.
Proof.
  induction ps as [|p ps IH]; simpl; [discriminate|].
  destruct (exec p t) as [m|]; [apply caseNameOfMatch_wsfree | exact IH].
Qed.

(** *** Party names *)

Lemma digit_othersChar x : c_digit x = true -> othersChar x = true.
Proof. unfold othersChar. intros ->. reflexivity. Qed.

#[local] Hint Resolve digit_othersChar : classes.

Lemma othersSplit_chars : group_in (fun x => othersChar x = true) 1 othersSplit.
Proof. group_tac. Qed.

Lemma split_loop_second r whole fuel : forall p q p0 p1 tl,
  Split.split_loop fuel r 1 whole p q = p0 :: p1 :: tl ->
  exists q' m, try_at r q' (skipn q' whole) = Some m /\ p1 = cap 1 m.
Proof.
  induction fuel as [|fuel IH]; intros p q p0 p1 tl; simpl; [discriminate|].
  destruct (Nat.leb (length whole) q); [discriminate|].
  destruct (try_at r q (skipn q whole)) as [m|] eqn:E; [|apply IH].
  destruct (Nat.eqb _ p); [apply IH|].
  intros H. injection H as _ <- _. exists q, m. auto.
Qed.

Lemma partyName_shape captured : partyShape (partyName captured).
Proof.
  unfold partyName.
  set (nm := replaceFn othersSuffix (trim captured) _).
  destruct (Split.split othersSplit 1 nm) as [|p0 [|p1 tl]] eqn:E;
    try (left; apply stripWs_wsfree).
  right. exists (stripWs p0), p1. split; [reflexivity|]. split; [apply stripWs_wsfree|].
  unfold Split.split in E. destruct nm as [|x nm'].
  - destruct (try_at othersSplit 0 []); discriminate.
  - apply split_loop_second in E as (q & m & Hm & ->).
    apply try_at_sound in Hm as (_ & S1 & _).
    apply (@cap_chars _ 1 _ _ S1). apply othersSplit_chars.
Qed.

Lemma firstPartyName_shape ps t v : firstPartyName ps t = Some v -> partyShape v.
Proof.
  induction ps as [|p ps IH]; simpl; [discriminate|].
  destruct (exec p t); [|exact IH].
  intros H. injection H as <-. apply partyName_shape.
Qed.

Lemma extractParty_shape labelPattern fallback t v :
  extractParty labelPattern fallback t = Some v -> partyShape v.
Proof.
  unfold extractParty.
  assert (Hsec : forall w, partyInSection labelPattern t = Some w -> partyShape w).
  { unfold partyInSection. intros w.
    destruct (exec partySectionPattern t) as [ps|]; [|discriminate].
    destruct (exec labelPattern (m0 ps)); [|discriminate].
    intros H. injection H as <-. apply partyName_shape. }
  destruct (truthy (partyInSection labelPattern t)); [apply Hsec|].
  destruct (firstPartyName fallback t) as [n|] eqn:E; [|apply Hsec].
  intros H. injection H as <-. eapply firstPartyName_shape. exact E.
Qed.

(** *** Counsel name *)

Lemma cleanLawyerName_cjk raw v : cleanLawyerName raw = Some v -> cjkName v.
Proof.
  unfold cleanLawyerName.
  destruct (matchAll (plus (Cls c_cjk)) (trim raw)) as [|m ms] eqn:E; [discriminate|].
  set (joined := join (List.map m0 (m :: ms))).
  assert (Hj : cjkName joined).
  { apply Forall_concat. intros l Hl. apply in_map_iff in Hl as (m' & <- & Hm').
    rewrite <- E in Hm'. apply matchAll_sound in Hm'.
    apply (Sem_chars (fun x => c_cjk x = true) Hm'). simpl. auto. }
  destruct (_ || _); [discriminate|].
  destruct (test _ _); [discriminate|].
  intros H. injection H as <-.
  apply replace_nil_Forall. apply replace_nil_Forall. exact Hj.
Qed.

Lemma flat_map_cjk (f : Match -> list Candidate) ms :
  (forall m c, In c (f m) -> cjkName (name c)) -> cjkNames (flat_map f ms).
Proof.
  intros H c Hc. apply in_flat_map in Hc as (m & _ & Hc). eapply H. exact Hc.
Qed.

Lemma cleaned_candidate raw p c :
  In c match cleanLawyerName raw with Some n => [MkCandidate n p] | None => [] end ->
  cjkName (name c).
Proof.
  destruct (cleanLawyerName raw) as [n|] eqn:E; [|intros []].
  intros [<- | []]. simpl. eapply cleanLawyerName_cjk. exact E.
Qed.

Lemma lawyerCandidates_cjk cfg t : cjkNames (lawyerCandidates cfg t).
Proof.
  intros c Hc. unfold lawyerCandidates in Hc.
  repeat (apply in_app_or in Hc; destruct Hc as [Hc | Hc]);
    revert c Hc; apply flat_map_cjk; intros m c.
  - apply cleaned_candidate.
  - destruct (includes _ _); [intros [] | apply cleaned_candidate].
  - apply cleaned_candidate.
  - destruct (includes _ _); [intros []|].
    destruct (cleanLawyerName (cap 1 m)) as [n|] eqn:E; [|intros []].
    destruct (existsb _ _); [intros []|].
    intros [<- | []]. simpl. eapply cleanLawyerName_cjk. exact E.
Qed.

Section SortIn.
Variable A : Type.
Variable cmp : A -> A -> Z.

Lemma insertSorted_incl x y l : In y (insertSorted cmp x l) -> y = x \/ In y l.
Proof.
  induction l as [|z l IH]; simpl.
  - intuition.
  - destruct (cmp x z <? 0)%Z; simpl; intuition.
Qed.

Lemma stableSort_incl y l : In y (stableSort cmp l) -> In y l.
Proof.
  unfold stableSort.
  assert (H : forall acc, In y (fold_left (fun acc x => insertSorted cmp x acc) l acc) ->
                          In y l \/ In y acc).
  { induction l as [|x l IH]; intros acc; simpl; [auto|].
    intros Hy. apply IH in Hy as [Hy | Hy]; [auto|].
    apply insertSorted_incl in Hy. intuition. }
  intros Hy. apply H in Hy as [Hy | []]. exact Hy.
Qed.
End SortIn.

Lemma rankedCandidates_incl cands c : In c (rankedCandidates cands) -> In c cands.
Proof.
  unfold rankedCandidates, uniqueCandidates. intros H.
  apply stableSort_incl in H. apply in_flat_map in H as (n & _ & H).
  unfold bestOfName in H.
  destruct (stableSort _ (filter _ cands)) as [|b l] eqn:E; simpl in H; [destruct H|].
  destruct H as [<- | []].
  assert (Hb : In b (stableSort (fun a b0 => (Z.of_nat (priority a) - Z.of_nat (priority b0))%Z)
                       (filter (fun c0 => str_eqb (name c0) n) cands)))
    by (rewrite E; left; reflexivity).
  apply stableSort_incl in Hb. apply filter_In in Hb. tauto.
Qed.

Lemma chooseLawyer_cjk cands v : cjkNames cands -> chooseLawyer cands = Some v -> cjkName v.
Proof.
  intros Hc. unfold chooseLawyer.
  destruct (rankedCandidates cands) as [|best l] eqn:E; [discriminate|].
  assert (Hb : cjkName (name best)).
  { apply Hc. apply rankedCandidates_incl. rewrite E. left. reflexivity. }
  destruct (_ && _); intros H; injection H as <-; [|exact Hb].
  unfold substring. apply Forall_firstn. apply Forall_skipn. exact Hb.
Qed.

Lemma cjkName_wsfree v : cjkName v -> wsfree v.
Proof.
  intros H. apply nonws_wsfree. eapply Forall_impl; [|exact H].
  intros x. apply cjk_nonws.
Qed.

(** *** Fax numbers *)

Lemma faxChar_digit x : c_digit x = true -> faxNumberChar (faxChar x) = true.
Proof.
  intros H. assert (Hx : faxChar x = x).
  { pose proof H as H'. apply c_range_spec in H'. unfold faxChar.
    assert (E1 : c_fwdigit x = false).
    { unfold c_fwdigit, c_range. apply andb_false_iff. left. apply N.leb_gt. lia. }
    assert (E2 : c_in "－ー" x = false).
    { destruct (c_in "－ー" x) eqn:E; [|reflexivity].
      assert (Hbig : forall y, c_in "－ー" y = true -> (1000 <? y)%N = true)
        by (apply c_in_sub; vm_compute; reflexivity).
      apply Hbig in E. apply N.ltb_lt in E. lia. }
    rewrite E1, E2. reflexivity. }
  rewrite Hx. unfold faxNumberChar. rewrite H. reflexivity.
Qed.

Lemma faxChar_fwdigit x : c_fwdigit x = true -> faxNumberChar (faxChar x) = true.
Proof.
  intros H. unfold faxChar. rewrite H.
  apply c_range_spec in H. unfold faxNumberChar.
  assert (Hd : c_digit (x - 65248)%N = true) by (apply c_range_spec; lia).
  rewrite Hd. reflexivity.
Qed.

Lemma faxChar_hyphen x : c_in "-－ー" x = true -> faxNumberChar (faxChar x) = true.
Proof.
  revert x. apply (c_in_sub (fun x => faxNumberChar (faxChar x))).
  vm_compute. reflexivity.
Qed.

Lemma faxChar_ok x : rawFaxChar x = true -> faxNumberChar (faxChar x) = true.
Proof.
  unfold rawFaxChar, c_or. intros H.
  apply orb_prop in H as [H | H]; [apply faxChar_digit; exact H|].
  apply orb_prop in H as [H | H]; [apply faxChar_fwdigit | apply faxChar_hyphen]; exact H.
Qed.

Lemma normalizeFax_ok s :
  Forall (fun x => rawFaxChar x = true) s -> faxNumber (normalizeFax s).
Proof.
  intros H. rewrite normalizeFax_map. apply Forall_forall. intros y Hy.
  apply in_map_iff in Hy as (x & <- & Hx).
  rewrite Forall_forall in H. apply faxChar_ok. auto.
Qed.

Lemma explicitCourtFax_group : group_in (fun x => rawFaxChar x = true) 1 explicitCourtFaxPattern.
Proof. group_tac. Qed.

Lemma explicitFax_group : group_in (fun x => rawFaxChar x = true) 2 explicitFaxRegex.
Proof. group_tac. Qed.

Lemma faxRegex_group : group_in (fun x => rawFaxChar x = true) 1 faxRegex.
Proof. group_tac. Qed.

Lemma explicitStep_ok cfg st ef :
  faxNumber (efax ef) -> faxesOk st -> faxesOk (explicitStep cfg st ef).
Proof.
  intros He [H1 H2]. unfold explicitStep.
  destruct (_ || _); [split; assumption|].
  destruct (_ && _); [split; assumption|].
  destruct (_ && _); [|split; assumption].
  split; simpl; [exact H1|]. intros v Hv. injection Hv as <-. exact He.
Qed.

Lemma entryStep_ok cfg t st e :
  faxNumber (fax e) -> faxesOk st -> faxesOk (entryStep cfg t st e).
Proof.
  intros He [H1 H2]. unfold entryStep.
  destruct (isOwnFax cfg (fax e)); [split; assumption|].
  destruct (_ && _); [split; assumption|].
  destruct (isNearDefendantLawyer t e); [split; assumption|].
  destruct (isKnownCourtFax e).
  - destruct (truthy (fromPdf st)); [split; assumption|].
    split; simpl; [|exact H2]. intros v Hv. injection Hv as <-. exact He.
  - destruct (isNearPlaintiffLawyer t e);
      (destruct (truthy (counselFax st)); [split; assumption|];
       split; simpl; [exact H1|]; intros v Hv; injection Hv as <-; exact He).
Qed.

Lemma fold_left_invariant_In (S E : Type) (P : S -> Prop) (step : S -> E -> S) l :
  (forall s e, In e l -> P s -> P (step s e)) -> forall s, P s -> P (fold_left step l s).
Proof.
  induction l as [|e l IH]; intros Hstep s Hs; simpl; [exact Hs|].
  apply IH.
  - intros s' e' He'. apply Hstep. right. exact He'.
  - apply Hstep; [left; reflexivity | exact Hs].
Qed.

Lemma extractFaxes_ok cfg t : faxesOk (extractFaxes cfg t).
Proof.
  unfold extractFaxes.
  apply fold_left_invariant_In.
  { intros st e He. apply entryStep_ok.
    unfold allFaxEntries in He. apply in_map_iff in He as (m & <- & Hm). simpl.
    apply matchAll_sound in Hm. apply normalizeFax_ok.
    apply (@cap_chars _ 1 _ _ Hm). apply faxRegex_group. }
  apply fold_left_invariant_In.
  { intros st ef He. apply explicitStep_ok.
    unfold allExplicitFaxes in He. apply in_map_iff in He as (m & <- & Hm). simpl.
    apply matchAll_sound in Hm. apply normalizeFax_ok.
    apply (@cap_chars _ 2 _ _ Hm). apply explicitFax_group. }
  split; simpl; [|discriminate].
  destruct (exec explicitCourtFaxPattern t) as [m|] eqn:E; [|discriminate].
  intros v Hv. injection Hv as <-.
  apply scan_sound in E as [S1 _]. apply normalizeFax_ok.
  apply (@cap_chars _ 1 _ _ S1). apply explicitCourtFax_group.
Qed.

Lemma lookupFax_forall (p : jsstring -> bool) m k v :
  forallb (fun kv => p (snd kv)) m = true -> lookupFax k m = Some v -> p v = true.
Proof.
  induction m as [|[k' v'] m IH]; simpl; [discriminate|].
  intros H. apply andb_true_iff in H as [H1 H2].
  destruct (str_eqb k k'); [|apply IH; exact H2].
  intros E. injection E as <-. exact H1.
Qed.

Lemma dictionaryFax_ok c : faxNumber (dictionaryFax c).
Proof.
  unfold dictionaryFax.
  destruct (lookupFax (courtBase c) COURT_FAX_MAP) as [v|] eqn:E; [|constructor].
  apply forallb_Forall.
  assert (Hall : forallb (fun kv => forallb faxNumberChar (snd kv)) COURT_FAX_MAP = true)
    by (vm_compute; reflexivity).
  exact (lookupFax_forall (forallb faxNumberChar) _ _ Hall E).
Qed.

Lemma faxNumber_wsfree v : faxNumber v -> wsfree v.
Proof.
  intros H. apply nonws_wsfree. eapply Forall_impl; [|exact H].
  intros x Hx. unfold faxNumberChar in Hx. apply orb_prop in Hx as [Hx | Hx].
  - apply digit_nonws. exact Hx.
  - apply c_is_spec in Hx. subst. vm_compute. reflexivity.
Qed.

Lemma caseNumber_wsfree v : Forall (fun x => caseNumberChar x = true) v -> wsfree v.
Proof.
  intros H. apply nonws_wsfree. eapply Forall_impl; [|exact H].
  intros x. apply caseNumberChar_nonws.
Qed.

Lemma printedCaseNumber_wsfree v :
  Forall (fun x => printedCaseNumberChar x = true) v -> wsfree v.
Proof.
  intros H. apply nonws_wsfree. eapply Forall_impl; [|exact H].
  intros x Hx. unfold printedCaseNumberChar in Hx. apply orb_prop in Hx as [Hx | Hx].
  - apply caseNumberChar_nonws. exact Hx.
  - revert x Hx. apply (c_in_sub nonws). vm_compute. reflexivity.
Qed.

(** ** The page search *)

Section Scan.
Variable recognise : nat -> OcrResult.

Lemma beats_trans a b bs :
  beats a bs = true -> (a < b)%Z -> beats b bs = true.
Proof.
  destruct bs as [c|]; simpl; auto.
  intros H1 H2. apply Z.ltb_lt in H1. apply Z.ltb_lt. lia.
Qed.

(** A confident page ends the loop at once: the pages after it are not
    recognised. *)
Lemma scanPages_confident pre p post bp bo bs log :
  Forall (fun q => (pageScore recognise q < 50)%Z) pre ->
  (50 <= pageScore recognise p)%Z ->
  scanPages recognise (pre ++ p :: post) bp bo bs log
  = (MkLocated p (Some (recognise p)), log ++ pre ++ [p]).
Proof.
  revert bp bo bs log.
  induction pre as [|q pre IH]; intros bp bo bs log Hpre Hp; simpl.
  - unfold bind, runOcr, ret. simpl.
    fold (pageScore recognise p). apply Z.leb_le in Hp. rewrite Hp. reflexivity.
  - inversion Hpre as [|? ? Hq Hpre']; subst.
    unfold bind, runOcr. simpl. fold (pageScore recognise q).
    assert (Hlow : (50 <=? pageScore recognise q)%Z = false) by (apply Z.leb_gt; exact Hq).
    rewrite Hlow. rewrite (IH _ _ _ _ Hpre' Hp).
    rewrite <- app_assoc. reflexivity.
Qed.

(** Without a confident page every page is recognised, and the page
    returned is the incumbent or a page that beats it; nothing scanned
    scores higher. *)
Lemma scanPages_exhaustive order bp bo bs log :
  Forall (fun q => (pageScore recognise q < 50)%Z) order ->
  snd (scanPages recognise order bp bo bs log) = log ++ order /\
  let r := fst (scanPages recognise order bp bo bs log) in
  (pageNum r = bp /\ ocr r = bo /\
     (order = [] \/ exists b, bs = Some b /\ Forall (fun q => (pageScore recognise q <= b)%Z) order))
  \/ (In (pageNum r) order /\ ocr r = Some (recognise (pageNum r)) /\
      beats (pageScore recognise (pageNum r)) bs = true /\
      Forall (fun q => (pageScore recognise q <= pageScore recognise (pageNum r))%Z) order).
Proof.
  revert bp bo bs log.
  induction order as [|p order IH]; intros bp bo bs log Hlow; simpl.
  - rewrite app_nil_r. split; [reflexivity|]. left. auto.
  - inversion Hlow as [|? ? Hp Hlow']; subst.
    unfold bind, runOcr. simpl. fold (pageScore recognise p).
    assert (Hlt : (50 <=? pageScore recognise p)%Z = false) by (apply Z.leb_gt; exact Hp).
    rewrite Hlt.
    destruct (beats (pageScore recognise p) bs) eqn:Hb.
    + destruct (IH p (Some (recognise p)) (Some (pageScore recognise p)) (log ++ [p]) Hlow')
        as [Hlog Hres].
      split; [rewrite Hlog, <- app_assoc; reflexivity|].
      right. destruct Hres as [(Hn & Ho & Hle) | (Hin & Ho & Hbt & Hle)].
      * split; [rewrite Hn; left; reflexivity|].
        split; [rewrite Ho, Hn; reflexivity|].
        split; [rewrite Hn; exact Hb|].
        rewrite Hn. constructor; [lia|].
        destruct Hle as [-> | (b & Hb' & Hall)]; [constructor|].
        injection Hb' as <-. exact Hall.
      * simpl in Hbt. apply Z.ltb_lt in Hbt.
        split; [right; exact Hin|].
        split; [exact Ho|].
        split; [eapply beats_trans; eauto|].
        constructor; [lia | exact Hle].
    + destruct bs as [b|]; [|discriminate Hb]. simpl in Hb. apply Z.ltb_ge in Hb.
      destruct (IH bp bo (Some b) (log ++ [p]) Hlow') as [Hlog Hres].
      split; [rewrite Hlog, <- app_assoc; reflexivity|].
      destruct Hres as [(Hn & Ho & Hle) | (Hin & Ho & Hbt & Hle)].
      * left. split; [exact Hn|]. split; [exact Ho|].
        right. exists b. split; [reflexivity|].
        constructor; [exact Hb|].
        destruct Hle as [-> | (b' & Hb' & Hall)]; [constructor|].
        injection Hb' as <-. exact Hall.
      * right. simpl in Hbt. apply Z.ltb_lt in Hbt.
        split; [right; exact Hin|].
        split; [exact Ho|].
        split; [simpl; apply Z.ltb_lt; exact Hbt|].
        constructor; [lia | exact Hle].
Qed.
End Scan.

(** C3.  A single page is returned at once.  With two pages or more the
    pages are recognised in the order first, last, 2, 3, ..., last but one;
    the first page that scores 50 or more is returned, and no page after it
    is recognised; when no page scores 50, every page is recognised and the
    page returned has the highest score of all. *)
Theorem findReceiptPage_scan (recognise : nat -> OcrResult) (totalPages : nat) :
  findReceiptPage recognise 1 [] = (MkLocated 1 (Some (recognise 1)), [1]) /\
  (2 <= totalPages ->
   let order := [1; totalPages] ++ seq 2 (totalPages - 2) in
   let result := fst (findReceiptPage recognise totalPages []) in
   let scanned := snd (findReceiptPage recognise totalPages []) in
   (forall pre p post,
      order = pre ++ p :: post ->
      Forall (fun q => (pageScore recognise q < 50)%Z) pre ->
      (50 <= pageScore recognise p)%Z ->
      result = MkLocated p (Some (recognise p)) /\ scanned = pre ++ [p]) /\
   (Forall (fun q => (pageScore recognise q < 50)%Z) order ->
      scanned = order /\
      In (pageNum result) order /\
      ocr result = Some (recognise (pageNum result)) /\
      Forall (fun q => (pageScore recognise q <= pageScore recognise (pageNum result))%Z)
        order)).
Proof.
  split; [reflexivity|].
  intros Hn order result scanned.
  assert (Hfind : findReceiptPage recognise totalPages
                  = scanPages recognise order 1 None None).
  { unfold findReceiptPage.
    destruct (Nat.eqb totalPages 1) eqn:E; [apply Nat.eqb_eq in E; lia|reflexivity]. }
  subst result scanned. rewrite Hfind. split.
  - intros pre p post Ho Hpre Hp. rewrite Ho.
    rewrite (@scanPages_confident recognise pre p post 1 None None [] Hpre Hp).
    simpl. auto.
  - intros Hall.
    destruct (@scanPages_exhaustive recognise order 1 None None [] Hall) as [Hlog Hres].
    split; [exact Hlog|].
    destruct Hres as [(_ & _ & [Hnil | (b & Hb & _)]) | (Hin & Ho & _ & Hle)].
    + discriminate Hnil.
    + discriminate Hb.
    + auto.
Qed.

Lemma findReceiptPage_scan_witness :
  2 <= 5 /\
  fst (findReceiptPage fivePages 5 []) = MkLocated 4 (Some (fivePages 4)) /\
  snd (findReceiptPage fivePages 5 []) = [1; 5; 2; 3; 4].
Proof.
  split; [lia|].
  destruct (findReceiptPage_scan fivePages 5) as [_ H].
  destruct (H ltac:(lia)) as [Hconf _].
  apply (Hconf [1; 5; 2; 3] 4 []).
  - reflexivity.
  - repeat constructor.
  - vm_compute. discriminate.
Defined.

(** ** The strike target *)

Lemma fold_pick_In (pick : OcrWord -> OcrWord -> bool) (l : list OcrWord) (a : OcrWord) :
  In (fold_left (fun a b => if pick a b then a else b) l a) (a :: l).
Proof.
  revert a. induction l as [|b l IH]; intros a; simpl.
  - left. reflexivity.
  - destruct (pick a b).
    + destruct (IH a) as [H|H]; [left; exact H | right; right; exact H].
    + right. exact (IH b).
Qed.

Lemma reduceWords_In pick l g : reduceWords pick l = Some g -> In g l.
Proof.
  destruct l as [|a l]; simpl; [discriminate|].
  intros H. injection H as <-. apply fold_pick_In.
Qed.

Lemma reduceWords_nonempty pick a l : reduceWords pick (a :: l) <> None.
Proof. simpl. discriminate. Qed.

Lemma detectGyou_In words g : detectGyou words = Some g -> In g (gyouWords words).
Proof.
  unfold detectGyou. fold (gyouWords words).
  destruct (gyouWords words) as [|a l] eqn:E; [discriminate|].
  destruct (find _ (receiptWords words)) as [b|].
  - destruct (reduceWords _ (filter _ (a :: l))) as [g'|] eqn:R.
    + intros H. injection H as <-.
      apply reduceWords_In in R. apply filter_In in R. tauto.
    + apply reduceWords_In.
  - apply reduceWords_In.
Qed.

Lemma detectGyou_none words : gyouWords words = [] -> detectGyou words = None.
Proof. unfold detectGyou. fold (gyouWords words). intros ->. reflexivity. Qed.

Lemma detectGyou_some words : gyouWords words <> [] -> detectGyou words <> None.
Proof.
  unfold detectGyou. fold (gyouWords words).
  destruct (gyouWords words) as [|a l]; [congruence|]. intros _.
  destruct (find _ (receiptWords words)) as [b|].
  - destruct (reduceWords _ (filter _ (a :: l))); [discriminate|].
    apply reduceWords_nonempty.
  - apply reduceWords_nonempty.
Qed.

(** C4.  A strike target, when there is one, is a word of the receipt
    section whose text is exactly the one character 行; when no word of the
    receipt section has exactly that text the target is absent, whatever
    other words there are, and the annotation step draws nothing. *)
Theorem strike_target_exact (words : list OcrWord) (imgW imgH : Z) (pgW pgH gyouCharW : Q) :
  (forall g, detectGyou words = Some g ->
     In g words /\ wtext g = js "行" /\ (findReceiptSectionStart words <= y1 g)%Z) /\
  ((forall w, In w (receiptWords words) -> wtext w <> js "行") ->
     detectGyou words = None /\
     gyouPdf words imgW imgH pgW pgH = None /\
     strikeAnnotation gyouCharW (gyouPdf words imgW imgH pgW pgH) = []).
Proof.
  split.
  - intros g H. apply detectGyou_In in H. unfold gyouWords in H.
    apply filter_In in H as [Hrw Htext].
    unfold receiptWords in Hrw. apply filter_In in Hrw as [Hin Hy].
    apply str_eqb_eq in Htext. apply Z.leb_le in Hy. auto.
  - intros Hnone.
    assert (Hg : detectGyou words = None).
    { apply detectGyou_none. unfold gyouWords.
      destruct (filter _ (receiptWords words)) as [|a l] eqn:E; [reflexivity|].
      assert (Ha : In a (a :: l)) by (left; reflexivity).
      rewrite <- E in Ha. apply filter_In in Ha as [Hrw Htext].
      apply str_eqb_eq in Htext. destruct (Hnone a Hrw Htext). }
    unfold gyouPdf. rewrite Hg. auto.
Qed.

Lemma strike_target_exact_witness :
  detectGyou honorificPage = None /\
  strikeAnnotation (21 # 2) (gyouPdf honorificPage 2480 3508 (595 # 1) (842 # 1)) = [].
Proof.
  destruct (strike_target_exact honorificPage 2480 3508 (595 # 1) (842 # 1) (21 # 2))
    as [_ H].
  destruct H as (H1 & _ & H3).
  - intros w Hin. vm_compute in Hin.
    repeat (destruct Hin as [<- | Hin]; [vm_compute; discriminate|]).
    destruct Hin.
  - split; assumption.
Defined.

(** ** Court name, counsel name and own fax numbers *)

Lemma fold_longest_spec (l : list jsstring) (a : jsstring) :
  let c := fold_left (fun a b => if Nat.leb (length b) (length a) then a else b) l a in
  In c (a :: l) /\ Forall (fun d => length d <= length c) (a :: l).
Proof.
  revert a. induction l as [|b l IH]; intros a; simpl.
  - split; [left; reflexivity | repeat constructor].
  - destruct (Nat.leb (length b) (length a)) eqn:E.
    + apply Nat.leb_le in E. destruct (IH a) as [Hin Hall]. simpl in Hin, Hall.
      split; [destruct Hin; auto|].
      inversion Hall as [|? ? Ha Hl]; subst.
      constructor; [exact Ha|]. constructor; [lia | exact Hl].
    + apply Nat.leb_gt in E. destruct (IH b) as [Hin Hall]. simpl in Hin, Hall.
      split; [auto|].
      inversion Hall as [|? ? Hb Hl]; subst.
      constructor; [lia|]. constructor; [exact Hb | exact Hl].
Qed.

Lemma longest_spec (l : list jsstring) :
  l <> [] ->
  exists c, longest l = Some c /\ In c l /\ Forall (fun d => length d <= length c) l.
Proof.
  destruct l as [|a l]; [congruence|]. intros _.
  eexists. split; [reflexivity|]. apply fold_longest_spec.
Qed.

(** C7.  When the court pattern matches more than once, [courtName] is one
    of the cleaned matches and no cleaned match is longer; a text with the
    bare court name and the same name with its civil division yields the
    name with the division. *)
Theorem court_name_longest (cfg : Config) (text : jsstring) :
  (1 < length (courtCandidates (normalizeText text)) ->
   exists c,
     courtName (extractInfoFromText cfg text) = Some c /\
     In c (courtCandidates (normalizeText text)) /\
     Forall (fun d => length d <= length c) (courtCandidates (normalizeText text))) /\
  courtCandidates (normalizeText twoCourtsText)
    = [js "東京地方裁判所"; js "東京地方裁判所民事第2部"] /\
  courtName (extractInfoFromText cfg twoCourtsText) = Some (js "東京地方裁判所民事第2部").
Proof.
  split; [|split; vm_compute; reflexivity].
  intros Hlen. simpl. unfold extractCourtName.
  apply longest_spec. intros E. rewrite E in Hlen. simpl in Hlen. lia.
Qed.

Lemma court_name_longest_witness :
  exists c,
    courtName (extractInfoFromText defaultConfig twoCourtsText) = Some c /\
    In c (courtCandidates (normalizeText twoCourtsText)) /\
    Forall (fun d => length d <= length c) (courtCandidates (normalizeText twoCourtsText)).
Proof.
  apply (proj1 (court_name_longest defaultConfig twoCourtsText)).
  vm_compute. lia.
Defined.

(** *** Counsel name *)

Section SortFacts.
Variable A : Type.
Variable cmp : A -> A -> Z.

Lemma insertSorted_In x y l : In y (insertSorted cmp x l) <-> y = x \/ In y l.
Proof.
  induction l as [|z l IH]; simpl.
  - intuition.
  - destruct (cmp x z <? 0)%Z; simpl; [intuition|].
    rewrite IH. intuition.
Qed.

Lemma fold_insert_In y l acc :
  In y (fold_left (fun acc x => insertSorted cmp x acc) l acc) <-> In y l \/ In y acc.
Proof.
  revert acc. induction l as [|x l IH]; intros acc; simpl.
  - intuition.
  - rewrite IH, insertSorted_In. intuition.
Qed.

Lemma stableSort_In y l : In y (stableSort cmp l) <-> In y l.
Proof. unfold stableSort. rewrite fold_insert_In. simpl. intuition. Qed.
End SortFacts.

Lemma existsb_str_eqb x seen : existsb (str_eqb x) seen = true <-> In x seen.
Proof.
  rewrite existsb_exists. split.
  - intros (y & Hy & E). apply str_eqb_eq in E. subst. exact Hy.
  - intros H. exists x. split; [exact H | apply str_eqb_refl].
Qed.

Lemma dedup_In x l seen : In x l -> In x seen \/ In x (dedup seen l).
Proof.
  revert seen. induction l as [|y l IH]; intros seen; simpl; [tauto|].
  intros [-> | Hin].
  - destruct (existsb (str_eqb x) seen) eqn:E.
    + left. apply existsb_str_eqb. exact E.
    + right. left. reflexivity.
  - destruct (existsb (str_eqb y) seen) eqn:E.
    + apply IH. exact Hin.
    + destruct (IH (y :: seen) Hin) as [[-> | H] | H]; simpl; auto.
Qed.

Lemma bestOfName_spec cands c :
  In c cands -> exists c', bestOfName cands (name c) = Some c' /\ name c' = name c.
Proof.
  intros Hin. unfold bestOfName.
  set (cmp := fun a b : Candidate => (Z.of_nat (priority a) - Z.of_nat (priority b))%Z).
  set (same := filter (fun c0 => str_eqb (name c0) (name c)) cands).
  assert (Hc : In c (stableSort cmp same)).
  { apply stableSort_In. apply filter_In. split; [exact Hin | apply str_eqb_refl]. }
  destruct (stableSort cmp same) as [|c' l] eqn:E; [destruct Hc|].
  exists c'. split; [reflexivity|].
  assert (Hc' : In c' (stableSort cmp same)) by (rewrite E; left; reflexivity).
  apply stableSort_In in Hc'. apply filter_In in Hc' as [_ Hn].
  apply str_eqb_eq. exact Hn.
Qed.

Lemma rankedCandidates_name cands c :
  In c cands -> exists c', In c' (rankedCandidates cands) /\ name c' = name c.
Proof.
  intros Hin. destruct (bestOfName_spec cands c Hin) as (c' & Hbest & Hname).
  exists c'. split; [|exact Hname].
  unfold rankedCandidates. apply stableSort_In.
  unfold uniqueCandidates. apply in_flat_map. exists (name c). split.
  - destruct (dedup_In (name c) (List.map name cands) []) as [[]|H]; [|exact H].
    apply in_map. exact Hin.
  - rewrite Hbest. left. reflexivity.
Qed.

(** C8, amended.  When the winning candidate has exactly five characters
    and some collected candidate of at most three characters is a prefix of
    it, [plaintiffLawyer] is the winner cut to its first four characters;
    the capture "石 口 俊 一 知" beside the candidate "石口" yields "石口俊一". *)
Theorem counsel_name_trimmed (cfg : Config) (text : jsstring) (w : jsstring) :
  (winner (lawyerCandidates cfg (normalizeText text)) = Some w ->
   length w = 5 ->
   (exists c, In c (lawyerCandidates cfg (normalizeText text)) /\
              length (name c) <= 3 /\ startsWith w (name c) = true) ->
   plaintiffLawyer (extractInfoFromText cfg text) = Some (firstn 4 w)) /\
  plaintiffLawyer (extractInfoFromText defaultConfig noisyCounselText) = Some (js "石口俊一").
Proof.
  split; [|vm_compute; reflexivity].
  intros Hw Hlen (c & Hin & Hshort & Hpre).
  simpl. unfold extractPlaintiffLawyer, chooseLawyer.
  unfold winner in Hw.
  destruct (rankedCandidates_name _ c Hin) as (c' & Hin' & Hname).
  destruct (rankedCandidates (lawyerCandidates cfg (normalizeText text)))
    as [|best l] eqn:E; [discriminate Hw|].
  simpl in Hw. injection Hw as Hw.
  assert (Hex : existsb (fun c0 => Nat.leb (length (name c0)) 3
                                   && startsWith (name best) (name c0))
                  (best :: l) = true).
  { apply existsb_exists. exists c'. split; [exact Hin'|].
    rewrite Hname, Hw, Hpre. apply Nat.leb_le in Hshort. rewrite Hshort. reflexivity. }
  rewrite Hex, Hw, Hlen. reflexivity.
Qed.

Lemma counsel_name_trimmed_witness :
  plaintiffLawyer (extractInfoFromText defaultConfig noisyCounselText)
  = Some (firstn 4 (js "石口俊一知")).
Proof.
  apply (proj1 (counsel_name_trimmed defaultConfig noisyCounselText (js "石口俊一知"))).
  - vm_compute. reflexivity.
  - vm_compute. reflexivity.
  - exists (MkCandidate (js "石口") 4). split; [|split].
    + vm_compute. right. right. right. left. reflexivity.
    + vm_compute. lia.
    + vm_compute. reflexivity.
Defined.

(** C8 as worded fails: the winner "石口俊一知" has the four-character
    candidate "石口俊一" as a strict prefix, and is kept whole. *)
Lemma counsel_name_trimmed_counterexample :
  plaintiffLawyer (extractInfoFromText defaultConfig fourPrefixText) = Some (js "石口俊一知")
  /\ ~ trimmedOnAnyShorterPrefix defaultConfig fourPrefixText.
Proof.
  split; [vm_compute; reflexivity|].
  intros H. specialize (H (js "石口俊一知")).
  assert (E : plaintiffLawyer (extractInfoFromText defaultConfig fourPrefixText)
              = Some (firstn 4 (js "石口俊一知"))).
  { apply H.
    - vm_compute. reflexivity.
    - vm_compute. reflexivity.
    - exists (MkCandidate (js "石口俊一") 4). split; [|split].
      + vm_compute. right. right. right. left. reflexivity.
      + vm_compute. lia.
      + vm_compute. reflexivity. }
  vm_compute in E. discriminate E.
Qed.

(** *** Own fax numbers *)

Lemma explicitStep_notOwn cfg st ef : notOwn cfg st -> notOwn cfg (explicitStep cfg st ef).
Proof.
  intros H. unfold explicitStep.
  destruct (_ || _); [exact H|].
  destruct (_ && _); [exact H|].
  destruct (isOwnFax cfg (efax ef)) eqn:E; simpl; [exact H|].
  destruct (truthy (counselFax st)); simpl; [exact H|].
  intros f Hf. simpl in Hf. injection Hf as <-. exact E.
Qed.

Lemma entryStep_notOwn cfg t st e : notOwn cfg st -> notOwn cfg (entryStep cfg t st e).
Proof.
  intros H. unfold entryStep.
  destruct (isOwnFax cfg (fax e)) eqn:E; [exact H|].
  destruct (_ && _); [exact H|].
  destruct (isNearDefendantLawyer t e); [exact H|].
  destruct (isKnownCourtFax e).
  - destruct (truthy (fromPdf st)); [exact H|]. exact H.
  - destruct (isNearPlaintiffLawyer t e);
      (destruct (truthy (counselFax st)); [exact H|];
       intros f Hf; simpl in Hf; injection Hf as <-; exact E).
Qed.

Lemma fold_left_invariant (S E : Type) (P : S -> Prop) (step : S -> E -> S) l s :
  (forall s e, P s -> P (step s e)) -> P s -> P (fold_left step l s).
Proof.
  intros Hstep. revert s. induction l as [|e l IH]; intros s Hs; simpl; auto.
Qed.

Lemma extractFaxes_notOwn cfg t : notOwn cfg (extractFaxes cfg t).
Proof.
  unfold extractFaxes.
  apply fold_left_invariant; [intros; apply entryStep_notOwn; assumption|].
  apply fold_left_invariant; [intros; apply explicitStep_notOwn; assumption|].
  intros f Hf. discriminate Hf.
Qed.

(** C10.  A fax number assigned to [plaintiffLawyerFax] contains none of
    the configured own fax numbers; in both loops a number that contains
    one leaves the state as it was. *)
Theorem counsel_fax_not_own (cfg : Config) (text : jsstring) :
  (forall f, plaintiffLawyerFax (extractInfoFromText cfg text) = Some f ->
     forall p, In p (faxNumbers cfg) -> includes f p = false) /\
  (forall st ef, isOwnFax cfg (efax ef) = true ->
     counselFax (explicitStep cfg st ef) = counselFax st) /\
  (forall t st e, isOwnFax cfg (fax e) = true -> entryStep cfg t st e = st).
Proof.
  split; [|split].
  - intros f Hf p Hp. simpl in Hf.
    pose proof (@extractFaxes_notOwn cfg (normalizeText text) f Hf) as H.
    unfold isOwnFax in H.
    destruct (includes f p) eqn:E; [|reflexivity].
    assert (Hex : existsb (fun p0 => includes f p0) (faxNumbers cfg) = true).
    { apply existsb_exists. exists p. auto. }
    congruence.
  - intros st ef Hown. unfold explicitStep.
    destruct (_ || _); [reflexivity|].
    destruct (_ && _); [reflexivity|].
    rewrite Hown. reflexivity.
  - intros t st e Hown. unfold entryStep. rewrite Hown. reflexivity.
Qed.

Lemma counsel_fax_not_own_witness :
  plaintiffLawyerFax (extractInfoFromText ownOffice ownFaxText) = Some (js "06-1111-1111")
  /\ includes (js "06-1111-1111") (js "06-4708-3638") = false.
Proof.
  assert (H : plaintiffLawyerFax (extractInfoFromText ownOffice ownFaxText)
              = Some (js "06-1111-1111")) by (vm_compute; reflexivity).
  split; [exact H|].
  apply (proj1 (counsel_fax_not_own ownOffice ownFaxText) _ H).
  vm_compute. left. reflexivity.
Defined.

(** *** Every field *)

(** C9, amended.  Every field of the record that a call returns is absent
    or free of white space, except that a party name keeps one space before
    an "and N others" suffix; a case number is made of the era, half-width
    digits, half-width parentheses, a case symbol and the fixed words when
    every year of Reiwa that the text names is below 2^53, and may besides
    hold the characters of the exponent notation or of Infinity when a year
    that it is estimated from is greater; a fax number is made of
    half-width digits and hyphens; a counsel name is made of ideographs and
    kana. *)
Theorem fields_canonical (maxArguments : nat) (cfg : Config) (text : jsstring)
    (info : Info) :
  callExtractInfoFromText maxArguments cfg text = Returned info ->
  (forall v, courtName info = Some v -> wsfree v) /\
  (forall v, caseNumber info = Some v ->
     wsfree v /\ Forall (fun x => printedCaseNumberChar x = true) v
     /\ (exactYears (normalizeText text) ->
         Forall (fun x => caseNumberChar x = true) v)) /\
  (forall v, caseName info = Some v -> wsfree v) /\
  (forall v, plaintiffName info = Some v -> partyShape v) /\
  (forall v, defendantName info = Some v -> partyShape v) /\
  (forall v, plaintiffLawyer info = Some v -> wsfree v /\ cjkName v) /\
  (forall v, courtFax info = Some v -> wsfree v /\ faxNumber v) /\
  (forall v, plaintiffLawyerFax info = Some v -> wsfree v /\ faxNumber v).
Proof.
  unfold callExtractInfoFromText.
  destruct (Nat.ltb maxArguments (spreadArguments (normalizeText text))); [discriminate|].
  intros H. injection H as <-.
  unfold extractInfoFromText. cbn [courtName caseNumber caseName plaintiffName
    defendantName plaintiffLawyer courtFax plaintiffLawyerFax].
  set (t := normalizeText text).
  split; [intros v; apply extractCourtName_wsfree|].
  split.
  { intros v Hv. apply extractCaseNumber_chars in Hv as [Hp Hx].
    split; [apply printedCaseNumber_wsfree; exact Hp|]. split; assumption. }
  split; [intros v; apply firstCaseName_wsfree|].
  split; [intros v; apply extractParty_shape|].
  split; [intros v; apply extractParty_shape|].
  split.
  { intros v Hv. apply chooseLawyer_cjk in Hv; [|apply lawyerCandidates_cjk].
    split; [apply cjkName_wsfree|]; exact Hv. }
  pose proof (extractFaxes_ok cfg t) as [Hpdf Hcounsel].
  split.
  - intros v Hv.
    assert (Hf : faxNumber v).
    { destruct (truthy (fromPdf (extractFaxes cfg t))); [apply Hpdf; exact Hv|].
      destruct (truthy (extractCourtName t)); [|discriminate].
      destruct (extractCourtName t) as [c|]; [|discriminate].
      simpl in Hv. injection Hv as <-. apply dictionaryFax_ok. }
    split; [apply faxNumber_wsfree|]; exact Hf.
  - intros v Hv. apply Hcounsel in Hv.
    split; [apply faxNumber_wsfree|]; exact Hv.
Qed.

Lemma fields_canonical_witness :
  (wsfree (js "令和6年(ワ)第228号")
   /\ Forall (fun x => caseNumberChar x = true) (js "令和6年(ワ)第228号"))
  /\ partyShape (js "山田民子 外1名")
  /\ (wsfree (js "082-222-0073") /\ faxNumber (js "082-222-0073")).
Proof.
  assert (R : callExtractInfoFromText 1000 defaultConfig coverSheetText
              = Returned (extractInfoFromText defaultConfig coverSheetText))
    by (vm_compute; reflexivity).
  assert (X : exactYears (normalizeText coverSheetText)).
  { apply Forall_forall. intros ds Hds.
    assert (E : yearRuns (normalizeText coverSheetText) = [js "6"])
      by (vm_compute; reflexivity).
    rewrite E in Hds. destruct Hds as [<- | []]. vm_compute. reflexivity. }
  destruct (fields_canonical 1000 defaultConfig coverSheetText R)
    as (_ & Hcn & _ & Hpl & _ & _ & _ & Hfax).
  split.
  - destruct (Hcn (js "令和6年(ワ)第228号")) as (H1 & _ & H3); [vm_compute; reflexivity|].
    split; [exact H1 | exact (H3 X)].
  - split; [apply Hpl; vm_compute; reflexivity|].
    apply Hfax; vm_compute; reflexivity.
Defined.

(** C9 as worded fails: the plaintiff's name of the parties section keeps
    a space before the suffix, and the number of the division in the name
    of the court stays in full-width digits; and a year too great to be
    printed in digits brings a point, an e and a plus sign into the case
    number. *)
Lemma fields_canonical_counterexample :
  plaintiffName (extractInfoFromText defaultConfig partiesText) = Some (js "山田民子 外1名")
  /\ ~ allFieldsWhitespaceFree (extractInfoFromText defaultConfig partiesText)
  /\ courtName (extractInfoFromText defaultConfig coverSheetText)
     = Some (js "広島地方裁判所民事第２部")
  /\ existsb c_fwdigit (js "広島地方裁判所民事第２部") = true
  /\ callExtractInfoFromText 1000 defaultConfig longYearSheet
     = Returned (extractInfoFromText defaultConfig longYearSheet)
  /\ caseNumber (extractInfoFromText defaultConfig longYearSheet)
     = Some (js "令和1.2345678901234568e+22年(ワ)第123号").
Proof.
  assert (E : plaintiffName (extractInfoFromText defaultConfig partiesText)
              = Some (js "山田民子 外1名")) by (vm_compute; reflexivity).
  split; [exact E|].
  split; [|repeat split; vm_compute; reflexivity].
  intros H. specialize (H (js "山田民子 外1名")).
  assert (Hws : wsfree (js "山田民子 外1名")).
  { apply H. do 3 right. left. exact E. }
  unfold wsfree in Hws. rewrite Forall_forall in Hws.
  specialize (Hws 32%N).
  assert (Hin : In 32%N (js "山田民子 外1名")) by (vm_compute; tauto).
  apply Hws in Hin. vm_compute in Hin. discriminate Hin.
Qed.

(** ** Run-safe substitution *)

Lemma mkSegments_views ms : forall rs id off cum,
  List.map matchView ms = expectedViews off rs ->
  mkSegments id cum ms = segsOfRuns id off cum rs.
Proof.
  induction ms as [|m ms IH]; intros [|r rs] id off cum H; simpl in H; try discriminate.
  - reflexivity.
  - unfold matchView in H at 1. injection H as Hi H0 H1 H2 Hrest.
    simpl. rewrite Hi, H0, H1, H2. f_equal. apply IH. exact Hrest.
Qed.

Lemma segsOfRuns_chain rs : forall id off cum, chain id cum (segsOfRuns id off cum rs).
Proof.
  induction rs as [|r rs IH]; intros id off cum; simpl; auto.
Qed.

Lemma segsOfRuns_text rs : forall id off cum,
  joinedText (segsOfRuns id off cum rs) = join (List.map runText rs).
Proof.
  unfold joinedText, join.
  induction rs as [|r rs IH]; intros id off cum; simpl; [reflexivity|].
  rewrite IH. reflexivity.
Qed.

Lemma chain_bounds segs : forall id cum g,
  chain id cum segs -> In g segs ->
  id <= segId g /\ cum <= startPos g /\ endPos g = startPos g + length (text g).
Proof.
  induction segs as [|h rest IH]; intros id cum g Hc Hin; [destruct Hin|].
  destruct Hc as (Hid & Hs & He & Hrest).
  destruct Hin as [<- | Hin].
  - lia.
  - destruct (IH _ _ _ Hrest Hin) as (H1 & H2 & H3). lia.
Qed.

Lemma chain_id_inj segs : forall id cum g h,
  chain id cum segs -> In g segs -> In h segs -> segId g = segId h -> g = h.
Proof.
  induction segs as [|x rest IH]; intros id cum g h Hc Hg Hh E; [destruct Hg|].
  destruct Hc as (Hid & Hs & He & Hrest).
  destruct Hg as [<- | Hg], Hh as [<- | Hh].
  - reflexivity.
  - destruct (@chain_bounds _ _ _ _ Hrest Hh). lia.
  - destruct (@chain_bounds _ _ _ _ Hrest Hg). lia.
  - eapply IH; eauto.
Qed.

Lemma filter_all_false (A : Type) (p : A -> bool) l :
  (forall x, In x l -> p x = false) -> filter p l = [].
Proof.
  induction l as [|x l IH]; intros H; simpl; [reflexivity|].
  rewrite (H x (or_introl eq_refl)). apply IH. intros; apply H; right; assumption.
Qed.

Section Affected.
Variables a z : nat.
Hypothesis Haz : a < z.

Let P := isAffected a z.

Lemma isAffected_spec g : P g = true <-> a < endPos g /\ startPos g < z.
Proof.
unfold P, isAffected. rewrite andb_true_iff, !Nat.ltb_lt. tauto.
Qed.

Lemma isAffected_false g : P g = false <-> endPos g <= a \/ z <= startPos g.
Proof.
unfold P, isAffected. rewrite andb_false_iff, !Nat.ltb_ge. tauto.
Qed.

(** [affectedSegs.includes(seg)] holds of the segments that overlap the
  match and of no other. *)
Lemma includes_affected segs id cum g :
chain id cum segs -> In g segs ->
existsb (fun x => Nat.eqb (segId x) (segId g)) (filter P segs) = P g.
Proof.
intros Hc Hg. destruct (P g) eqn:E.
- apply existsb_exists. exists g. split; [|apply Nat.eqb_refl].
  apply filter_In. auto.
- destruct (existsb _ _) eqn:Ex; [|reflexivity].
  apply existsb_exists in Ex as (x & Hx & Hid).
  apply filter_In in Hx as [Hx Px]. apply Nat.eqb_eq in Hid.
  rewrite (@chain_id_inj _ _ _ _ _ Hc Hx Hg Hid) in Px. congruence.
Qed.

(** The first segment that overlaps the match holds its first character. *)
Lemma first_affected segs : forall id cum f,
chain id cum segs -> cum <= a ->
hd_error (filter P segs) = Some f -> startPos f <= a.
Proof.
induction segs as [|g rest IH]; intros id cum f Hc Hcum; simpl; [discriminate|].
destruct Hc as (Hid & Hs & He & Hrest).
destruct (P g) eqn:E.
- simpl. intros H. injection H as <-. lia.
- apply isAffected_false in E. apply (IH _ _ _ Hrest). lia.
Qed.

Lemma first_affected_is segs : forall id cum g,
chain id cum segs -> In g segs -> P g = true -> startPos g <= a ->
hd_error (filter P segs) = Some g.
Proof.
induction segs as [|h rest IH]; intros id cum g Hc Hg Pg Hs; [destruct Hg|].
destruct Hc as (Hid & Hsh & He & Hrest). simpl.
destruct Hg as [<- | Hg]; [rewrite Pg; reflexivity|].
assert (Ph : P h = false).
{ apply isAffected_false. left.
  destruct (@chain_bounds _ _ _ _ Hrest Hg). lia. }
rewrite Ph. eapply IH; eauto.
Qed.

Lemma isFirst_spec segs g :
chain 0 0 segs -> In g segs -> P g = true ->
sameSeg g (hd_error (filter P segs)) = Nat.leb (startPos g) a.
Proof.
intros Hc Hg Pg. destruct (Nat.leb (startPos g) a) eqn:E.
- apply Nat.leb_le in E.
  rewrite (@first_affected_is _ _ _ _ Hc Hg Pg E). simpl. apply Nat.eqb_refl.
- apply Nat.leb_gt in E.
  destruct (hd_error (filter P segs)) as [f|] eqn:Hf; [|reflexivity]. simpl.
  destruct (Nat.eqb (segId g) (segId f)) eqn:Eid; [|reflexivity].
  apply Nat.eqb_eq in Eid.
  assert (Hfin : In f (filter P segs)) by (destruct (filter P segs); inversion Hf; left; reflexivity).
  apply filter_In in Hfin as [Hfin _].
  rewrite (@chain_id_inj _ _ _ _ _ Hc Hg Hfin Eid) in E.
  pose proof (@first_affected _ _ _ _ Hc (Nat.le_0_l a) Hf). lia.
Qed.

Lemma lastOf_cons g l : lastOf (g :: l) = match l with [] => Some g | _ => lastOf l end.
Proof. destruct l; reflexivity. Qed.

Lemma lastOf_In l g : lastOf l = Some g -> In g l.
Proof.
induction l as [|h l IH]; [discriminate|].
rewrite lastOf_cons. destruct l as [|h' l'].
- intros H. injection H as <-. left. reflexivity.
- intros H. right. apply IH. exact H.
Qed.

(** The last segment that overlaps the match holds its last character. *)
Lemma last_affected segs : forall id cum l,
chain id cum segs -> z <= cum + length (joinedText segs) ->
lastOf (filter P segs) = Some l -> z <= endPos l.
Proof.
induction segs as [|g rest IH]; intros id cum l Hc Hz; simpl; [discriminate|].
destruct Hc as (Hid & Hs & He & Hrest).
assert (Hz' : z <= endPos g + length (joinedText rest)).
{ unfold joinedText, join in *. simpl in Hz. rewrite length_app in Hz. lia. }
destruct (P g) eqn:E; [|apply (IH _ _ _ Hrest Hz')].
rewrite lastOf_cons.
destruct (filter P rest) eqn:Ef; [|apply (IH _ _ _ Hrest Hz')].
intros H. injection H as <-.
destruct (Nat.le_gt_cases z (endPos g)) as [Hle | Hgt]; [exact Hle|].
exfalso. apply isAffected_spec in E.
destruct rest as [|h rest'].
- unfold joinedText in Hz'. simpl in Hz'. lia.
- destruct Hrest as (Hid' & Hs' & He' & _).
  assert (Ph : P h = true) by (apply isAffected_spec; lia).
  simpl in Ef. rewrite Ph in Ef. discriminate.
Qed.

Lemma last_affected_is segs : forall id cum g,
chain id cum segs -> In g segs -> P g = true -> z <= endPos g ->
lastOf (filter P segs) = Some g.
Proof.
induction segs as [|h rest IH]; intros id cum g Hc Hg Pg Hz; [destruct Hg|].
destruct Hc as (Hid & Hsh & He & Hrest). simpl.
destruct Hg as [<- | Hg].
- rewrite Pg, lastOf_cons.
  assert (Hnone : filter P rest = []).
  { apply filter_all_false. intros x Hx. apply isAffected_false. right.
    destruct (@chain_bounds _ _ _ _ Hrest Hx). lia. }
  rewrite Hnone. reflexivity.
- assert (Hin : In g (filter P rest)) by (apply filter_In; auto).
  destruct (P h).
  + rewrite lastOf_cons. destruct (filter P rest) eqn:Ef; [destruct Hin|].
    eapply IH; eauto.
  + eapply IH; eauto.
Qed.

Lemma isLast_spec segs g :
chain 0 0 segs -> z <= length (joinedText segs) -> In g segs -> P g = true ->
sameSeg g (lastOf (filter P segs)) = Nat.leb z (endPos g).
Proof.
intros Hc Hz Hg Pg. destruct (Nat.leb z (endPos g)) eqn:E.
- apply Nat.leb_le in E.
  rewrite (@last_affected_is _ _ _ _ Hc Hg Pg E). simpl. apply Nat.eqb_refl.
- apply Nat.leb_gt in E.
  destruct (lastOf (filter P segs)) as [l|] eqn:Hl; [|reflexivity]. simpl.
  destruct (Nat.eqb (segId g) (segId l)) eqn:Eid; [|reflexivity].
  apply Nat.eqb_eq in Eid.
  pose proof (@lastOf_In _ _ Hl) as Hlin. apply filter_In in Hlin as [Hlin _].
  rewrite (@chain_id_inj _ _ _ _ _ Hc Hg Hlin Eid) in E.
  pose proof (@last_affected _ _ _ _ Hc Hz Hl). lia.
Qed.

End Affected.

Lemma substring_0 n (t : jsstring) : substring 0 n t = firstn n t.
Proof. unfold substring. rewrite Nat.sub_0_r. reflexivity. Qed.

(** The callback of the second scan, read as a rewriting of the run. *)
Lemma rewriteSeg_run segs a z newText j m g r :
  a < z -> chain 0 0 segs -> z <= length (joinedText segs) ->
  nth_error segs j = Some g -> text g = runText r ->
  matchView m = (index m, element r, runAttrs r, runText r) ->
  rewriteSeg segs (filter (isAffected a z) segs) a z newText j m
  = element (MkRun (gap r) (outAttrs a z (startPos g) (runAttrs r) (runText r))
                   (outText a z (startPos g) newText (runText r))).
Proof.
  intros Haz Hc Hz Hj Ht Hv.
  unfold matchView in Hv. injection Hv as H0 H1 H2.
  assert (Hg : In g segs) by (eapply nth_error_In; eauto).
  destruct (@chain_bounds _ _ _ _ Hc Hg) as (_ & _ & He).
  unfold rewriteSeg. rewrite Hj.
  rewrite (@includes_affected a z segs 0 0 g Hc Hg).
  unfold outAttrs, outText, overlaps. rewrite <- Ht, <- He.
  change (Nat.ltb a (endPos g) && Nat.ltb (startPos g) z) with (isAffected a z g).
  destruct (isAffected a z g) eqn:Pg; cbn [negb].
  - change (last (List.map Some (filter (isAffected a z) segs)) None)
      with (lastOf (filter (isAffected a z) segs)).
    rewrite (@isFirst_spec a z Haz segs g Hc Hg Pg).
    rewrite (@isLast_spec a z Haz segs g Hc Hz Hg Pg).
    rewrite H1, H2, !substring_0, Ht.
    unfold element. cbn [runAttrs runText].
    destruct (Nat.leb (startPos g) a), (Nat.leb z (endPos g)); cbn [andb].
    + rewrite <- app_assoc. reflexivity.
    + rewrite app_nil_r. reflexivity.
    + destruct (Nat.ltb 0 (length (skipn (z - startPos g) (runText r)))) eqn:E.
      * reflexivity.
      * apply Nat.ltb_ge in E.
        destruct (skipn (z - startPos g) (runText r)); [reflexivity | simpl in E; lia].
    + reflexivity.
  - rewrite H0, Ht. reflexivity.
Qed.

(** A stretch of runs that the match does not touch is returned as it is. *)
Lemma rewriteRuns_id a z newText rs : forall id off cum,
  (forall g, In g (segsOfRuns id off cum rs) -> isAffected a z g = false) ->
  rewriteRuns a z newText cum rs = rs.
Proof.
  induction rs as [|r rs IH]; intros id off cum H; simpl; [reflexivity|].
  assert (Hr : overlaps a z cum (cum + length (runText r)) = false).
  { apply (H (MkSeg id (element r) (runAttrs r) (runText r) (off + length (gap r)) cum
                    (cum + length (runText r)))).
    left. reflexivity. }
  unfold outAttrs, outText. rewrite Hr. destruct r as [gp at_ tx]. simpl. f_equal.
  eapply IH. intros g Hg. apply H. right. exact Hg.
Qed.

Lemma segsOfRuns_index rs : forall id off cum g,
  In g (segsOfRuns id off cum rs) ->
  off <= segIndex g /\ id <= segId g.
Proof.
  induction rs as [|r rs IH]; intros id off cum g Hg; [destruct Hg|].
  destruct Hg as [<- | Hg]; simpl; [lia|].
  apply IH in Hg. lia.
Qed.

(** The second scan rebuilds the paragraph around the rewritten
    elements. *)
Lemma multi_runs a z newText segs_all A closing : forall rs ms pre off cum,
  List.map matchView ms = expectedViews off rs ->
  segs_all = pre ++ segsOfRuns (length pre) off cum rs ->
  (forall j m g r,
     nth_error segs_all j = Some g -> text g = runText r ->
     matchView m = (index m, element r, runAttrs r, runText r) ->
     rewriteSeg segs_all A a z newText j m
     = element (MkRun (gap r) (outAttrs a z (startPos g) (runAttrs r) (runText r))
                      (outText a z (startPos g) newText (runText r)))) ->
  splice off (renderRuns rs ++ closing)
    (List.map (fun im => (index (snd im), length (m0 (snd im)),
                          rewriteSeg segs_all A a z newText (fst im) (snd im)))
       (combine (seq (length pre) (length ms)) ms))
  = renderRuns (rewriteRuns a z newText cum rs) ++ closing.
Proof.
  induction rs as [|r rs IH]; intros [|m ms] pre off cum H Hall Hcb; simpl in H;
    try discriminate.
  - reflexivity.
  - pose proof H as H'. unfold matchView in H' at 1. injection H' as Hi H0 H1 H2 Hrest.
    cbn [length seq combine List.map fst snd splice renderRuns rewriteRuns gap].
    rewrite Hi, H0.
    replace (off + length (gap r) - off) with (length (gap r)) by lia.
    rewrite <- !app_assoc.
    rewrite firstn_app, Nat.sub_diag, firstn_all. simpl firstn. rewrite app_nil_r.
    f_equal.
    set (seg := MkSeg (length pre) (element r) (runAttrs r) (runText r)
                  (off + length (gap r)) cum (cum + length (runText r))).
    assert (Hnth : nth_error segs_all (length pre) = Some seg).
    { rewrite Hall. rewrite nth_error_app2, Nat.sub_diag by lia. reflexivity. }
    rewrite (Hcb (length pre) m seg r Hnth eq_refl).
    2:{ unfold matchView. rewrite Hi, H0, H1, H2. reflexivity. }
    cbn [startPos seg]. f_equal.
    replace (off + length (gap r) + length (element r) - off)
      with (length (gap r) + length (element r)) by lia.
    rewrite skipn_app, (skipn_all2 (gap r)), app_nil_l by lia.
    replace (length (gap r) + length (element r) - length (gap r))
      with (length (element r)) by lia.
    rewrite skipn_app, Nat.sub_diag, skipn_all, app_nil_l. cbn [skipn].
    replace (S (length pre)) with (length (pre ++ [seg])) by (rewrite length_app; simpl; lia).
    apply IH.
    + exact Hrest.
    + rewrite Hall, <- app_assoc, length_app. simpl.
      replace (length pre + 1) with (S (length pre)) by lia. reflexivity.
    + exact Hcb.
Qed.

(** The single-segment case cuts the element out of the paragraph and puts
    the rewritten one in its place. *)
Lemma surgery_runs a z newText seg closing : forall rs id off cum,
  In seg (segsOfRuns id off cum rs) ->
  (forall g, In g (segsOfRuns id off cum rs) -> isAffected a z g = true -> g = seg) ->
  isAffected a z seg = true -> startPos seg <= a -> z <= endPos seg ->
  firstn (segIndex seg - off) (renderRuns rs ++ closing)
    ++ wt (newAttrsOf (attrs seg))
          (substring 0 (a - startPos seg) (text seg) ++ newText
             ++ skipn (z - startPos seg) (text seg))
    ++ skipn (segIndex seg + length (fullMatch seg) - off) (renderRuns rs ++ closing)
  = renderRuns (rewriteRuns a z newText cum rs) ++ closing.
Proof.
  induction rs as [|r rs IH]; intros id off cum Hin Huniq Pseg Hs Hz; [destruct Hin|].
  cbn [segsOfRuns] in Hin, Huniq.
  set (h := MkSeg id (element r) (runAttrs r) (runText r) (off + length (gap r)) cum
              (cum + length (runText r))) in *.
  assert (Htail : forall g, In g (segsOfRuns (S id) (off + length (gap r) + length (element r))
                                    (cum + length (runText r)) rs) -> g <> h).
  { intros g Hg E. apply segsOfRuns_index in Hg. subst g. simpl in Hg. lia. }
  cbn [renderRuns rewriteRuns]. rewrite <- !app_assoc.
  destruct Hin as [E | Hin].
  - subst seg. cbn [segIndex fullMatch attrs text startPos h] in *.
    replace (off + length (gap r) - off) with (length (gap r)) by lia.
    rewrite firstn_app, Nat.sub_diag, firstn_all. simpl firstn. rewrite app_nil_r.
    f_equal.
    replace (off + length (gap r) + length (element r) - off)
      with (length (gap r) + length (element r)) by lia.
    rewrite skipn_app, (skipn_all2 (gap r)), app_nil_l by lia.
    replace (length (gap r) + length (element r) - length (gap r))
      with (length (element r)) by lia.
    rewrite skipn_app, Nat.sub_diag, skipn_all, app_nil_l. cbn [skipn].
    rewrite (@rewriteRuns_id a z newText rs (S id)
               (off + length (gap r) + length (element r)) (cum + length (runText r))).
    2:{ intros g Hg. destruct (isAffected a z g) eqn:Pg; [|reflexivity].
        exfalso. apply (Htail g Hg). apply Huniq; [right; exact Hg | exact Pg]. }
    f_equal. unfold element. cbn [runAttrs runText].
    unfold outAttrs, outText, overlaps.
    change (Nat.ltb a (cum + length (runText r)) && Nat.ltb cum z) with (isAffected a z h).
    rewrite Pseg. simpl endPos in Hz.
    apply Nat.leb_le in Hs, Hz. rewrite Hs, Hz.
    rewrite substring_0, <- app_assoc. reflexivity.
  - assert (Ph : isAffected a z h = false).
    { destruct (isAffected a z h) eqn:Ph; [|reflexivity].
      exfalso. apply (Htail seg Hin). symmetry. apply Huniq; [left; reflexivity | exact Ph]. }
    pose proof (segsOfRuns_index _ _ _ _ _ Hin) as [Hidx _].
    assert (Hout : MkRun (gap r) (outAttrs a z cum (runAttrs r) (runText r))
                     (outText a z cum newText (runText r)) = r).
    { unfold outAttrs, outText, overlaps.
      change (Nat.ltb a (cum + length (runText r)) && Nat.ltb cum z) with (isAffected a z h).
      rewrite Ph. destruct r; reflexivity. }
    rewrite Hout.
    replace (segIndex seg - off)
      with (length (gap r) + (length (element r)
              + (segIndex seg - (off + length (gap r) + length (element r))))) by lia.
    rewrite firstn_app_2, firstn_app_2, <- !app_assoc.
    f_equal. f_equal.
    set (k := segIndex seg + length (fullMatch seg)
              - (off + length (gap r) + length (element r))).
    replace (segIndex seg + length (fullMatch seg) - off)
      with (k + length (element r) + length (gap r)) by (unfold k; lia).
    rewrite <- (skipn_skipn (k + length (element r)) (length (gap r))).
    rewrite (skipn_app (length (gap r))), skipn_all, Nat.sub_diag, app_nil_l. cbn [skipn].
    rewrite <- (skipn_skipn k (length (element r))).
    rewrite (skipn_app (length (element r))), skipn_all, Nat.sub_diag, app_nil_l.
    cbn [skipn]. unfold k.
    apply (IH (S id)); auto.
    intros g Hg. apply Huniq. right. exact Hg.
Qed.

Lemma startsWith_spec p : forall s, startsWith s p = true -> exists post, s = p ++ post.
Proof.
  induction p as [|y p IH]; intros s H; simpl in *.
  - exists s. reflexivity.
  - destruct s as [|x s]; [discriminate|].
    apply andb_true_iff in H as [E H]. apply N.eqb_eq in E. subst.
    destruct (IH _ H) as (post & ->). exists post. reflexivity.
Qed.

Lemma indexOf_from_spec p s : forall i a,
  indexOf_from i s p = Some a ->
  exists pre post, s = pre ++ p ++ post /\ a = i + length pre.
Proof.
  induction s as [|x s IH]; intros i a H.
  - change (indexOf_from i [] p) with (if startsWith [] p then Some i else None) in H.
    destruct (startsWith [] p) eqn:E; [|discriminate].
    injection H as <-. apply startsWith_spec in E as (post & E).
    exists [], post. simpl. split; [exact E | lia].
  - change (indexOf_from i (x :: s) p)
      with (if startsWith (x :: s) p then Some i else indexOf_from (S i) s p) in H.
    destruct (startsWith (x :: s) p) eqn:E.
    + injection H as <-. apply startsWith_spec in E as (post & E).
      exists [], post. simpl. split; [exact E | lia].
    + apply IH in H as (pre & post & -> & ->).
      exists (x :: pre), post. simpl. split; [reflexivity | lia].
Qed.

Lemma indexOf_spec s p a :
  indexOf s p = Some a -> exists pre post, s = pre ++ p ++ post /\ a = length pre.
Proof. intros H. apply indexOf_from_spec in H as (pre & post & E & ->). eauto. Qed.

Lemma indexOf_nil s : indexOf s [] = Some 0.
Proof. unfold indexOf. destruct s; reflexivity. Qed.

Lemma parses_segments b :
  parses b -> segmentsOf (render b) = segsOfRuns 0 0 0 (runs b).
Proof. intros H. unfold segmentsOf. apply mkSegments_views. exact H. Qed.

Lemma parses_text b : parses b -> joinedText (segmentsOf (render b)) = blockText b.
Proof. intros H. rewrite (parses_segments H). apply segsOfRuns_text. Qed.

Lemma filter_sound_all (A : Type) (p : A -> bool) l :
  filter p l = [] -> forall x, In x l -> p x = false.
Proof.
  intros H x Hx. destruct (p x) eqn:E; [|reflexivity].
  assert (Hin : In x (filter p l)) by (apply filter_In; auto).
  rewrite H in Hin. destruct Hin.
Qed.

(** The callback of [safeReplaceInXml] returns the rendering of the block
    that [substituted] describes. *)
Theorem replaceInParagraph_refines b oldText newText :
  parses b ->
  replaceInParagraph (render b) oldText newText = render (substituted b oldText newText).
Proof.
  intros Hp. unfold replaceInParagraph, substituted.
  rewrite (parses_segments Hp).
  set (segs := segsOfRuns 0 0 0 (runs b)).
  assert (Hc : chain 0 0 segs) by apply segsOfRuns_chain.
  assert (Ht : joinedText segs = blockText b) by apply segsOfRuns_text.
  rewrite Ht.
  destruct (indexOf (blockText b) oldText) as [a|] eqn:Ei.
  2:{ destruct segs; reflexivity. }
  set (z := a + length oldText).
  assert (Hrender : forall rs', rs' = runs b ->
            render b = render (MkBlock rs' (closing b))).
  { intros rs' ->. destruct b; reflexivity. }
  assert (Hnone : (forall g, In g segs -> isAffected a z g = false) ->
            render b = render (MkBlock (rewriteRuns a z newText 0 (runs b)) (closing b))).
  { intros H. apply Hrender. eapply rewriteRuns_id. exact H. }
  destruct segs as [|g0 segs0] eqn:Es.
  { apply Hnone. intros g []. }
  rewrite <- Es in *. clear Es g0 segs0.
  destruct oldText as [|o oldText'].
  { rewrite indexOf_nil in Ei. injection Ei as <-.
    assert (Hall : forall g, In g segs -> isAffected 0 z g = false).
    { intros g _. unfold isAffected, z. simpl. apply andb_false_r. }
    rewrite (filter_all_false _ _ Hall). apply Hnone. exact Hall. }
  assert (Haz : a < z) by (unfold z; simpl; lia).
  assert (Hz : z <= length (joinedText segs)).
  { rewrite Ht. apply indexOf_spec in Ei as (pre & post & E & ->).
    rewrite E, !length_app. unfold z. lia. }
  destruct (filter (isAffected a z) segs) as [|seg [|seg2 more]] eqn:Ef.
  - apply Hnone. apply filter_sound_all. exact Ef.
  - assert (Hin : In seg (filter (isAffected a z) segs)) by (rewrite Ef; left; reflexivity).
    apply filter_In in Hin as [Hin Pseg].
    assert (Hs : startPos seg <= a).
    { apply (@first_affected a z Haz segs 0 0 seg Hc (Nat.le_0_l a)).
      rewrite Ef. reflexivity. }
    assert (Hze : z <= endPos seg).
    { apply (@last_affected a z Haz segs 0 0 seg Hc Hz). rewrite Ef. reflexivity. }
    pose proof (@surgery_runs a z newText seg (closing b) (runs b) 0 0 0 Hin) as Hsurg.
    rewrite !Nat.sub_0_r in Hsurg. apply Hsurg; auto.
    intros g Hg Pg.
    assert (Hgf : In g (filter (isAffected a z) segs)) by (apply filter_In; auto).
    rewrite Ef in Hgf. destruct Hgf as [<- | []]. reflexivity.
  - rewrite <- Ef. unfold replaceAllCounting.
    apply (@multi_runs a z newText segs (filter (isAffected a z) segs) (closing b)
             (runs b) (matchAll wtRegex (render b)) [] 0 0 Hp eq_refl).
    intros j m g r Hj Htg Hv. apply rewriteSeg_run; auto.
Qed.

Lemma firstn_app_le (A : Type) n (l1 l2 : list A) :
  n <= length l1 -> firstn n (l1 ++ l2) = firstn n l1.
Proof.
  intros H. rewrite firstn_app. replace (n - length l1) with 0 by lia.
  simpl. apply app_nil_r.
Qed.

Lemma firstn_app_ge (A : Type) n (l1 l2 : list A) :
  length l1 <= n -> firstn n (l1 ++ l2) = l1 ++ firstn (n - length l1) l2.
Proof. intros H. rewrite firstn_app, firstn_all2 by exact H. reflexivity. Qed.

Lemma skipn_app_le (A : Type) n (l1 l2 : list A) :
  n <= length l1 -> skipn n (l1 ++ l2) = skipn n l1 ++ l2.
Proof.
  intros H. rewrite skipn_app. replace (n - length l1) with 0 by lia. reflexivity.
Qed.

Lemma skipn_app_ge (A : Type) n (l1 l2 : list A) :
  length l1 <= n -> skipn n (l1 ++ l2) = skipn (n - length l1) l2.
Proof. intros H. rewrite skipn_app, skipn_all2 by exact H. reflexivity. Qed.

Lemma outText_outside a z s newText t :
  s + length t <= a \/ z <= s -> outText a z s newText t = t.
Proof.
  intros H. unfold outText, overlaps.
  destruct (Nat.ltb_spec a (s + length t)); [|reflexivity].
  destruct (Nat.ltb_spec s z); [|reflexivity]. lia.
Qed.

Lemma outAttrs_outside a z s attrs t :
  s + length t <= a \/ z <= s -> outAttrs a z s attrs t = attrs.
Proof.
  intros H. unfold outAttrs, overlaps.
  destruct (Nat.ltb_spec a (s + length t)); [|reflexivity].
  destruct (Nat.ltb_spec s z); [|reflexivity]. lia.
Qed.

Lemma outText_inside a z s newText t :
  a < s -> s + length t < z -> outText a z s newText t = [].
Proof.
  intros H1 H2. unfold outText.
  destruct (overlaps a z s (s + length t)) eqn:E.
  - destruct (Nat.leb_spec s a); [lia|].
    destruct (Nat.leb_spec z (s + length t)); [lia|]. reflexivity.
  - unfold overlaps in E. apply andb_false_iff in E as [E|E].
    + apply Nat.ltb_ge in E. destruct t; [reflexivity | simpl in E; lia].
    + apply Nat.ltb_ge in E. lia.
Qed.

Lemma outAttrs_inside a z s attrs t :
  a < s -> s + length t < z -> outAttrs a z s attrs t = attrs.
Proof.
  intros H1 H2. unfold outAttrs.
  destruct (overlaps a z s (s + length t)); [|reflexivity].
  destruct (Nat.leb_spec s a); [lia|].
  destruct (Nat.leb_spec z (s + length t)); [lia|]. reflexivity.
Qed.

(** The concatenated text of the runs after the rewriting: before the
    match nothing has happened yet, and past its start what is left of the
    old text is what follows the match. *)
Lemma rewriteRuns_text a z newText : a < z -> forall rs cum,
  (cum <= a -> z <= cum + length (join (List.map runText rs)) ->
   join (List.map runText (rewriteRuns a z newText cum rs))
   = firstn (a - cum) (join (List.map runText rs)) ++ newText
     ++ skipn (z - cum) (join (List.map runText rs)))
  /\ (a < cum ->
      join (List.map runText (rewriteRuns a z newText cum rs))
      = skipn (z - cum) (join (List.map runText rs))).
Proof.
  intros Haz. unfold join.
  induction rs as [|r rs IH]; intros cum.
  - split; intros H; [intros H'; simpl in H'; lia|].
    simpl. rewrite skipn_nil. reflexivity.
  - destruct (IH (cum + length (runText r))) as [IH1 IH2].
    cbn [rewriteRuns List.map List.concat runText].
    set (t := runText r) in *. set (J := List.concat (List.map runText rs)) in *.
    set (J' := List.concat (List.map runText (rewriteRuns a z newText (cum + length t) rs))) in *.
    split.
    + intros Hc Hz. rewrite length_app in Hz.
      destruct (Nat.le_gt_cases (cum + length t) a) as [Hb|Hb].
      * (* the run ends before the match *)
        rewrite outText_outside by (left; exact Hb).
        rewrite IH1 by lia.
        rewrite firstn_app_ge, skipn_app_ge by lia.
        replace (a - (cum + length t)) with (a - cum - length t) by lia.
        replace (z - (cum + length t)) with (z - cum - length t) by lia.
        rewrite <- app_assoc. reflexivity.
      * (* the match starts in this run *)
        unfold outText, overlaps.
        destruct (Nat.ltb_spec a (cum + length t)); [|lia].
        destruct (Nat.ltb_spec cum z); [|lia]. cbn [andb].
        destruct (Nat.leb_spec cum a); [|lia].
        rewrite firstn_app_le by lia.
        destruct (Nat.leb_spec z (cum + length t)).
        -- assert (HJ : J' = J).
           { rewrite IH2 by lia.
             replace (z - (cum + length t)) with 0 by lia. reflexivity. }
           rewrite HJ, skipn_app_le by lia. rewrite <- !app_assoc. reflexivity.
        -- rewrite IH2 by lia. rewrite skipn_app_ge by lia.
           replace (z - (cum + length t)) with (z - cum - length t) by lia.
           rewrite app_nil_r, <- !app_assoc. reflexivity.
    + intros Hc.
      destruct (Nat.le_gt_cases z cum) as [Hb|Hb].
      * rewrite outText_outside by (right; exact Hb).
        rewrite IH2 by lia.
        replace (z - cum) with 0 by lia.
        replace (z - (cum + length t)) with 0 by lia. reflexivity.
      * unfold outText, overlaps.
        destruct (Nat.ltb_spec a (cum + length t)); [|lia].
        destruct (Nat.ltb_spec cum z); [|lia]. cbn [andb].
        destruct (Nat.leb_spec cum a); [lia|]. cbn [app].
        destruct (Nat.leb_spec z (cum + length t)).
        -- rewrite IH2 by lia.
           replace (z - (cum + length t)) with 0 by lia.
           rewrite skipn_app_le by lia. reflexivity.
        -- rewrite IH2 by lia. rewrite skipn_app_ge by lia.
           replace (z - (cum + length t)) with (z - cum - length t) by lia.
           reflexivity.
Qed.

Lemma firstn_exact (A : Type) (l1 l2 : list A) n :
  n = length l1 -> firstn n (l1 ++ l2) = l1.
Proof. intros ->. rewrite firstn_app, Nat.sub_diag, firstn_all. apply app_nil_r. Qed.

Lemma skipn_exact (A : Type) (l1 l2 : list A) n :
  n = length l1 -> skipn n (l1 ++ l2) = l2.
Proof. intros ->. rewrite skipn_app, Nat.sub_diag, skipn_all. reflexivity. Qed.

(** A replacement that puts every match back gives the subject back. *)
Lemma splice_id r (f : Match -> jsstring) : forall fuel p s pre,
  (forall m, In m (matchAll_from fuel r p s) -> f m = m0 m) ->
  length pre <= p ->
  splice (p - length pre) (pre ++ s)
    (List.map (fun m => (index m, length (m0 m), f m)) (matchAll_from fuel r p s))
  = pre ++ s.
Proof.
  induction fuel as [|fuel IH]; intros p s pre Hf Hp; [reflexivity|].
  cbn [matchAll_from] in *.
  destruct (scan r p s) as [m|] eqn:E; [|reflexivity].
  destruct (scan_sound _ _ _ E) as (_ & pre' & s' & Hs & Hi).
  assert (Hskip : skipn (index m + length (m0 m) - p) s = s').
  { rewrite Hs at 1. rewrite (app_assoc pre' (m0 m) s').
    apply skipn_exact. rewrite length_app. lia. }
  rewrite Hskip in *.
  assert (Hfirst : firstn (index m - (p - length pre)) (pre ++ s) = pre ++ pre').
  { rewrite Hs at 1. rewrite (app_assoc pre pre' _).
    apply firstn_exact. rewrite length_app. lia. }
  assert (Hdrop : skipn (index m + length (m0 m) - (p - length pre)) (pre ++ s) = s').
  { rewrite Hs at 1. rewrite (app_assoc pre' (m0 m) s'), (app_assoc pre _ s').
    apply skipn_exact. rewrite !length_app. lia. }
  assert (Hwhole : pre ++ s = (pre ++ pre') ++ m0 m ++ s').
  { rewrite Hs at 1. rewrite <- app_assoc. reflexivity. }
  destruct (Nat.eqb (length (m0 m)) 0) eqn:E0.
  - destruct s' as [|x t].
    + cbn [List.map splice]. rewrite Hdrop, Hfirst, (Hf m (or_introl eq_refl)).
      symmetry. exact Hwhole.
    + cbn [List.map splice]. rewrite Hdrop, Hfirst, (Hf m (or_introl eq_refl)).
      pose proof (IH (S (index m + length (m0 m))) t [x]) as IH'.
      cbn [length app] in IH'.
      replace (S (index m + length (m0 m)) - 1) with (index m + length (m0 m)) in IH' by lia.
      rewrite IH'; [symmetry; exact Hwhole | | lia].
      intros m' Hm'. apply Hf. right. exact Hm'.
  - cbn [List.map splice]. rewrite Hdrop, Hfirst, (Hf m (or_introl eq_refl)).
    pose proof (IH (index m + length (m0 m)) s' []) as IH'.
    cbn [length app] in IH'. rewrite Nat.sub_0_r in IH'.
    rewrite IH'; [symmetry; exact Hwhole | | lia].
    intros m' Hm'. apply Hf. right. exact Hm'.
Qed.

Lemma replaceAllFn_id r s f :
  (forall m, In m (matchAll r s) -> f m = m0 m) -> replaceAllFn r s f = s.
Proof.
  intros H. unfold replaceAllFn.
  exact (@splice_id r f (S (length s)) 0 s [] H (Nat.le_refl 0)).
Qed.

Lemma replaceInParagraph_absent paraXml oldText newText :
  includes (joinedText (segmentsOf paraXml)) oldText = false ->
  replaceInParagraph paraXml oldText newText = paraXml.
Proof.
  unfold includes, replaceInParagraph. intros H.
  destruct (segmentsOf paraXml); [reflexivity|].
  destruct (indexOf _ oldText); [discriminate | reflexivity].
Qed.

Lemma rewriteRuns_length a z newText rs : forall cum,
  length (rewriteRuns a z newText cum rs) = length rs.
Proof. induction rs as [|r rs IH]; intros cum; simpl; [|rewrite IH]; reflexivity. Qed.

Lemma rewriteRuns_gaps a z newText rs : forall cum,
  List.map gap (rewriteRuns a z newText cum rs) = List.map gap rs.
Proof. induction rs as [|r rs IH]; intros cum; simpl; [|rewrite IH]; reflexivity. Qed.

Lemma rewriteRuns_nth a z newText rs : forall cum i r,
  nth_error rs i = Some r ->
  nth_error (rewriteRuns a z newText cum rs) i
  = Some (MkRun (gap r)
            (outAttrs a z (cum + length (textBeforeRun i rs)) (runAttrs r) (runText r))
            (outText a z (cum + length (textBeforeRun i rs)) newText (runText r))).
Proof.
  unfold textBeforeRun, join.
  induction rs as [|r0 rs IH]; intros cum [|i] r H; try discriminate; simpl in H.
  - injection H as ->. simpl. rewrite Nat.add_0_r. reflexivity.
  - cbn [rewriteRuns nth_error firstn List.map List.concat].
    rewrite (IH _ _ _ H), length_app, Nat.add_assoc. reflexivity.
Qed.


Lemma substituted_text b oldText newText pre post :
  oldText <> [] ->
  blockText b = pre ++ oldText ++ post ->
  indexOf (blockText b) oldText = Some (length pre) ->
  blockText (substituted b oldText newText) = pre ++ newText ++ post.
Proof.
  intros Hne E Ei. unfold substituted. rewrite Ei. unfold blockText at 1. cbn [runs].
  assert (Haz : length pre < length pre + length oldText).
  { destruct oldText; [congruence | simpl; lia]. }
  destruct (@rewriteRuns_text (length pre) (length pre + length oldText) newText Haz
              (runs b) 0) as [H _].
  fold (blockText b) in H. rewrite H.
  - rewrite Nat.sub_0_r, Nat.sub_0_r, E.
    rewrite firstn_exact by reflexivity.
    rewrite (app_assoc pre oldText post), skipn_exact by (rewrite length_app; reflexivity).
    reflexivity.
  - lia.
  - rewrite E, !length_app. lia.
Qed.


(** C2: a paragraph whose concatenated run text does not contain the
    searched value comes back as it was, and so does a document all of whose
    paragraphs are such; in a paragraph that is modified no run is deleted,
    the markup between the runs and after them stays, a run outside the
    span of the match is unchanged, and a run strictly inside it is left
    in place with its attributes and no text. *)
Theorem substitution_frame (b : Block) (oldText newText : jsstring) :
  (forall paraXml,
     includes (joinedText (segmentsOf paraXml)) oldText = false ->
     replaceInParagraph paraXml oldText newText = paraXml)
  /\ (forall xml,
        (forall m, In m (matchAll paraRegex xml) ->
           includes (joinedText (segmentsOf (m0 m))) oldText = false) ->
        safeReplaceInXml xml oldText newText = xml)
  /\ (parses b ->
      replaceInParagraph (render b) oldText newText
      = render (substituted b oldText newText)
      /\ length (runs (substituted b oldText newText)) = length (runs b)
      /\ List.map gap (runs (substituted b oldText newText)) = List.map gap (runs b)
      /\ closing (substituted b oldText newText) = closing b
      /\ forall i r r' a,
           nth_error (runs b) i = Some r ->
           nth_error (runs (substituted b oldText newText)) i = Some r' ->
           indexOf (blockText b) oldText = Some a ->
           (length (textBeforeRun i (runs b)) + length (runText r) <= a
            \/ a + length oldText <= length (textBeforeRun i (runs b)) -> r' = r)
           /\ (a < length (textBeforeRun i (runs b)) ->
               length (textBeforeRun i (runs b)) + length (runText r) < a + length oldText ->
               r' = MkRun (gap r) (runAttrs r) [])).
Proof.
  split; [intros paraXml; apply replaceInParagraph_absent|].
  split.
  { intros xml H. unfold safeReplaceInXml. apply replaceAllFn_id.
    intros m Hm. apply replaceInParagraph_absent. apply H. exact Hm. }
  intros Hp. split; [apply replaceInParagraph_refines; exact Hp|].
  unfold substituted.
  destruct (indexOf (blockText b) oldText) as [a0|] eqn:Ei.
  - cbn [runs closing]. rewrite rewriteRuns_length, rewriteRuns_gaps.
    repeat split; try reflexivity.
    + intros Hout. rewrite (rewriteRuns_nth _ _ _ _ _ _ H) in H0.
      injection H1 as ->. injection H0 as <-.
      rewrite outText_outside, outAttrs_outside by exact Hout.
      destruct r; reflexivity.
    + intros H2 H3. rewrite (rewriteRuns_nth _ _ _ _ _ _ H) in H0.
      injection H1 as ->. injection H0 as <-.
      rewrite outText_inside, outAttrs_inside by assumption.
      reflexivity.
  - repeat split; try reflexivity; discriminate.
Qed.

Lemma substitution_frame_witness :
  replaceInParagraph (render oneRun) (js "Z") (js "Y") = render oneRun
  /\ safeReplaceInXml (docOf abcdef) (js "FA") (js "Y") = docOf abcdef
  /\ parses threeRuns
  /\ nth_error (runs threeRuns) 1 = Some midRun
  /\ nth_error (runs (substituted threeRuns (js "和6年") (js "和7年"))) 1 = Some emptiedRun
  /\ emptiedRun = MkRun (gap midRun) (runAttrs midRun) [].
Proof.
  assert (Hp : parses threeRuns) by (vm_compute; reflexivity).
  assert (H1 : includes (joinedText (segmentsOf (render oneRun))) (js "Z") = false)
    by (vm_compute; reflexivity).
  assert (H2 : forallb (fun m => negb (includes (joinedText (segmentsOf (m0 m))) (js "FA")))
                 (matchAll paraRegex (docOf abcdef)) = true)
    by (vm_compute; reflexivity).
  assert (E1 : nth_error (runs threeRuns) 1 = Some midRun) by (vm_compute; reflexivity).
  assert (E2 : nth_error (runs (substituted threeRuns (js "和6年") (js "和7年"))) 1
               = Some emptiedRun) by (vm_compute; reflexivity).
  assert (E3 : indexOf (blockText threeRuns) (js "和6年") = Some 1)
    by (vm_compute; reflexivity).
  assert (L1 : 1 < length (textBeforeRun 1 (runs threeRuns))) by (vm_compute; lia).
  assert (L2 : length (textBeforeRun 1 (runs threeRuns)) + length (runText midRun)
               < 1 + length (js "和6年")) by (vm_compute; lia).
  split.
  { exact (proj1 (substitution_frame oneRun (js "Z") (js "Y")) _ H1). }
  split.
  { apply (proj1 (proj2 (substitution_frame oneRun (js "FA") (js "Y")))).
    intros m Hm. apply negb_true_iff.
    exact (proj1 (forallb_forall _ _) H2 m Hm). }
  split; [exact Hp|]. split; [exact E1|]. split; [exact E2|].
  pose proof (substitution_frame threeRuns (js "和6年") (js "和7年")) as (_ & _ & T).
  destruct (T Hp) as (_ & _ & _ & _ & Hruns).
  exact (proj2 (Hruns 1 midRun emptiedRun 1 E1 E2 E3) L1 L2).
Defined.

(** ** The matcher finds a match where there is one *)

Lemma Sem_Eps_inv w cs cs' : Sem Eps w cs cs' -> w = [].
Proof. intros H. inversion H. reflexivity. Qed.

Lemma Sem_Cls_inv c w cs cs' : Sem (Cls c) w cs cs' -> exists x, w = [x] /\ c x = true.
Proof. intros H. inversion H; subst. eauto. Qed.

Lemma Sem_Seq_inv a b w cs cs' :
  Sem (Seq a b) w cs cs' ->
  exists w1 w2 cs1, w = w1 ++ w2 /\ Sem a w1 cs cs1 /\ Sem b w2 cs1 cs'.
Proof. intros H. inversion H; subst. eauto 6. Qed.

Lemma Sem_Alt_inv a b w cs cs' :
  Sem (Alt a b) w cs cs' -> Sem a w cs cs' \/ Sem b w cs cs'.
Proof. intros H. inversion H; subst; auto. Qed.

Lemma Sem_Grp_inv i r w cs cs' :
  Sem (Grp i r) w cs cs' -> exists cs1, Sem r w cs cs1.
Proof. intros H. inversion H; subst. eauto. Qed.

Lemma looser_pred hi hi' :
  looser hi hi' -> looser (option_map Nat.pred hi) (option_map Nat.pred hi').
Proof. destruct hi, hi'; simpl; auto. lia. Qed.

Lemma Iters_looser r lo hi ws :
  Iters r lo hi ws -> forall hi', looser hi hi' -> Iters r lo hi' ws.
Proof.
  induction 1 as [hi|lo hi w ws cs cs' Hhi Hw Hne _ IH]; intros hi' Hl.
  - constructor.
  - econstructor; eauto.
    + destruct hi as [[|a]|], hi' as [[|b]|]; simpl in Hl; try congruence; lia.
    + apply IH. apply looser_pred. exact Hl.
Qed.

Lemma Sem_Iters lo hi g r w cs cs' :
  Sem (Rep lo hi g r) w cs cs' -> exists ws, w = List.concat ws /\ Iters r lo hi ws.
Proof.
  intros H. remember (Rep lo hi g r) as R eqn:ER. revert lo hi ER.
  induction H as [ | | | | |hi0 g0 r0 cs|lo0 hi0 g0 r0 w1 w2 cs cs' cs'' Hhi H1 _ H2 IH2
                 | | | | ]; intros lo hi ER; try discriminate.
  - injection ER as <- <- <- <-. exists []. split; [reflexivity | constructor].
  - injection ER as <- <- <- <-.
    destruct (IH2 _ _ eq_refl) as (ws & -> & Hws).
    destruct w1 as [|x w1].
    + destruct lo0 as [|lo].
      * exists ws. split; [reflexivity|].
        apply (Iters_looser Hws). destruct hi0 as [[|a]|]; simpl; auto; lia.
      * exists ([] :: ws). split; [reflexivity|].
        econstructor; eauto. discriminate.
    + exists ((x :: w1) :: ws). split; [reflexivity|].
      econstructor; eauto. discriminate.
Qed.

Lemma Iters_length r lo hi ws :
  Iters r lo hi ws -> length ws <= lo + length (List.concat ws).
Proof.
  induction 1 as [hi|lo hi w ws cs cs' Hhi Hw Hne _ IH]; simpl; [lia|].
  rewrite length_app. destruct lo as [|lo].
  - destruct w; [exfalso; apply Hne; reflexivity|]. simpl in *. lia.
  - simpl in IH. lia.
Qed.

Lemma orElse_left a b : a <> None -> orElse a b <> None.
Proof. destruct a; simpl; congruence. Qed.

Lemma orElse_right a b : b tt <> None -> orElse a b <> None.
Proof. destruct a; simpl; congruence. Qed.

Lemma rep_complete r g :
  complete (rmatch r) r ->
  forall lo hi ws, Iters r lo hi ws ->
  forall fuel st k s',
    length ws < fuel ->
    rest st = List.concat ws ++ s' ->
    (forall c', k (MState (pos st + length (List.concat ws)) s' c') <> None) ->
    rep (rmatch r) lo hi g fuel st k <> None.
Proof.
  intros Hr lo hi ws H.
  induction H as [hi|lo hi w ws cs cs' Hhi Hw Hne _ IH];
    intros fuel st k s' Hf Hrest Hk;
    (destruct fuel as [|fuel]; [simpl in Hf; lia|]); rewrite rep_unfold.
  - assert (Hst : k st <> None).
    { specialize (Hk (mcaps st)). simpl in Hk, Hrest.
      rewrite Nat.add_0_r, <- Hrest in Hk. destruct st; exact Hk. }
    cbn [Nat.ltb Nat.leb].
    destruct g; [apply orElse_right | apply orElse_left]; exact Hst.
  - set (iter := match hi with
                 | Some 0 => None
                 | _ => rmatch r st (fun st' =>
                          if Nat.eqb lo 0 && Nat.eqb (length (rest st')) (length (rest st))
                          then None
                          else rep (rmatch r) (Nat.pred lo) (option_map Nat.pred hi) g
                                 fuel st' k)
                 end).
    assert (Hiter : iter <> None).
    { assert (Hgo : rmatch r st (fun st' =>
                      if Nat.eqb lo 0 && Nat.eqb (length (rest st')) (length (rest st))
                      then None
                      else rep (rmatch r) (Nat.pred lo) (option_map Nat.pred hi) g
                             fuel st' k) <> None).
      { simpl in Hrest. rewrite <- app_assoc in Hrest.
        apply (Hr w cs cs' st _ (List.concat ws ++ s') Hw Hrest).
        intros c'. cbn [rest].
        assert (Hcond : Nat.eqb lo 0
                        && Nat.eqb (length (List.concat ws ++ s')) (length (rest st)) = false).
        { destruct lo as [|lo]; [|reflexivity].
          cbn [Nat.eqb andb]. apply Nat.eqb_neq. rewrite Hrest, !length_app.
          destruct w; [exfalso; apply Hne; reflexivity | simpl; lia]. }
        rewrite Hcond.
        apply (IH fuel _ k s'); cbn [pos rest].
        - simpl in Hf. lia.
        - reflexivity.
        - intros c''. specialize (Hk c''). simpl in Hk.
          rewrite length_app, Nat.add_assoc in Hk. exact Hk. }
      subst iter. destruct hi as [[|a]|]; [congruence | exact Hgo | exact Hgo]. }
    fold iter.
    destruct (Nat.ltb 0 lo); [exact Hiter|].
    destruct g.
    + apply orElse_left. exact Hiter.
    + apply orElse_right. exact Hiter.
Qed.

(** The matcher is complete for plain patterns: the bound on the number
    of iterations is never what makes it fail. *)
Theorem rmatch_complete r : plain r = true -> complete (rmatch r) r.
Proof.
  induction r as [|c|a IHa b IHb|a IHa b IHb|lo hi g r IH|i r IH|r IH| |];
    intros Hp w cs cs' st k s' HS Hrest Hk; simpl in Hp; try discriminate.
  - apply Sem_Eps_inv in HS as ->. simpl in *. specialize (Hk (mcaps st)).
    rewrite Nat.add_0_r, <- Hrest in Hk. destruct st; exact Hk.
  - apply Sem_Cls_inv in HS as (x & -> & Hc). simpl in *. rewrite Hrest, Hc.
    specialize (Hk (mcaps st)). rewrite Nat.add_1_r in Hk. exact Hk.
  - apply andb_true_iff in Hp as [Ha Hb].
    apply Sem_Seq_inv in HS as (w1 & w2 & cs1 & -> & H1 & H2).
    rewrite <- app_assoc in Hrest. simpl.
    apply (IHa Ha _ _ _ st _ _ H1 Hrest). intros c'.
    apply (IHb Hb _ _ _ _ k s' H2); [reflexivity|].
    intros c''. cbn [pos]. specialize (Hk c'').
    rewrite length_app, Nat.add_assoc in Hk. exact Hk.
  - apply andb_true_iff in Hp as [Ha Hb]. simpl.
    apply Sem_Alt_inv in HS as [HS|HS].
    + apply orElse_left. eapply IHa; eauto.
    + apply orElse_right. eapply IHb; eauto.
  - destruct (Sem_Iters HS) as (ws & -> & Hws). simpl.
    apply (@rep_complete r g (IH Hp) lo hi ws Hws _ st k s'); auto.
    pose proof (Iters_length Hws) as Hl. rewrite Hrest, length_app. lia.
  - apply Sem_Grp_inv in HS as (cs1 & HS). simpl.
    apply (IH Hp _ _ _ st _ s' HS Hrest). intros c'. cbn [pos rest]. apply Hk.
Qed.

(** A plain pattern with a word at an index is found there or before. *)
Lemma try_at_complete r p s w s' cs cs' :
  plain r = true -> Sem r w cs cs' -> s = w ++ s' -> try_at r p s <> None.
Proof.
  intros Hp HS Hs. unfold try_at.
  assert (H : rmatch r (MState p s []) (fun st => Some st) <> None).
  { apply (@rmatch_complete r Hp w cs cs' (MState p s []) _ s' HS Hs). discriminate. }
  destruct (rmatch r (MState p s []) (fun st => Some st)); congruence.
Qed.

Lemma scan_complete r w s' cs cs' :
  plain r = true -> Sem r w cs cs' ->
  forall pre p, scan r p (pre ++ w ++ s') <> None.
Proof.
  intros Hp HS. induction pre as [|x pre IH]; intros p.
  - pose proof (@try_at_complete r p (w ++ s') w s' cs cs' Hp HS eq_refl) as H.
    cbn [app]. destruct (w ++ s'); simpl; destruct (try_at r p _); congruence.
  - cbn [app scan]. destruct (try_at r p (x :: pre ++ w ++ s')); [discriminate | apply IH].
Qed.

Theorem exec_complete r pre w s' cs cs' :
  plain r = true -> Sem r w cs cs' -> exec r (pre ++ w ++ s') <> None.
Proof. intros Hp HS. exact (@scan_complete r w s' cs cs' Hp HS pre 0). Qed.

(** ** Texts in which a pattern cannot match *)

(** A pattern whose words all hold a character of [c] matches nowhere in a
    text without one. *)
Lemma exec_needs (c : char -> bool) r s :
  (forall w cs cs', Sem r w cs cs' -> exists x, In x w /\ c x = true) ->
  Forall (fun x => c x = false) s -> exec r s = None.
Proof.
  intros Hr Hs. destruct (exec r s) as [m|] eqn:E; [|reflexivity].
  apply scan_sound in E as (HS & pre & s' & -> & _).
  apply Hr in HS as (x & Hx & Hc).
  rewrite Forall_forall in Hs.
  assert (Hin : In x (pre ++ m0 m ++ s')).
  { apply in_or_app. right. apply in_or_app. left. exact Hx. }
  apply Hs in Hin. congruence.
Qed.

Lemma replaceAll_none r s v : exec r s = None -> replaceAll r s v = s.
Proof.
  intros H. unfold replaceAll, replaceAllFn, matchAll.
  rewrite (@matchAll_from_none r _ 0 s H). reflexivity.
Qed.

(** A text without carriage returns is its own normal form. *)
Lemma normalizeText_id s :
  Forall (fun x => c_is 13 x = false) s -> normalizeText s = s.
Proof.
  intros H. unfold normalizeText.
  rewrite (@replaceAll_none (seqs [Cls (c_is 13); Cls (c_is 10)]) s).
  - apply replaceAll_none. apply (exec_needs (c_is 13)); [|exact H].
    intros w cs cs' HS. apply Sem_Cls_inv in HS as (x & -> & Hx).
    exists x. split; [left; reflexivity | exact Hx].
  - apply (exec_needs (c_is 13)); [|exact H].
    intros w cs cs' HS. apply Sem_Seq_inv in HS as (w1 & w2 & cs1 & -> & H1 & _).
    apply Sem_Cls_inv in H1 as (x & -> & Hx).
    exists x. split; [left; reflexivity | exact Hx].
Qed.

Lemma app_eq_length (A : Type) (a b x y : list A) :
  length a = length b -> a ++ x = b ++ y -> a = b /\ x = y.
Proof.
  revert b. induction a as [|h a IH]; intros [|k b] Hl E; simpl in *; try discriminate.
  - auto.
  - injection E as -> E. injection Hl as Hl.
    destruct (IH b Hl E) as [-> ->]. auto.
Qed.

(** ** Case numbers with white space between the tokens *)

Lemma caseNumberPatterns_items :
  exists others,
    caseNumberPatterns
    = Grp 1 (seqs (List.map itemRe strictItems))
        :: Grp 1 (seqs (List.map itemRe spacedItems)) :: others.
Proof. eexists. reflexivity. Qed.

Lemma Sem_seqs_inv r rs w cs cs' :
  Sem (seqs (r :: rs)) w cs cs' ->
  exists w1 w2 cs1, w = w1 ++ w2 /\ Sem r w1 cs cs1 /\ Sem (seqs rs) w2 cs1 cs'.
Proof.
  destruct rs as [|r' rs].
  - intros H. exists w, [], cs'. rewrite app_nil_r.
    split; [reflexivity|]. split; [exact H | constructor].
  - intros H. apply Sem_Seq_inv in H. exact H.
Qed.

Lemma Sem_seqs_cons r rs w1 w2 cs cs1 cs' :
  Sem r w1 cs cs1 -> Sem (seqs rs) w2 cs1 cs' -> Sem (seqs (r :: rs)) (w1 ++ w2) cs cs'.
Proof.
  destruct rs as [|r' rs]; intros H1 H2.
  - inversion H2; subst. rewrite app_nil_r. exact H1.
  - exact (SSeq H1 H2).
Qed.

Lemma Sem_star_cls c g cs : Forall (fun x => c x = true) g -> Sem (star (Cls c)) g cs cs.
Proof.
  induction 1 as [|x g Hx _ IH]; [constructor|].
  change (x :: g) with ([x] ++ g).
  eapply SRepIter; [discriminate | constructor; exact Hx | exact IH].
Qed.

Lemma Sem_plus_cls c d cs :
  d <> [] -> Forall (fun x => c x = true) d -> Sem (plus (Cls c)) d cs cs.
Proof.
  intros Hne H. destruct H as [|x d Hx Hd]; [congruence|].
  change (x :: d) with ([x] ++ d).
  eapply SRepIter; [discriminate | constructor; exact Hx | apply Sem_star_cls; exact Hd].
Qed.

Lemma Sem_plus_inv c w cs cs' :
  Sem (plus (Cls c)) w cs cs' -> w <> [] /\ Forall (fun x => c x = true) w.
Proof.
  intros H. split.
  - inversion H; subst.
    match goal with H1 : Sem (Cls c) _ _ _ |- _ =>
      apply Sem_Cls_inv in H1 as (x & -> & _) end.
    discriminate.
  - apply (@Sem_chars (fun x => c x = true) _ _ _ _ H). simpl. auto.
Qed.

Lemma Sem_opt_inv c w cs cs' :
  Sem (opt (Cls c)) w cs cs' -> w = [] \/ exists x, w = [x] /\ c x = true.
Proof.
  intros H. inversion H; subst; [left; reflexivity|]. right.
  match goal with H1 : Sem (Cls c) _ _ _ |- _ =>
    apply Sem_Cls_inv in H1 as (x & -> & Hx) end.
  match goal with H2 : Sem (Rep _ _ _ _) _ _ _ |- _ => inversion H2; subst end.
  - exists x. split; [reflexivity | exact Hx].
  - simpl in *. congruence.
Qed.

(** A word of a sequence of items is made of words of the items, and such
    a word is a word of the sequence. *)
Lemma Sem_Fits its : forall w cs cs',
  Sem (seqs (List.map itemRe its)) w cs cs' -> Fits its w.
Proof.
  induction its as [|it its IH]; intros w cs cs' H.
  - apply Sem_Eps_inv in H as ->. constructor.
  - cbn [List.map] in H.
    apply Sem_seqs_inv in H as (w1 & w2 & cs1 & -> & H1 & H2).
    apply IH in H2. destruct it; cbn [itemRe] in H1.
    + apply Sem_Cls_inv in H1 as (x & -> & Hx). constructor; assumption.
    + constructor; [|exact H2].
      apply (@Sem_chars (fun x => is_ws x = true) _ _ _ _ H1). simpl. auto.
    + constructor; [|exact H2]. apply Sem_plus_inv in H1. exact H1.
    + apply Sem_opt_inv in H1 as [-> | (x & -> & Hx)].
      * apply FOptNo. exact H2.
      * apply FOptYes; assumption.
Qed.

Lemma Fits_Sem its w : Fits its w -> forall cs, Sem (seqs (List.map itemRe its)) w cs cs.
Proof.
  induction 1 as [|c x its w Hx _ IH|g its w Hg _ IH|d its w [Hne Hd] _ IH
                 |c its w _ IH|c x its w Hx _ IH]; intros cs; cbn [List.map].
  - constructor.
  - change (x :: w) with ([x] ++ w).
    eapply Sem_seqs_cons; [constructor; exact Hx | apply IH].
  - eapply Sem_seqs_cons; [apply Sem_star_cls; exact Hg | apply IH].
  - eapply Sem_seqs_cons; [apply Sem_plus_cls; assumption | apply IH].
  - change w with ([] ++ w).
    eapply Sem_seqs_cons; [apply SRepDone | apply IH].
  - change (x :: w) with (([x] ++ []) ++ w).
    eapply Sem_seqs_cons; [|apply IH].
    eapply SRepIter; [discriminate | constructor; exact Hx | apply SRepDone].
Qed.

Lemma filter_ws_nil g : Forall (fun x => is_ws x = true) g -> filter nonws g = [].
Proof.
  induction 1 as [|x g Hx _ IH]; [reflexivity|].
  simpl. unfold nonws at 1. rewrite Hx. exact IH.
Qed.

Lemma filter_nonws_id d : Forall (fun x => nonws x = true) d -> filter nonws d = d.
Proof.
  induction 1 as [|x d Hx _ IH]; [reflexivity|].
  simpl. rewrite Hx, IH. reflexivity.
Qed.

Lemma digitsRun_nonws d : digitsRun d -> Forall (fun x => nonws x = true) d.
Proof.
  intros [_ H]. eapply Forall_impl; [|exact H]. intros x. apply digit_nonws.
Qed.

(** With the white space taken out, the word is a word of the items
    without their white space. *)
Lemma Fits_strip its w : Fits its w -> solid its -> Fits (dropSpaces its) (filter nonws w).
Proof.
  induction 1 as [|c x its w Hx _ IH|g its w Hg _ IH|d its w Hd _ IH
                 |c its w _ IH|c x its w Hx _ IH]; cbn [solid dropSpaces]; intros Hs.
  - constructor.
  - destruct Hs as [Hc Hs]. cbn [filter]. rewrite (Hc x Hx).
    constructor; [exact Hx | apply IH; exact Hs].
  - rewrite filter_app, (filter_ws_nil Hg). apply IH. exact Hs.
  - rewrite filter_app, (filter_nonws_id (digitsRun_nonws Hd)).
    constructor; [exact Hd | apply IH; exact Hs].
  - destruct Hs as [Hc Hs]. apply FOptNo. apply IH. exact Hs.
  - destruct Hs as [Hc Hs]. cbn [filter]. rewrite (Hc x Hx).
    apply FOptYes; [exact Hx | apply IH; exact Hs].
Qed.

(** A class none of whose members satisfies [q] has nothing in common
    with [q]. *)
Lemma c_in_disjoint (q : char -> bool) s :
  forallb (fun y => negb (q y)) (js s) = true ->
  forall x, q x = true -> c_in s x = false.
Proof.
  intros H x Hx. destruct (c_in s x) eqn:E; [|reflexivity].
  apply c_in_spec in E. rewrite forallb_forall in H. apply H in E.
  rewrite Hx in E. discriminate.
Qed.

Lemma digit_notEra x : c_digit x = true -> c_in "令平" x = false.
Proof. revert x. apply c_in_disjoint. vm_compute. reflexivity. Qed.

Lemma lparen_notEra x : c_lparen x = true -> c_in "令平" x = false.
Proof. revert x. apply c_in_disjoint. vm_compute. reflexivity. Qed.

Lemma symbol_notEra x : caseSymbols x = true -> c_in "令平" x = false.
Proof. revert x. apply c_in_disjoint. vm_compute. reflexivity. Qed.

Lemma rparen_notEra x : c_rparen x = true -> c_in "令平" x = false.
Proof. revert x. apply c_in_disjoint. vm_compute. reflexivity. Qed.

Lemma lparen_nonws x : c_lparen x = true -> nonws x = true.
Proof. revert x. apply (c_in_sub nonws). vm_compute. reflexivity. Qed.

Lemma rparen_nonws x : c_rparen x = true -> nonws x = true.
Proof. revert x. apply (c_in_sub nonws). vm_compute. reflexivity. Qed.

Lemma era_nonws x : c_in "令平" x = true -> nonws x = true.
Proof. revert x. apply (c_in_sub nonws). vm_compute. reflexivity. Qed.

Lemma solid_strictItems : solid strictItems.
Proof.
  cbn [solid strictItems].
  repeat split;
    first [ exact era_nonws | exact lparen_nonws | exact rparen_nonws | exact symbol_nonws
          | apply (c_is_sub nonws); vm_compute; reflexivity ].
Qed.

Lemma solid_spacedItems : solid spacedItems.
Proof.
  cbn [solid spacedItems].
  repeat split;
    first [ exact era_nonws | exact lparen_nonws | exact rparen_nonws | exact symbol_nonws
          | apply (c_is_sub nonws); vm_compute; reflexivity ].
Qed.

(** Where a list is cut by the only element that satisfies [q]. *)
Lemma only_split (q : char -> bool) x y : forall l1 l2 r1 r2,
  Forall (fun a => q a = false) l1 -> Forall (fun a => q a = false) r1 ->
  q x = true -> q y = true ->
  l1 ++ x :: r1 = l2 ++ y :: r2 -> l1 = l2 /\ x = y /\ r1 = r2.
Proof.
  induction l1 as [|a l1 IH]; intros [|b l2] r1 r2 H1 Hr Hx Hy E; simpl in E.
  - injection E as -> ->. auto.
  - injection E as -> ->. exfalso.
    rewrite Forall_forall in Hr.
    assert (Hin : In y (l2 ++ y :: r2)) by (apply in_or_app; right; left; reflexivity).
    apply Hr in Hin. congruence.
  - injection E as -> _. apply Forall_inv in H1. congruence.
  - injection E as -> E. apply Forall_inv_tail in H1.
    destruct (IH _ _ _ H1 Hr Hx Hy E) as (-> & -> & ->). auto.
Qed.

(** Where two runs of [q] end. *)
Lemma first_split (q : char -> bool) x y : forall l1 l2 r1 r2,
  Forall (fun a => q a = true) l1 -> Forall (fun a => q a = true) l2 ->
  q x = false -> q y = false ->
  l1 ++ x :: r1 = l2 ++ y :: r2 -> l1 = l2 /\ x = y /\ r1 = r2.
Proof.
  induction l1 as [|a l1 IH]; intros [|b l2] r1 r2 H1 H2 Hx Hy E; simpl in E.
  - injection E as -> ->. auto.
  - injection E as -> _. apply Forall_inv in H2. congruence.
  - injection E as -> _. apply Forall_inv in H1. congruence.
  - injection E as -> E. apply Forall_inv_tail in H1, H2.
    destruct (IH _ _ _ H1 H2 Hx Hy E) as (-> & -> & ->). auto.
Qed.

(** The case number as a list of its characters. *)
Lemma unspaced_chars c :
  unspaced c
  = cnEra c :: ch "和" :: cnYear c
    ++ ch "年" :: cnOpen c :: cnSymbol c :: cnClose c :: daiWord c
    ++ cnSerial c ++ [ch "号"].
Proof. unfold unspaced, spacedWith. cbn [app]. reflexivity. Qed.

Lemma spacedWith_Fits g c : wellFormed c -> whiteSpace g -> Fits spacedItems (spacedWith g c).
Proof.
  intros (He & Hy & Ho & Hs & Hc & Hn) Hg. unfold spacedWith, spacedItems.
  cbn [app]. constructor; [exact He|].
  constructor; [apply Hg|]. constructor; [apply N.eqb_refl|].
  constructor; [apply Hg|]. constructor; [exact Hy|].
  constructor; [apply Hg|]. constructor; [apply N.eqb_refl|].
  constructor; [apply Hg|]. constructor; [exact Ho|].
  constructor; [apply Hg|]. constructor; [exact Hs|].
  constructor; [apply Hg|]. constructor; [exact Hc|].
  constructor; [apply Hg|].
  assert (Htail : Fits [ISpaces; IDigits; ISpaces; ICls (c_is (ch "号"))]
                    (g 7 ++ cnSerial c ++ g 8 ++ [ch "号"])).
  { constructor; [apply Hg|]. constructor; [exact Hn|].
    constructor; [apply Hg|]. constructor; [apply N.eqb_refl | constructor]. }
  unfold daiWord. destruct (cnDai c); cbn [app].
  - apply FOptYes; [apply N.eqb_refl | exact Htail].
  - apply FOptNo. exact Htail.
Qed.

Lemma filter_spacedWith g c :
  wellFormed c -> whiteSpace g -> filter nonws (spacedWith g c) = unspaced c.
Proof.
  intros (He & Hy & Ho & Hs & Hc & Hn) Hg. rewrite unspaced_chars. unfold spacedWith.
  assert (Hd : filter nonws (daiWord c) = daiWord c).
  { unfold daiWord. destruct (cnDai c); reflexivity. }
  rewrite !filter_app, !(filter_ws_nil (Hg _)), Hd,
    (filter_nonws_id (digitsRun_nonws Hy)), (filter_nonws_id (digitsRun_nonws Hn)).
  cbn [filter app].
  rewrite (era_nonws _ He), (lparen_nonws _ Ho), (symbol_nonws _ Hs), (rparen_nonws _ Hc).
  reflexivity.
Qed.

Lemma Fits_nil_inv v : Fits [] v -> v = [].
Proof. intros H. inversion H. reflexivity. Qed.

Lemma Fits_cls_inv c its v :
  Fits (ICls c :: its) v -> exists x w, v = x :: w /\ c x = true /\ Fits its w.
Proof. intros H. inversion H; subst. eauto. Qed.

Lemma Fits_digits_inv its v :
  Fits (IDigits :: its) v -> exists d w, v = d ++ w /\ digitsRun d /\ Fits its w.
Proof. intros H. inversion H; subst. eauto. Qed.

Lemma Fits_opt_inv c its v :
  Fits (IOpt c :: its) v ->
  Fits its v \/ exists x w, v = x :: w /\ c x = true /\ Fits its w.
Proof. intros H. inversion H; subst; eauto 6. Qed.

Lemma Forall_filter_keep (P : char -> Prop) (f : char -> bool) l :
  Forall P l -> Forall P (filter f l).
Proof.
  rewrite !Forall_forall. intros H x Hx. apply filter_In in Hx as [Hx _]. auto.
Qed.

Lemma digits_notEra d : Forall (fun x => c_digit x = true) d -> noEra d.
Proof. intros H. eapply Forall_impl; [|exact H]. intros x. apply digit_notEra. Qed.

Lemma daiWord_notEra c : noEra (daiWord c).
Proof.
  unfold daiWord. destruct (cnDai c); [|constructor].
  constructor; [vm_compute; reflexivity | constructor].
Qed.

(** The serial number and what ends it. *)
Lemma serial_aligned d n r1 r2 :
  digitsRun d -> digitsRun n ->
  d ++ ch "号" :: r2 = n ++ ch "号" :: r1 -> d = n.
Proof.
  intros [_ Hd] [_ Hn] E.
  apply (first_split c_digit) in E as (E & _); auto.
Qed.

Lemma digit_not_dai d w r : digitsRun d -> d ++ w = ch "第" :: r -> False.
Proof.
  intros [Hne Hd] E. destruct d as [|z d]; [congruence|].
  injection E as -> _. apply Forall_inv in Hd. vm_compute in Hd. discriminate.
Qed.

(** A word of the core items at the head of a text that begins with the
    case number is the case number. *)
Lemma core_aligned c v r1 r2 :
  wellFormed c -> Fits coreItems v -> v ++ r2 = unspaced c ++ r1 -> v = unspaced c.
Proof.
  intros (He & Hy & Ho & Hs & Hc & Hn) HF E.
  rewrite unspaced_chars in *. unfold coreItems in HF.
  apply Fits_cls_inv in HF as (e & v1 & -> & Hee & HF).
  apply Fits_cls_inv in HF as (x1 & v2 & -> & Hx1 & HF). apply c_is_spec in Hx1 as ->.
  apply Fits_digits_inv in HF as (d & v3 & -> & Hd & HF).
  apply Fits_cls_inv in HF as (x2 & v4 & -> & Hx2 & HF). apply c_is_spec in Hx2 as ->.
  apply Fits_cls_inv in HF as (x3 & v5 & -> & Hx3 & HF).
  apply Fits_cls_inv in HF as (x4 & v6 & -> & Hx4 & HF).
  apply Fits_cls_inv in HF as (x5 & v7 & -> & Hx5 & HF).
  cbn [app] in E. injection E as -> E.
  rewrite <- !app_assoc in E. cbn [app] in E.
  apply (first_split c_digit) in E as (-> & _ & E);
    [| apply Hd | apply Hy | vm_compute; reflexivity | vm_compute; reflexivity].
  injection E as -> -> -> E.
  assert (Hv7 : v7 = daiWord c ++ cnSerial c ++ [ch "号"]).
  { apply Fits_opt_inv in HF as [HF | (y & v8 & -> & Hy8 & HF)].
    - apply Fits_digits_inv in HF as (d2 & v9 & -> & Hd2 & HF).
      apply Fits_cls_inv in HF as (x6 & v10 & -> & Hx6 & HF). apply c_is_spec in Hx6 as ->.
      apply Fits_nil_inv in HF as ->.
      unfold daiWord in *. destruct (cnDai c);
        rewrite <- ?app_assoc in E; cbn [app] in E |- *.
      + exfalso. exact (@digit_not_dai d2 _ _ Hd2 E).
      + rewrite (@serial_aligned d2 (cnSerial c) r1 r2 Hd2 Hn E). reflexivity.
    - apply c_is_spec in Hy8 as ->.
      apply Fits_digits_inv in HF as (d2 & v9 & -> & Hd2 & HF).
      apply Fits_cls_inv in HF as (x6 & v10 & -> & Hx6 & HF). apply c_is_spec in Hx6 as ->.
      apply Fits_nil_inv in HF as ->.
      unfold daiWord in *. destruct (cnDai c);
        rewrite <- ?app_assoc in E; cbn [app] in E |- *.
      + injection E as E. rewrite <- ?app_assoc in E. cbn [app] in E.
        rewrite (@serial_aligned d2 (cnSerial c) r1 r2 Hd2 Hn E). reflexivity.
      + exfalso. symmetry in E. exact (@digit_not_dai (cnSerial c) _ _ Hn E). }
  rewrite Hv7. reflexivity.
Qed.

(** Whatever a pattern of these items finds in the text, the value kept is
    the case number. *)
Lemma match_canonical its c g pre post t m :
  solid its -> dropSpaces its = coreItems ->
  (forall w, Fits its w -> caseShaped w) ->
  wellFormed c -> whiteSpace g -> onlyAt (length pre) t ->
  t = pre ++ spacedWith g c ++ post ->
  exec (Grp 1 (seqs (List.map itemRe its))) t = Some m ->
  halfWidthParens (stripWs (match group 1 m with Some v => v | None => [] end))
  = halfWidthParens (unspaced c).
Proof.
  intros Hsolid Hcore Hshape Hwf Hg Honly Ht Hm.
  apply scan_sound in Hm as (HS & pre' & s' & Hs & _).
  unfold group. rewrite (Sem_grp_top HS).
  apply Sem_Grp_inv in HS as (cs1 & HS).
  apply Sem_Fits in HS.
  assert (Hlen : length pre' = length pre) by (apply (Honly pre' (m0 m) s' Hs); auto).
  rewrite Ht in Hs. symmetry in Hs.
  apply (app_eq_length _ _ _ _ Hlen) in Hs as [_ Hs].
  apply Fits_strip in HS; [|exact Hsolid]. rewrite Hcore in HS.
  rewrite stripWs_filter.
  change (filter (fun x => negb (is_ws x)) (m0 m)) with (filter nonws (m0 m)).
  f_equal.
  apply (@core_aligned c _ (filter nonws post) (filter nonws s') Hwf HS).
  rewrite <- (filter_spacedWith Hwf Hg), <- !filter_app, Hs. reflexivity.
Qed.

Lemma firstCaseNumber_spaced c g pre post t :
  wellFormed c -> whiteSpace g -> onlyAt (length pre) t ->
  t = pre ++ spacedWith g c ++ post ->
  firstCaseNumber caseNumberPatterns t = Some (halfWidthParens (unspaced c)).
Proof.
  intros Hwf Hg Honly Ht.
  destruct caseNumberPatterns_items as (others & ->).
  cbn [firstCaseNumber].
  destruct (exec (Grp 1 (seqs (List.map itemRe strictItems))) t) as [m|] eqn:E1.
  { f_equal.
    exact (@match_canonical strictItems c g pre post t m solid_strictItems eq_refl
             (fun w H => or_introl H) Hwf Hg Honly Ht E1). }
  destruct (exec (Grp 1 (seqs (List.map itemRe spacedItems))) t) as [m|] eqn:E2.
  { f_equal.
    exact (@match_canonical spacedItems c g pre post t m solid_spacedItems eq_refl
             (fun w H => or_intror H) Hwf Hg Honly Ht E2). }
  exfalso. revert E2. rewrite Ht.
  apply (@exec_complete _ pre (spacedWith g c) post [] (setcap 1 (spacedWith g c) []));
    [reflexivity|].
  apply SGrp. apply Fits_Sem. apply spacedWith_Fits; assumption.
Qed.

(** The case number alone: it holds no carriage return, and nothing of
    the shape of a case number begins past its first character. *)
Lemma unspaced_nonws c : wellFormed c -> Forall (fun x => nonws x = true) (unspaced c).
Proof.
  intros Hwf.
  rewrite <- (@filter_spacedWith (fun _ => []) c Hwf) by (intros i; constructor).
  apply Forall_forall. intros x Hx. apply filter_In in Hx. tauto.
Qed.

Lemma normalizeText_unspaced c : wellFormed c -> normalizeText (unspaced c) = unspaced c.
Proof.
  intros Hwf. apply normalizeText_id.
  eapply Forall_impl; [|exact (unspaced_nonws Hwf)].
  intros x Hx. destruct (c_is 13 x) eqn:E; [|reflexivity].
  apply c_is_spec in E. subst x. vm_compute in Hx. discriminate Hx.
Qed.

Lemma caseShaped_era w : caseShaped w -> exists e w', w = e :: w' /\ c_in "令平" e = true.
Proof.
  intros [H|H]; apply Fits_cls_inv in H as (e & w' & -> & He & _); eauto.
Qed.

Lemma onlyAt_unspaced c : wellFormed c -> onlyAt 0 (unspaced c).
Proof.
  intros Hwf l w r E Hw.
  destruct (caseShaped_era Hw) as (e & w' & -> & He).
  destruct Hwf as (Hera & Hy & Ho & Hs & Hc & Hn).
  rewrite unspaced_chars in E.
  change (cnEra c :: ?x) with ([] ++ cnEra c :: x) in E.
  apply (only_split (c_in "令平")) in E as (<- & _ & _); auto.
  constructor; [vm_compute; reflexivity|].
  apply Forall_app2; [apply digits_notEra; apply Hy|].
  constructor; [vm_compute; reflexivity|].
  constructor; [apply lparen_notEra; exact Ho|].
  constructor; [apply symbol_notEra; exact Hs|].
  constructor; [apply rparen_notEra; exact Hc|].
  apply Forall_app2; [apply daiWord_notEra|].
  apply Forall_app2; [apply digits_notEra; apply Hn|].
  constructor; [vm_compute; reflexivity | constructor].
Qed.

(** C6 (amended): with white space put between the tokens of a case number
    -- anywhere but inside a run of digits -- in a text where nothing else
    of the shape of a case number begins, the case number extracted is the
    one extracted from the case number alone: its tokens with no white
    space between them and half-width brackets. *)
Theorem case_number_token_spacing (cfg : Config) (text : jsstring)
    (c : CaseNo) (g : nat -> jsstring) (pre post : jsstring) :
  wellFormed c -> whiteSpace g ->
  normalizeText text = pre ++ spacedWith g c ++ post ->
  onlyAt (length pre) (normalizeText text) ->
  caseNumber (extractInfoFromText cfg text) = Some (halfWidthParens (unspaced c))
  /\ caseNumber (extractInfoFromText cfg text)
     = caseNumber (extractInfoFromText cfg (unspaced c)).
Proof.
  intros Hwf Hg Ht Honly.
  assert (H1 : caseNumber (extractInfoFromText cfg text)
               = Some (halfWidthParens (unspaced c))).
  { unfold extractInfoFromText. cbn [caseNumber]. unfold extractCaseNumber.
    rewrite (@firstCaseNumber_spaced c g pre post _ Hwf Hg Honly Ht). reflexivity. }
  assert (H2 : caseNumber (extractInfoFromText cfg (unspaced c))
               = Some (halfWidthParens (unspaced c))).
  { unfold extractInfoFromText. cbn [caseNumber]. unfold extractCaseNumber.
    rewrite (normalizeText_unspaced Hwf).
    assert (Hg0 : whiteSpace (fun _ => [])) by (intros i; constructor).
    rewrite (@firstCaseNumber_spaced c (fun _ => []) [] [] (unspaced c) Hwf Hg0
               (onlyAt_unspaced Hwf)); [reflexivity|].
    cbn [app]. rewrite app_nil_r. reflexivity. }
  split; [exact H1 | rewrite H1, H2; reflexivity].
Qed.

(** The matcher decides where a case number begins. *)
Lemma onlyAt_check p t : startsCaseOnlyAt p t = true -> onlyAt p t.
Proof.
  unfold startsCaseOnlyAt. intros H l w r Ht Hw.
  rewrite forallb_forall in H.
  assert (Hin : In (length l) (seq 0 (S (length t)))).
  { apply in_seq. rewrite Ht, length_app. lia. }
  apply H in Hin. apply orb_true_iff in Hin as [Hin|Hin].
  - apply Nat.eqb_eq in Hin. exact Hin.
  - exfalso. apply negb_true_iff in Hin. unfold startsCase in Hin.
    assert (Hskip : skipn (length l) t = w ++ r).
    { rewrite Ht. apply skipn_exact. reflexivity. }
    rewrite Hskip in Hin.
    destruct Hw as [Hw|Hw].
    + pose proof (@try_at_complete (Grp 1 (seqs (List.map itemRe strictItems)))
                    (length l) (w ++ r) w r [] (setcap 1 w [])
                    eq_refl (SGrp 1 (Fits_Sem Hw [])) eq_refl) as Hc.
      destruct (try_at (Grp 1 (seqs (List.map itemRe strictItems))) (length l) (w ++ r));
        [|congruence].
      destruct (try_at (Grp 1 (seqs (List.map itemRe spacedItems))) (length l) (w ++ r));
        discriminate.
    + pose proof (@try_at_complete (Grp 1 (seqs (List.map itemRe spacedItems)))
                    (length l) (w ++ r) w r [] (setcap 1 w [])
                    eq_refl (SGrp 1 (Fits_Sem Hw [])) eq_refl) as Hc.
      destruct (try_at (Grp 1 (seqs (List.map itemRe spacedItems))) (length l) (w ++ r));
        [|congruence].
      destruct (try_at (Grp 1 (seqs (List.map itemRe strictItems))) (length l) (w ++ r));
        discriminate.
Qed.

Lemma case_number_token_spacing_witness :
  wellFormed sampleCaseNo /\ whiteSpace oneSpace
  /\ normalizeText spacedSheet = sheetDate ++ spacedWith oneSpace sampleCaseNo ++ sheetCaseName
  /\ onlyAt (length sheetDate) (normalizeText spacedSheet)
  /\ caseNumber (extractInfoFromText defaultConfig spacedSheet)
     = Some (halfWidthParens (unspaced sampleCaseNo))
  /\ caseNumber (extractInfoFromText defaultConfig spacedSheet)
     = caseNumber (extractInfoFromText defaultConfig (unspaced sampleCaseNo)).
Proof.
  assert (Hwf : wellFormed sampleCaseNo).
  { split; [vm_compute; reflexivity|].
    split; [split; [vm_compute; discriminate | apply forallb_Forall; vm_compute; reflexivity]|].
    split; [vm_compute; reflexivity|].
    split; [vm_compute; reflexivity|].
    split; [vm_compute; reflexivity|].
    split; [vm_compute; discriminate | apply forallb_Forall; vm_compute; reflexivity]. }
  assert (Hg : whiteSpace oneSpace).
  { intros i. apply forallb_Forall. vm_compute. reflexivity. }
  assert (Ht : normalizeText spacedSheet
               = sheetDate ++ spacedWith oneSpace sampleCaseNo ++ sheetCaseName)
    by (vm_compute; reflexivity).
  assert (Honly : onlyAt (length sheetDate) (normalizeText spacedSheet))
    by (apply onlyAt_check; vm_compute; reflexivity).
  split; [exact Hwf|]. split; [exact Hg|]. split; [exact Ht|]. split; [exact Honly|].
  exact (@case_number_token_spacing defaultConfig spacedSheet sampleCaseNo
           oneSpace _ _ Hwf Hg Ht Honly).
Defined.

(** C6 as worded: with a space between every two characters the digits
    of the serial number are apart, no pattern matches, and no case number
    is extracted; and with another case number further on in the text, it
    is that one that the strict pattern finds. *)
Lemma case_number_token_spacing_counterexample :
  ~ spacingInvariant [] (js "令和6年(ワ)第228号") []
  /\ ~ spacingInvariant [] (js "令和6年(ワ)第8号") ([10%N] ++ js "令和5年(ワ)第100号").
Proof.
  assert (L1 : caseNumber (extractInfoFromText defaultConfig
                             ([] ++ spaceOut (js "令和6年(ワ)第228号") ++ [])) = None)
    by (vm_compute; reflexivity).
  assert (R1 : caseNumber (extractInfoFromText defaultConfig (js "令和6年(ワ)第228号"))
               = Some (js "令和6年(ワ)第228号"))
    by (vm_compute; reflexivity).
  assert (L2 : caseNumber (extractInfoFromText defaultConfig
                             ([] ++ spaceOut (js "令和6年(ワ)第8号")
                                 ++ ([10%N] ++ js "令和5年(ワ)第100号")))
               = Some (js "令和5年(ワ)第100号"))
    by (vm_compute; reflexivity).
  assert (R2 : caseNumber (extractInfoFromText defaultConfig (js "令和6年(ワ)第8号"))
               = Some (js "令和6年(ワ)第8号"))
    by (vm_compute; reflexivity).
  unfold spacingInvariant. split.
  - rewrite L1, R1. discriminate.
  - rewrite L2, R2. intros H. injection H as H. vm_compute in H. discriminate H.
Qed.

(** ** Literals, and the steps of a match through a sequence *)

Lemma rmatch_Seq a b st k : rmatch (Seq a b) st k = rmatch a st (fun st' => rmatch b st' k).
Proof. reflexivity. Qed.

Lemma rmatch_Alt a b st k :
  rmatch (Alt a b) st k = orElse (rmatch a st k) (fun _ => rmatch b st k).
Proof. reflexivity. Qed.

Lemma rmatch_Grp i r st k :
  rmatch (Grp i r) st k
  = rmatch r st (fun st' =>
      k (MState (pos st') (rest st')
           (setcap i (firstn (pos st' - pos st) (rest st)) (mcaps st')))).
Proof. reflexivity. Qed.

Lemma Sem_chars_inv l : forall w cs cs',
  Sem (seqs (List.map (fun a => Cls (c_is a)) l)) w cs cs' -> w = l.
Proof.
  induction l as [|a l IH]; intros w cs cs' H.
  - apply Sem_Eps_inv in H. exact H.
  - cbn [List.map] in H. apply Sem_seqs_inv in H as (w1 & w2 & cs1 & -> & H1 & H2).
    apply Sem_Cls_inv in H1 as (x & -> & Hx). apply c_is_spec in Hx as ->.
    apply IH in H2 as ->. reflexivity.
Qed.

Lemma Sem_lit_inv s w cs cs' : Sem (lit s) w cs cs' -> w = js s.
Proof. apply Sem_chars_inv. Qed.

Lemma Sem_chars_intro l cs : Sem (seqs (List.map (fun a => Cls (c_is a)) l)) l cs cs.
Proof.
  induction l as [|a l IH]; [constructor|].
  cbn [List.map]. change (a :: l) with ([a] ++ l).
  eapply Sem_seqs_cons; [constructor; apply N.eqb_refl | exact IH].
Qed.

Lemma Sem_lit s cs : Sem (lit s) (js s) cs cs.
Proof. apply Sem_chars_intro. Qed.

(** A literal that is there is passed over. *)
Lemma step_chars l : forall p rest0 cs k,
  rmatch (seqs (List.map (fun a => Cls (c_is a)) l)) (MState p (l ++ rest0) cs) k
  = k (MState (p + length l) rest0 cs).
Proof.
  induction l as [|a l IH]; intros p rest0 cs k.
  - simpl. rewrite Nat.add_0_r. reflexivity.
  - destruct l as [|b l].
    + cbn [List.map seqs app length]. rewrite step_cls by apply N.eqb_refl.
      rewrite Nat.add_1_r. reflexivity.
    + change (seqs (List.map (fun a => Cls (c_is a)) (a :: b :: l)))
        with (Seq (Cls (c_is a)) (seqs (List.map (fun a => Cls (c_is a)) (b :: l)))).
      rewrite rmatch_Seq. change ((a :: b :: l) ++ rest0) with (a :: (b :: l) ++ rest0).
      rewrite step_cls by apply N.eqb_refl. rewrite IH.
      cbn [length]. rewrite Nat.add_succ_comm. reflexivity.
Qed.

Lemma step_lit s p rest0 cs k :
  rmatch (lit s) (MState p (js s ++ rest0) cs) k = k (MState (p + length (js s)) rest0 cs).
Proof. apply step_chars. Qed.

(** ** The fax patterns *)

Lemma faxLabel_start w cs cs' :
  Sem faxLabel w cs cs' -> exists f w', w = f :: w' /\ c_faxStart f = true.
Proof.
  unfold faxLabel. cbn [alts]. intros H.
  apply Sem_Alt_inv in H as [H|H]; [|apply Sem_Alt_inv in H as [H|H]].
  - apply Sem_lit_inv in H as ->. eexists _, _. split; [vm_compute; reflexivity|].
    vm_compute. reflexivity.
  - apply Sem_lit_inv in H as ->. eexists _, _. split; [vm_compute; reflexivity|].
    vm_compute. reflexivity.
  - apply Sem_seqs_inv in H as (w1 & w2 & cs1 & -> & H1 & H2).
    apply Sem_Cls_inv in H1 as (x & -> & Hx).
    exists x, w2. split; [reflexivity|].
    revert x Hx. apply (c_in_sub c_faxStart). vm_compute. reflexivity.
Qed.

Lemma faxRegex_start w cs cs' :
  Sem faxRegex w cs cs' -> exists f w', w = f :: w' /\ c_faxStart f = true.
Proof.
  unfold faxRegex. intros H.
  apply Sem_seqs_inv in H as (w1 & w2 & cs1 & -> & H1 & _).
  apply faxLabel_start in H1 as (f & w' & -> & Hf).
  exists f, (w' ++ w2). split; [reflexivity | exact Hf].
Qed.

(** No fax number begins at a character that is not the start of a label,
    nor at the end of the text. *)
Lemma try_at_faxRegex_fail x q t : c_faxStart x = false -> try_at faxRegex q (x :: t) = None.
Proof.
  intros Hx. destruct (try_at faxRegex q (x :: t)) as [m|] eqn:E; [|reflexivity].
  apply try_at_sound in E as (_ & HS & s' & Hs).
  apply faxRegex_start in HS as (f & w' & Hw & Hf). rewrite Hw in Hs.
  injection Hs as -> _. congruence.
Qed.

Lemma try_at_faxRegex_end q : try_at faxRegex q [] = None.
Proof.
  destruct (try_at faxRegex q []) as [m|] eqn:E; [|reflexivity].
  apply try_at_sound in E as (_ & HS & s' & Hs).
  apply faxRegex_start in HS as (f & w' & Hw & Hf). rewrite Hw in Hs. discriminate.
Qed.

(** A label [FAX], separators, and a number that ends where the class of
    its characters ends. *)
Lemma try_at_faxRegex_FAX p sep digits rest0 :
  allb c_faxSep sep -> allb c_faxDigit digits -> digits <> [] ->
  boundary c_faxSep (digits ++ rest0) -> boundary c_faxDigit rest0 ->
  try_at faxRegex p (js "FAX" ++ sep ++ digits ++ rest0)
  = Some (MkMatch p (js "FAX" ++ sep ++ digits) [(1, digits)]).
Proof.
  intros Hsep Hd Hne Hb1 Hb2.
  set (st' := MState (p + length (js "FAX") + length sep + length digits) rest0
                [(1, digits)]).
  assert (H : rmatch faxRegex (MState p (js "FAX" ++ sep ++ digits ++ rest0) [])
                (fun st => Some st) = Some st').
  { change faxRegex
      with (Seq (Alt (lit "FAX") (alts [lit "ＦＡＸ"; seqs [Cls (c_in "Ff"); lit "ax"]]))
              (Seq (star (Cls c_faxSep)) (Grp 1 (plus (Cls c_faxDigit))))).
    rewrite rmatch_Seq, rmatch_Alt, step_lit.
    assert (Hin : rmatch (Seq (star (Cls c_faxSep)) (Grp 1 (plus (Cls c_faxDigit))))
                    (MState (p + length (js "FAX")) (sep ++ digits ++ rest0) [])
                    (fun st => Some st) = Some st').
    { rewrite rmatch_Seq. apply step_star; [exact Hsep | exact Hb1|].
      rewrite rmatch_Grp. apply step_plus; [exact Hd | exact Hne | exact Hb2|].
      cbn [pos rest mcaps]. unfold st', setcap.
      replace (p + length (js "FAX") + length sep + length digits
               - (p + length (js "FAX") + length sep)) with (length digits) by lia.
      rewrite firstn_exact by reflexivity. reflexivity. }
    rewrite Hin. reflexivity. }
  rewrite (@try_at_of_rmatch faxRegex p _ (js "FAX" ++ sep ++ digits) st' H).
  - reflexivity.
  - unfold st'. cbn [rest]. rewrite <- !app_assoc. reflexivity.
Qed.

Lemma bracket_label_labelled a rs w cs cs' :
  Sem (seqs (Cls c_lparen :: ws0 :: faxLabel :: rs)) w cs cs' -> labelled (a ++ w).
Proof.
  intros H.
  apply Sem_seqs_inv in H as (w1 & w2 & cs1 & -> & H1 & H).
  apply Sem_Cls_inv in H1 as (p & -> & Hp).
  apply Sem_seqs_inv in H as (g & w3 & cs2 & -> & Hg & H).
  apply Sem_seqs_inv in H as (L & w4 & cs3 & -> & HL & _).
  apply faxLabel_start in HL as (f & L' & -> & Hf).
  exists a, p, g, f, (L' ++ w4). split; [reflexivity|].
  split; [exact Hp|]. split; [|exact Hf].
  apply (@Sem_chars (fun x => is_ws x = true) _ _ _ _ Hg). simpl. auto.
Qed.

Lemma explicitFaxRegex_labelled w cs cs' : Sem explicitFaxRegex w cs cs' -> labelled w.
Proof.
  unfold explicitFaxRegex. intros H.
  apply Sem_seqs_inv in H as (w1 & w2 & cs1 & -> & _ & H).
  apply Sem_seqs_inv in H as (w3 & w4 & cs2 & -> & _ & H).
  rewrite app_assoc. eapply bracket_label_labelled. exact H.
Qed.

Lemma explicitCourtFaxPattern_labelled w cs cs' :
  Sem explicitCourtFaxPattern w cs cs' -> labelled w.
Proof.
  unfold explicitCourtFaxPattern. intros H.
  do 6 (apply Sem_seqs_inv in H as (? & ? & ? & -> & _ & H)).
  rewrite !app_assoc. eapply bracket_label_labelled. exact H.
Qed.

Lemma exec_unlabelled r t :
  (forall w cs cs', Sem r w cs cs' -> labelled w) -> unlabelled t -> exec r t = None.
Proof.
  intros Hr Ht. destruct (exec r t) as [m|] eqn:E; [|reflexivity].
  apply scan_sound in E as (HS & pre & s' & Hs & _).
  exfalso. exact (Ht pre (m0 m) s' Hs (Hr _ _ _ HS)).
Qed.

(** A bracket and white space cannot end a text that ends with a
    character that is neither, followed by one that is no bracket. *)
Lemma bracket_before_end x y L0 l p g :
  l ++ [p] ++ g = L0 ++ [x; y] ->
  Forall (fun z => is_ws z = true) g -> c_lparen p = true ->
  is_ws x = false -> c_lparen x = false -> c_lparen y = false -> False.
Proof.
  intros E Hg Hp Hx1 Hx2 Hy.
  apply (f_equal (@rev char)) in E.
  rewrite !rev_app_distr in E. cbn [rev app] in E.
  apply Forall_rev in Hg.
  destruct (rev g) as [|g1 [|g2 g']]; cbn [app] in E.
  - injection E as -> _. congruence.
  - injection E as _ -> _. congruence.
  - injection E as _ -> _. apply Forall_inv_tail, Forall_inv in Hg. congruence.
Qed.

(** The phrase for the counsel of the defendant begins with its first
    character. *)
Lemma nearDefendantCounsel_start w cs cs' :
  Sem nearDefendantCounsel w cs cs' -> In (ch "被") w.
Proof.
  unfold nearDefendantCounsel. intros H.
  apply Sem_seqs_inv in H as (w1 & w2 & cs1 & -> & H & _).
  apply Sem_lit_inv in H as ->. left. reflexivity.
Qed.

(** ** The two counsel lines *)

Lemma check_false (c : char -> bool) s :
  forallb (fun x => negb (c x)) s = true -> Forall (fun x => c x = false) s.
Proof.
  intros H. apply Forall_forall. intros x Hx.
  rewrite forallb_forall in H. apply H in Hx. apply negb_true_iff. exact Hx.
Qed.

Lemma boundary_app (c : char -> bool) s t : s <> [] -> boundary c s -> boundary c (s ++ t).
Proof. destruct s; [congruence | auto]. Qed.

(** The scan for fax numbers passes over a silent stretch, and finds the
    number after a label. *)
Lemma scan_faxRegex_silent p a s : silent a -> scan faxRegex p (a ++ s) = scan faxRegex (p + length a) s.
Proof.
  intros H. apply scan_skip. intros x Hx q t.
  apply try_at_faxRegex_fail. unfold silent in H. rewrite Forall_forall in H. auto.
Qed.

Lemma matchAll_from_silent fuel p a : silent a -> matchAll_from fuel faxRegex p a = [].
Proof.
  intros H. apply matchAll_from_none. apply scan_none.
  - intros x Hx q t. apply try_at_faxRegex_fail. unfold silent in H. rewrite Forall_forall in H. auto.
  - apply try_at_faxRegex_end.
Qed.

Lemma matchAll_from_fax fuel p a sep digits rest0 :
  silent a -> allb c_faxSep sep -> allb c_faxDigit digits -> digits <> [] ->
  boundary c_faxSep (digits ++ rest0) -> boundary c_faxDigit rest0 ->
  length (a ++ js "FAX" ++ sep ++ digits ++ rest0) < fuel ->
  matchAll_from fuel faxRegex p (a ++ js "FAX" ++ sep ++ digits ++ rest0)
  = MkMatch (p + length a) (js "FAX" ++ sep ++ digits) [(1, digits)]
      :: matchAll_from (Nat.pred fuel) faxRegex
           (p + length a + length (js "FAX" ++ sep ++ digits)) rest0.
Proof.
  intros Ha Hsep Hd Hne Hb1 Hb2 Hf.
  set (m := MkMatch (p + length a) (js "FAX" ++ sep ++ digits) [(1, digits)]).
  assert (Hscan : scan faxRegex p (a ++ js "FAX" ++ sep ++ digits ++ rest0) = Some m).
  { rewrite (scan_faxRegex_silent _ _ Ha). apply scan_here.
    apply try_at_faxRegex_FAX; assumption. }
  rewrite (@matchAll_from_step faxRegex fuel p _ m Hf Hscan).
  2:{ unfold m. cbn [m0]. intros E. apply (f_equal (@length char)) in E.
      rewrite !length_app in E. destruct digits; [congruence | simpl in E; lia]. }
  f_equal. unfold m. cbn [index m0]. f_equal.
  replace (p + length a + length (js "FAX" ++ sep ++ digits) - p)
    with (length (a ++ js "FAX" ++ sep ++ digits)).
  - replace (a ++ js "FAX" ++ sep ++ digits ++ rest0)
      with ((a ++ js "FAX" ++ sep ++ digits) ++ rest0)
      by (rewrite <- !app_assoc; reflexivity).
    apply skipn_exact. reflexivity.
  - rewrite !length_app. lia.
Qed.

(** Closed facts about the two lines. *)
Lemma defendantLine_parts :
  defendantLine = js "被告訴訟代理人 " ++ js "FAX" ++ space ++ js "03-0000-0000".
Proof. vm_compute. reflexivity. Qed.

Lemma plaintiffLine_parts :
  plaintiffLine = js "原告訴訟代理人 " ++ js "FAX" ++ space ++ js "06-1111-1111".
Proof. vm_compute. reflexivity. Qed.

Lemma counsel_heads_silent : silent (js "被告訴訟代理人 ") /\ silent (js "原告訴訟代理人 ").
Proof. split; apply check_false; vm_compute; reflexivity. Qed.

Lemma fax_numbers_shape :
  allb c_faxSep space
  /\ allb c_faxDigit (js "03-0000-0000") /\ allb c_faxDigit (js "06-1111-1111")
  /\ c_faxSep 48%N = false.
Proof.
  repeat split; try (apply forallb_Forall; vm_compute; reflexivity).
Qed.

Lemma fax_numbers_normal :
  normalizeFax (js "03-0000-0000") = js "03-0000-0000"
  /\ normalizeFax (js "06-1111-1111") = js "06-1111-1111"
  /\ existsb (fun cf => includes (js "06-1111-1111") cf) courtFaxValues = false.
Proof. repeat split; vm_compute; reflexivity. Qed.

(** Where the start of a fax label can be in a text that has one after
    [s0], and no other before or in [r]. *)
Lemma silent_no_mark s L f b : silent s -> c_faxStart f = true -> s = L ++ f :: b -> False.
Proof.
  intros Hs Hf E. unfold silent in Hs. rewrite Forall_forall in Hs.
  assert (Hin : In f s) by (rewrite E; apply in_or_app; right; left; reflexivity).
  apply Hs in Hin. congruence.
Qed.

Lemma mark_split x f : forall s0 r L b,
  silent s0 -> c_faxStart f = true ->
  s0 ++ x :: r = L ++ f :: b ->
  L = s0 \/ exists L', L = s0 ++ x :: L' /\ r = L' ++ f :: b.
Proof.
  induction s0 as [|a s0 IH]; intros r L b Hs Hf E.
  - destruct L as [|l0 L]; [left; reflexivity|].
    simpl in E. injection E as -> E. right. exists L. auto.
  - destruct L as [|l0 L]; simpl in E.
    + injection E as -> _. apply Forall_inv in Hs. congruence.
    + injection E as -> E. apply Forall_inv_tail in Hs.
      destruct (IH _ _ _ Hs Hf E) as [-> | (L' & -> & Hr)]; [left; reflexivity|].
      right. exists L'. auto.
Qed.

(** No labelled fax in the text with the two lines. *)
Lemma lines_unlabelled pre mid post :
  silent pre -> silent mid -> silent post ->
  unlabelled (pre ++ defendantLine ++ mid ++ plaintiffLine ++ post).
Proof.
  intros Hpre Hmid Hpost l w r Et (a & p & g & f & b & -> & Hp & Hg & Hf).
  assert (ED : defendantLine = (js "被告訴訟代理" ++ [ch "人"; 32%N]) ++ ch "F" :: js "AX 03-0000-0000")
    by (vm_compute; reflexivity).
  assert (EP : plaintiffLine = (js "原告訴訟代理" ++ [ch "人"; 32%N]) ++ ch "F" :: js "AX 06-1111-1111")
    by (vm_compute; reflexivity).
  assert (Hs1 : silent (js "被告訴訟代理")) by (apply check_false; vm_compute; reflexivity).
  assert (Hs2 : silent (js "原告訴訟代理")) by (apply check_false; vm_compute; reflexivity).
  assert (Hs3 : silent [ch "人"; 32%N]) by (apply check_false; vm_compute; reflexivity).
  assert (Hs4 : silent (js "AX 03-0000-0000")) by (apply check_false; vm_compute; reflexivity).
  assert (Hs5 : silent (js "AX 06-1111-1111")) by (apply check_false; vm_compute; reflexivity).
  set (s0 := pre ++ js "被告訴訟代理").
  set (s1 := js "AX 03-0000-0000" ++ mid ++ js "原告訴訟代理").
  assert (E : (s0 ++ [ch "人"; 32%N]) ++ ch "F"
                :: (s1 ++ [ch "人"; 32%N]) ++ ch "F" :: js "AX 06-1111-1111" ++ post
              = (l ++ a ++ [p] ++ g) ++ f :: b ++ r).
  { transitivity (pre ++ defendantLine ++ mid ++ plaintiffLine ++ post).
    - unfold s0, s1. rewrite ED, EP, <- !app_assoc. cbn [app].
      rewrite <- ?app_assoc. reflexivity.
    - rewrite Et, <- !app_assoc. cbn [app]. rewrite <- ?app_assoc. reflexivity. }
  assert (Hend : forall L0, l ++ a ++ [p] ++ g = L0 ++ [ch "人"; 32%N] -> False).
  { intros L0 EL. rewrite app_assoc in EL.
    apply (@bracket_before_end _ _ _ _ _ _ EL Hg Hp); vm_compute; reflexivity. }
  assert (Hsa : silent (s0 ++ [ch "人"; 32%N])).
  { unfold s0. apply Forall_app2; [|exact Hs3]. apply Forall_app2; assumption. }
  assert (Hsb : silent (s1 ++ [ch "人"; 32%N])).
  { unfold s1. apply Forall_app2; [|exact Hs3].
    apply Forall_app2; [exact Hs4|]. apply Forall_app2; assumption. }
  assert (Hsc : silent (js "AX 06-1111-1111" ++ post)) by (apply Forall_app2; assumption).
  destruct (@mark_split _ _ _ _ _ _ Hsa Hf E) as [EL | (L' & EL & E')].
  - exact (Hend _ EL).
  - destruct (@mark_split _ _ _ _ _ _ Hsb Hf E') as [EL' | (L'' & _ & E'')].
    + apply (Hend (s0 ++ [ch "人"; 32%N] ++ ch "F" :: s1)).
      rewrite EL, EL', <- !app_assoc. reflexivity.
    + exact (@silent_no_mark _ L'' f (b ++ r) Hsc Hf E'').
Qed.

Lemma defendant_phrase :
  exists cs', Sem nearDefendantCounsel (js "被告訴訟代理人") [] cs'.
Proof.
  assert (E : try_at nearDefendantCounsel 0 (js "被告訴訟代理人")
              = Some (MkMatch 0 (js "被告訴訟代理人") []))
    by (vm_compute; reflexivity).
  apply try_at_sound in E as (_ & HS & _). eexists. exact HS.
Qed.

(** The entries of the text with the two lines. *)
Lemma allFaxEntries_lines pre mid post :
  silent pre -> silent mid -> silent post -> mid <> [] ->
  boundary c_faxDigit mid -> boundary c_faxDigit post ->
  allFaxEntries (pre ++ defendantLine ++ mid ++ plaintiffLine ++ post)
  = [ MkFaxEntry (js "03-0000-0000") (length pre + 8);
      MkFaxEntry (js "06-1111-1111") (length pre + 24 + length mid + 8) ].
Proof.
  intros Hpre Hmid Hpost Hne Hbm Hbp.
  destruct counsel_heads_silent as [HsD HsP].
  destruct fax_numbers_shape as (Hsep & HdD & HdP & Hzero).
  destruct fax_numbers_normal as (HnD & HnP & _).
  unfold allFaxEntries, matchAll.
  set (t := pre ++ defendantLine ++ mid ++ plaintiffLine ++ post).
  assert (Et : t = (pre ++ js "被告訴訟代理人 ") ++ js "FAX" ++ space ++ js "03-0000-0000"
                   ++ ((mid ++ js "原告訴訟代理人 ") ++ js "FAX" ++ space
                       ++ js "06-1111-1111" ++ post)).
  { unfold t. rewrite defendantLine_parts, plaintiffLine_parts, <- !app_assoc. reflexivity. }
  rewrite Et at 2.
  assert (Ha1 : silent (pre ++ js "被告訴訟代理人 "))
    by (apply Forall_app2; [exact Hpre | exact HsD]).
  assert (Ha2 : silent (mid ++ js "原告訴訟代理人 "))
    by (apply Forall_app2; [exact Hmid | exact HsP]).
  assert (Hn1 : js "03-0000-0000" <> []) by (vm_compute; discriminate).
  assert (Hn2 : js "06-1111-1111" <> []) by (vm_compute; discriminate).
  assert (Hb1 : forall r, boundary c_faxSep (js "03-0000-0000" ++ r)) by (intros r; exact Hzero).
  assert (Hb2 : forall r, boundary c_faxSep (js "06-1111-1111" ++ r)) by (intros r; exact Hzero).
  assert (Hb3 : boundary c_faxDigit
                  ((mid ++ js "原告訴訟代理人 ") ++ js "FAX" ++ space
                   ++ js "06-1111-1111" ++ post)).
  { rewrite <- app_assoc. apply boundary_app; [exact Hne | exact Hbm]. }
  rewrite (@matchAll_from_fax (S (length t)) 0 _ _ _ _ Ha1 Hsep HdD Hn1 (Hb1 _) Hb3).
  2:{ apply Nat.lt_succ_r. apply Nat.eq_le_incl. f_equal. symmetry. exact Et. }
  rewrite (@matchAll_from_fax _ _ _ _ _ _ Ha2 Hsep HdP Hn2 (Hb2 _) Hbp).
  2:{ cbn [Nat.pred]. rewrite Et, !length_app. simpl length. lia. }
  rewrite matchAll_from_silent by exact Hpost.
  cbn [List.map index]. unfold cap, group. cbn [groups getcap Nat.eqb].
  rewrite HnD, HnP. f_equal; [|f_equal]; f_equal.
  - rewrite length_app. reflexivity.
  - rewrite !length_app. simpl length. lia.
Qed.

(** The 200 characters before an index, when they end with [w], and when
    they lie within [R]. *)
Lemma window_before (pre w rest0 : jsstring) :
  substring (length pre + length w - 200) (length pre + length w) (pre ++ w ++ rest0)
  = skipn (length pre + length w - 200) (pre ++ w).
Proof.
  unfold substring. rewrite app_assoc.
  rewrite skipn_app_le by (rewrite length_app; lia).
  apply firstn_exact. rewrite length_skipn, length_app. lia.
Qed.

Lemma window_inside (pre0 R rest0 : jsstring) :
  200 <= length R ->
  substring (length pre0 + length R - 200) (length pre0 + length R) (pre0 ++ R ++ rest0)
  = skipn (length R - 200) R.
Proof.
  intros H. unfold substring.
  rewrite skipn_app_ge by lia.
  replace (length pre0 + length R - 200 - length pre0) with (length R - 200) by lia.
  rewrite skipn_app_le by lia.
  apply firstn_exact. rewrite length_skipn. lia.
Qed.

Lemma test_complete r s : exec r s <> None -> test r s = true.
Proof. unfold test. destruct (exec r s); congruence. Qed.

Lemma test_needs (c : char -> bool) r s :
  (forall w cs cs', Sem r w cs cs' -> exists x, In x w /\ c x = true) ->
  Forall (fun x => c x = false) s -> test r s = false.
Proof. intros Hr Hs. unfold test. rewrite (exec_needs c Hr Hs). reflexivity. Qed.

(** A fax that comes right after the phrase for the counsel of the
    defendant is passed over, whatever the state. *)
Lemma entryStep_skip cfg t st entry :
  isNearDefendantLawyer t entry = true -> entryStep cfg t st entry = st.
Proof.
  intros H. unfold entryStep. rewrite H.
  destruct (isOwnFax cfg (fax entry)); [reflexivity|].
  destruct (truthy (fromPdf st) && _); reflexivity.
Qed.

Lemma defendantLine_near pre rest0 v :
  isNearDefendantLawyer (pre ++ defendantLine ++ rest0) (MkFaxEntry v (length pre + 8)) = true.
Proof.
  unfold isNearDefendantLawyer, textBefore. cbn [faxIndex].
  assert (E : defendantLine = js "被告訴訟代理人 " ++ js "FAX 03-0000-0000")
    by (vm_compute; reflexivity).
  rewrite E, <- app_assoc.
  change 8 with (length (js "被告訴訟代理人 ")).
  rewrite window_before.
  assert (E2 : js "被告訴訟代理人 " = js "被告訴訟代理人" ++ space) by (vm_compute; reflexivity).
  assert (L8 : length (js "被告訴訟代理人 ") = 8) by (vm_compute; reflexivity).
  rewrite skipn_app_le by lia. rewrite E2.
  destruct defendant_phrase as (cs' & HS).
  apply test_complete.
  apply (@exec_complete nearDefendantCounsel _ _ space [] cs'); [reflexivity | exact HS].
Qed.

Lemma plaintiffLine_far pre mid rest0 v :
  noDefendant mid -> 169 <= length mid ->
  isNearDefendantLawyer (pre ++ defendantLine ++ mid ++ plaintiffLine ++ rest0)
    (MkFaxEntry v (length pre + 24 + length mid + 8)) = false.
Proof.
  intros Hmid Hlen. unfold isNearDefendantLawyer, textBefore. cbn [faxIndex].
  set (R := js "告訴訟代理人 FAX 03-0000-0000" ++ mid ++ js "原告訴訟代理人 ").
  assert (E : pre ++ defendantLine ++ mid ++ plaintiffLine ++ rest0
              = (pre ++ js "被") ++ R ++ (js "FAX 06-1111-1111" ++ rest0)).
  { unfold R.
    assert (E1 : defendantLine = js "被" ++ js "告訴訟代理人 FAX 03-0000-0000")
      by (vm_compute; reflexivity).
    assert (E2 : plaintiffLine = js "原告訴訟代理人 " ++ js "FAX 06-1111-1111")
      by (vm_compute; reflexivity).
    rewrite E1, E2, <- !app_assoc. reflexivity. }
  assert (HR : length R = 23 + length mid + 8).
  { unfold R. rewrite !length_app. reflexivity. }
  assert (Hp : length (pre ++ js "被") = length pre + 1).
  { rewrite length_app. reflexivity. }
  rewrite E.
  replace (length pre + 24 + length mid + 8) with (length (pre ++ js "被") + length R) by lia.
  rewrite window_inside by lia.
  apply (test_needs (c_is (ch "被"))).
  - intros w cs cs' HS. exists (ch "被"). split; [|apply N.eqb_refl].
    exact (nearDefendantCounsel_start HS).
  - apply Forall_skipn. unfold R.
    apply Forall_app2; [apply check_false; vm_compute; reflexivity|].
    apply Forall_app2; [exact Hmid | apply check_false; vm_compute; reflexivity].
Qed.

Lemma extractFaxes_lines cfg pre mid post :
  silent pre -> silent mid -> silent post ->
  noDefendant mid -> 169 <= length mid ->
  boundary c_faxDigit mid -> boundary c_faxDigit post ->
  isOwnFax cfg (js "06-1111-1111") = false ->
  extractFaxes cfg (pre ++ defendantLine ++ mid ++ plaintiffLine ++ post)
  = MkFaxState None (Some (js "06-1111-1111")).
Proof.
  intros Hpre Hmid Hpost Hnd Hlen Hbm Hbp Hown.
  assert (Hne : mid <> []) by (destruct mid; [simpl in Hlen; lia | discriminate]).
  set (t := pre ++ defendantLine ++ mid ++ plaintiffLine ++ post).
  assert (Hun : unlabelled t) by (apply lines_unlabelled; assumption).
  unfold extractFaxes. fold t.
  rewrite (exec_unlabelled explicitCourtFaxPattern_labelled Hun).
  unfold allExplicitFaxes, matchAll.
  rewrite (@matchAll_from_none explicitFaxRegex _ 0 t
             (exec_unlabelled explicitFaxRegex_labelled Hun)).
  unfold t. rewrite (allFaxEntries_lines Hpre Hmid Hpost Hne Hbm Hbp).
  cbn [List.map fold_left].
  rewrite (@entryStep_skip cfg _ _ (MkFaxEntry (js "03-0000-0000") (length pre + 8)))
    by apply defendantLine_near.
  unfold entryStep. cbn [fax fromPdf counselFax truthy andb].
  rewrite Hown, (plaintiffLine_far pre post _ Hnd Hlen).
  unfold isKnownCourtFax. cbn [fax].
  destruct fax_numbers_normal as (_ & _ & ->).
  destruct (isNearPlaintiffLawyer _ _); reflexivity.
Qed.

(** With the two lines far apart the loop does what its comment says.  In
    a text that holds the line of the counsel of the defendant and, at
    least 169 characters further on, the line of the counsel of the
    plaintiff, with no other fax label in the text, no defendant phrase
    between the lines and a number of the plaintiff line that is not the
    office's own, the unlabelled fax numbers found are the two of the lines,
    the first is passed over whatever the state, and the second is the fax
    of the counsel of the plaintiff. *)
Lemma fax_roles_far_apart (cfg : Config) (text pre mid post : jsstring) :
  normalizeText text = pre ++ defendantLine ++ mid ++ plaintiffLine ++ post ->
  silent pre -> silent mid -> silent post ->
  noDefendant mid -> 169 <= length mid ->
  boundary c_faxDigit mid -> boundary c_faxDigit post ->
  isOwnFax cfg (js "06-1111-1111") = false ->
  allFaxEntries (normalizeText text)
  = [ MkFaxEntry (js "03-0000-0000") (length pre + 8);
      MkFaxEntry (js "06-1111-1111") (length pre + 24 + length mid + 8) ]
  /\ (forall st,
        entryStep cfg (normalizeText text) st
          (MkFaxEntry (js "03-0000-0000") (length pre + 8)) = st)
  /\ (forall st entry,
        isNearDefendantLawyer (normalizeText text) entry = true ->
        entryStep cfg (normalizeText text) st entry = st)
  /\ plaintiffLawyerFax (extractInfoFromText cfg text) = Some (js "06-1111-1111").
Proof.
  intros Ht Hpre Hmid Hpost Hnd Hlen Hbm Hbp Hown.
  assert (Hne : mid <> []) by (destruct mid; [simpl in Hlen; lia | discriminate]).
  split; [rewrite Ht; apply allFaxEntries_lines; assumption|].
  split; [intros st; rewrite Ht; apply entryStep_skip; apply defendantLine_near|].
  split; [intros st entry; apply entryStep_skip|].
  unfold extractInfoFromText. cbn [plaintiffLawyerFax]. rewrite Ht.
  rewrite (@extractFaxes_lines cfg pre mid post Hpre Hmid Hpost Hnd Hlen Hbm Hbp Hown).
  reflexivity.
Qed.

Lemma farApartSheet_fax :
  plaintiffLawyerFax (extractInfoFromText defaultConfig farApartSheet)
  = Some (js "06-1111-1111").
Proof.
  assert (Ht : normalizeText farApartSheet
               = sheetHead ++ defendantLine ++ sheetFiller ++ plaintiffLine ++ sheetFoot)
    by (vm_compute; reflexivity).
  assert (Hpre : silent sheetHead) by (apply check_false; vm_compute; reflexivity).
  assert (Hmid : silent sheetFiller) by (apply check_false; vm_compute; reflexivity).
  assert (Hpost : silent sheetFoot) by (apply check_false; vm_compute; reflexivity).
  assert (Hnd : noDefendant sheetFiller) by (apply check_false; vm_compute; reflexivity).
  assert (Hlen : 169 <= length sheetFiller) by (vm_compute; lia).
  assert (Hbm : boundary c_faxDigit sheetFiller) by (vm_compute; reflexivity).
  assert (Hbp : boundary c_faxDigit sheetFoot) by (vm_compute; reflexivity).
  assert (Hown : isOwnFax defaultConfig (js "06-1111-1111") = false)
    by (vm_compute; reflexivity).
  exact (proj2 (proj2 (proj2
           (@fax_roles_far_apart defaultConfig farApartSheet sheetHead sheetFiller sheetFoot
              Ht Hpre Hmid Hpost Hnd Hlen Hbm Hbp Hown)))).
Qed.

(** C5: on the two lines of the example, one after the other, the code
    finds the two unlabelled fax numbers; the 200 characters before the
    second hold the phrase of the counsel of the plaintiff and, from the
    line before, the phrase of the counsel of the defendant as well, so
    that the second number is passed over like the first and
    plaintiffLawyerFax stays absent; the classification of the
    specification does not hold.  With the same two lines 200 characters
    apart the second number is assigned. *)
Theorem fax_roles_adjacent :
  allFaxEntries (normalizeText adjacentLines)
  = [MkFaxEntry (js "03-0000-0000") 8; MkFaxEntry (js "06-1111-1111") 33]
  /\ isNearPlaintiffLawyer (normalizeText adjacentLines)
       (MkFaxEntry (js "06-1111-1111") 33) = true
  /\ isNearDefendantLawyer (normalizeText adjacentLines)
       (MkFaxEntry (js "06-1111-1111") 33) = true
  /\ plaintiffLawyerFax (extractInfoFromText defaultConfig adjacentLines) = None
  /\ ~ faxRolesAsWorded
  /\ plaintiffLawyerFax (extractInfoFromText defaultConfig farApartSheet)
     = Some (js "06-1111-1111").
Proof.
  assert (E : plaintiffLawyerFax (extractInfoFromText defaultConfig adjacentLines) = None)
    by (vm_compute; reflexivity).
  split; [vm_compute; reflexivity|].
  split; [vm_compute; reflexivity|].
  split; [vm_compute; reflexivity|].
  split; [exact E|].
  split; [|exact farApartSheet_fax].
  assert (E' : plaintiffLawyerFax
                 (extractInfoFromText defaultConfig
                    ([] ++ defendantLine ++ newline ++ plaintiffLine ++ [])) = None)
    by (vm_compute; reflexivity).
  intros H. specialize (H [] newline []).
  rewrite E' in H. clear E E'. discriminate H.
Qed.

(** ** A global replacement, one index at a time *)

Lemma scan_index r p s m : scan r p s = Some m -> p <= index m.
Proof. intros H. apply scan_sound in H as (_ & pre & s' & _ & ->). lia. Qed.

Lemma scan_rest r p s m :
  scan r p s = Some m ->
  exists pre, s = pre ++ m0 m ++ skipn (index m + length (m0 m) - p) s
              /\ index m = p + length pre.
Proof.
  intros H. apply scan_sound in H as (_ & pre & s' & E & I).
  exists pre. split; [|exact I].
  assert (K : skipn (index m + length (m0 m) - p) s = s').
  { rewrite E, I, (app_assoc pre (m0 m) s').
    apply skipn_exact. rewrite length_app. lia. }
  rewrite K. exact E.
Qed.

(** The collection of the matches does not depend on the fuel, once there
    is more of it than characters. *)
Lemma matchAll_from_fuel r : forall f1 f2 p s,
  length s < f1 -> length s < f2 -> matchAll_from f1 r p s = matchAll_from f2 r p s.
Proof.
  induction f1 as [|f1 IH]; intros [|f2] p s H1 H2; try lia.
  simpl. destruct (scan r p s) as [m|] eqn:E; [|reflexivity].
  destruct (scan_rest _ _ _ E) as (pre & Es & Ei).
  assert (L : length s = length pre + length (m0 m)
                         + length (skipn (index m + length (m0 m) - p) s)).
  { rewrite Es at 1. rewrite !length_app. lia. }
  destruct (Nat.eqb (length (m0 m)) 0) eqn:E0.
  - destruct (skipn (index m + length (m0 m) - p) s) as [|y t] eqn:Ek; [reflexivity|].
    f_equal. apply IH; simpl in L; lia.
  - apply Nat.eqb_neq in E0. f_equal. apply IH; lia.
Qed.

Section Splice.
Variable r : regex.
Variable f : Match -> jsstring.

Lemma replaceAllFn_replaceFrom s : replaceAllFn r s f = replaceFrom r f 0 s.
Proof. reflexivity. Qed.

Lemma replaceFrom_nil p : try_at r p [] = None -> replaceFrom r f p [] = [].
Proof. intros H. unfold replaceFrom. simpl. rewrite H. reflexivity. Qed.

(** No match begins here: the character stays. *)
Lemma replaceFrom_skip p x t :
  try_at r p (x :: t) = None ->
  replaceFrom r f p (x :: t) = x :: replaceFrom r f (S p) t.
Proof.
  intros H. unfold replaceFrom.
  rewrite (@matchAll_from_fuel r (S (length t)) (S (length (x :: t))) (S p) t)
    by (simpl; lia).
  cbn [matchAll_from scan length]. rewrite H.
  destruct (scan r (S p) t) as [m|] eqn:E; [|reflexivity].
  pose proof (scan_index _ _ _ E) as Hi.
  assert (K : skipn (index m + length (m0 m) - p) (x :: t)
              = skipn (index m + length (m0 m) - S p) t).
  { replace (index m + length (m0 m) - p) with (S (index m + length (m0 m) - S p)) by lia.
    reflexivity. }
  assert (F : firstn (index m - p) (x :: t) = x :: firstn (index m - S p) t).
  { replace (index m - p) with (S (index m - S p)) by lia. reflexivity. }
  rewrite K.
  destruct (Nat.eqb (length (m0 m)) 0).
  - destruct (skipn (index m + length (m0 m) - S p) t) as [|y t'] eqn:Ek;
      cbn [List.map splice]; rewrite F, K, ?Ek; reflexivity.
  - cbn [List.map splice]. rewrite F, K. reflexivity.
Qed.

(** A match that is not empty begins here: its replacement is written,
    and the search resumes after it. *)
Lemma replaceFrom_match p w t m :
  try_at r p (w ++ t) = Some m -> m0 m = w -> w <> [] ->
  replaceFrom r f p (w ++ t) = f m ++ replaceFrom r f (p + length w) t.
Proof.
  intros H Hw Hne. unfold replaceFrom.
  pose proof (try_at_sound _ _ _ H) as (Hi & _ & _).
  assert (Hs : scan r p (w ++ t) = Some m) by (apply scan_here; exact H).
  assert (Hf : length (w ++ t) < S (length (w ++ t))) by lia.
  assert (Hne' : m0 m <> []) by (rewrite Hw; exact Hne).
  rewrite (@matchAll_from_step _ _ _ _ _ Hf Hs Hne').
  cbn [Nat.pred List.map splice]. rewrite Hw, Hi.
  rewrite Nat.sub_diag. cbn [firstn app].
  rewrite (@skipn_exact _ w t (p + length w - p)) by lia.
  rewrite (@matchAll_from_fuel r (length (w ++ t)) (S (length t)) (p + length w) t).
  - reflexivity.
  - rewrite length_app. destruct w; [congruence | simpl; lia].
  - lia.
Qed.
End Splice.

(** ** Substrings *)

Lemma startsWith_app p : forall t, startsWith (p ++ t) p = true.
Proof.
  induction p as [|y p IH]; intros t; [destruct t; reflexivity|].
  simpl. rewrite N.eqb_refl, IH. reflexivity.
Qed.

Lemma indexOf_from_cons i x s p :
  indexOf_from i (x :: s) p
  = if startsWith (x :: s) p then Some i else indexOf_from (S i) s p.
Proof. reflexivity. Qed.

Lemma indexOf_from_intro pre p post : forall i,
  indexOf_from i (pre ++ p ++ post) p <> None.
Proof.
  induction pre as [|x pre IH]; intros i.
  - cbn [app]. destruct (p ++ post) as [|y t] eqn:E.
    + destruct p; [|discriminate E]. discriminate.
    + rewrite indexOf_from_cons, <- E, startsWith_app. discriminate.
  - cbn [app]. rewrite indexOf_from_cons.
    destruct (startsWith _ p); [discriminate | apply IH].
Qed.

Lemma includes_intro pre p post : includes (pre ++ p ++ post) p = true.
Proof.
  unfold includes, indexOf.
  pose proof (@indexOf_from_intro pre p post 0) as H.
  destruct (indexOf_from 0 (pre ++ p ++ post) p); [reflexivity | congruence].
Qed.

Lemma includes_spec s p :
  includes s p = true <-> exists pre post, s = pre ++ p ++ post.
Proof.
  split.
  - unfold includes. destruct (indexOf s p) as [a|] eqn:E; [|discriminate].
    intros _. apply indexOf_spec in E as (pre & post & E & _). eauto.
  - intros (pre & post & ->). apply includes_intro.
Qed.

(** A string that contains [p ++ q] contains [p]. *)
Lemma includes_prefix s p q : includes s (p ++ q) = true -> includes s p = true.
Proof.
  intros H. apply includes_spec in H as (pre & post & ->).
  rewrite <- app_assoc. apply includes_intro.
Qed.

Lemma includes_self s : includes s s = true.
Proof.
  pose proof (@includes_intro [] s []) as H. cbn [app] in H.
  rewrite app_nil_r in H. exact H.
Qed.

Lemma startsWith_includes s p : startsWith s p = true -> includes s p = true.
Proof.
  intros H. apply startsWith_spec in H as (post & ->).
  exact (@includes_intro [] p post).
Qed.

(** ** Full-width digits *)

Lemma toFullWidthNumber_map s : toFullWidthNumber s = List.map fullWidthChar s.
Proof.
  unfold toFullWidthNumber.
  rewrite (replaceAllFn_cls c_digit _
             (fun w => match w with c :: _ => [((c + 65248) mod 65536)%N] | [] => [] end))
    by reflexivity.
  induction s as [|x s IH]; [reflexivity|].
  cbn [flat_map List.map]. rewrite IH. unfold fullWidthChar.
  destruct (c_digit x) eqn:E; [|reflexivity].
  apply c_range_spec in E. cbn [app]. rewrite N.mod_small by lia. reflexivity.
Qed.

Lemma fullWidthChar_wide x : c_digit x = true -> c_fwdigit (fullWidthChar x) = true.
Proof.
  intros H. unfold fullWidthChar. rewrite H.
  apply c_range_spec in H. apply c_range_spec. lia.
Qed.

Lemma fullWidthChar_not_digit x : c_digit (fullWidthChar x) = false.
Proof.
  unfold fullWidthChar. destruct (c_digit x) eqn:E; [|exact E].
  apply c_range_spec in E. unfold c_digit, c_range.
  apply andb_false_iff. right. apply N.leb_gt. lia.
Qed.

Lemma faxChar_fullWidthChar x : wideFaxChar x = false -> faxChar (fullWidthChar x) = x.
Proof.
  unfold wideFaxChar, c_or. intros H. apply orb_false_iff in H as [H1 H2].
  unfold fullWidthChar. destruct (c_digit x) eqn:E.
  - apply c_range_spec in E. unfold faxChar.
    assert (Hw : c_fwdigit (x + 65248)%N = true) by (apply c_range_spec; lia).
    rewrite Hw. lia.
  - unfold faxChar. rewrite H1, H2. reflexivity.
Qed.

Lemma fullWidthFax_map s :
  fullWidthFax s
  = List.map (fun x => if c_is (ch "-") (fullWidthChar x) then ch "－" else fullWidthChar x) s.
Proof.
  unfold fullWidthFax. change (lit "-") with (Cls (c_is (ch "-"))).
  rewrite replaceAll_cls, toFullWidthNumber_map.
  induction s as [|x s IH]; [reflexivity|].
  cbn [flat_map List.map]. rewrite IH.
  destruct (c_is (ch "-") (fullWidthChar x)); reflexivity.
Qed.

(** X1: a fax number in half-width form, written in full-width digits (and
    with full-width hyphens, as the template wants it) and read back by
    normalizeFax, is the fax number again. *)
Theorem fullWidth_normalizeFax_roundtrip (fax : jsstring) :
  Forall (fun x => wideFaxChar x = false) fax ->
  normalizeFax (toFullWidthNumber fax) = fax
  /\ normalizeFax (fullWidthFax fax) = fax.
Proof.
  intros H. rewrite fullWidthFax_map, toFullWidthNumber_map, !normalizeFax_map, !map_map.
  split.
  - induction H as [|x s Hx _ IH]; [reflexivity|].
    cbn [List.map]. rewrite IH, (faxChar_fullWidthChar x Hx). reflexivity.
  - induction H as [|x s Hx _ IH]; [reflexivity|].
    cbn [List.map]. rewrite IH. f_equal.
    destruct (c_is (ch "-") (fullWidthChar x)) eqn:E.
    + apply c_is_spec in E. unfold fullWidthChar in E.
      destruct (c_digit x) eqn:D.
      * apply c_range_spec in D.
        assert (C : ch "-" = 45%N) by (vm_compute; reflexivity).
        rewrite C in E. lia.
      * subst x. vm_compute. reflexivity.
    + apply faxChar_fullWidthChar. exact Hx.
Qed.

Lemma fullWidth_normalizeFax_roundtrip_witness :
  normalizeFax (toFullWidthNumber (js "06-6438-1710")) = js "06-6438-1710"
  /\ normalizeFax (fullWidthFax (js "06-6438-1710")) = js "06-6438-1710".
Proof.
  assert (H : forallb (fun x => negb (wideFaxChar x)) (js "06-6438-1710") = true)
    by (vm_compute; reflexivity).
  apply fullWidth_normalizeFax_roundtrip.
  apply Forall_forall. intros x Hx. apply negb_true_iff.
  exact (proj1 (forallb_forall _ _) H x Hx).
Defined.

(** X2: toFullWidthNumber keeps the length of the string, leaves no ASCII
    digit in it, changes nothing else than ASCII digits, and applied a
    second time changes nothing. *)
Theorem toFullWidthNumber_digits (str : jsstring) :
  length (toFullWidthNumber str) = length str
  /\ Forall (fun x => c_digit x = false) (toFullWidthNumber str)
  /\ (forall i x, nth_error str i = Some x -> c_digit x = false ->
        nth_error (toFullWidthNumber str) i = Some x)
  /\ (forall i x, nth_error str i = Some x -> c_digit x = true ->
        nth_error (toFullWidthNumber str) i = Some (x + 65248)%N)
  /\ toFullWidthNumber (toFullWidthNumber str) = toFullWidthNumber str.
Proof.
  rewrite !toFullWidthNumber_map. split; [apply length_map|].
  split.
  { apply Forall_forall. intros y Hy. apply in_map_iff in Hy as (x & <- & _).
    apply fullWidthChar_not_digit. }
  split.
  { intros i x Hi Hx. rewrite nth_error_map, Hi. cbn. unfold fullWidthChar.
    rewrite Hx. reflexivity. }
  split.
  { intros i x Hi Hx. rewrite nth_error_map, Hi. cbn. unfold fullWidthChar.
    rewrite Hx. reflexivity. }
  rewrite map_map. apply map_ext. intros x. unfold fullWidthChar at 1.
  rewrite fullWidthChar_not_digit. reflexivity.
Qed.

(** ** The cover letter *)

Lemma safeReplaceInXml_absent docXml oldText newText :
  noPlaceholder docXml = true -> In oldText placeholders ->
  safeReplaceInXml docXml oldText newText = docXml.
Proof.
  intros H Hin. unfold safeReplaceInXml. apply replaceAllFn_id.
  intros m Hm. apply replaceInParagraph_absent.
  unfold noPlaceholder in H.
  pose proof (proj1 (forallb_forall _ _) H m Hm) as H1. cbv beta in H1.
  pose proof (proj1 (forallb_forall _ _) H1 oldText Hin) as H2. cbv beta in H2.
  apply negb_true_iff. exact H2.
Qed.

(** X3: a document none of whose paragraphs reads one of the twelve values
    of the template comes back from applyInfoToTemplate as it was, whatever
    the extracted information, the title and the date. *)
Theorem applyInfoToTemplate_no_placeholder (now : Date) (docXml : jsstring) (info : Info)
    (documentTitle : jsstring) :
  noPlaceholder docXml = true ->
  applyInfoToTemplate now docXml info documentTitle = docXml.
Proof.
  intros H. unfold applyInfoToTemplate.
  assert (S : forall i oldText newText, nth_error placeholders i = Some oldText ->
                safeReplaceInXml docXml oldText newText = docXml).
  { intros i o n Hi. apply safeReplaceInXml_absent; [exact H|].
    exact (nth_error_In placeholders i Hi). }
  assert (I : forall (b : bool) (x : jsstring), (if b then x else x) = x)
    by (intros [|]; reflexivity).
  cbv zeta.
  rewrite (S 0 ORIG_COURT _ eq_refl), I.
  rewrite (S 1 (js "06-6438-1710") _ eq_refl).
  rewrite (S 2 (js "０６―６４３８－１７１０") _ eq_refl), I.
  rewrite (S 3 ORIG_LAWYER _ eq_refl), I.
  rewrite (S 4 (js "06-4708-3638") _ eq_refl), I.
  rewrite (S 5 (js "令和6年11月7日") _ eq_refl).
  rewrite (S 6 (js "令和6年9月") _ eq_refl).
  rewrite (S 7 (js "令和３年（ワ）第８００号") _ eq_refl), I.
  rewrite (S 8 (js "損害賠償請求事件") _ eq_refl), I.
  rewrite (S 9 (js "木村治紀") _ eq_refl), I.
  rewrite (S 10 (js "独立行政法人国立病院機構") _ eq_refl), I.
  exact (S 11 (js "被告第９準備書面") _ eq_refl).
Qed.

Lemma applyInfoToTemplate_no_placeholder_witness :
  applyInfoToTemplate sampleDay (docOf abcdef) sampleInfo (js "被告第１準備書面")
  = docOf abcdef.
Proof.
  assert (H : noPlaceholder (docOf abcdef) = true) by (vm_compute; reflexivity).
  exact (@applyInfoToTemplate_no_placeholder sampleDay _ sampleInfo (js "被告第１準備書面") H).
Defined.

(** ** Line ends *)

Lemma unixLines_cons x t :
  unixLines (x :: t)
  = if N.eqb x 13 then
      10%N :: match t with
              | y :: t' => if N.eqb y 10 then unixLines t' else unixLines t
              | [] => []
              end
    else x :: unixLines t.
Proof. reflexivity. Qed.

Lemma try_at_crlf p s :
  try_at (seqs [Cls (c_is 13); Cls (c_is 10)]) p s
  = match s with
    | x :: y :: _ =>
      if N.eqb x 13 && N.eqb y 10 then Some (MkMatch p [x; y] []) else None
    | _ => None
    end.
Proof.
  unfold try_at. cbn [seqs rmatch rest]. destruct s as [|x [|y t]]; [reflexivity| |].
  - unfold c_is. destruct (N.eqb x 13); reflexivity.
  - unfold c_is. cbn [pos mcaps rest]. destruct (N.eqb x 13); [|reflexivity].
    destruct (N.eqb y 10); [|reflexivity]. cbn [andb pos mcaps].
    replace (S (S p) - p) with 2 by lia. reflexivity.
Qed.

Lemma try_at_cr p s :
  try_at (Cls (c_is 13)) p s
  = match s with
    | x :: _ => if N.eqb x 13 then Some (MkMatch p [x] []) else None
    | [] => None
    end.
Proof.
  destruct s as [|x t]; [reflexivity|]. unfold c_is at 1.
  destruct (N.eqb x 13) eqn:E.
  - apply try_at_cls. exact E.
  - apply try_at_cls_fail. exact E.
Qed.

(** The two passes of [normalizeText], each as a scan of the text. *)
Lemma normalizeText_passes : forall n s p q,
  length s <= n ->
  replaceFrom (Cls (c_is 13)) (fun _ => [10%N]) q
    (replaceFrom (seqs [Cls (c_is 13); Cls (c_is 10)]) (fun _ => [10%N]) p s)
  = unixLines s.
Proof.
  set (r1 := seqs [Cls (c_is 13); Cls (c_is 10)]).
  set (r2 := Cls (c_is 13)).
  set (f := fun _ : Match => [10%N]).
  induction n as [|n IH]; intros s p q Hn.
  - destruct s; [reflexivity | simpl in Hn; lia].
  - destruct s as [|x t]; [reflexivity|].
    simpl in Hn. rewrite unixLines_cons.
    destruct t as [|y t'].
    + rewrite (@replaceFrom_skip r1 f p x []) by (unfold r1; rewrite try_at_crlf; reflexivity).
      rewrite (@replaceFrom_nil r1 f (S p)) by (unfold r1; rewrite try_at_crlf; reflexivity).
      destruct (N.eqb x 13) eqn:E.
      * assert (T : try_at r2 q ([x] ++ []) = Some (MkMatch q [x] []))
          by (unfold r2; rewrite try_at_cr; simpl; rewrite E; reflexivity).
        change [x] with ([x] ++ []) at 1.
        rewrite (@replaceFrom_match r2 f q [x] [] _ T) by (reflexivity || discriminate).
        rewrite (@replaceFrom_nil r2 f) by (unfold r2; rewrite try_at_cr; reflexivity).
        reflexivity.
      * rewrite (@replaceFrom_skip r2 f q x [])
          by (unfold r2; rewrite try_at_cr, E; reflexivity).
        rewrite (@replaceFrom_nil r2 f) by (unfold r2; rewrite try_at_cr; reflexivity).
        reflexivity.
    + destruct (N.eqb x 13) eqn:E; [destruct (N.eqb y 10) eqn:E2|].
      * assert (T : try_at r1 p ([x; y] ++ t') = Some (MkMatch p [x; y] []))
          by (unfold r1; rewrite try_at_crlf; simpl; rewrite E, E2; reflexivity).
        change (x :: y :: t') with ([x; y] ++ t').
        rewrite (@replaceFrom_match r1 f p [x; y] t' _ T) by (reflexivity || discriminate).
        change (f _ ++ ?u) with (10%N :: u).
        rewrite (@replaceFrom_skip r2 f q 10%N)
          by (unfold r2; rewrite try_at_cr; reflexivity).
        f_equal. apply IH. simpl in Hn. lia.
      * rewrite (@replaceFrom_skip r1 f p x (y :: t'))
          by (unfold r1; rewrite try_at_crlf, E, E2; reflexivity).
        set (u := replaceFrom r1 f (S p) (y :: t')).
        assert (T : try_at r2 q ([x] ++ u) = Some (MkMatch q [x] []))
          by (unfold r2; rewrite try_at_cr; simpl; rewrite E; reflexivity).
        change (x :: u) with ([x] ++ u).
        rewrite (@replaceFrom_match r2 f q [x] u _ T) by (reflexivity || discriminate).
        change (f _ ++ ?v) with (10%N :: v).
        f_equal. apply IH. simpl in Hn. simpl. lia.
      * rewrite (@replaceFrom_skip r1 f p x (y :: t'))
          by (unfold r1; rewrite try_at_crlf, E; reflexivity).
        rewrite (@replaceFrom_skip r2 f q x)
          by (unfold r2; rewrite try_at_cr, E; reflexivity).
        f_equal. apply IH. simpl in Hn. simpl. lia.
Qed.

Lemma unixLines_no_cr : forall n s, length s <= n -> Forall (fun x => x <> 13%N) (unixLines s).
Proof.
  induction n as [|n IH]; intros s Hn.
  - destruct s; [constructor | simpl in Hn; lia].
  - destruct s as [|x t]; [constructor|]. simpl in Hn. rewrite unixLines_cons.
    destruct (N.eqb x 13) eqn:E.
    + constructor; [discriminate|].
      destruct t as [|y t']; [constructor|].
      destruct (N.eqb y 10); apply IH; simpl in *; lia.
    + constructor; [apply N.eqb_neq; exact E | apply IH; lia].
Qed.

Lemma unixLines_id s : Forall (fun x => x <> 13%N) s -> unixLines s = s.
Proof.
  induction 1 as [|x t Hx _ IH]; [reflexivity|].
  rewrite unixLines_cons. apply N.eqb_neq in Hx. rewrite Hx, IH. reflexivity.
Qed.

Lemma normalizeText_eq s : normalizeText s = unixLines s.
Proof.
  unfold normalizeText, replaceAll. rewrite !replaceAllFn_replaceFrom.
  apply (@normalizeText_passes (length s)). lia.
Qed.

(** The normalisation brings in no character but LF. *)
Lemma unixLines_Forall (P : char -> Prop) : P 10%N -> forall n s,
  length s <= n -> Forall P s -> Forall P (unixLines s).
Proof.
  intros P10. induction n as [|n IH]; intros s Hn H.
  - destruct s; [constructor | simpl in Hn; lia].
  - destruct s as [|x t]; [constructor|]. simpl in Hn. rewrite unixLines_cons.
    inversion H as [|? ? Hx Ht]; subst.
    destruct (N.eqb x 13).
    + constructor; [exact P10|].
      destruct t as [|y t']; [constructor|].
      inversion Ht as [|? ? Hy Ht']; subst.
      destruct (N.eqb y 10); apply IH; simpl in *; try lia; assumption.
    + constructor; [exact Hx | apply IH; [lia | exact Ht]].
Qed.

Lemma normalizeText_Forall (P : char -> Prop) s :
  P 10%N -> Forall P s -> Forall P (normalizeText s).
Proof.
  intros P10 H. rewrite normalizeText_eq.
  apply (@unixLines_Forall P P10 (length s) s); [lia | exact H].
Qed.

(** X4: normalizeText makes one LF of each CR LF and of each CR that is
    left, and changes nothing else; its result holds no CR, is not longer
    than the text, and is its own normal form. *)
Theorem normalizeText_unixLines (text : jsstring) :
  normalizeText text = unixLines text
  /\ Forall (fun x => x <> 13%N) (normalizeText text)
  /\ normalizeText (normalizeText text) = normalizeText text.
Proof.
  rewrite !normalizeText_eq. split; [reflexivity|]. split.
  - apply (@unixLines_no_cr (length text) text). lia.
  - apply unixLines_id. apply (@unixLines_no_cr (length text) text). lia.
Qed.

(** ** The title taken from the file name *)

(** *** Patterns anchored at the start *)

Lemma scan_Bol_later r : forall s p, p <> 0 -> scan (Seq Bol r) p s = None.
Proof.
  assert (T : forall s p, p <> 0 -> try_at (Seq Bol r) p s = None).
  { intros s p Hp. unfold try_at. cbn [rmatch pos].
    apply Nat.eqb_neq in Hp. rewrite Hp. reflexivity. }
  induction s as [|x s IH]; intros p Hp; simpl; rewrite (T _ _ Hp); [reflexivity|].
  apply IH. lia.
Qed.

Lemma exec_Bol r s : exec (Seq Bol r) s = try_at r 0 s.
Proof.
  assert (T : try_at (Seq Bol r) 0 s = try_at r 0 s) by reflexivity.
  unfold exec. destruct s as [|x s]; simpl; rewrite T.
  - destruct (try_at r 0 []); reflexivity.
  - destruct (try_at r 0 (x :: s)); [reflexivity|]. apply scan_Bol_later. lia.
Qed.

(** An anchored pattern can only take a prefix off. *)
Lemma replace_Bol r s :
  replace (Seq Bol r) s []
  = match try_at r 0 s with
    | Some m => skipn (length (m0 m)) s
    | None => s
    end.
Proof.
  unfold replace, replaceFn. rewrite exec_Bol.
  destruct (try_at r 0 s) as [m|] eqn:E; [|reflexivity].
  apply try_at_sound in E as (-> & _). reflexivity.
Qed.

Lemma replace_Bol_suffix r s : exists pre, s = pre ++ replace (Seq Bol r) s [].
Proof.
  rewrite replace_Bol. destruct (try_at r 0 s) as [m|].
  - exists (firstn (length (m0 m)) s). symmetry. apply firstn_skipn.
  - exists []. reflexivity.
Qed.

(** *** A greedy run that gives characters back *)

Lemma rep_cls_greedy_fail c back : forall rest0 fuel p cs k,
  allb c back -> boundary c rest0 -> length back < fuel ->
  (forall n, 0 < n -> n <= length back ->
     k (MState (p + n) (skipn n back ++ rest0) cs) = None) ->
  rep (rmatch (Cls c)) 0 None true fuel (MState p (back ++ rest0) cs) k
  = k (MState p (back ++ rest0) cs).
Proof.
  induction back as [|x back IH]; intros rest0 fuel p cs k Hall Hb Hfuel Hk.
  - destruct fuel as [|fuel]; [simpl in Hfuel; lia|].
    rewrite rep_unfold. simpl Nat.ltb. cbv iota. simpl app.
    destruct rest0 as [|y t].
    + rewrite step_cls_end. reflexivity.
    + simpl in Hb. rewrite step_cls_fail by exact Hb. reflexivity.
  - inversion Hall as [|? ? Hx Hall']; subst.
    destruct fuel as [|fuel]; [simpl in Hfuel; lia|]. simpl in Hfuel.
    rewrite rep_unfold. simpl Nat.ltb. cbv iota. simpl app.
    rewrite step_cls by exact Hx. cbn [rest option_map Nat.pred].
    assert (Hne : Nat.eqb (length (back ++ rest0)) (length (x :: back ++ rest0)) = false)
      by (apply Nat.eqb_neq; simpl; lia).
    rewrite Hne. cbn [andb Nat.eqb].
    rewrite IH; [| exact Hall' | exact Hb | lia |].
    + pose proof (Hk 1 ltac:(lia) ltac:(simpl; lia)) as H1.
      simpl in H1. rewrite Nat.add_1_r in H1. rewrite H1. reflexivity.
    + intros n Hn Hn'. pose proof (Hk (S n) ltac:(lia) ltac:(simpl; lia)) as H1.
      simpl in H1. rewrite <- Nat.add_succ_comm in H1. exact H1.
Qed.

(** A greedy repetition of a class gives back the characters after which
    the continuation fails, and stops where it succeeds first. *)
Lemma rep_cls_greedy_back c run : forall back rest0 lo fuel p cs k res,
  allb c run -> allb c back -> boundary c rest0 ->
  lo <= length run -> length run + length back < fuel ->
  (forall n, 0 < n -> n <= length back ->
     k (MState (p + length run + n) (skipn n back ++ rest0) cs) = None) ->
  k (MState (p + length run) (back ++ rest0) cs) = Some res ->
  rep (rmatch (Cls c)) lo None true fuel (MState p (run ++ back ++ rest0) cs) k = Some res.
Proof.
  induction run as [|x run IH];
    intros back rest0 lo fuel p cs k res Hall Hallb Hb Hlo Hfuel Hfail Hk.
  - simpl in Hlo. assert (lo = 0) by lia. subst lo. simpl app.
    simpl length in *. rewrite Nat.add_0_r in *.
    rewrite rep_cls_greedy_fail; auto.
  - inversion Hall as [|? ? Hx Hall']; subst.
    destruct fuel as [|fuel]; [simpl in Hfuel; lia|].
    simpl in Hlo, Hfuel.
    assert (Hrec : rep (rmatch (Cls c)) (Nat.pred lo) None true fuel
                     (MState (S p) (run ++ back ++ rest0) cs) k = Some res).
    { apply IH; auto; try lia.
      - intros n Hn Hn'. pose proof (Hfail n Hn Hn') as H1.
        simpl in H1. rewrite <- Nat.add_succ_comm in H1. exact H1.
      - simpl in Hk. rewrite <- Nat.add_succ_comm in Hk. exact Hk. }
    rewrite rep_unfold. simpl app. rewrite step_cls by exact Hx.
    cbn [rest option_map].
    assert (Hne : Nat.eqb (length (run ++ back ++ rest0))
                    (length (x :: run ++ back ++ rest0)) = false)
      by (apply Nat.eqb_neq; simpl; lia).
    rewrite Hne, andb_false_r. rewrite Hrec.
    destruct (Nat.ltb 0 lo); reflexivity.
Qed.

(** *** The two prefixes *)

Lemma wide_space x : c_wide x = c_space x.
Proof.
  unfold c_wide, c_or. destruct (c_space x) eqn:E; [reflexivity|].
  destruct (c_in "　" x) eqn:E2; [|reflexivity].
  assert (H : forall y, c_in "　" y = true -> c_space y = true)
    by (apply c_in_sub; vm_compute; reflexivity).
  rewrite (H x E2) in E. discriminate.
Qed.

Lemma space_not_kanji x : c_space x = true -> c_kanji x = false.
Proof.
  intros H. destruct (c_kanji x) eqn:E; [|reflexivity].
  apply kanji_nonws in E. unfold nonws, c_space in *. rewrite H in E. discriminate.
Qed.

Lemma allb_wide s : allb c_space s -> allb c_wide s.
Proof. apply Forall_impl. intros x Hx. rewrite wide_space. exact Hx. Qed.

Lemma boundary_impl (c d : char -> bool) s :
  (forall x, c x = false -> d x = false) -> boundary c s -> boundary d s.
Proof. intros H. destruct s; simpl; auto. Qed.

Lemma tagPrefix_body :
  tagPrefix = Seq Bol (seqs [lit "【"; plus (Cls (c_not (c_in "】"))); lit "】"; ws0]).
Proof. reflexivity. Qed.

Lemma matterPrefix_body :
  matterPrefix = Seq Bol (seqs [plus (Cls c_kanji); lit "事案"; plus (Cls c_wide)]).
Proof. reflexivity. Qed.

Lemma rmatch_plus c st k :
  rmatch (plus (Cls c)) st k
  = rep (rmatch (Cls c)) 1 None true (1 + S (length (rest st))) st k.
Proof. reflexivity. Qed.

(** The tag in brackets and the white space after it are matched. *)
Lemma try_at_tag tag sp rest0 :
  tag <> [] -> allb (c_not (c_in "】")) tag -> allb c_space sp -> boundary c_space rest0 ->
  exists m,
    try_at (seqs [lit "【"; plus (Cls (c_not (c_in "】"))); lit "】"; ws0]) 0
      (js "【" ++ tag ++ js "】" ++ sp ++ rest0) = Some m
    /\ m0 m = js "【" ++ tag ++ js "】" ++ sp.
Proof.
  intros Hne Htag Hsp Hb.
  exists (MkMatch 0 (js "【" ++ tag ++ js "】" ++ sp) []). split.
  - apply try_at_of_rmatch with
      (st' := MState (0 + length (js "【") + length tag + length (js "】") + length sp) rest0 []).
    + cbn [seqs]. rewrite rmatch_Seq, step_lit. rewrite rmatch_Seq.
      apply step_plus; [exact Htag | exact Hne | vm_compute; reflexivity |].
      rewrite rmatch_Seq, step_lit. unfold ws0. apply step_star; [exact Hsp | exact Hb |].
      reflexivity.
    + cbn [rest]. rewrite <- !app_assoc. reflexivity.
  - reflexivity.
Qed.

(** The pattern of the tag needs an opening bracket. *)
Lemma try_at_tag_none s :
  startsOutside (c_in "【") s ->
  try_at (seqs [lit "【"; plus (Cls (c_not (c_in "】"))); lit "】"; ws0]) 0 s = None.
Proof.
  intros H. unfold try_at. cbn [seqs]. rewrite rmatch_Seq.
  change (lit "【") with (Cls (c_is (ch "【"))).
  destruct s as [|x t]; [reflexivity|]. simpl in H.
  assert (H' : c_is (ch "【") x = false).
  { unfold c_in in H. change (js "【") with [ch "【"] in H. simpl in H.
    rewrite orb_false_r in H. exact H. }
  rewrite step_cls_fail by exact H'. reflexivity.
Qed.

Lemma try_at_matter_none s :
  startsOutside c_kanji s ->
  try_at (seqs [plus (Cls c_kanji); lit "事案"; plus (Cls c_wide)]) 0 s = None.
Proof.
  intros H. unfold try_at. cbn [seqs]. rewrite rmatch_Seq.
  rewrite rmatch_plus. cbn [Nat.add]. rewrite rep_unfold. simpl Nat.ltb. cbv iota.
  destruct s as [|x t]; [reflexivity|]. simpl in H.
  rewrite step_cls_fail by exact H. reflexivity.
Qed.

(** The name of the matter, the word after it and the white space that
    follows are matched: the run of ideographs gives the word back. *)
Lemma try_at_matter K WS rest0 :
  K <> [] -> allb c_kanji K -> WS <> [] -> allb c_space WS -> boundary c_space rest0 ->
  exists m,
    try_at (seqs [plus (Cls c_kanji); lit "事案"; plus (Cls c_wide)]) 0
      (K ++ js "事案" ++ WS ++ rest0) = Some m
    /\ m0 m = K ++ js "事案" ++ WS.
Proof.
  intros HK HKk HW HWs Hb.
  assert (L2 : length (js "事案") = 2) by (vm_compute; reflexivity).
  exists (MkMatch 0 (K ++ js "事案" ++ WS) []). split.
  - apply try_at_of_rmatch with
      (st' := MState (0 + length K + length (js "事案") + length WS) rest0 []).
    + cbn [seqs]. rewrite rmatch_Seq, rmatch_plus. cbn [rest].
      apply rep_cls_greedy_back.
      * exact HKk.
      * apply forallb_Forall. vm_compute. reflexivity.
      * destruct WS as [|x WS']; [congruence|]. simpl.
        inversion HWs; subst. apply space_not_kanji. assumption.
      * destruct K; [congruence | simpl; lia].
      * rewrite !length_app. lia.
      * intros n Hn Hn'. rewrite L2 in Hn'.
        destruct WS as [|x WS']; [congruence|]. inversion HWs as [|? ? Hx _]; subst.
        assert (Hx' : c_is (ch "事") x = false).
        { destruct (c_is (ch "事") x) eqn:E; [|reflexivity].
          apply c_is_spec in E. subst x. vm_compute in Hx. discriminate. }
        destruct n as [|[|[|n]]]; try lia.
        -- reflexivity.
        -- rewrite rmatch_Seq. change (lit "事案") with (Seq (Cls (c_is (ch "事"))) (Cls (c_is (ch "案")))).
           rewrite rmatch_Seq. change (skipn 2 (js "事案")) with (@nil char). cbn [app].
           rewrite step_cls_fail by exact Hx'. reflexivity.
      * rewrite rmatch_Seq, step_lit. apply step_plus.
        -- apply allb_wide. exact HWs.
        -- exact HW.
        -- eapply boundary_impl; [|exact Hb]. intros x Hx. rewrite wide_space. exact Hx.
        -- reflexivity.
    + cbn [rest]. rewrite <- !app_assoc. reflexivity.
  - reflexivity.
Qed.

Lemma title_unfold basename pdfPath :
  getDocumentTitleFromFilename basename pdfPath
  = replace matterPrefix (replace tagPrefix (basename pdfPath) []) [].
Proof. reflexivity. Qed.

Lemma skipn_prefix (w t : jsstring) : skipn (length w) (w ++ t) = t.
Proof. apply skipn_exact. reflexivity. Qed.

(** X5: the title is what is left of the base name of the file once a
    prefix is taken off, and it is the whole base name when that is empty
    or begins neither with an opening bracket nor with an ideograph. *)
Theorem title_is_suffix (basename : jsstring -> jsstring) (pdfPath : jsstring) :
  (exists prefix,
     basename pdfPath = prefix ++ getDocumentTitleFromFilename basename pdfPath)
  /\ (startsOutside (c_or (c_in "【") c_kanji) (basename pdfPath) ->
      getDocumentTitleFromFilename basename pdfPath = basename pdfPath).
Proof.
  rewrite title_unfold, tagPrefix_body, matterPrefix_body. split.
  - destruct (replace_Bol_suffix
                (seqs [lit "【"; plus (Cls (c_not (c_in "】"))); lit "】"; ws0])
                (basename pdfPath)) as (p1 & E1).
    destruct (replace_Bol_suffix
                (seqs [plus (Cls c_kanji); lit "事案"; plus (Cls c_wide)])
                (replace (Seq Bol (seqs [lit "【"; plus (Cls (c_not (c_in "】"))); lit "】"; ws0]))
                   (basename pdfPath) [])) as (p2 & E2).
    exists (p1 ++ p2). rewrite <- app_assoc, <- E2. exact E1.
  - intros H.
    assert (H1 : startsOutside (c_in "【") (basename pdfPath)).
    { destruct (basename pdfPath); simpl in *; [exact I|].
      unfold c_or in H. apply orb_false_iff in H. tauto. }
    assert (H2 : startsOutside c_kanji (basename pdfPath)).
    { destruct (basename pdfPath); simpl in *; [exact I|].
      unfold c_or in H. apply orb_false_iff in H. tauto. }
    rewrite (replace_Bol _ (basename pdfPath)), try_at_tag_none by exact H1.
    rewrite replace_Bol, try_at_matter_none by exact H2. reflexivity.
Qed.

Lemma title_is_suffix_witness :
  getDocumentTitleFromFilename (fun p => p) (js "2024-11 答弁書") = js "2024-11 答弁書".
Proof.
  assert (H : c_or (c_in "【") c_kanji (ch "2") = false) by (vm_compute; reflexivity).
  exact (proj2 (title_is_suffix (fun p => p) (js "2024-11 答弁書")) H).
Defined.

Lemma kanji_startsOutside_tag K t : K <> [] -> allb c_kanji K ->
  startsOutside (c_in "【") (K ++ t).
Proof.
  intros HK Hk. destruct K as [|x K]; [congruence|]. simpl.
  inversion Hk as [|? ? Hx _]; subst.
  destruct (c_in "【" x) eqn:E; [|reflexivity].
  assert (H : forall y, c_in "【" y = true -> negb (c_kanji y) = true)
    by (apply c_in_sub; vm_compute; reflexivity).
  apply H in E. rewrite Hx in E. discriminate.
Qed.

Lemma kanji_boundary_space K t : K <> [] -> allb c_kanji K -> boundary c_space (K ++ t).
Proof.
  intros HK Hk. destruct K as [|x K]; [congruence|]. simpl.
  inversion Hk as [|? ? Hx _]; subst.
  apply kanji_nonws in Hx. unfold nonws in Hx. apply negb_true_iff in Hx. exact Hx.
Qed.

(** X6: a tag in brackets at the head of the base name is taken off with
    the white space after it, and so is, after it or at the head, a name in
    ideographs that ends in the word for a matter and is followed by white
    space: the title is the rest of the base name. *)
Theorem title_prefixes_stripped (basename : jsstring -> jsstring) (pdfPath : jsstring)
    (tag sp K WS rest0 : jsstring) :
  tag <> [] -> allb (c_not (c_in "】")) tag -> allb c_space sp ->
  K <> [] -> allb c_kanji K -> WS <> [] -> allb c_space WS ->
  boundary c_space rest0 ->
  (basename pdfPath = js "【" ++ tag ++ js "】" ++ sp ++ K ++ js "事案" ++ WS ++ rest0 ->
   getDocumentTitleFromFilename basename pdfPath = rest0)
  /\ (basename pdfPath = K ++ js "事案" ++ WS ++ rest0 ->
      getDocumentTitleFromFilename basename pdfPath = rest0)
  /\ (startsOutside c_kanji rest0 ->
      basename pdfPath = js "【" ++ tag ++ js "】" ++ sp ++ rest0 ->
      getDocumentTitleFromFilename basename pdfPath = rest0).
Proof.
  intros Htag Htagc Hsp HK HKk HWS HWSs Hb.
  rewrite title_unfold, tagPrefix_body, matterPrefix_body.
  destruct (@try_at_matter K WS rest0 HK HKk HWS HWSs Hb) as (m2 & T2 & M2).
  assert (S2 : replace (Seq Bol (seqs [plus (Cls c_kanji); lit "事案"; plus (Cls c_wide)]))
                 (K ++ js "事案" ++ WS ++ rest0) [] = rest0).
  { rewrite replace_Bol, T2, M2.
    replace (K ++ js "事案" ++ WS ++ rest0) with ((K ++ js "事案" ++ WS) ++ rest0)
      by (rewrite <- !app_assoc; reflexivity).
    apply skipn_prefix. }
  split; [|split].
  - intros E. rewrite E.
    destruct (@try_at_tag tag sp (K ++ js "事案" ++ WS ++ rest0) Htag Htagc Hsp
                (@kanji_boundary_space K _ HK HKk)) as (m1 & T1 & M1).
    rewrite (replace_Bol _ (js "【" ++ _)), T1, M1.
    replace (js "【" ++ tag ++ js "】" ++ sp ++ K ++ js "事案" ++ WS ++ rest0)
      with ((js "【" ++ tag ++ js "】" ++ sp) ++ K ++ js "事案" ++ WS ++ rest0)
      by (rewrite <- !app_assoc; reflexivity).
    rewrite skipn_prefix. exact S2.
  - intros E. rewrite E.
    rewrite (replace_Bol _ (K ++ _)),
      (@try_at_tag_none _ (@kanji_startsOutside_tag K _ HK HKk)).
    exact S2.
  - intros Hr E. rewrite E.
    destruct (@try_at_tag tag sp rest0 Htag Htagc Hsp Hb) as (m1 & T1 & M1).
    rewrite (replace_Bol _ (js "【" ++ _)), T1, M1.
    replace (js "【" ++ tag ++ js "】" ++ sp ++ rest0)
      with ((js "【" ++ tag ++ js "】" ++ sp) ++ rest0)
      by (rewrite <- !app_assoc; reflexivity).
    rewrite skipn_prefix.
    rewrite replace_Bol, (@try_at_matter_none _ Hr). reflexivity.
Qed.

Lemma title_prefixes_stripped_witness :
  getDocumentTitleFromFilename (fun p => p) (js "【至急】 交通事故事案　被告第１準備書面")
  = js "被告第１準備書面".
Proof.
  assert (H1 : js "至急" <> []) by (vm_compute; discriminate).
  assert (H2 : forallb (c_not (c_in "】")) (js "至急") = true) by (vm_compute; reflexivity).
  assert (H3 : forallb c_space (js " ") = true) by (vm_compute; reflexivity).
  assert (H4 : js "交通事故" <> []) by (vm_compute; discriminate).
  assert (H5 : forallb c_kanji (js "交通事故") = true) by (vm_compute; reflexivity).
  assert (H6 : js "　" <> []) by (vm_compute; discriminate).
  assert (H7 : forallb c_space (js "　") = true) by (vm_compute; reflexivity).
  assert (H8 : boundary c_space (js "被告第１準備書面")) by (vm_compute; reflexivity).
  assert (E : js "【至急】 交通事故事案　被告第１準備書面"
              = js "【" ++ js "至急" ++ js "】" ++ js " " ++ js "交通事故" ++ js "事案"
                  ++ js "　" ++ js "被告第１準備書面") by (vm_compute; reflexivity).
  exact (proj1 (@title_prefixes_stripped (fun p => p)
                  (js "【至急】 交通事故事案　被告第１準備書面") _ _ _ _ _
                  H1 (@forallb_Forall _ _ H2) (@forallb_Forall _ _ H3)
                  H4 (@forallb_Forall _ _ H5) H6 (@forallb_Forall _ _ H7) H8) E).
Defined.

(** ** The shape of the counsel name *)

Lemma test_Bol_cls c s :
  test (seqs [Bol; Cls c]) s = match s with x :: _ => c x | [] => false end.
Proof.
  unfold test. change (seqs [Bol; Cls c]) with (Seq Bol (Cls c)). rewrite exec_Bol.
  destruct s as [|x t]; [reflexivity|].
  destruct (c x) eqn:E.
  - rewrite try_at_cls by exact E. reflexivity.
  - rewrite try_at_cls_fail by exact E. reflexivity.
Qed.

Lemma cleanLawyerName_shape raw v : cleanLawyerName raw = Some v -> counselShape v.
Proof.
  unfold cleanLawyerName.
  destruct (matchAll (plus (Cls c_cjk)) (trim raw)) as [|m ms]; [discriminate|].
  set (nm := replace _ (replace _ (join (List.map m0 (m :: ms))) []) []).
  destruct (Nat.ltb (length nm) 2 || Nat.ltb 6 (length nm)) eqn:L; [discriminate|].
  destruct (test (seqs [Bol; Cls (c_in "法会事件番号裁判")]) nm) eqn:T; [discriminate|].
  intros H. injection H as <-.
  apply orb_false_iff in L as [L1 L2].
  apply Nat.ltb_ge in L1, L2. split; [lia|].
  rewrite test_Bol_cls in T. unfold startsOutside, c_heading.
  destruct nm; [exact I | exact T].
Qed.

Lemma lawyerCandidates_shape cfg t c :
  In c (lawyerCandidates cfg t) -> counselShape (name c).
Proof.
  assert (K : forall raw p c0,
            In c0 match cleanLawyerName raw with
                  | Some n => [MkCandidate n p]
                  | None => []
                  end -> counselShape (name c0)).
  { intros raw p c0. destruct (cleanLawyerName raw) as [n|] eqn:E; [|intros []].
    intros [<- | []]. simpl. eapply cleanLawyerName_shape. exact E. }
  intros Hc. unfold lawyerCandidates in Hc.
  repeat (apply in_app_or in Hc; destruct Hc as [Hc | Hc]);
    apply in_flat_map in Hc as (m & _ & Hc).
  - eapply K. exact Hc.
  - destruct (includes _ _); [destruct Hc | eapply K; exact Hc].
  - eapply K. exact Hc.
  - destruct (includes _ _); [destruct Hc|].
    destruct (cleanLawyerName (cap 1 m)) as [n|] eqn:E; [|destruct Hc].
    destruct (existsb _ _); [destruct Hc|].
    destruct Hc as [<- | []]. simpl. eapply cleanLawyerName_shape. exact E.
Qed.

(** X7: the counsel name that extractInfoFromText returns has two to six
    characters, and its first character is none of 法, 会, 事, 件, 番, 号,
    裁, 判. *)
Theorem counsel_name_shape (cfg : Config) (text : jsstring) (v : jsstring) :
  plaintiffLawyer (extractInfoFromText cfg text) = Some v ->
  2 <= length v <= 6
  /\ exists x rest0, v = x :: rest0 /\ c_heading x = false.
Proof.
  change (plaintiffLawyer (extractInfoFromText cfg text))
    with (chooseLawyer (lawyerCandidates cfg (normalizeText text))).
  unfold chooseLawyer.
  destruct (rankedCandidates (lawyerCandidates cfg (normalizeText text)))
    as [|best l] eqn:E; [discriminate|].
  assert (Hb : counselShape (name best)).
  { apply (@lawyerCandidates_shape cfg (normalizeText text)).
    apply rankedCandidates_incl. rewrite E. left. reflexivity. }
  destruct Hb as [Hlen Hhead].
  assert (Hshape : forall u, 2 <= length u <= 6 -> startsOutside c_heading u ->
            2 <= length u <= 6
            /\ exists x rest0, u = x :: rest0 /\ c_heading x = false).
  { intros u Hl Hh. split; [exact Hl|].
    destruct u as [|x u]; [simpl in Hl; lia|]. exists x, u.
    split; [reflexivity | exact Hh]. }
  destruct (Nat.eqb (length (name best)) 5 && _) eqn:C;
    intros H; injection H as <-; [|apply Hshape; assumption].
  apply andb_true_iff in C as [C _]. apply Nat.eqb_eq in C.
  unfold substring. cbn [skipn Nat.sub].
  apply Hshape.
  - rewrite length_firstn, C. simpl. lia.
  - destruct (name best) as [|x u]; [exact I|]. cbn [firstn]. exact Hhead.
Qed.

Lemma counsel_name_shape_witness :
  2 <= length (js "石口俊一") <= 6
  /\ exists x rest0, js "石口俊一" = x :: rest0 /\ c_heading x = false.
Proof.
  assert (H : plaintiffLawyer (extractInfoFromText defaultConfig noisyCounselText)
              = Some (js "石口俊一")) by (vm_compute; reflexivity).
  exact (@counsel_name_shape defaultConfig noisyCounselText _ H).
Defined.

(** ** The case number read off the display of the case *)

Lemma Sem_groupless r w cs cs' : Sem r w cs cs' -> groupless r = true -> cs' = cs.
Proof.
  induction 1; simpl; intros Hg; try reflexivity; try discriminate.
  - apply andb_true_iff in Hg as [Ha Hb]. rewrite IHSem2, IHSem1; auto.
  - apply andb_true_iff in Hg as [Ha Hb]. auto.
  - apply andb_true_iff in Hg as [Ha Hb]. auto.
  - rewrite IHSem2, IHSem1; auto.
Qed.

Lemma Sem_Grp_cap i r w cs cs' :
  Sem (Grp i r) w cs cs' -> exists cs1, cs' = setcap i w cs1 /\ Sem r w cs cs1.
Proof. intros H. inversion H; subst. eauto. Qed.

(** The one group of a pattern [before (group) after] holds the word of
    the group. *)
Lemma cap_middle before g after i m :
  groupless (seqs before) = true -> groupless (seqs after) = true ->
  Sem (seqs (before ++ Grp i g :: after)) (m0 m) [] (groups m) ->
  exists cs cs', Sem g (cap i m) cs cs'.
Proof.
  intros Hb Ha. generalize (@nil (nat * jsstring)) as cs0. generalize (m0 m) as w.
  induction before as [|b before IH]; intros w cs0 H.
  - cbn [app] in H. apply Sem_seqs_inv in H as (w1 & w2 & cs1 & -> & H1 & H2).
    apply Sem_groupless in H2; [|exact Ha].
    apply Sem_Grp_cap in H1 as (cs2 & E1 & H1).
    unfold cap, group. rewrite H2, E1. cbn [getcap setcap].
    rewrite Nat.eqb_refl. eauto.
  - cbn [app] in H. apply Sem_seqs_inv in H as (w1 & w2 & cs1 & -> & H1 & H2).
    apply (IH) in H2; [exact H2|].
    destruct before as [|b' before']; [reflexivity|].
    cbn [seqs] in Hb. simpl in Hb. apply andb_true_iff in Hb. tauto.
Qed.

Lemma displayNum_serial nm :
  Sem displayNum (m0 nm) [] (groups nm) ->
  cap 1 nm <> [] /\ Forall (fun x => c_digit x = true) (cap 1 nm).
Proof.
  intros H.
  destruct (@cap_middle [lit "第"; ws0] (plus (Cls c_digit)) [ws0; lit "号"] 1 nm)
    as (cs & cs' & S1); [vm_compute; reflexivity | vm_compute; reflexivity | exact H |].
  apply Sem_plus_inv in S1. exact S1.
Qed.

Lemma displaySymbol_symbol sm :
  Sem displaySymbol (m0 sm) [] (groups sm) ->
  exists s, cap 1 sm = [s] /\ caseSymbols s = true.
Proof.
  intros H.
  destruct (@cap_middle [Cls c_lparen; ws0] (Cls caseSymbols) [ws0; Cls c_rparen] 1 sm)
    as (cs & cs' & S1); [reflexivity | reflexivity | exact H |].
  apply Sem_Cls_inv in S1. exact S1.
Qed.

(** What the fallback returns with the flag. *)
Lemma caseNumberFromDisplay_guessed t g :
  snd (caseNumberFromDisplay t) = Some g ->
  exists era s serial,
    fst (caseNumberFromDisplay t)
    = Some (era ++ js "(" ++ [s] ++ js ")第" ++ serial ++ js "号")
    /\ caseSymbols s = true
    /\ serial <> [] /\ Forall (fun x => c_digit x = true) serial
    /\ (reiwaYears t = [] -> era = [] /\ g = true)
    /\ (reiwaYears t <> [] ->
        era = js "令和" ++ numberToString (minOf (reiwaYears t)) ++ js "年"
        /\ (g = true -> s = ch "ワ")).
Proof.
  unfold caseNumberFromDisplay, reiwaYears.
  destruct (exec displaySection t) as [dm|]; [|discriminate].
  destruct (exec displayFull (cap 1 dm)) as [fm|]; [discriminate|].
  destruct (exec displayNum (cap 1 dm)) as [nm|] eqn:En; [|discriminate].
  apply scan_sound in En as [Sn _]. apply displayNum_serial in Sn as [Hne Hd].
  assert (Hsym : exists s,
            match exec displaySymbol (cap 1 dm) with
            | Some sm => cap 1 sm
            | None => js "ワ"
            end = [s] /\ caseSymbols s = true
            /\ (match exec displaySymbol (cap 1 dm) with
                | Some _ => false
                | None => true
                end = true -> s = ch "ワ")).
  { destruct (exec displaySymbol (cap 1 dm)) as [sm|] eqn:Es.
    - apply scan_sound in Es as [Ss _]. apply displaySymbol_symbol in Ss as (s & E & Hs).
      exists s. split; [exact E|]. split; [exact Hs | discriminate].
    - exists (ch "ワ"). split; [reflexivity|]. split; [vm_compute; reflexivity | reflexivity]. }
  destruct Hsym as (s & Es & Hs & Hg). rewrite Es.
  destruct (List.map _ (matchAll yearRegex t)) as [|y ys] eqn:Ey; cbn [fst snd];
    intros H; injection H as <-.
  - exists [], s, (cap 1 nm). split; [reflexivity|].
    repeat split; auto; congruence.
  - exists (js "令和" ++ numberToString (minOf (y :: ys)) ++ js "年"), s, (cap 1 nm).
    split; [rewrite <- !app_assoc; reflexivity|].
    repeat split; auto; try discriminate.
Qed.

Lemma extractCaseNumber_snd t g :
  snd (extractCaseNumber t) = Some g ->
  firstCaseNumber caseNumberPatterns t = None
  /\ extractCaseNumber t = caseNumberFromDisplay t.
Proof.
  unfold extractCaseNumber.
  destruct (firstCaseNumber caseNumberPatterns t); [discriminate|]. auto.
Qed.

(** In a call that sets the flag all the years of the text are passed to
    [Math.min]. *)
Lemma spreadArguments_guessed t g :
  snd (extractCaseNumber t) = Some g -> spreadArguments t = length (reiwaYears t).
Proof.
  intros H. destruct (extractCaseNumber_snd _ H) as [Hnone E]. rewrite E in H.
  unfold spreadArguments. rewrite Hnone. revert H. unfold caseNumberFromDisplay.
  destruct (exec displaySection t) as [dm|]; [|discriminate].
  destruct (exec displayFull (cap 1 dm)) as [fm|]; [discriminate|].
  destruct (exec displayNum (cap 1 dm)) as [nm|]; [|discriminate].
  intros _. unfold reiwaYears. rewrite length_map. reflexivity.
Qed.

Lemma call_returned maxArguments cfg text info :
  callExtractInfoFromText maxArguments cfg text = Returned info ->
  info = extractInfoFromText cfg text
  /\ spreadArguments (normalizeText text) <= maxArguments.
Proof.
  unfold callExtractInfoFromText.
  destruct (Nat.ltb_spec maxArguments (spreadArguments (normalizeText text))) as [L | L];
    [discriminate|].
  intros H. injection H as <-. split; [reflexivity | exact L].
Qed.

(** X8: when a call of extractInfoFromText returns with the flag
    caseNumberGuessed set, none of the patterns of a case number matched,
    the text names no more years of Reiwa than the engine passes as
    arguments, and the case number is put together from the display of the
    case: a case symbol in half-width brackets, 第, the serial digits and
    号, after 令和, the least of the years as a template string prints that
    number, and 年 if the text names a year of Reiwa, and after nothing if
    it names none, in which case the flag is true; with a year and the flag
    true, the symbol is the default ワ. *)
Theorem guessed_case_number (maxArguments : nat) (cfg : Config) (text : jsstring)
    (info : Info) (g : bool) :
  callExtractInfoFromText maxArguments cfg text = Returned info ->
  caseNumberGuessed info = Some g ->
  firstCaseNumber caseNumberPatterns (normalizeText text) = None
  /\ length (reiwaYears (normalizeText text)) <= maxArguments
  /\ exists era s serial,
       caseNumber info = Some (era ++ js "(" ++ [s] ++ js ")第" ++ serial ++ js "号")
       /\ caseSymbols s = true
       /\ serial <> [] /\ Forall (fun x => c_digit x = true) serial
       /\ (reiwaYears (normalizeText text) = [] -> era = [] /\ g = true)
       /\ (reiwaYears (normalizeText text) <> [] ->
           era = js "令和" ++ numberToString (minOf (reiwaYears (normalizeText text)))
                   ++ js "年"
           /\ (g = true -> s = ch "ワ")).
Proof.
  intros R. destruct (call_returned _ _ _ R) as [-> Hmax].
  change (caseNumberGuessed (extractInfoFromText cfg text))
    with (snd (extractCaseNumber (normalizeText text))).
  change (caseNumber (extractInfoFromText cfg text))
    with (fst (extractCaseNumber (normalizeText text))).
  intros H. destruct (extractCaseNumber_snd _ H) as [Hnone E].
  split; [exact Hnone|]. split.
  { rewrite <- (spreadArguments_guessed _ H). exact Hmax. }
  rewrite E in *. apply caseNumberFromDisplay_guessed. exact H.
Qed.

(** X9: when a call of extractInfoFromText returns with the flag
    caseNumberGuessed set and the text names a year written as 令和N年,
    the year in the case number is the number that parseInt reads from one
    of those years (a double), not greater than the number read from any
    other of them, as a template string prints it; a year below 2^53 is
    read as it is written and printed with all its digits, without leading
    zeros. *)
Theorem guessed_year_least (maxArguments : nat) (cfg : Config) (text : jsstring)
    (info : Info) (g : bool) :
  callExtractInfoFromText maxArguments cfg text = Returned info ->
  caseNumberGuessed info = Some g ->
  yearRuns (normalizeText text) <> [] ->
  exists ds rest0,
    In ds (yearRuns (normalizeText text))
    /\ caseNumber info
       = Some (js "令和" ++ numberToString (parseInt ds) ++ js "年(" ++ rest0)
    /\ (forall ds', In ds' (yearRuns (normalizeText text)) ->
          numberLe (parseInt ds) (parseInt ds'))
    /\ ((decimalValue ds < 2 ^ 53)%N ->
        parseInt ds = Finite (decimalValue ds)
        /\ numberToString (parseInt ds) = decimalDigits (decimalValue ds)).
Proof.
  intros R. destruct (call_returned _ _ _ R) as [-> _].
  change (caseNumberGuessed (extractInfoFromText cfg text))
    with (snd (extractCaseNumber (normalizeText text))).
  change (caseNumber (extractInfoFromText cfg text))
    with (fst (extractCaseNumber (normalizeText text))).
  intros H Hy. destruct (extractCaseNumber_snd _ H) as [_ E]. rewrite E in *.
  destruct (caseNumberFromDisplay_guessed _ H)
    as (era & s & serial & Ecn & _ & _ & _ & _ & Hera).
  assert (Hne : reiwaYears (normalizeText text) <> []).
  { rewrite reiwaYears_runs. intros Hmap. apply map_eq_nil in Hmap. contradiction. }
  destruct (Hera Hne) as [-> _].
  destruct (minOf_least Hne) as [Hin Hle].
  rewrite reiwaYears_runs in Hin at 2. apply in_map_iff in Hin as (ds & Eds & Hds).
  exists ds, ([s] ++ js ")第" ++ serial ++ js "号").
  split; [exact Hds|]. split; [|split].
  - rewrite Ecn, Eds. f_equal. rewrite <- !app_assoc. reflexivity.
  - intros ds' Hds'. rewrite Eds. apply Hle. rewrite reiwaYears_runs.
    apply in_map. exact Hds'.
  - intros Hlt. split; [apply parseInt_exact; exact Hlt|].
    rewrite (@parseInt_exact ds Hlt). apply numberToString_exact. exact Hlt.
Qed.

Lemma guessed_case_number_witness :
  firstCaseNumber caseNumberPatterns (normalizeText serialOnlySheet) = None
  /\ length (reiwaYears (normalizeText serialOnlySheet)) <= 1000
  /\ exists era s serial,
       caseNumber (extractInfoFromText defaultConfig serialOnlySheet)
       = Some (era ++ js "(" ++ [s] ++ js ")第" ++ serial ++ js "号")
       /\ caseSymbols s = true
       /\ serial <> [] /\ Forall (fun x => c_digit x = true) serial
       /\ (reiwaYears (normalizeText serialOnlySheet) = [] -> era = [] /\ true = true)
       /\ (reiwaYears (normalizeText serialOnlySheet) <> [] ->
           era = js "令和"
                   ++ numberToString (minOf (reiwaYears (normalizeText serialOnlySheet)))
                   ++ js "年"
           /\ (true = true -> s = ch "ワ")).
Proof.
  assert (R : callExtractInfoFromText 1000 defaultConfig serialOnlySheet
              = Returned (extractInfoFromText defaultConfig serialOnlySheet))
    by (vm_compute; reflexivity).
  assert (H : caseNumberGuessed (extractInfoFromText defaultConfig serialOnlySheet)
              = Some true) by (vm_compute; reflexivity).
  exact (@guessed_case_number 1000 defaultConfig serialOnlySheet _ true R H).
Defined.

Lemma guessed_year_least_witness :
  exists ds rest0,
    In ds (yearRuns (normalizeText serialOnlySheet))
    /\ caseNumber (extractInfoFromText defaultConfig serialOnlySheet)
       = Some (js "令和" ++ numberToString (parseInt ds) ++ js "年(" ++ rest0)
    /\ (forall ds', In ds' (yearRuns (normalizeText serialOnlySheet)) ->
          numberLe (parseInt ds) (parseInt ds'))
    /\ ((decimalValue ds < 2 ^ 53)%N ->
        parseInt ds = Finite (decimalValue ds)
        /\ numberToString (parseInt ds) = decimalDigits (decimalValue ds)).
Proof.
  assert (R : callExtractInfoFromText 1000 defaultConfig serialOnlySheet
              = Returned (extractInfoFromText defaultConfig serialOnlySheet))
    by (vm_compute; reflexivity).
  assert (H : caseNumberGuessed (extractInfoFromText defaultConfig serialOnlySheet)
              = Some true) by (vm_compute; reflexivity).
  assert (Y : yearRuns (normalizeText serialOnlySheet) = [js "6"; js "5"])
    by (vm_compute; reflexivity).
  assert (N : yearRuns (normalizeText serialOnlySheet) <> [])
    by (rewrite Y; discriminate).
  exact (@guessed_year_least 1000 defaultConfig serialOnlySheet _ true R H N).
Defined.

(** ** The dictionary of court fax numbers *)

Lemma courtBase_unfold c :
  courtBase c = replace divisionBefore (replace divisionAfter c []) [].
Proof. reflexivity. Qed.

Lemma rmatch_chars_fail a l x t p cs k :
  x <> a ->
  rmatch (seqs (List.map (fun a => Cls (c_is a)) (a :: l))) (MState p (x :: t) cs) k = None.
Proof.
  intros H. assert (E : c_is a x = false) by (apply N.eqb_neq; exact H).
  destruct l as [|b l]; cbn [List.map seqs].
  - apply step_cls_fail. exact E.
  - rewrite rmatch_Seq. apply step_cls_fail. exact E.
Qed.

Lemma try_at_divisionAfter_fail x t q :
  x <> ch "民" -> try_at divisionAfter q (x :: t) = None.
Proof.
  intros H. unfold try_at, divisionAfter. cbn [seqs]. rewrite rmatch_Seq.
  change (lit "民事第")
    with (seqs (List.map (fun a => Cls (c_is a)) (ch "民" :: [ch "事"; ch "第"]))).
  rewrite rmatch_chars_fail by exact H. reflexivity.
Qed.

Lemma try_at_divisionBefore_fail x t q :
  x <> ch "第" -> try_at divisionBefore q (x :: t) = None.
Proof.
  intros H. unfold try_at, divisionBefore. cbn [seqs]. rewrite rmatch_Seq.
  change (lit "第") with (seqs (List.map (fun a => Cls (c_is a)) (ch "第" :: []))).
  rewrite rmatch_chars_fail by exact H. reflexivity.
Qed.

Lemma plainKey_spec k x : plainKey k = true -> In x k -> x <> ch "民" /\ x <> ch "第".
Proof.
  intros H Hx. unfold plainKey in H.
  pose proof (proj1 (forallb_forall _ _) H x Hx) as Hc. cbv beta in Hc.
  apply negb_true_iff in Hc.
  split; intros ->; vm_compute in Hc; discriminate.
Qed.

Lemma anydigit_plain x : c_anydigit x = true -> x <> ch "民" /\ x <> ch "第".
Proof. intros H. split; intros ->; vm_compute in H; discriminate. Qed.

Lemma scan_end r p : try_at r p [] = None -> scan r p [] = None.
Proof. intros H. simpl. rewrite H. reflexivity. Qed.

(** A name without division is left as it is. *)
Lemma courtBase_plain k : plainKey k = true -> courtBase k = k.
Proof.
  intros Hk. rewrite courtBase_unfold.
  assert (E1 : replace divisionAfter k [] = k).
  { unfold replace, replaceFn, exec. rewrite scan_none; [reflexivity | | reflexivity].
    intros x Hx q t. apply try_at_divisionAfter_fail. apply (proj1 (@plainKey_spec _ _ Hk Hx)). }
  rewrite E1. unfold replace, replaceFn, exec. rewrite scan_none; [reflexivity | | reflexivity].
  intros x Hx q t. apply try_at_divisionBefore_fail. apply (proj2 (@plainKey_spec _ _ Hk Hx)).
Qed.

(** A division written after the court, as in 民事第２部. *)
Lemma courtBase_after k ds :
  plainKey k = true -> ds <> [] -> allb c_anydigit ds ->
  courtBase (k ++ js "民事第" ++ ds ++ js "部") = k.
Proof.
  intros Hk Hne Hds. rewrite courtBase_unfold.
  assert (E1 : replace divisionAfter (k ++ js "民事第" ++ ds ++ js "部") [] = k).
  { unfold replace, replaceFn, exec.
    rewrite scan_skip
      by (intros x Hx q t; apply try_at_divisionAfter_fail; apply (proj1 (@plainKey_spec _ _ Hk Hx))).
    assert (T : try_at divisionAfter (0 + length k) (js "民事第" ++ ds ++ js "部")
                = Some (MkMatch (0 + length k) (js "民事第" ++ ds ++ js "部") [])).
    { apply try_at_of_rmatch with
        (st' := MState (0 + length k + length (js "民事第") + length ds + length (js "部")) [] []).
      - unfold divisionAfter. cbn [seqs]. rewrite rmatch_Seq, step_lit, rmatch_Seq.
        apply step_plus; [exact Hds | exact Hne | vm_compute; reflexivity |].
        rewrite rmatch_Seq.
        rewrite <- (app_nil_r (js "部")) at 1. rewrite step_lit. reflexivity.
      - cbn [rest]. rewrite !app_nil_r. reflexivity. }
    rewrite (scan_here _ _ _ T). cbn [index m0 app].
    rewrite (@firstn_exact _ k _ (0 + length k)) by reflexivity.
    rewrite (@skipn_all2 _ (0 + length k + _)) by (rewrite !length_app; lia).
    apply app_nil_r. }
  rewrite E1. unfold replace, replaceFn, exec. rewrite scan_none; [reflexivity | | reflexivity].
  intros x Hx q t. apply try_at_divisionBefore_fail. apply (proj2 (@plainKey_spec _ _ Hk Hx)).
Qed.

Lemma scan_divisionAfter_tail p m :
  c_in "民刑" m = true -> scan divisionAfter p ([m] ++ js "事部") = None.
Proof.
  intros H. unfold c_in in H. change (js "民刑") with [ch "民"; ch "刑"] in H.
  cbn [existsb] in H. rewrite orb_false_r in H.
  apply orb_prop in H as [H | H]; apply N.eqb_eq in H; subst m; reflexivity.
Qed.

(** A division written before the kind of the cases, as in 第２民事部. *)
Lemma courtBase_before k ds m :
  plainKey k = true -> ds <> [] -> allb c_anydigit ds -> c_in "民刑" m = true ->
  courtBase (k ++ js "第" ++ ds ++ [m] ++ js "事部") = k.
Proof.
  intros Hk Hne Hds Hm. rewrite courtBase_unfold.
  assert (E1 : replace divisionAfter (k ++ js "第" ++ ds ++ [m] ++ js "事部") []
               = k ++ js "第" ++ ds ++ [m] ++ js "事部").
  { unfold replace, replaceFn, exec.
    rewrite scan_skip
      by (intros x Hx q t; apply try_at_divisionAfter_fail; apply (proj1 (@plainKey_spec _ _ Hk Hx))).
    rewrite scan_skip
      by (intros x Hx q t; apply try_at_divisionAfter_fail;
          destruct Hx as [<- | []]; vm_compute; discriminate).
    rewrite scan_skip.
    2:{ intros x Hx q t. apply try_at_divisionAfter_fail.
        unfold allb in Hds. rewrite Forall_forall in Hds.
        apply (proj1 (@anydigit_plain _ (Hds x Hx))). }
    rewrite scan_divisionAfter_tail by exact Hm. reflexivity. }
  rewrite E1. unfold replace, replaceFn, exec.
  rewrite scan_skip
    by (intros x Hx q t; apply try_at_divisionBefore_fail; apply (proj2 (@plainKey_spec _ _ Hk Hx))).
  assert (T : try_at divisionBefore (0 + length k) (js "第" ++ ds ++ [m] ++ js "事部")
              = Some (MkMatch (0 + length k) (js "第" ++ ds ++ [m] ++ js "事部") [])).
  { apply try_at_of_rmatch with
      (st' := MState (S (0 + length k + length (js "第") + length ds) + length (js "事部"))
                [] []).
    - unfold divisionBefore. cbn [seqs]. rewrite rmatch_Seq, step_lit, rmatch_Seq.
      apply step_plus; [exact Hds | exact Hne | |].
      + cbn [app boundary]. destruct (c_anydigit m) eqn:E; [|reflexivity].
        assert (H : forall y, c_in "民刑" y = true -> negb (c_anydigit y) = true)
          by (apply c_in_sub; vm_compute; reflexivity).
        apply H in Hm. rewrite E in Hm. discriminate.
      + rewrite rmatch_Seq. cbn [app]. rewrite step_cls by exact Hm.
        rewrite rmatch_Seq.
        rewrite <- (app_nil_r (js "事部")) at 1. rewrite step_lit. reflexivity.
    - cbn [rest]. rewrite !app_nil_r. reflexivity. }
  rewrite (scan_here _ _ _ T). cbn [index m0 app].
  rewrite (@firstn_exact _ k _ (0 + length k)) by reflexivity.
  rewrite (@skipn_all2 _ (0 + length k + _)) by (rewrite !length_app; simpl; lia).
  apply app_nil_r.
Qed.

Lemma COURT_FAX_MAP_keys k v :
  In (k, v) COURT_FAX_MAP -> plainKey k = true /\ lookupFax k COURT_FAX_MAP = Some v.
Proof.
  assert (H : forallb (fun kv => plainKey (fst kv)
                                 && match lookupFax (fst kv) COURT_FAX_MAP with
                                    | Some v' => str_eqb v' (snd kv)
                                    | None => false
                                    end) COURT_FAX_MAP = true)
    by (vm_compute; reflexivity).
  intros Hin. pose proof (proj1 (forallb_forall _ _) H (k, v) Hin) as Hkv.
  cbn [fst snd] in Hkv. apply andb_true_iff in Hkv as [H1 H2].
  split; [exact H1|].
  destruct (lookupFax k COURT_FAX_MAP) as [v'|]; [|discriminate].
  apply str_eqb_eq in H2. congruence.
Qed.

(** X10: the fax number of a court of the dictionary is found whether the
    court name stands alone or is followed by a civil division written as
    民事第N部, or by a division written as 第N民事部 or 第N刑事部, with N in
    half-width or full-width digits. *)
Theorem dictionaryFax_ignores_division (k v ds : jsstring) :
  In (k, v) COURT_FAX_MAP -> ds <> [] -> Forall (fun x => c_anydigit x = true) ds ->
  dictionaryFax k = v
  /\ dictionaryFax (k ++ js "民事第" ++ ds ++ js "部") = v
  /\ dictionaryFax (k ++ js "第" ++ ds ++ js "民事部") = v
  /\ dictionaryFax (k ++ js "第" ++ ds ++ js "刑事部") = v.
Proof.
  intros Hin Hne Hds. destruct (@COURT_FAX_MAP_keys _ _ Hin) as [Hk Hl].
  unfold dictionaryFax.
  change (js "民事部") with ([ch "民"] ++ js "事部").
  change (js "刑事部") with ([ch "刑"] ++ js "事部").
  rewrite (@courtBase_plain _ Hk), (@courtBase_after _ _ Hk Hne Hds).
  rewrite (@courtBase_before k ds (ch "民") Hk Hne Hds) by (vm_compute; reflexivity).
  rewrite (@courtBase_before k ds (ch "刑") Hk Hne Hds) by (vm_compute; reflexivity).
  rewrite Hl. auto.
Qed.

Lemma dictionaryFax_ignores_division_witness :
  dictionaryFax (js "広島地方裁判所") = js "082-228-0197"
  /\ dictionaryFax (js "広島地方裁判所" ++ js "民事第" ++ js "２" ++ js "部") = js "082-228-0197"
  /\ dictionaryFax (js "広島地方裁判所" ++ js "第" ++ js "２" ++ js "民事部") = js "082-228-0197"
  /\ dictionaryFax (js "広島地方裁判所" ++ js "第" ++ js "２" ++ js "刑事部") = js "082-228-0197".
Proof.
  assert (H1 : nth_error COURT_FAX_MAP 5 = Some (js "広島地方裁判所", js "082-228-0197"))
    by reflexivity.
  assert (H2 : js "２" <> []) by (vm_compute; discriminate).
  assert (H3 : forallb c_anydigit (js "２") = true) by (vm_compute; reflexivity).
  exact (@dictionaryFax_ignores_division _ _ _ (nth_error_In _ _ H1) H2 (@forallb_Forall _ _ H3)).
Defined.

(** ** The score of a page and the anchors of the receipt *)

(** X11: the score of a page lies between -40 and 70, and it reaches the
    50 at which the page search stops exactly when the page has the label of
    the receipt and either at most 200 words, or at most 300 words and both
    令和 and 代理人 in its text. *)
Theorem score_confident (words : list OcrWord) :
  (-40 <= scoreReceiptPage words <= 70)%Z
  /\ ((50 <= scoreReceiptPage words)%Z <->
      findReceiptLabel words <> None
      /\ (length words <= 200
          \/ (length words <= 300
              /\ test (lit "令和") (pageText words) = true
              /\ test (lit "代理人") (pageText words) = true))).
Proof.
  unfold scoreReceiptPage, pageText.
  destruct (findReceiptLabel words) as [y|];
    destruct (test (lit "令和") (join (List.map wtext words)));
    destruct (test (lit "代理人") (join (List.map wtext words)));
    destruct (Nat.ltb_spec 200 (length words)) as [L2 | L2];
    destruct (Nat.ltb_spec 300 (length words)) as [L3 | L3];
    (split; [lia|]); split.
  all: try (intros H;
            first [ exfalso; lia
                  | split; [discriminate
                           | first [left; lia | right; repeat split; first [lia | reflexivity]]]]).
  all: intros [H1 H2];
    first [ lia
          | exfalso; apply H1; reflexivity
          | destruct H2 as [H2 | (H2 & H3 & H4)]; first [lia | discriminate] ].
Qed.

Lemma find_first (A : Type) (p : A -> bool) l a :
  find p l = Some a ->
  exists before after, l = before ++ a :: after /\ p a = true
                       /\ forall b, In b before -> p b = false.
Proof.
  induction l as [|x l IH]; simpl; [discriminate|].
  destruct (p x) eqn:E.
  - intros H. injection H as <-. exists [], l. split; [reflexivity|].
    split; [exact E | intros b []].
  - intros H. destruct (IH H) as (before & after & -> & Ha & Hb).
    exists (x :: before), after. split; [reflexivity|]. split; [exact Ha|].
    intros b [<- | Hin]; auto.
Qed.

Lemma find_none_iff (A : Type) (p : A -> bool) l :
  find p l = None <-> forall a, In a l -> p a = false.
Proof.
  split.
  - intros H a Ha. exact (find_none p l H a Ha).
  - induction l as [|x l IH]; simpl; intros H; [reflexivity|].
    rewrite (H x (or_introl eq_refl)). apply IH. intros a Ha. apply H. right. exact Ha.
Qed.

(** X12: the label of the receipt, when found, is at the height of a word
    of the page: the first word that contains 受領, or else the first word
    that reads 受 and has a word 領 within 50 pixels of its height and less
    than 300 pixels to its right; and it is found whenever there is such a
    word. *)
Theorem receipt_label_word (words : list OcrWord) :
  (forall y, findReceiptLabel words = Some y ->
     exists before w after,
       words = before ++ w :: after /\ y1 w = y
       /\ (includes (wtext w) (js "受領") = true
           /\ (forall b, In b before -> includes (wtext b) (js "受領") = false)
           \/ (forall b, In b words -> includes (wtext b) (js "受領") = false)
              /\ splitLabel words w
              /\ (forall b, In b before -> ~ splitLabel words b)))
  /\ ((exists w, In w words /\ (includes (wtext w) (js "受領") = true \/ splitLabel words w)) ->
      findReceiptLabel words <> None).
Proof.
  set (direct := fun w : OcrWord =>
         includes (wtext w) (js "受領書") || includes (wtext w) (js "受領")).
  assert (Hd : forall w, direct w = includes (wtext w) (js "受領")).
  { intros w. unfold direct.
    destruct (includes (wtext w) (js "受領書")) eqn:E; [|reflexivity].
    change (js "受領書") with (js "受領" ++ js "書") in E.
    rewrite (includes_prefix _ _ _ E). reflexivity. }
  set (near := fun ju w : OcrWord =>
         str_eqb (wtext w) (js "領") && (Z.abs (y1 w - y1 ju) <? 50)%Z
         && (x1 ju <? x1 w)%Z && (x1 w <? x1 ju + 300)%Z).
  set (hasRyou := fun ju : OcrWord =>
         match find (near ju) words with Some _ => true | None => false end).
  assert (Hsplit : forall ju, In ju words ->
            (str_eqb (wtext ju) (js "受") && hasRyou ju = true <-> splitLabel words ju)).
  { intros ju Hju. unfold splitLabel, hasRyou. split.
    - intros H. apply andb_true_iff in H as [H1 H2]. apply str_eqb_eq in H1.
      split; [exact H1|].
      destruct (find (near ju) words) as [r|] eqn:F; [|discriminate].
      pose proof (find_some _ _ F) as [Hin Hn]. unfold near in Hn.
      repeat (apply andb_true_iff in Hn as [Hn ?]).
      apply str_eqb_eq in Hn. exists r. repeat split; auto; lia.
    - intros (H1 & r & Hin & Hr & Hy & Hx1 & Hx2).
      apply andb_true_iff. split; [apply str_eqb_eq; exact H1|].
      destruct (find (near ju) words) as [r'|] eqn:F; [reflexivity|].
      pose proof (find_none _ _ F r Hin) as Hn. unfold near in Hn.
      assert (E1 : str_eqb (wtext r) (js "領") = true) by (apply str_eqb_eq; exact Hr).
      assert (E2 : (Z.abs (y1 r - y1 ju) <? 50)%Z = true) by (apply Z.ltb_lt; exact Hy).
      assert (E3 : (x1 ju <? x1 r)%Z = true) by (apply Z.ltb_lt; exact Hx1).
      assert (E4 : (x1 r <? x1 ju + 300)%Z = true) by (apply Z.ltb_lt; exact Hx2).
      rewrite E1, E2, E3, E4 in Hn. discriminate Hn. }
  assert (Hfilter : forall l, find hasRyou (filter (fun w => str_eqb (wtext w) (js "受")) l)
                              = find (fun w => str_eqb (wtext w) (js "受") && hasRyou w) l).
  { induction l as [|x l IH]; [reflexivity|]. simpl.
    destruct (str_eqb (wtext x) (js "受")); simpl; [|exact IH].
    destruct (hasRyou x); [reflexivity | exact IH]. }
  assert (E : findReceiptLabel words
              = match find direct words with
                | Some w => Some (y1 w)
                | None =>
                  match find (fun w => str_eqb (wtext w) (js "受") && hasRyou w) words with
                  | Some ju => Some (y1 ju)
                  | None => None
                  end
                end).
  { unfold findReceiptLabel. fold direct. destruct (find direct words); [reflexivity|].
    rewrite <- Hfilter. reflexivity. }
  rewrite E. clear E. split.
  - intros y. destruct (find direct words) as [w|] eqn:F.
    + intros H. injection H as <-.
      destruct (find_first _ _ F) as (before & after & Hw & Hp & Hb).
      exists before, w, after. split; [exact Hw|]. split; [reflexivity|]. left.
      rewrite <- Hd. split; [exact Hp|]. intros b Hin. rewrite <- Hd. auto.
    + destruct (find (fun w => str_eqb (wtext w) (js "受") && hasRyou w) words)
        as [ju|] eqn:F2; [|discriminate].
      intros H. injection H as <-.
      destruct (find_first _ _ F2) as (before & after & Hw & Hp & Hb).
      exists before, ju, after. split; [exact Hw|]. split; [reflexivity|]. right.
      split; [|split].
      * intros b Hin. rewrite <- Hd. exact (find_none _ _ F b Hin).
      * apply Hsplit; [rewrite Hw; apply in_elt | exact Hp].
      * intros b Hin Hs. apply Hsplit in Hs.
        -- rewrite (Hb b Hin) in Hs. discriminate.
        -- rewrite Hw. apply in_or_app. left. exact Hin.
  - intros (w & Hin & [H | H]).
    + destruct (find direct words) eqn:F; [discriminate|].
      pose proof (find_none _ _ F w Hin) as Hn. rewrite Hd, H in Hn. discriminate.
    + destruct (find direct words) eqn:F; [discriminate|].
      destruct (find (fun w0 => str_eqb (wtext w0) (js "受") && hasRyou w0) words) eqn:F2;
        [discriminate|].
      pose proof (find_none _ _ F2 w Hin) as Hn. cbv beta in Hn.
      apply (Hsplit w Hin) in H. rewrite H in Hn. discriminate.
Qed.

Lemma receipt_label_word_witness :
  exists before w after,
    honorificPage = before ++ w :: after /\ y1 w = 180%Z
    /\ (includes (wtext w) (js "受領") = true
        /\ (forall b, In b before -> includes (wtext b) (js "受領") = false)
        \/ (forall b, In b honorificPage -> includes (wtext b) (js "受領") = false)
           /\ splitLabel honorificPage w
           /\ (forall b, In b before -> ~ splitLabel honorificPage b)).
Proof.
  assert (H : findReceiptLabel honorificPage = Some 180%Z) by (vm_compute; reflexivity).
  exact (proj1 (@receipt_label_word honorificPage) _ H).
Defined.

(** *** The word that a reduction keeps *)

Lemma fold_max (key : OcrWord -> Z) l : forall a,
  let g := fold_left (fun a b => if (key b <? key a)%Z then a else b) l a in
  forall w, In w (a :: l) -> (key w <= key g)%Z.
Proof.
  induction l as [|b l IH]; intros a; cbn [fold_left].
  - intros w [<- | []]. lia.
  - destruct (Z.ltb_spec (key b) (key a)) as [L | L].
    + intros w [<- | [<- | Hw]].
      * apply (IH a). left. reflexivity.
      * pose proof (IH a a (or_introl eq_refl)). cbv zeta in H. lia.
      * apply (IH a). right. exact Hw.
    + intros w [<- | [<- | Hw]].
      * pose proof (IH b b (or_introl eq_refl)). cbv zeta in H. lia.
      * apply (IH b). left. reflexivity.
      * apply (IH b). right. exact Hw.
Qed.

Lemma fold_min (key : OcrWord -> Z) l : forall a,
  let g := fold_left (fun a b => if (key a <? key b)%Z then a else b) l a in
  forall w, In w (a :: l) -> (key g <= key w)%Z.
Proof.
  induction l as [|b l IH]; intros a; cbn [fold_left].
  - intros w [<- | []]. lia.
  - destruct (Z.ltb_spec (key a) (key b)) as [L | L].
    + intros w [<- | [<- | Hw]].
      * apply (IH a). left. reflexivity.
      * pose proof (IH a a (or_introl eq_refl)). cbv zeta in H. lia.
      * apply (IH a). right. exact Hw.
    + intros w [<- | [<- | Hw]].
      * pose proof (IH b b (or_introl eq_refl)). cbv zeta in H. lia.
      * apply (IH b). left. reflexivity.
      * apply (IH b). right. exact Hw.
Qed.

(** [l.reduce((a, b) => key(a) > key(b) ? a : b)] keeps a word of the
    greatest key, [l.reduce((a, b) => key(a) < key(b) ? a : b)] one of the
    least. *)
Lemma reduceWords_max (key : OcrWord -> Z) l g :
  reduceWords (fun a b => (key b <? key a)%Z) l = Some g ->
  In g l /\ forall w, In w l -> (key w <= key g)%Z.
Proof.
  intros H. split; [exact (reduceWords_In _ _ H)|].
  destruct l as [|a l]; [discriminate|]. simpl in H. injection H as <-.
  apply (@fold_max key l a).
Qed.

Lemma reduceWords_min (key : OcrWord -> Z) l g :
  reduceWords (fun a b => (key a <? key b)%Z) l = Some g ->
  In g l /\ forall w, In w l -> (key g <= key w)%Z.
Proof.
  intros H. split; [exact (reduceWords_In _ _ H)|].
  destruct l as [|a l]; [discriminate|]. simpl in H. injection H as <-.
  apply (@fold_min key l a).
Qed.

(** X13: of several words 行 in the receipt section, the one struck is
    the rightmost of those within 60 pixels of the height of the first word
    of the section that contains 弁護 or 護士, and, when there is no such
    word or no 行 at that height, the topmost 行 of the section. *)
Theorem strike_target_choice (words : list OcrWord) (g : OcrWord) :
  detectGyou words = Some g ->
  match counselWord words with
  | Some bengo =>
    (onCounselLine words bengo <> [] ->
     In g (onCounselLine words bengo)
     /\ forall w, In w (onCounselLine words bengo) -> (x1 w <= x1 g)%Z)
    /\ (onCounselLine words bengo = [] ->
        forall w, In w (gyouWords words) -> (y1 g <= y1 w)%Z)
  | None => forall w, In w (gyouWords words) -> (y1 g <= y1 w)%Z
  end.
Proof.
  unfold detectGyou, counselWord, onCounselLine. fold (gyouWords words).
  destruct (gyouWords words) as [|a l] eqn:E; [discriminate|].
  destruct (find _ (receiptWords words)) as [bengo|].
  - destruct (reduceWords _ (filter _ (a :: l))) as [g'|] eqn:R.
    + intros H. injection H as <-.
      apply (@reduceWords_max x1) in R. split; [intros _; exact R|].
      intros Hnil. rewrite Hnil in R. destruct R as [[] _].
    + intros H. split.
      * intros Hne. destruct (filter _ (a :: l)); [congruence | discriminate R].
      * intros _. apply (@reduceWords_min y1) in H. apply H.
  - intros H. apply (@reduceWords_min y1) in H. apply H.
Qed.

Lemma strike_target_choice_witness :
  counselWord threeGyouPage = Some (MkWord 300 400 520 450 (js "弁護士"))
  /\ detectGyou threeGyouPage = Some (MkWord 720 405 770 455 (js "行"))
  /\ forall w, In w (onCounselLine threeGyouPage (MkWord 300 400 520 450 (js "弁護士"))) ->
       (x1 w <= 720)%Z.
Proof.
  assert (H : detectGyou threeGyouPage = Some (MkWord 720 405 770 455 (js "行")))
    by (vm_compute; reflexivity).
  assert (B : counselWord threeGyouPage = Some (MkWord 300 400 520 450 (js "弁護士")))
    by (vm_compute; reflexivity).
  assert (N : onCounselLine threeGyouPage (MkWord 300 400 520 450 (js "弁護士")) <> [])
    by (vm_compute; discriminate).
  pose proof (@strike_target_choice threeGyouPage _ H) as T.
  rewrite B in T. destruct T as [T _].
  split; [exact B|]. split; [exact H|]. exact (proj2 (T N)).
Defined.

(** *** The signature line and the date line *)

Lemma below_middle (y s h : Z) :
  Qgt_bool (inject_Z y) (inject_Z s + (inject_Z h - inject_Z s) * (1 # 2))%Q = true
  <-> (s + h < 2 * y)%Z.
Proof.
  unfold Qgt_bool. rewrite negb_true_iff.
  destruct (Qle_bool (inject_Z y) (inject_Z s + (inject_Z h - inject_Z s) * (1 # 2))%Q) eqn:E.
  - apply Qle_bool_iff in E. split; [discriminate|]. intros H. exfalso.
    unfold Qle, Qplus, Qminus, Qmult, Qopp, inject_Z in E. simpl in E. lia.
  - split; [|reflexivity]. intros _.
    destruct (Z_lt_le_dec (s + h) (2 * y)) as [L | L]; [exact L|]. exfalso.
    assert (Hle : (inject_Z y <= inject_Z s + (inject_Z h - inject_Z s) * (1 # 2))%Q).
    { unfold Qle, Qplus, Qminus, Qmult, Qopp, inject_Z. simpl. lia. }
    apply Qle_bool_iff in Hle. congruence.
Qed.

Lemma agent_kind s :
  includes s (js "代理人") || includes s (js "代理") = includes s (js "代理").
Proof.
  destruct (includes s (js "代理人")) eqn:E; [|reflexivity].
  change (js "代理人") with (js "代理" ++ js "人") in E.
  rewrite (includes_prefix _ _ _ E). reflexivity.
Qed.

(** X14: the word of the signature line, when found, is a word of the
    receipt section and the lowest of its kind: of the words that contain
    代理 if there are any, and otherwise of the words that contain 被告 or
    原告 and lie below the middle of the section. *)
Theorem signature_anchor_lowest (words : list OcrWord) (imgH : Z) (a : OcrWord) :
  detectAgent words imgH = Some a ->
  In a (receiptWords words)
  /\ (includes (wtext a) (js "代理") = true
      /\ (forall w, In w (receiptWords words) -> includes (wtext w) (js "代理") = true ->
            (y1 w <= y1 a)%Z)
      \/ (forall w, In w (receiptWords words) -> includes (wtext w) (js "代理") = false)
         /\ (includes (wtext a) (js "被告") = true \/ includes (wtext a) (js "原告") = true)
         /\ (findReceiptSectionStart words + imgH < 2 * y1 a)%Z
         /\ (forall w, In w (receiptWords words) ->
               includes (wtext w) (js "被告") = true \/ includes (wtext w) (js "原告") = true ->
               (findReceiptSectionStart words + imgH < 2 * y1 w)%Z ->
               (y1 w <= y1 a)%Z)).
Proof.
  unfold detectAgent. cbv zeta.
  set (p1 := fun w : OcrWord =>
         includes (wtext w) (js "代理人") || includes (wtext w) (js "代理")).
  set (p2 := fun w : OcrWord =>
         Qgt_bool (inject_Z (y1 w))
           (inject_Z (findReceiptSectionStart words)
            + (inject_Z imgH - inject_Z (findReceiptSectionStart words)) * (1 # 2))%Q
         && (includes (wtext w) (js "被告") || includes (wtext w) (js "原告"))).
  destruct (filter p1 (receiptWords words)) as [|c1 l1] eqn:E1.
  - destruct (filter p2 (receiptWords words)) as [|c2 l2] eqn:E2; [discriminate|].
    intros H. apply (@reduceWords_max y1) in H as [Hin Hmax].
    rewrite <- E2 in Hin, Hmax. apply filter_In in Hin as [Hrw Hp].
    unfold p2 in Hp. apply andb_true_iff in Hp as [Hy Ht].
    apply below_middle in Hy. apply orb_prop in Ht.
    split; [exact Hrw|]. right. split; [|split; [exact Ht|split; [exact Hy|]]].
    + intros w Hw. rewrite <- agent_kind.
      destruct (p1 w) eqn:P; [|exact P].
      assert (Hf : In w (filter p1 (receiptWords words)))
        by (apply filter_In; split; assumption).
      rewrite E1 in Hf. destruct Hf.
    + intros w Hw Ht' Hy'. apply Hmax. apply filter_In. split; [exact Hw|].
      unfold p2. apply andb_true_iff. split; [apply below_middle; exact Hy'|].
      destruct Ht' as [-> | ->]; [reflexivity | apply orb_true_r].
  - intros H. apply (@reduceWords_max y1) in H as [Hin Hmax].
    rewrite <- E1 in Hin, Hmax. apply filter_In in Hin as [Hrw Hp].
    unfold p1 in Hp. rewrite agent_kind in Hp.
    split; [exact Hrw|]. left. split; [exact Hp|].
    intros w Hw Ht'. apply Hmax. apply filter_In. split; [exact Hw|].
    unfold p1. rewrite agent_kind. exact Ht'.
Qed.

Lemma reiwa_kind s :
  str_eqb s (js "令") || str_eqb s (js "令和") || startsWith s (js "令")
  = startsWith s (js "令").
Proof.
  destruct (startsWith s (js "令")) eqn:E; [apply orb_true_r|].
  rewrite orb_false_r.
  destruct (str_eqb s (js "令")) eqn:E1.
  { apply str_eqb_eq in E1. subst s. vm_compute in E. discriminate. }
  destruct (str_eqb s (js "令和")) eqn:E2; [|reflexivity].
  apply str_eqb_eq in E2. subst s. vm_compute in E. discriminate.
Qed.

(** X15: the word of the date line, when found, is a word of the receipt
    section that lies strictly below the struck word by more than 20 pixels
    (below the start of the section when no word is struck) and strictly
    above the signature line by more than 10 pixels (above the foot of the
    page when there is none); it is the topmost such word that begins with
    令, or, when there is none, the topmost that contains 年 or 月. *)
Theorem date_anchor_between (words : list OcrWord) (imgH : Z) (d : OcrWord) :
  detectDate words imgH = Some d ->
  In d (receiptWords words)
  /\ (searchTop words < y1 d < searchBottom words imgH)%Z
  /\ (startsWith (wtext d) (js "令") = true
      /\ (forall w, In w (receiptWords words) ->
            (searchTop words < y1 w < searchBottom words imgH)%Z ->
            startsWith (wtext w) (js "令") = true -> (y1 d <= y1 w)%Z)
      \/ (forall w, In w (receiptWords words) ->
            (searchTop words < y1 w < searchBottom words imgH)%Z ->
            startsWith (wtext w) (js "令") = false)
         /\ (includes (wtext d) (js "年") = true \/ includes (wtext d) (js "月") = true)
         /\ (forall w, In w (receiptWords words) ->
               (searchTop words < y1 w < searchBottom words imgH)%Z ->
               includes (wtext w) (js "年") = true \/ includes (wtext w) (js "月") = true ->
               (y1 d <= y1 w)%Z)).
Proof.
  unfold detectDate. cbv zeta. fold (searchTop words). fold (searchBottom words imgH).
  set (top := searchTop words). set (bottom := searchBottom words imgH).
  set (p1 := fun w : OcrWord =>
         (top <? y1 w)%Z && (y1 w <? bottom)%Z
         && (str_eqb (wtext w) (js "令") || str_eqb (wtext w) (js "令和")
             || startsWith (wtext w) (js "令"))).
  set (p2 := fun w : OcrWord =>
         (top <? y1 w)%Z && (y1 w <? bottom)%Z
         && (includes (wtext w) (js "年") || includes (wtext w) (js "月"))).
  assert (R : forall w k, (top <? y1 w)%Z && (y1 w <? bottom)%Z && k = true
                          <-> (top < y1 w < bottom)%Z /\ k = true).
  { intros w k. rewrite !andb_true_iff, !Z.ltb_lt. tauto. }
  destruct (filter p1 (receiptWords words)) as [|c1 l1] eqn:E1.
  - destruct (filter p2 (receiptWords words)) as [|c2 l2] eqn:E2; [discriminate|].
    intros H. apply (@reduceWords_min y1) in H as [Hin Hmin].
    rewrite <- E2 in Hin, Hmin. apply filter_In in Hin as [Hrw Hp].
    unfold p2 in Hp. apply R in Hp as [Hy Ht]. apply orb_prop in Ht.
    split; [exact Hrw|]. split; [exact Hy|]. right.
    split; [|split; [exact Ht|]].
    + intros w Hw Hy'. rewrite <- reiwa_kind.
      destruct (str_eqb (wtext w) (js "令") || str_eqb (wtext w) (js "令和")
                || startsWith (wtext w) (js "令")) eqn:K; [|reflexivity].
      assert (Hf : In w (filter p1 (receiptWords words))).
      { apply filter_In. split; [exact Hw|]. unfold p1. apply R. auto. }
      rewrite E1 in Hf. destruct Hf.
    + intros w Hw Hy' Ht'. apply Hmin. apply filter_In. split; [exact Hw|].
      unfold p2. apply R. split; [exact Hy'|].
      destruct Ht' as [-> | ->]; [reflexivity | apply orb_true_r].
  - intros H. apply (@reduceWords_min y1) in H as [Hin Hmin].
    rewrite <- E1 in Hin, Hmin. apply filter_In in Hin as [Hrw Hp].
    unfold p1 in Hp. apply R in Hp as [Hy Ht]. rewrite reiwa_kind in Ht.
    split; [exact Hrw|]. split; [exact Hy|]. left. split; [exact Ht|].
    intros w Hw Hy' Ht'. apply Hmin. apply filter_In. split; [exact Hw|].
    unfold p1. apply R. split; [exact Hy'|]. rewrite reiwa_kind. exact Ht'.
Qed.

Lemma signature_anchor_lowest_witness :
  In (MkWord 300 820 520 870 (js "原告訴訟代理人")) (receiptWords receiptPage)
  /\ forall w, In w (receiptWords receiptPage) -> includes (wtext w) (js "代理") = true ->
       (y1 w <= 820)%Z.
Proof.
  assert (H : detectAgent receiptPage 3508 = Some (MkWord 300 820 520 870 (js "原告訴訟代理人")))
    by (vm_compute; reflexivity).
  destruct (@signature_anchor_lowest receiptPage 3508 _ H) as [Hin [[_ Hmax] | [Hnone _]]].
  - split; [exact Hin | exact Hmax].
  - exfalso.
    assert (E : includes (wtext (MkWord 300 820 520 870 (js "原告訴訟代理人"))) (js "代理")
                = true) by (vm_compute; reflexivity).
    rewrite (Hnone _ Hin) in E. discriminate E.
Defined.

Lemma date_anchor_between_witness :
  In (MkWord 300 560 400 610 (js "令和")) (receiptWords receiptPage)
  /\ (searchTop receiptPage < 560 < searchBottom receiptPage 3508)%Z.
Proof.
  assert (H : detectDate receiptPage 3508 = Some (MkWord 300 560 400 610 (js "令和")))
    by (vm_compute; reflexivity).
  destruct (@date_anchor_between receiptPage 3508 _ H) as (Hin & Hy & _).
  split; [exact Hin | exact Hy].
Defined.

(** ** Paragraphs that the scan reads as they are written *)

(** *** Where a literal cannot begin *)

Lemma rmatch_chars_absent l : forall s p cs k,
  startsWith s l = false ->
  rmatch (seqs (List.map (fun a => Cls (c_is a)) l)) (MState p s cs) k = None.
Proof.
  induction l as [|a l IH]; intros s p cs k H.
  - destruct s; discriminate H.
  - destruct s as [|x t].
    + destruct l; reflexivity.
    + simpl in H. destruct (N.eqb x a) eqn:E.
      * cbn [andb] in H. destruct l as [|b l]; [destruct t; discriminate H|].
        change (seqs (List.map (fun a => Cls (c_is a)) (a :: b :: l)))
          with (Seq (Cls (c_is a)) (seqs (List.map (fun a => Cls (c_is a)) (b :: l)))).
        rewrite rmatch_Seq, step_cls by exact E. apply IH. exact H.
      * apply rmatch_chars_fail. apply N.eqb_neq. exact E.
Qed.

Lemma startsWith_app_cases u : forall t p,
  startsWith (u ++ t) p = true ->
  startsWith u p = true
  \/ exists p2, p = u ++ p2 /\ p2 <> [] /\ startsWith t p2 = true.
Proof.
  induction u as [|x u IH]; intros t p H.
  - destruct p as [|y p]; [left; reflexivity|].
    right. exists (y :: p). split; [reflexivity|]. split; [discriminate | exact H].
  - destruct p as [|y p]; [left; reflexivity|].
    cbn [app] in H. simpl in H. apply andb_true_iff in H as [E H].
    apply IH in H as [H | (p2 & -> & Hne & H)].
    + left. simpl. rewrite E, H. reflexivity.
    + right. exists p2. apply N.eqb_eq in E. subst y. auto.
Qed.

Lemma startsWith_suffix g p i :
  includes g p = false -> startsWith (skipn i g) p = false.
Proof.
  intros H. destruct (startsWith (skipn i g) p) eqn:E; [|reflexivity].
  apply startsWith_spec in E as (post & E).
  assert (Hin : includes g p = true).
  { apply includes_spec. exists (firstn i g), post.
    rewrite <- E. symmetry. apply firstn_skipn. }
  congruence.
Qed.

(** A literal whose first character does not come again in it does not
    begin in [g], even when what follows [g] begins with that character
    or is empty. *)
Lemma startsWith_no_straddle g a p' i t :
  includes g (a :: p') = false -> existsb (N.eqb a) p' = false ->
  i < length g -> (t = [] \/ exists r, t = a :: r) ->
  startsWith (skipn i g ++ t) (a :: p') = false.
Proof.
  intros Hg Ha Hi Ht.
  destruct (startsWith (skipn i g ++ t) (a :: p')) eqn:E; [|reflexivity]. exfalso.
  apply startsWith_app_cases in E as [E | (p2 & Ep & Hne & E)].
  - rewrite (@startsWith_suffix g _ i Hg) in E. discriminate.
  - destruct (skipn i g) as [|x u] eqn:Eu.
    { assert (L : length (skipn i g) = 0) by (rewrite Eu; reflexivity).
      rewrite length_skipn in L. lia. }
    cbn [app] in Ep. injection Ep as <- Ep.
    destruct Ht as [-> | (r & ->)].
    + destruct p2; [congruence | discriminate E].
    + destruct p2 as [|b p2]; [congruence|]. simpl in E.
      apply andb_true_iff in E as [E _]. apply N.eqb_eq in E. subst b.
      assert (Hex : existsb (N.eqb a) p' = true).
      { apply existsb_exists. exists a. split; [|apply N.eqb_refl].
        rewrite Ep. apply in_or_app. right. left. reflexivity. }
      congruence.
Qed.

(** The scan passes over a stretch in which no match begins, index by
    index. *)
Lemma scan_skip_at r a : forall p s,
  (forall i, i < length a -> try_at r (p + i) (skipn i a ++ s) = None) ->
  scan r p (a ++ s) = scan r (p + length a) s.
Proof.
  induction a as [|x a IH]; intros p s H.
  - simpl. rewrite Nat.add_0_r. reflexivity.
  - cbn [app scan].
    pose proof (H 0 ltac:(simpl; lia)) as H0. rewrite Nat.add_0_r in H0.
    cbn [skipn app] in H0. rewrite H0.
    rewrite IH.
    + replace (p + length (x :: a)) with (S p + length a) by (simpl; lia). reflexivity.
    + intros i Hi. pose proof (H (S i) ltac:(simpl; lia)) as Hs.
      cbn [skipn] in Hs. rewrite <- Nat.add_succ_comm in Hs. exact Hs.
Qed.

(** *** The pattern of a run *)

Lemma try_at_wt_absent s q : startsWith s (js "<w:t") = false -> try_at wtRegex q s = None.
Proof.
  intros H. unfold try_at, wtRegex. cbn [seqs]. rewrite rmatch_Seq.
  unfold lit at 1. rewrite rmatch_chars_absent by exact H. reflexivity.
Qed.

Lemma Forall_negb (c : char -> bool) l :
  forallb (fun x => negb (c x)) l = true -> allb (c_not c) l.
Proof.
  intros H. apply Forall_forall. intros x Hx.
  exact (proj1 (forallb_forall _ _) H x Hx).
Qed.

Lemma try_at_wt_element attrs0 text0 rest0 q :
  forallb (fun x => negb (c_in ">" x)) attrs0 = true ->
  forallb (fun x => negb (c_in "<" x)) text0 = true ->
  try_at wtRegex q (wt attrs0 text0 ++ rest0)
  = Some (MkMatch q (wt attrs0 text0) [(2, text0); (1, attrs0)]).
Proof.
  intros Ha Ht. apply Forall_negb in Ha, Ht.
  assert (L4 : length (js "<w:t") = 4) by (vm_compute; reflexivity).
  assert (L1 : length (js ">") = 1) by (vm_compute; reflexivity).
  assert (L6 : length (js "</w:t>") = 6) by (vm_compute; reflexivity).
  apply try_at_of_rmatch with
    (st' := MState (q + 4 + length attrs0 + 1 + length text0 + 6) rest0
              [(2, text0); (1, attrs0)]).
  - unfold wtRegex, wt. cbn [seqs]. rewrite <- !app_assoc.
    rewrite rmatch_Seq, step_lit, L4. rewrite rmatch_Seq, rmatch_Grp.
    apply step_star; [exact Ha | vm_compute; reflexivity |].
    cbn [pos rest mcaps].
    replace (q + 4 + length attrs0 - (q + 4)) with (length attrs0) by lia.
    rewrite (@firstn_exact _ attrs0 _ (length attrs0)) by reflexivity.
    rewrite rmatch_Seq, step_lit, L1. rewrite rmatch_Seq, rmatch_Grp.
    apply step_star; [exact Ht | vm_compute; reflexivity |].
    cbn [pos rest mcaps].
    replace (q + 4 + length attrs0 + 1 + length text0 - (q + 4 + length attrs0 + 1))
      with (length text0) by lia.
    rewrite (@firstn_exact _ text0 _ (length text0)) by reflexivity.
    rewrite step_lit, L6. reflexivity.
  - cbn [rest]. reflexivity.
Qed.

Lemma wt_head attrs0 text0 rest0 :
  exists r, wt attrs0 text0 ++ rest0 = ch "<" :: r.
Proof.
  exists (js "w:t" ++ attrs0 ++ js ">" ++ text0 ++ js "</w:t>" ++ rest0).
  unfold wt. rewrite <- !app_assoc. reflexivity.
Qed.

Lemma wt_not_nil attrs0 text0 : wt attrs0 text0 <> [].
Proof. unfold wt. intros H. apply (f_equal (@length char)) in H. simpl in H. lia. Qed.

Lemma try_at_wt_gap g t q i :
  includes g (js "<w:t") = false -> i < length g ->
  (t = [] \/ exists r, t = ch "<" :: r) ->
  try_at wtRegex (q + i) (skipn i g ++ t) = None.
Proof.
  intros Hg Hi Ht. apply try_at_wt_absent.
  change (js "<w:t") with (ch "<" :: js "w:t") in *.
  apply startsWith_no_straddle; auto.
Qed.

(** The scan of a paragraph finds the elements of its runs, each where it
    is, and nothing else. *)
Lemma wt_scan_runs closing0 : forall rs p fuel,
  forallb wellFormedRun rs = true -> includes closing0 (js "<w:t") = false ->
  length (renderRuns rs ++ closing0) < fuel ->
  List.map matchView (matchAll_from fuel wtRegex p (renderRuns rs ++ closing0))
  = expectedViews p rs.
Proof.
  intros rs. induction rs as [|r rs IH]; intros p fuel Hrs Hc Hf.
  - cbn [renderRuns app expectedViews].
    rewrite matchAll_from_none; [reflexivity|].
    rewrite <- (app_nil_r closing0).
    rewrite scan_skip_at.
    + apply scan_end. apply try_at_wt_absent. reflexivity.
    + intros i Hi. apply try_at_wt_gap; auto.
  - cbn [forallb] in Hrs. apply andb_true_iff in Hrs as [Hr Hrs].
    unfold wellFormedRun in Hr. apply andb_true_iff in Hr as [Hr Ht].
    apply andb_true_iff in Hr as [Hg Ha]. apply negb_true_iff in Hg.
    cbn [renderRuns expectedViews]. cbn [renderRuns] in Hf. unfold element in *.
    set (tail := renderRuns rs ++ closing0).
    assert (Es : (gap r ++ wt (runAttrs r) (runText r) ++ renderRuns rs) ++ closing0
                 = gap r ++ wt (runAttrs r) (runText r) ++ tail).
    { unfold tail. rewrite <- !app_assoc. reflexivity. }
    rewrite Es in Hf. rewrite Es.
    assert (Hscan : scan wtRegex p (gap r ++ wt (runAttrs r) (runText r) ++ tail)
                    = Some (MkMatch (p + length (gap r)) (wt (runAttrs r) (runText r))
                              [(2, runText r); (1, runAttrs r)])).
    { rewrite scan_skip_at.
      - apply scan_here. apply try_at_wt_element; assumption.
      - intros i Hi. apply try_at_wt_gap; [exact Hg | exact Hi |].
        right. apply wt_head. }
    rewrite (@matchAll_from_step _ _ _ _ _ Hf Hscan) by (cbn [m0]; apply wt_not_nil).
    cbn [List.map index m0]. f_equal.
    rewrite (app_assoc (gap r)).
    rewrite (@skipn_exact _ (gap r ++ wt (runAttrs r) (runText r)) tail)
      by (rewrite length_app; lia).
    apply IH; [exact Hrs | exact Hc |].
    assert (Lw : 0 < length (wt (runAttrs r) (runText r))).
    { pose proof (@wt_not_nil (runAttrs r) (runText r)) as Hn.
      destruct (wt (runAttrs r) (runText r)); [congruence | simpl; lia]. }
    rewrite !length_app in Hf. fold tail. lia.
Qed.

Lemma wellFormedBlock_parses b : wellFormedBlock b = true -> parses b.
Proof.
  intros H. unfold wellFormedBlock in H. apply andb_true_iff in H as [Hr Hc].
  apply negb_true_iff in Hc. unfold parses, render, matchAll.
  apply wt_scan_runs; [exact Hr | exact Hc | lia].
Qed.

Lemma segsOfRuns_texts rs : forall id off cum,
  List.map text (segsOfRuns id off cum rs) = List.map runText rs
  /\ List.map attrs (segsOfRuns id off cum rs) = List.map runAttrs rs.
Proof.
  induction rs as [|r rs IH]; intros id off cum; [split; reflexivity|].
  cbn [segsOfRuns List.map text attrs].
  destruct (IH (S id) (off + length (gap r) + length (element r))
              (cum + length (runText r))) as [-> ->].
  split; reflexivity.
Qed.

(** X16: a paragraph written from runs whose attribute text holds no [>]
    and whose text holds no [<], with no [<w:t] in the markup between the
    runs and after them, is read back as those runs: the scan finds the
    text and the attributes of each run, in order, and the concatenated
    text that the substitution searches is that of the runs. *)
Theorem paragraph_scan_roundtrip (b : Block) :
  wellFormedBlock b = true ->
  parses b
  /\ List.map text (segmentsOf (render b)) = List.map runText (runs b)
  /\ List.map attrs (segmentsOf (render b)) = List.map runAttrs (runs b)
  /\ joinedText (segmentsOf (render b)) = blockText b.
Proof.
  intros H. pose proof (@wellFormedBlock_parses b H) as Hp.
  split; [exact Hp|].
  rewrite (parses_segments Hp).
  destruct (@segsOfRuns_texts (runs b) 0 0 0) as [-> ->].
  repeat split. apply segsOfRuns_text.
Qed.

Lemma paragraph_scan_roundtrip_witness :
  parses threeRuns
  /\ List.map text (segmentsOf (render threeRuns)) = List.map runText (runs threeRuns)
  /\ List.map attrs (segmentsOf (render threeRuns)) = List.map runAttrs (runs threeRuns)
  /\ joinedText (segmentsOf (render threeRuns)) = blockText threeRuns.
Proof.
  assert (H : wellFormedBlock threeRuns = true) by (vm_compute; reflexivity).
  exact (@paragraph_scan_roundtrip threeRuns H).
Defined.

(** *** The substitution keeps a paragraph well formed *)

Lemma forallb_app_intro (A : Type) (p : A -> bool) l1 l2 :
  forallb p l1 = true -> forallb p l2 = true -> forallb p (l1 ++ l2) = true.
Proof. intros H1 H2. rewrite forallb_app, H1, H2. reflexivity. Qed.

Lemma Forall_forallb (p : char -> bool) l :
  Forall (fun x => p x = true) l -> forallb p l = true.
Proof. intros H. apply forallb_forall. apply Forall_forall. exact H. Qed.

Lemma forallb_firstn (p : char -> bool) n l :
  forallb p l = true -> forallb p (firstn n l) = true.
Proof.
  intros H. apply Forall_forallb. apply Forall_firstn. apply forallb_Forall. exact H.
Qed.

Lemma forallb_skipn (p : char -> bool) n l :
  forallb p l = true -> forallb p (skipn n l) = true.
Proof.
  intros H. apply Forall_forallb. apply Forall_skipn. apply forallb_Forall. exact H.
Qed.

Lemma newAttrsOf_keeps (c : char -> bool) attrs0 :
  forallb c (js " " ++ preserveAttr) = true ->
  forallb c attrs0 = true -> forallb c (newAttrsOf attrs0) = true.
Proof.
  intros Hp H. unfold newAttrsOf. destruct (includes attrs0 preserveAttr); assumption.
Qed.

Lemma outAttrs_keeps (c : char -> bool) a z s attrs0 t :
  forallb c (js " " ++ preserveAttr) = true ->
  forallb c attrs0 = true -> forallb c (outAttrs a z s attrs0 t) = true.
Proof.
  intros Hp H. unfold outAttrs.
  destruct (overlaps a z s (s + length t)); [|exact H].
  destruct (Nat.leb s a); [apply newAttrsOf_keeps; assumption|].
  destruct (_ && _); [apply newAttrsOf_keeps; assumption | exact H].
Qed.

Lemma outText_keeps (c : char -> bool) a z s newText t :
  forallb c newText = true -> forallb c t = true ->
  forallb c (outText a z s newText t) = true.
Proof.
  intros Hn H. unfold outText.
  destruct (overlaps a z s (s + length t)); [|exact H].
  apply forallb_app_intro.
  - destruct (Nat.leb s a); [|reflexivity].
    apply forallb_app_intro; [apply forallb_firstn; exact H | exact Hn].
  - destruct (Nat.leb z (s + length t)); [|reflexivity]. apply forallb_skipn. exact H.
Qed.

Lemma rewriteRuns_wellFormed a z newText : forall rs cum,
  forallb (fun x => negb (c_in "<" x)) newText = true ->
  forallb wellFormedRun rs = true ->
  forallb wellFormedRun (rewriteRuns a z newText cum rs) = true.
Proof.
  induction rs as [|r rs IH]; intros cum Hn H; [reflexivity|].
  cbn [forallb] in H. apply andb_true_iff in H as [Hr Hrs].
  cbn [rewriteRuns forallb]. rewrite (IH _ Hn Hrs), andb_true_r.
  unfold wellFormedRun in *. cbn [gap runAttrs runText].
  apply andb_true_iff in Hr as [Hr Ht]. apply andb_true_iff in Hr as [Hg Ha].
  rewrite Hg. cbn [andb].
  rewrite outAttrs_keeps by (first [vm_compute; reflexivity | exact Ha]).
  apply outText_keeps; assumption.
Qed.

Lemma substituted_wellFormed b oldText newText :
  forallb (fun x => negb (c_in "<" x)) newText = true ->
  wellFormedBlock b = true -> wellFormedBlock (substituted b oldText newText) = true.
Proof.
  intros Hn H. unfold substituted.
  destruct (indexOf (blockText b) oldText) as [a|]; [|exact H].
  unfold wellFormedBlock in *. apply andb_true_iff in H as [Hr Hc].
  cbn [runs closing]. rewrite Hc, andb_true_r.
  apply rewriteRuns_wellFormed; assumption.
Qed.

(** X17: in a well-formed paragraph the substitution of a value that holds
    no [<] gives a well-formed paragraph again, the rendering of the
    paragraph with the first occurrence replaced, so that a second
    substitution works on what the first has written; a new scan reads the
    text with the first occurrence of the searched value replaced. *)
Theorem substitution_composes (b : Block) (oldText newText : jsstring) :
  wellFormedBlock b = true ->
  forallb (fun x => negb (c_in "<" x)) newText = true ->
  replaceInParagraph (render b) oldText newText = render (substituted b oldText newText)
  /\ wellFormedBlock (substituted b oldText newText) = true
  /\ (forall pre post,
        oldText <> [] -> blockText b = pre ++ oldText ++ post ->
        indexOf (blockText b) oldText = Some (length pre) ->
        joinedText (segmentsOf (replaceInParagraph (render b) oldText newText))
        = pre ++ newText ++ post)
  /\ (forall oldText2 newText2,
        replaceInParagraph (replaceInParagraph (render b) oldText newText)
          oldText2 newText2
        = render (substituted (substituted b oldText newText) oldText2 newText2)).
Proof.
  intros H Hn.
  pose proof (@wellFormedBlock_parses b H) as Hp.
  pose proof (@substituted_wellFormed b oldText newText Hn H) as H'.
  pose proof (@wellFormedBlock_parses _ H') as Hp'.
  pose proof (@replaceInParagraph_refines b oldText newText Hp) as E.
  split; [exact E|]. split; [exact H'|]. split.
  - intros pre post Hne Et Ei. rewrite E, (parses_text Hp').
    apply substituted_text; assumption.
  - intros o2 n2. rewrite E. apply replaceInParagraph_refines. exact Hp'.
Qed.

Lemma substitution_composes_witness :
  replaceInParagraph (replaceInParagraph (render threeRuns) (js "和6年") (js "和7年"))
    (js "9月") (js "10月")
  = render (substituted (substituted threeRuns (js "和6年") (js "和7年")) (js "9月") (js "10月")).
Proof.
  assert (H : wellFormedBlock threeRuns = true) by (vm_compute; reflexivity).
  assert (Hn : forallb (fun x => negb (c_in "<" x)) (js "和7年") = true)
    by (vm_compute; reflexivity).
  destruct (@substitution_composes threeRuns (js "和6年") (js "和7年") H Hn)
    as (_ & _ & _ & C).
  exact (C (js "9月") (js "10月")).
Defined.

(** ** Paragraphs as the scan reads them *)

Unset Implicit Arguments.

(** *** What a scan tells about the places before its match *)

Lemma wtRegex_plain : plain wtRegex = true.
Proof. reflexivity. Qed.

Lemma try_at_pos q q' s : try_at wtRegex q s = None -> try_at wtRegex q' s = None.
Proof.
  intros H. destruct (try_at wtRegex q' s) as [m|] eqn:E; [exfalso|reflexivity].
  apply (@try_at_sound wtRegex q' s m) in E as (_ & HS & s' & Es).
  exact (@try_at_complete wtRegex q s (m0 m) s' [] (groups m) wtRegex_plain HS Es H).
Qed.

Lemma scan_none_inv r : forall s p,
  scan r p s = None -> forall i, i <= length s -> try_at r (p + i) (skipn i s) = None.
Proof.
  induction s as [|x s IH]; intros p H i Hi.
  - simpl in Hi. assert (i = 0) by lia. subst i. rewrite Nat.add_0_r. cbn [skipn].
    cbn [scan] in H. destruct (try_at r p []); [discriminate | reflexivity].
  - cbn [scan] in H. destruct (try_at r p (x :: s)) eqn:E; [discriminate|].
    destruct i as [|i].
    + rewrite Nat.add_0_r. exact E.
    + cbn [skipn]. rewrite <- Nat.add_succ_comm. apply IH; [exact H | simpl in Hi; lia].
Qed.

Lemma scan_some_inv r : forall s p m,
  scan r p s = Some m ->
  (forall i, i < index m - p -> try_at r (p + i) (skipn i s) = None)
  /\ try_at r (index m) (skipn (index m - p) s) = Some m.
Proof.
  induction s as [|x s IH]; intros p m H.
  - cbn [scan] in H. destruct (try_at r p []) as [m'|] eqn:E; [|discriminate].
    injection H as ->. pose proof (@try_at_sound r p [] m E) as (Ei & _).
    rewrite Ei, Nat.sub_diag. split; [intros i Hi; lia | exact E].
  - cbn [scan] in H. destruct (try_at r p (x :: s)) as [m'|] eqn:E.
    + injection H as ->. pose proof (@try_at_sound r p _ m E) as (Ei & _).
      rewrite Ei, Nat.sub_diag. split; [intros i Hi; lia | exact E].
    + destruct (IH (S p) m H) as [Hn Hs].
      pose proof (@scan_index r (S p) s m H) as Hle.
      split.
      * intros i Hi. destruct i as [|i]; [rewrite Nat.add_0_r; exact E|].
        cbn [skipn]. rewrite <- Nat.add_succ_comm. apply Hn. lia.
      * replace (index m - p) with (S (index m - S p)) by lia. exact Hs.
Qed.

(** *** From the scan to the runs *)

Lemma wt_cap_chars m :
  Sem wtRegex (m0 m) [] (groups m) ->
  forallb (fun x => negb (c_in ">" x)) (cap 1 m) = true
  /\ forallb (fun x => negb (c_in "<" x)) (cap 2 m) = true.
Proof.
  intros HS. split.
  - apply Forall_forallb.
    apply (@cap_chars (fun x => negb (c_in ">" x) = true) 1 wtRegex m HS).
    unfold wtRegex. group_tac.
  - apply Forall_forallb.
    apply (@cap_chars (fun x => negb (c_in "<" x) = true) 2 wtRegex m HS).
    unfold wtRegex. group_tac.
Qed.

Lemma views_structure closing0 : forall rs p fuel,
  length (renderRuns rs ++ closing0) < fuel ->
  List.map matchView (matchAll_from fuel wtRegex p (renderRuns rs ++ closing0))
  = expectedViews p rs ->
  forallb plainRun rs = true /\ silentRuns rs closing0.
Proof.
  intros rs. induction rs as [|r rs IH]; intros p fuel Hf H.
  - split; [reflexivity|]. cbn [silentRuns]. cbn [renderRuns app expectedViews] in H, Hf.
    destruct fuel as [|fuel]; [lia|]. cbn [matchAll_from] in H.
    destruct (scan wtRegex p closing0) as [m|] eqn:E.
    + destruct (Nat.eqb (length (m0 m)) 0); [|discriminate H].
      destruct (skipn _ closing0); discriminate H.
    + intros i q Hi. apply (try_at_pos (p + i)).
      apply scan_none_inv; [exact E | lia].
  - cbn [renderRuns expectedViews] in H. cbn [renderRuns] in Hf.
    set (rest1 := renderRuns rs ++ closing0) in *.
    assert (Es : (gap r ++ element r ++ renderRuns rs) ++ closing0
                 = gap r ++ element r ++ rest1).
    { unfold rest1. rewrite <- !app_assoc. reflexivity. }
    rewrite Es in H, Hf. clear Es.
    destruct fuel as [|fuel]; [lia|]. cbn [matchAll_from] in H.
    destruct (scan wtRegex p (gap r ++ element r ++ rest1)) as [m|] eqn:E;
      [|discriminate H].
    assert (Hne : length (element r) <> 0).
    { unfold element. pose proof (@wt_not_nil (runAttrs r) (runText r)) as Hn.
      destruct (wt (runAttrs r) (runText r)); [congruence | simpl; lia]. }
    assert (Hv : (index m = p + length (gap r) /\ m0 m = element r
                  /\ cap 1 m = runAttrs r /\ cap 2 m = runText r)
                 /\ List.map matchView
                      (matchAll_from fuel wtRegex (index m + length (m0 m))
                         (skipn (index m + length (m0 m) - p) (gap r ++ element r ++ rest1)))
                    = expectedViews (p + length (gap r) + length (element r)) rs).
    { destruct (Nat.eqb (length (m0 m)) 0) eqn:E0.
      - exfalso. apply Nat.eqb_eq in E0.
        destruct (skipn _ (gap r ++ element r ++ rest1));
          cbn [List.map] in H; unfold matchView at 1 in H;
          injection H as _ Hm _ _ _; rewrite Hm in E0; contradiction.
      - cbn [List.map] in H. unfold matchView at 1 in H.
        injection H as Hi Hm H1 H2 Ht. auto. }
    destruct Hv as [(Hi & Hm & H1 & H2) Ht].
    destruct (scan_some_inv wtRegex _ _ _ E) as [Hnone Hhere].
    pose proof (proj1 (@scan_sound wtRegex p _ m E)) as HS.
    destruct (wt_cap_chars m HS) as [Ha Hx]. rewrite H1 in Ha. rewrite H2 in Hx.
    rewrite Hi, Hm in Ht.
    replace (p + length (gap r) + length (element r) - p)
      with (length (gap r) + length (element r)) in Ht by lia.
    assert (Esk : skipn (length (gap r) + length (element r))
                    (gap r ++ element r ++ rest1) = rest1).
    { rewrite app_assoc. apply skipn_exact. rewrite length_app. reflexivity. }
    rewrite Esk in Ht.
    destruct (IH (p + length (gap r) + length (element r)) fuel) as [Hp Hs].
    { rewrite !length_app in Hf. fold rest1. lia. }
    { exact Ht. }
    split.
    + cbn [forallb]. rewrite Hp, andb_true_r. unfold plainRun. rewrite Ha, Hx. reflexivity.
    + cbn [silentRuns]. split; [|exact Hs].
      intros i q Hlt. apply (try_at_pos (p + i)).
      assert (Esp : skipn i (gap r ++ element r ++ rest1)
                    = skipn i (gap r) ++ element r ++ rest1).
      { rewrite skipn_app. replace (i - length (gap r)) with 0 by lia. reflexivity. }
      fold rest1. rewrite <- Esp. apply Hnone. rewrite Hi. lia.
Qed.

(** *** From the runs to the scan *)

Lemma wt_scan_silent closing0 : forall rs p fuel,
  forallb plainRun rs = true -> silentRuns rs closing0 ->
  length (renderRuns rs ++ closing0) < fuel ->
  List.map matchView (matchAll_from fuel wtRegex p (renderRuns rs ++ closing0))
  = expectedViews p rs.
Proof.
  intros rs. induction rs as [|r rs IH]; intros p fuel Hrs Hs Hf.
  - cbn [renderRuns app expectedViews]. cbn [silentRuns] in Hs.
    rewrite (@matchAll_from_none wtRegex fuel p closing0); [reflexivity|].
    rewrite <- (app_nil_r closing0).
    rewrite (@scan_skip_at wtRegex closing0 p []).
    + apply scan_end. apply try_at_wt_absent. reflexivity.
    + intros i Hi. rewrite app_nil_r. apply Hs. exact Hi.
  - cbn [forallb] in Hrs. apply andb_true_iff in Hrs as [Hr Hrs].
    unfold plainRun in Hr. apply andb_true_iff in Hr as [Ha Ht].
    cbn [silentRuns] in Hs. destruct Hs as [Hg Hs].
    cbn [renderRuns expectedViews]. cbn [renderRuns] in Hf. unfold element in *.
    set (rest1 := renderRuns rs ++ closing0) in *.
    assert (Es : (gap r ++ wt (runAttrs r) (runText r) ++ renderRuns rs) ++ closing0
                 = gap r ++ wt (runAttrs r) (runText r) ++ rest1).
    { unfold rest1. rewrite <- !app_assoc. reflexivity. }
    rewrite Es in Hf. rewrite Es.
    assert (Hscan : scan wtRegex p (gap r ++ wt (runAttrs r) (runText r) ++ rest1)
                    = Some (MkMatch (p + length (gap r)) (wt (runAttrs r) (runText r))
                              [(2, runText r); (1, runAttrs r)])).
    { rewrite (@scan_skip_at wtRegex (gap r) p).
      - apply scan_here. apply try_at_wt_element; assumption.
      - intros i Hi. apply Hg. exact Hi. }
    rewrite (@matchAll_from_step wtRegex fuel p _ _ Hf Hscan)
      by (cbn [m0]; apply wt_not_nil).
    cbn [List.map index m0]. f_equal.
    rewrite (app_assoc (gap r)).
    rewrite (@skipn_exact _ (gap r ++ wt (runAttrs r) (runText r)) rest1)
      by (rewrite length_app; lia).
    apply IH; [exact Hrs | exact Hs |].
    assert (Lw : 0 < length (wt (runAttrs r) (runText r))).
    { pose proof (@wt_not_nil (runAttrs r) (runText r)) as Hn.
      destruct (wt (runAttrs r) (runText r)); [congruence | simpl; lia]. }
    rewrite !length_app in Hf. lia.
Qed.

(** *** Where a match that begins before a run can end *)

Lemma app_prefix_mark (g : char) X : forall a z Y,
  a ++ g :: z = X ++ Y -> ~ In g X -> exists z', a = X ++ z'.
Proof.
  induction X as [|x X IH]; intros a z Y E Hg.
  - exists a. reflexivity.
  - destruct a as [|y a].
    + cbn [app] in E. injection E as -> _. exfalso. apply Hg. left. reflexivity.
    + cbn [app] in E. injection E as -> E.
      destruct (IH a z Y E) as [z' ->].
      * intros Hin. apply Hg. right. exact Hin.
      * exists z'. reflexivity.
Qed.

(** The first [g] of [u] is where [A], which holds none, ends. *)
Lemma first_mark (g : char) A : forall u T Y,
  In g u -> ~ In g A -> u ++ T = A ++ g :: Y -> exists c, u = A ++ g :: c /\ c ++ T = Y.
Proof.
  induction A as [|a A IH]; intros u T Y Hin Hg E.
  - destruct u as [|y u]; [contradiction|].
    cbn [app] in E. injection E as -> E. exists u. split; [reflexivity | exact E].
  - destruct u as [|y u]; [contradiction|].
    cbn [app] in E. injection E as -> E.
    destruct Hin as [Hin | Hin].
    + exfalso. apply Hg. left. exact Hin.
    + destruct (IH u T Y Hin) as (c & -> & Ec); [|exact E|].
      * intros H. apply Hg. right. exact H.
      * exists c. split; [reflexivity | exact Ec].
Qed.

Lemma no_mark_prefix (g : char) A : forall u T Y,
  ~ In g u -> ~ In g A -> u ++ g :: T = A ++ g :: Y -> u = A /\ T = Y.
Proof.
  induction A as [|a A IH]; intros u T Y Hu Hg E.
  - destruct u as [|y u].
    + cbn [app] in E. injection E as E. split; [reflexivity | exact E].
    + cbn [app] in E. injection E as -> _. exfalso. apply Hu. left. reflexivity.
  - destruct u as [|y u].
    + cbn [app] in E. injection E as <- _. exfalso. apply Hg. left. reflexivity.
    + cbn [app] in E. injection E as -> E.
      destruct (IH u T Y) as [-> ->]; [| |exact E|split; reflexivity].
      * intros H. apply Hu. right. exact H.
      * intros H. apply Hg. right. exact H.
Qed.

Lemma wt_match_word m :
  Sem wtRegex (m0 m) [] (groups m) ->
  exists A X, m0 m = js "<w:t" ++ A ++ js ">" ++ X ++ js "</w:t>"
              /\ ~ In (ch ">") A /\ ~ In (ch "<") X.
Proof.
  intros HS. unfold wtRegex in HS.
  apply Sem_seqs_inv in HS as (w1 & w2 & cs1 & E1 & H1 & HS).
  apply Sem_lit_inv in H1. subst w1.
  apply Sem_seqs_inv in HS as (A & w3 & cs2 & -> & HA & HS).
  apply Sem_seqs_inv in HS as (w4 & w5 & cs3 & -> & H4 & HS).
  apply Sem_lit_inv in H4. subst w4.
  apply Sem_seqs_inv in HS as (X & w6 & cs4 & -> & HX & HS).
  cbn [seqs] in HS. apply Sem_lit_inv in HS. subst w6.
  exists A, X. split; [exact E1|]. split.
  - intros Hin.
    assert (F : Forall (fun c => c <> ch ">") A).
    { apply (@Sem_chars (fun c => c <> ch ">") _ _ _ _ HA). cbn [chars_in star].
      intros c Hc ->. vm_compute in Hc. discriminate Hc. }
    rewrite Forall_forall in F. exact (F _ Hin eq_refl).
  - intros Hin.
    assert (F : Forall (fun c => c <> ch "<") X).
    { apply (@Sem_chars (fun c => c <> ch "<") _ _ _ _ HX). cbn [chars_in star].
      intros c Hc ->. vm_compute in Hc. discriminate Hc. }
    rewrite Forall_forall in F. exact (F _ Hin eq_refl).
Qed.

(** A match that begins before an element ends before the element, or
    takes the element whole, with the markup from the match on as the
    attribute text. *)
Lemma cons_inj (x y : char) a b : x :: a = y :: b -> x = y /\ a = b.
Proof. intros H. injection H as -> ->. split; reflexivity. Qed.

Lemma gap_match_shape u a x R q m :
  u <> [] -> try_at wtRegex q (u ++ wt a x ++ R) = Some m ->
  (exists z, u = m0 m ++ z)
  \/ (exists u1, u = js "<w:t" ++ u1 /\ ~ In (ch ">") u1).
Proof.
  intros Hne E.
  apply (@try_at_sound wtRegex q _ m) in E as (_ & HS & s' & Es).
  destruct (wt_match_word m HS) as (A & X & Em & HA & HX).
  rewrite Em in Es |- *. clear Em HS.
  set (e1 := js "w:t" ++ a ++ js ">" ++ x ++ js "</w:t>" ++ R).
  destruct u as [|c1 u0]; [congruence|].
  assert (Es1 : c1 :: (u0 ++ ch "<" :: e1)
                = ch "<" :: (js "w:t" ++ (A ++ ch ">" :: (X ++ ch "<" :: (js "/w:t>" ++ s'))))).
  { unfold wt in Es. rewrite <- !app_assoc in Es. exact Es. }
  clear Es. destruct (cons_inj _ _ _ _ Es1) as [-> Es]. clear Es1.
  destruct (app_prefix_mark (ch "<") (js "w:t") u0 e1 _ Es) as [u1 ->].
  { vm_compute. intuition discriminate. }
  rewrite <- app_assoc in Es. apply app_inv_head in Es.
  destruct (in_dec N.eq_dec (ch ">") u1) as [Hin | Hnin].
  2:{ right. exists u1. split; [reflexivity | exact Hnin]. }
  left.
  destruct (first_mark (ch ">") A u1 _ _ Hin HA Es) as (c & -> & Ec).
  destruct (in_dec N.eq_dec (ch "<") c) as [Hc | Hc].
  - destruct (first_mark (ch "<") X c _ _ Hc HX Ec) as (d & -> & Ed).
    destruct (app_prefix_mark (ch "<") (js "/w:t>") d e1 _ Ed) as [z ->].
    { vm_compute. intuition discriminate. }
    exists z.
    assert (Eg : forall t, js "<w:t" ++ A ++ js ">" ++ X ++ js "</w:t>" ++ t
                           = ch "<" :: js "w:t" ++ A ++ ch ">" :: X ++ ch "<" :: js "/w:t>" ++ t)
      by (intros t; reflexivity).
    rewrite <- !app_assoc. rewrite Eg. reflexivity.
  - exfalso.
    destruct (no_mark_prefix (ch "<") X c e1 (js "/w:t>" ++ s') Hc HX Ec) as [_ Ee].
    assert (Ee1 : ch "w" :: (js ":t" ++ a ++ js ">" ++ x ++ js "</w:t>" ++ R)
                  = ch "/" :: (js "w:t>" ++ s')).
    { unfold e1 in Ee. exact Ee. }
    destruct (cons_inj _ _ _ _ Ee1) as [Ee2 _]. vm_compute in Ee2. discriminate Ee2.
Qed.

(** Whether an element begins in the markup before a run does not depend
    on the attribute text and the text of the run, nor on what follows. *)
Lemma silent_gap_change g a x R a' x' R' :
  forallb (fun c => negb (c_in ">" c)) a = true ->
  forallb (fun c => negb (c_in "<" c)) x = true ->
  (forall i q, i < length g -> try_at wtRegex q (skipn i g ++ wt a x ++ R) = None) ->
  forall i q, i < length g -> try_at wtRegex q (skipn i g ++ wt a' x' ++ R') = None.
Proof.
  intros Ha Hx H i q Hi.
  destruct (try_at wtRegex q (skipn i g ++ wt a' x' ++ R')) as [m|] eqn:E;
    [exfalso|reflexivity].
  assert (Hne : skipn i g <> []).
  { intros H0. apply (f_equal (@length char)) in H0. rewrite length_skipn in H0.
    simpl in H0. lia. }
  destruct (gap_match_shape _ _ _ _ _ _ Hne E) as [(z & Ez) | (u1 & Eu & Hu)].
  - apply (@try_at_sound wtRegex q _ m) in E as (_ & HS & _).
    apply (@try_at_complete wtRegex q (skipn i g ++ wt a x ++ R) (m0 m)
             (z ++ wt a x ++ R) [] (groups m) wtRegex_plain HS).
    + rewrite Ez, <- app_assoc. reflexivity.
    + apply H. exact Hi.
  - assert (Hat : forallb (fun c => negb (c_in ">" c)) (u1 ++ js "<w:t" ++ a) = true).
    { apply forallb_app_intro; [|apply forallb_app_intro; [reflexivity | exact Ha]].
      apply forallb_forall. intros c Hc.
      destruct (c_in ">" c) eqn:Ec; [|reflexivity].
      apply c_in_spec in Ec. vm_compute in Ec. destruct Ec as [Ec | []].
      subst c. contradiction. }
    pose proof (@try_at_wt_element (u1 ++ js "<w:t" ++ a) x R q Hat Hx) as Hel.
    assert (Ew : wt (u1 ++ js "<w:t" ++ a) x ++ R = skipn i g ++ wt a x ++ R).
    { rewrite Eu. unfold wt. rewrite <- !app_assoc. reflexivity. }
    rewrite Ew in Hel. rewrite (H i q Hi) in Hel. discriminate Hel.
Qed.

Lemma silentRuns_change closing0 : forall rs rs',
  sameGaps rs rs' -> forallb plainRun rs = true ->
  silentRuns rs closing0 -> silentRuns rs' closing0.
Proof.
  intros rs rs' H. induction H as [|r r' rs rs' Hg Hrs IH]; intros Hp Hs; [exact Hs|].
  cbn [forallb] in Hp. apply andb_true_iff in Hp as [Hr Hp].
  unfold plainRun in Hr. apply andb_true_iff in Hr as [Ha Hx].
  cbn [silentRuns] in Hs |- *. destruct Hs as [Hgap Hs].
  split; [|exact (IH Hp Hs)].
  rewrite Hg. unfold element in *.
  exact (silent_gap_change (gap r) (runAttrs r) (runText r) (renderRuns rs ++ closing0)
           (runAttrs r') (runText r') (renderRuns rs' ++ closing0) Ha Hx Hgap).
Qed.

(** *** The substitution keeps a paragraph a parse of its markup *)

Lemma rewriteRuns_sameGaps a z newText : forall rs cum,
  sameGaps rs (rewriteRuns a z newText cum rs).
Proof.
  induction rs as [|r rs IH]; intros cum; [constructor|].
  cbn [rewriteRuns]. constructor; [reflexivity | apply IH].
Qed.

Lemma rewriteRuns_plain a z newText : forall rs cum,
  forallb (fun x => negb (c_in "<" x)) newText = true ->
  forallb plainRun rs = true ->
  forallb plainRun (rewriteRuns a z newText cum rs) = true.
Proof.
  induction rs as [|r rs IH]; intros cum Hn H; [reflexivity|].
  cbn [forallb] in H. apply andb_true_iff in H as [Hr Hrs].
  cbn [rewriteRuns forallb]. rewrite (IH _ Hn Hrs), andb_true_r.
  unfold plainRun in *. cbn [runAttrs runText].
  apply andb_true_iff in Hr as [Ha Ht].
  rewrite (@outAttrs_keeps _ a z cum (runAttrs r) (runText r))
    by (first [vm_compute; reflexivity | exact Ha]).
  apply outText_keeps; assumption.
Qed.

Lemma parses_structure b :
  parses b -> forallb plainRun (runs b) = true /\ silentRuns (runs b) (closing b).
Proof.
  unfold parses, render, matchAll. intros H.
  exact (views_structure (closing b) (runs b) 0 _ (Nat.lt_succ_diag_r _) H).
Qed.

Lemma structure_parses b :
  forallb plainRun (runs b) = true -> silentRuns (runs b) (closing b) -> parses b.
Proof.
  intros Hp Hs. unfold parses, render, matchAll.
  apply wt_scan_silent; [exact Hp | exact Hs | lia].
Qed.

(** A paragraph that is the parse of its markup stays one when a value
    without [<] is written into it. *)
Lemma parses_substituted b oldText newText :
  forallb (fun x => negb (c_in "<" x)) newText = true ->
  parses b -> parses (substituted b oldText newText).
Proof.
  intros Hn Hb. unfold substituted.
  destruct (indexOf (blockText b) oldText) as [a|]; [|exact Hb].
  destruct (parses_structure b Hb) as [Hp Hs].
  apply structure_parses; cbn [runs closing].
  - apply rewriteRuns_plain; assumption.
  - exact (silentRuns_change (closing b) _ _ (rewriteRuns_sameGaps _ _ _ _ _) Hp Hs).
Qed.

(** ** One occurrence replaced *)




(** ** Documents of several paragraphs *)

Unset Implicit Arguments.

(** *** Where a paragraph cannot begin *)

Lemma paraRegex_body :
  paraRegex
  = Grp 1 (Seq (lit "<w:p")
             (Seq (Cls (c_or c_space (c_in ">")))
                (Seq (Rep 0 None false (Cls c_all)) (lit "</w:p>")))).
Proof. reflexivity. Qed.

Lemma try_at_para_absent s q : opensParagraph s = false -> try_at paraRegex q s = None.
Proof.
  intros H. unfold try_at. rewrite paraRegex_body, rmatch_Grp, rmatch_Seq.
  unfold opensParagraph in H.
  destruct (startsWith s (js "<w:p")) eqn:E.
  - cbn [andb] in H. apply startsWith_spec in E as (post & ->).
    rewrite step_lit, rmatch_Seq.
    rewrite (@skipn_exact _ (js "<w:p") post 4) in H by reflexivity.
    destruct post as [|c post]; [reflexivity|].
    rewrite step_cls_fail by exact H. reflexivity.
  - unfold lit at 1. rewrite rmatch_chars_absent by exact E. reflexivity.
Qed.

Lemma startsWith_app_keep u t p : startsWith u p = true -> startsWith (u ++ t) p = true.
Proof.
  intros H. apply startsWith_spec in H as (post & ->).
  rewrite <- app_assoc. apply startsWith_app.
Qed.

(** A paragraph opening does not straddle the end of the markup when an
    element follows, or nothing. *)
Lemma opensParagraph_straddle u t :
  u <> [] -> opensParagraph u = false -> (t = [] \/ exists r, t = ch "<" :: r) ->
  opensParagraph (u ++ t) = false.
Proof.
  intros Hu H Ht. unfold opensParagraph in *.
  destruct (startsWith (u ++ t) (js "<w:p")) eqn:E; [|reflexivity]. cbn [andb].
  apply startsWith_app_cases in E as [E | (p2 & Ep & Hne & E)].
  - rewrite E in H. cbn [andb] in H.
    apply startsWith_spec in E as (post & ->).
    rewrite (@skipn_exact _ (js "<w:p") post 4) in H by reflexivity.
    rewrite <- app_assoc. rewrite (@skipn_exact _ (js "<w:p") (post ++ t) 4) by reflexivity.
    destruct post as [|c post]; [|exact H].
    destruct Ht as [-> | (r & ->)]; [reflexivity|]. vm_compute. reflexivity.
  - exfalso. destruct u as [|x u]; [congruence|].
    change (js "<w:p") with (ch "<" :: js "w:p") in Ep. injection Ep as <- Ep.
    destruct Ht as [-> | (r & ->)].
    + destruct p2; [congruence | discriminate E].
    + destruct p2 as [|b p2]; [congruence|]. cbn [startsWith] in E.
      apply andb_true_iff in E as [E _]. apply N.eqb_eq in E. subst b.
      assert (Hin : In (ch "<") (js "w:p")).
      { rewrite Ep. apply in_or_app. right. left. reflexivity. }
      vm_compute in Hin. intuition discriminate.
Qed.

Lemma paragraphFree_spec lead i :
  paragraphFree lead = true -> i < length lead -> opensParagraph (skipn i lead) = false.
Proof.
  intros H Hi. unfold paragraphFree in H.
  assert (Hin : In i (seq 0 (length lead))) by (apply in_seq; lia).
  pose proof (proj1 (forallb_forall _ _) H i Hin) as Hn. cbv beta in Hn.
  apply negb_true_iff. exact Hn.
Qed.

Lemma try_at_para_lead lead t q i :
  paragraphFree lead = true -> i < length lead ->
  (t = [] \/ exists r, t = ch "<" :: r) ->
  try_at paraRegex (q + i) (skipn i lead ++ t) = None.
Proof.
  intros H Hi Ht. apply try_at_para_absent. apply opensParagraph_straddle.
  - intros E. apply (f_equal (@length char)) in E. rewrite length_skipn in E.
    simpl in E. lia.
  - apply paragraphFree_spec; assumption.
  - exact Ht.
Qed.

(** *** The lazy scan up to the closing tag *)

Lemma rmatch_lazy_all st k :
  rmatch (Rep 0 None false (Cls c_all)) st k
  = rep (rmatch (Cls c_all)) 0 None false (S (length (rest st))) st k.
Proof. reflexivity. Qed.

Lemma rep_lazy_all u : forall s p cs k res fuel,
  length u < fuel ->
  (forall i, i < length u -> k (MState (p + i) (skipn i u ++ s) cs) = None) ->
  k (MState (p + length u) s cs) = Some res ->
  rep (rmatch (Cls c_all)) 0 None false fuel (MState p (u ++ s) cs) k = Some res.
Proof.
  induction u as [|x u IH]; intros s p cs k res fuel Hf Hfail Hk.
  - destruct fuel as [|fuel]; [simpl in Hf; lia|].
    rewrite rep_unfold. simpl Nat.ltb. cbv iota. cbn [app].
    simpl length in Hk. rewrite Nat.add_0_r in Hk. rewrite Hk. reflexivity.
  - destruct fuel as [|fuel]; [simpl in Hf; lia|]. simpl in Hf.
    rewrite rep_unfold. simpl Nat.ltb. cbv iota. cbn [app].
    pose proof (Hfail 0 ltac:(simpl; lia)) as H0. rewrite Nat.add_0_r in H0.
    cbn [skipn app] in H0. rewrite H0. cbn [orElse].
    rewrite step_cls by reflexivity. cbn [rest].
    assert (Hne : Nat.eqb (length (u ++ s)) (length (x :: u ++ s)) = false)
      by (apply Nat.eqb_neq; simpl; lia).
    rewrite Hne. cbn [andb Nat.eqb Nat.pred option_map].
    apply IH; [lia | |].
    + intros i Hi. pose proof (Hfail (S i) ltac:(simpl; lia)) as Hs.
      cbn [skipn] in Hs. rewrite <- Nat.add_succ_comm in Hs. exact Hs.
    + simpl length in Hk. rewrite <- Nat.add_succ_comm in Hk. exact Hk.
Qed.

(** *** Where the closing tag cannot begin *)

Lemma noClose_app u v t : noClose u (v ++ t) -> noClose v t -> noClose (u ++ v) t.
Proof.
  intros Hu Hv i Hi. destruct (Nat.lt_ge_cases i (length u)) as [L | L].
  - rewrite skipn_app. replace (i - length u) with 0 by lia. cbn [skipn].
    rewrite <- app_assoc. apply Hu. exact L.
  - rewrite skipn_app, (skipn_all2 u) by exact L. cbn [app].
    apply Hv. rewrite length_app in Hi. lia.
Qed.

Lemma startsWith_head_ne s a p' x t :
  s = x :: t -> x <> a -> startsWith s (a :: p') = false.
Proof.
  intros -> H. cbn [startsWith]. apply N.eqb_neq in H. rewrite H. reflexivity.
Qed.

Lemma noClose_plain u t : forallb (fun x => negb (c_in "<" x)) u = true -> noClose u t.
Proof.
  intros H i Hi.
  destruct (skipn i u) as [|x r] eqn:E.
  { apply (f_equal (@length char)) in E. rewrite length_skipn in E. simpl in E. lia. }
  assert (Hx : In x u).
  { rewrite <- (firstn_skipn i u), E. apply in_or_app. right. left. reflexivity. }
  pose proof (proj1 (forallb_forall _ _) H x Hx) as Hn. cbv beta in Hn.
  change (js "</w:p>") with (ch "<" :: js "/w:p>").
  eapply startsWith_head_ne; [reflexivity|].
  intros ->. vm_compute in Hn. discriminate.
Qed.

Lemma indexOf_from_first p s : forall n a,
  indexOf_from n s p = Some a ->
  forall i, n + i < a -> startsWith (skipn i s) p = false.
Proof.
  induction s as [|x s IH]; intros n a H i Hi.
  - change (indexOf_from n [] p) with (if startsWith [] p then Some n else None) in H.
    destruct (startsWith [] p); [|discriminate]. injection H as <-. lia.
  - rewrite indexOf_from_cons in H. destruct (startsWith (x :: s) p) eqn:E.
    + injection H as <-. lia.
    + destruct i as [|i]; [exact E|]. cbn [skipn].
      apply (IH _ _ H). lia.
Qed.

Lemma startsWith_long u t p :
  length p <= length u -> startsWith u p = false -> startsWith (u ++ t) p = false.
Proof.
  intros L H. destruct (startsWith (u ++ t) p) eqn:E; [|reflexivity].
  apply startsWith_app_cases in E as [E | (p2 & -> & Hne & _)]; [congruence|].
  rewrite length_app in L. destruct p2; [congruence | simpl in L; lia].
Qed.

(** The markup after the last run, without its closing tag. *)
Lemma closesParagraph_spec closing0 t :
  closesParagraph closing0 = true ->
  exists c', closing0 = c' ++ js "</w:p>" /\ noClose c' (js "</w:p>" ++ t).
Proof.
  unfold closesParagraph.
  destruct (indexOf closing0 (js "</w:p>")) as [j|] eqn:E; [|discriminate].
  intros H. apply Nat.eqb_eq in H.
  pose proof (indexOf_from_first _ _ 0 _ E) as Hfirst.
  apply indexOf_spec in E as (pre & post & Ec & ->).
  assert (Hp : post = []).
  { rewrite Ec, !length_app in H. change (length (js "</w:p>")) with 6 in H.
    destruct post; [reflexivity | simpl in H; lia]. }
  subst post. rewrite app_nil_r in Ec. exists pre. split; [exact Ec|].
  intros i Hi. rewrite app_assoc.
  replace (skipn i pre ++ js "</w:p>") with (skipn i closing0).
  - apply startsWith_long.
    + rewrite length_skipn, Ec, length_app. lia.
    + apply Hfirst. lia.
  - rewrite Ec, skipn_app. replace (i - length pre) with 0 by lia. reflexivity.
Qed.

Lemma opensParagraph_app u t : opensParagraph u = true -> opensParagraph (u ++ t) = true.
Proof.
  unfold opensParagraph. intros H. apply andb_true_iff in H as [H1 H2].
  rewrite (startsWith_app_keep _ t _ H1). cbn [andb].
  apply startsWith_spec in H1 as (post & ->).
  rewrite (@skipn_exact _ (js "<w:p") post 4) in H2 by reflexivity.
  rewrite <- app_assoc, (@skipn_exact _ (js "<w:p") (post ++ t) 4) by reflexivity.
  destruct post as [|c post]; [discriminate H2 | exact H2].
Qed.

Lemma opensParagraph_spec s :
  opensParagraph s = true ->
  exists c r, s = js "<w:p" ++ c :: r /\ c_or c_space (c_in ">") c = true.
Proof.
  unfold opensParagraph. intros H. apply andb_true_iff in H as [H1 H2].
  apply startsWith_spec in H1 as (post & ->).
  rewrite (@skipn_exact _ (js "<w:p") post 4) in H2 by reflexivity.
  destruct post as [|c r]; [discriminate H2|]. eauto.
Qed.

(** The closing tag does not begin within the paragraph opening. *)
Lemma opens_no_close c r j :
  c_or c_space (c_in ">") c = true -> j < 5 ->
  startsWith (skipn j (js "<w:p" ++ c :: r)) (js "</w:p>") = false.
Proof.
  intros Hc Hj.
  destruct j as [|[|[|[|[|j]]]]]; try lia; try reflexivity.
  change (skipn 4 (js "<w:p" ++ c :: r)) with (c :: r).
  change (js "</w:p>") with (ch "<" :: js "/w:p>").
  eapply startsWith_head_ne; [reflexivity|].
  intros ->. vm_compute in Hc. discriminate.
Qed.

(** What a paragraph element is made of. *)
Lemma paragraphElement_spec s t :
  paragraphElement s = true ->
  opensParagraph (s ++ t) = true
  /\ exists U, s = U ++ js "</w:p>" /\ noClose U (js "</w:p>" ++ t).
Proof.
  unfold paragraphElement. intros H. apply andb_true_iff in H as [Hopen Hclose].
  split; [apply opensParagraph_app; exact Hopen|].
  apply closesParagraph_spec. exact Hclose.
Qed.

(** A paragraph element is matched whole, whatever follows it. *)
Lemma try_at_para_element s t q :
  paragraphElement s = true ->
  exists m, try_at paraRegex q (s ++ t) = Some m /\ m0 m = s.
Proof.
  intros H. destruct (paragraphElement_spec _ t H) as (Hopen & U & EU & HU).
  apply opensParagraph_spec in Hopen as (c & r & Es & Hc).
  assert (E : s ++ t = U ++ js "</w:p>" ++ t)
    by (rewrite EU, <- app_assoc; reflexivity).
  assert (L5 : 5 <= length U).
  { destruct (Nat.le_gt_cases 5 (length U)) as [L | L]; [exact L|]. exfalso.
    pose proof (opens_no_close c r (length U) Hc L) as Hn.
    rewrite <- Es, E, (@skipn_exact _ U _ (length U)) in Hn by reflexivity.
    rewrite startsWith_app in Hn. discriminate. }
  assert (EU5 : U = js "<w:p" ++ c :: skipn 5 U).
  { rewrite <- (firstn_skipn 5 U) at 1.
    assert (F : firstn 5 U = firstn 5 (s ++ t)).
    { rewrite E, firstn_app. replace (5 - length U) with 0 by lia.
      cbn [firstn]. rewrite app_nil_r. reflexivity. }
    rewrite F, Es. reflexivity. }
  set (U' := skipn 5 U) in *.
  assert (Es' : s ++ t = js "<w:p" ++ c :: U' ++ js "</w:p>" ++ t).
  { rewrite E. rewrite EU5 at 1. rewrite <- app_assoc. reflexivity. }
  assert (LU : length U = 5 + length U').
  { unfold U'. rewrite length_skipn. lia. }
  exists (MkMatch q (s) [(1, s)]). split; [|reflexivity].
  apply try_at_of_rmatch with
    (st' := MState (q + length (js "<w:p") + 1 + length U' + length (js "</w:p>")) t
              [(1, s)]).
  - rewrite paraRegex_body, rmatch_Grp. cbn [pos rest mcaps].
    rewrite Es' at 1. rewrite rmatch_Seq, step_lit, rmatch_Seq.
    rewrite step_cls by exact Hc. rewrite rmatch_Seq, rmatch_lazy_all. cbn [rest].
    apply rep_lazy_all.
    + rewrite !length_app. lia.
    + intros i Hi. unfold lit. apply rmatch_chars_absent.
      pose proof (HU (5 + i) ltac:(lia)) as Hn.
      change (skipn (5 + i) U) with (skipn 5 (skipn i U)) in Hn || idtac.
      replace (skipn (5 + i) U) with (skipn i U') in Hn; [exact Hn|].
      unfold U'. rewrite skipn_skipn. f_equal. lia.
    + rewrite step_lit. cbn [pos rest mcaps]. unfold setcap.
      change (length (js "<w:p")) with 4. change (length (js "</w:p>")) with 6.
      assert (Lr : length (s) = 5 + length U' + 6).
      { rewrite EU, length_app, LU. change (length (js "</w:p>")) with 6. lia. }
      replace (S (q + 4) + length U' + 6 - q) with (length (s)) by lia.
      rewrite (@firstn_exact _ (s) t (length (s))) by reflexivity.
      replace (S (q + 4) + length U' + 6) with (q + 4 + 1 + length U' + 6) by lia.
      reflexivity.
  - cbn [rest]. reflexivity.
Qed.

(** *** The scan of a document *)

Lemma replaceFrom_skip_at r f a : forall p s,
  (forall i, i < length a -> try_at r (p + i) (skipn i a ++ s) = None) ->
  replaceFrom r f p (a ++ s) = a ++ replaceFrom r f (p + length a) s.
Proof.
  induction a as [|x a IH]; intros p s H.
  - cbn [app length]. rewrite Nat.add_0_r. reflexivity.
  - cbn [app].
    pose proof (H 0 ltac:(simpl; lia)) as H0. rewrite Nat.add_0_r in H0.
    cbn [skipn app] in H0. rewrite (@replaceFrom_skip r f p x (a ++ s) H0).
    f_equal. rewrite IH.
    + replace (p + length (x :: a)) with (S p + length a) by (simpl; lia). reflexivity.
    + intros i Hi. pose proof (H (S i) ltac:(simpl; lia)) as Hs.
      cbn [skipn] in Hs. rewrite <- Nat.add_succ_comm in Hs. exact Hs.
Qed.

Lemma element_head s t :
  paragraphElement s = true -> exists r, s ++ t = ch "<" :: r.
Proof.
  intros H. destruct (paragraphElement_spec s t H) as (Hopen & _).
  apply opensParagraph_spec in Hopen as (c & r & -> & _).
  exists (js "w:p" ++ c :: r). reflexivity.
Qed.

Lemma element_not_nil s : paragraphElement s = true -> s <> [].
Proof.
  intros H E. destruct (element_head s [] H) as (r & Er).
  rewrite E in Er. discriminate Er.
Qed.

(** The paragraphs of a document are rewritten one by one, and what lies
    between them stays. *)
Lemma doc_replace (g : jsstring -> jsstring) trailer0 : forall ps p,
  forallb (fun lb => paragraphFree (fst lb) && paragraphElement (render (snd lb))) ps = true ->
  paragraphFree trailer0 = true ->
  replaceFrom paraRegex (fun m => g (m0 m)) p (renderParagraphs render ps ++ trailer0)
  = renderParagraphs (fun b => g (render b)) ps ++ trailer0.
Proof.
  induction ps as [|[lead b] ps IH]; intros p Hps Ht.
  - cbn [renderParagraphs app].
    rewrite <- (app_nil_r trailer0) at 1.
    rewrite replaceFrom_skip_at.
    + rewrite replaceFrom_nil by (apply try_at_para_absent; reflexivity).
      apply app_nil_r.
    + intros i Hi. apply try_at_para_lead; auto.
  - cbn [forallb fst snd] in Hps. apply andb_true_iff in Hps as [Hlb Hps].
    apply andb_true_iff in Hlb as [Hl Hb].
    cbn [renderParagraphs]. rewrite <- !app_assoc.
    set (after := renderParagraphs render ps ++ trailer0).
    rewrite replaceFrom_skip_at.
    + f_equal.
      destruct (try_at_para_element (render b) after (p + length lead) Hb) as (m & Tm & Em).
      rewrite (@replaceFrom_match paraRegex (fun m => g (m0 m)) (p + length lead)
                 (render b) after m Tm Em (element_not_nil (render b) Hb)).
      cbv beta. rewrite Em. f_equal. apply IH; assumption.
    + intros i Hi. apply try_at_para_lead; [exact Hl | exact Hi |].
      right. apply element_head. exact Hb.
Qed.

(** *** The closing tag after a substitution *)

(** Whether [</w:p>] begins a string does not depend on what follows a
    [<] further on in it, nor on what follows a [>]. *)
Lemma startsWith_empty (s : jsstring) : startsWith s [] = true.
Proof. destruct s; reflexivity. Qed.

Lemma startsWith_close_lt w R R' :
  w <> [] ->
  startsWith (w ++ ch "<" :: R) (js "</w:p>") = startsWith (w ++ ch "<" :: R') (js "</w:p>").
Proof.
  intros Hw.
  destruct w as [|c1 [|c2 [|c3 [|c4 [|c5 [|c6 w]]]]]]; [congruence| | | | | |];
    cbn [app]; change (js "</w:p>") with [60%N; 47%N; 119%N; 58%N; 112%N; 62%N];
    cbn [startsWith]; rewrite ?startsWith_empty; reflexivity.
Qed.

Lemma startsWith_close_gt w R R' :
  startsWith (w ++ ch ">" :: R) (js "</w:p>") = startsWith (w ++ ch ">" :: R') (js "</w:p>").
Proof.
  destruct w as [|c1 [|c2 [|c3 [|c4 [|c5 [|c6 w]]]]]];
    cbn [app]; change (js "</w:p>") with [60%N; 47%N; 119%N; 58%N; 112%N; 62%N];
    cbn [startsWith]; rewrite ?startsWith_empty; reflexivity.
Qed.

Lemma skipn_not_nil (u : jsstring) i : i < length u -> skipn i u <> [].
Proof.
  intros Hi E. apply (f_equal (@length char)) in E. rewrite length_skipn in E.
  simpl in E. lia.
Qed.

Lemma noClose_follow_lt g R R' : noClose g (ch "<" :: R) -> noClose g (ch "<" :: R').
Proof.
  intros H i Hi. rewrite (startsWith_close_lt _ R' R) by (apply skipn_not_nil; exact Hi).
  apply H. exact Hi.
Qed.

Lemma noClose_follow_gt a R R' : noClose a (ch ">" :: R) -> noClose a (ch ">" :: R').
Proof.
  intros H i Hi. rewrite (startsWith_close_gt _ R' R). apply H. exact Hi.
Qed.

Lemma noClose_app_inv u v t :
  noClose (u ++ v) t -> noClose u (v ++ t) /\ noClose v t.
Proof.
  intros H. split; intros i Hi.
  - pose proof (H i ltac:(rewrite length_app; lia)) as Hn.
    rewrite skipn_app in Hn. replace (i - length u) with 0 in Hn by lia.
    cbn [skipn] in Hn. rewrite <- app_assoc in Hn. exact Hn.
  - pose proof (H (length u + i) ltac:(rewrite length_app; lia)) as Hn.
    rewrite skipn_app, (skipn_all2 u) in Hn by lia.
    replace (length u + i - length u) with i in Hn by lia. exact Hn.
Qed.

(** The fixed parts of an element hold no start of [</w:p>]. *)
Lemma noClose_element_parts attrs0 text0 t :
  noClose attrs0 (js ">" ++ text0 ++ js "</w:t>" ++ t) ->
  forallb (fun x => negb (c_in "<" x)) text0 = true ->
  noClose (wt attrs0 text0) t.
Proof.
  intros Ha Ht. unfold wt.
  assert (L1 : forall t', noClose (js "<w:t") t').
  { intros t' i Hi. change (length (js "<w:t")) with 4 in Hi.
    destruct i as [|[|[|[|i]]]]; try lia; reflexivity. }
  assert (L2 : forall t', noClose (js ">") t').
  { intros t' i Hi. change (length (js ">")) with 1 in Hi.
    destruct i as [|i]; try lia; reflexivity. }
  assert (L3 : forall t', noClose (js "</w:t>") t').
  { intros t' i Hi. change (length (js "</w:t>")) with 6 in Hi.
    destruct i as [|[|[|[|[|[|i]]]]]]; try lia; reflexivity. }
  apply noClose_app; [apply L1|].
  apply noClose_app; [rewrite <- !app_assoc; exact Ha|].
  apply noClose_app; [apply L2|].
  apply noClose_app; [apply noClose_plain; exact Ht|].
  apply L3.
Qed.

Lemma noClose_element_inv attrs0 text0 t :
  noClose (wt attrs0 text0) t ->
  noClose attrs0 (js ">" ++ text0 ++ js "</w:t>" ++ t).
Proof.
  unfold wt. intros H.
  apply noClose_app_inv in H as [_ H]. apply noClose_app_inv in H as [H _].
  rewrite <- !app_assoc in H. exact H.
Qed.

(** After an element the closing tag of the paragraph is still to
    come whole. *)
Lemma closes_tail_long X S U :
  X ++ js "</w:t>" ++ S = U ++ js "</w:p>" -> 6 <= length S.
Proof.
  intros E. apply (f_equal (@rev char)) in E.
  rewrite !rev_app_distr in E.
  change (rev (js "</w:p>")) with [62%N; 112%N; 58%N; 119%N; 47%N; 60%N] in E.
  change (rev (js "</w:t>")) with [62%N; 116%N; 58%N; 119%N; 47%N; 60%N] in E.
  destruct S as [|c1 [|c2 [|c3 [|c4 [|c5 [|c6 S]]]]]];
    [exfalso .. | simpl; lia]; cbn [rev app] in E; congruence.
Qed.

Lemma tail_split (A S U p : jsstring) :
  A ++ S = U ++ p -> length p <= length S ->
  exists U0, S = U0 ++ p /\ U = A ++ U0.
Proof.
  intros E L.
  assert (LA : length A <= length U).
  { apply (f_equal (@length char)) in E. rewrite !length_app in E. lia. }
  exists (skipn (length A) U). split.
  - apply (f_equal (skipn (length A))) in E.
    rewrite (@skipn_exact _ A S (length A)) in E by reflexivity.
    rewrite skipn_app in E. replace (length A - length U) with 0 in E by lia.
    exact E.
  - apply (f_equal (firstn (length A))) in E.
    rewrite (@firstn_exact _ A S (length A)) in E by reflexivity.
    rewrite firstn_app in E. replace (length A - length U) with 0 in E by lia.
    cbn [firstn] in E. rewrite app_nil_r in E.
    rewrite E at 1. symmetry. apply firstn_skipn.
Qed.

Lemma closesTail_runs closing0 rs rs' :
  Forall2 keepsClose rs rs' ->
  closesTail (renderRuns rs ++ closing0) -> closesTail (renderRuns rs' ++ closing0).
Proof.
  intros H. induction H as [|r r' rs rs' Hr Hrs IH]; intros HQ; [exact HQ|].
  destruct Hr as (Hg & Ha & Hx). destruct HQ as (U & EU & HU).
  cbn [renderRuns] in EU |- *. unfold element in *.
  set (S0 := renderRuns rs ++ closing0) in *.
  set (S0' := renderRuns rs' ++ closing0) in *.
  assert (E1 : (gap r ++ wt (runAttrs r) (runText r)) ++ S0 = U ++ js "</w:p>").
  { rewrite <- EU. unfold S0. rewrite <- !app_assoc. reflexivity. }
  assert (L : 6 <= length S0).
  { apply (closes_tail_long (gap r ++ js "<w:t" ++ runAttrs r ++ js ">" ++ runText r) S0 U).
    rewrite <- E1. unfold wt. rewrite <- !app_assoc. reflexivity. }
  destruct (tail_split _ _ _ _ E1 L) as (U0 & ES0 & EU0).
  rewrite EU0 in HU. apply noClose_app_inv in HU as [HA HU0].
  rewrite <- ES0 in HA.
  destruct (IH (ex_intro _ U0 (conj ES0 HU0))) as (U0' & ES0' & HU0').
  apply noClose_app_inv in HA as [HG HE].
  exists ((gap r' ++ wt (runAttrs r') (runText r')) ++ U0'). split.
  - rewrite <- !app_assoc. fold S0'. rewrite ES0'. reflexivity.
  - apply noClose_app; [|exact HU0']. rewrite <- ES0'.
    apply noClose_app.
    + rewrite Hg.
      destruct (wt_head (runAttrs r) (runText r) S0) as (R & ER).
      destruct (wt_head (runAttrs r') (runText r') S0') as (R' & ER').
      rewrite ER in HG. rewrite ER'. exact (noClose_follow_lt _ R R' HG).
    + apply noClose_element_parts; [|exact Hx].
      destruct Ha as [Ha | Ha].
      * rewrite Ha. apply noClose_element_inv in HE.
        exact (noClose_follow_gt _ _ _ HE).
      * apply noClose_plain. exact Ha.
Qed.

Lemma closesParagraph_tail s : closesParagraph s = true -> closesTail s.
Proof.
  intros H. destruct (closesParagraph_spec s [] H) as (U & E & HU).
  rewrite app_nil_r in HU. exists U. auto.
Qed.

Lemma indexOf_from_tail p : forall U n,
  (forall i, i < length U -> startsWith (skipn i U ++ p) p = false) ->
  indexOf_from n (U ++ p) p = Some (n + length U).
Proof.
  induction U as [|x U IH]; intros n H.
  - cbn [app length]. rewrite Nat.add_0_r.
    assert (E : startsWith p p = true).
    { rewrite <- (app_nil_r p) at 1. apply startsWith_app. }
    destruct p; [reflexivity|]. rewrite indexOf_from_cons, E. reflexivity.
  - cbn [app]. rewrite indexOf_from_cons.
    pose proof (H 0 ltac:(simpl; lia)) as H0. cbn [skipn app] in H0. rewrite H0.
    rewrite IH.
    + f_equal. simpl. lia.
    + intros i Hi. exact (H (S i) ltac:(simpl; lia)).
Qed.

Lemma closesTail_closes s : closesTail s -> closesParagraph s = true.
Proof.
  intros (U & -> & HU). unfold closesParagraph, indexOf.
  rewrite indexOf_from_tail by exact HU.
  apply Nat.eqb_eq. rewrite length_app. reflexivity.
Qed.

(** *** The paragraph opening after a substitution *)

Lemma opens_before_element g R :
  opensParagraph (g ++ js "<w:t" ++ R) = true -> opensParagraph g = true.
Proof.
  unfold opensParagraph.
  destruct g as [|c1 [|c2 [|c3 [|c4 [|c5 g]]]]];
    cbn [app]; change (js "<w:t") with [60%N; 119%N; 58%N; 116%N];
    change (js "<w:p") with [60%N; 119%N; 58%N; 112%N];
    cbn [app startsWith skipn]; intros H.
  - discriminate H.
  - destruct (c1 =? 60)%N; discriminate H.
  - destruct (c1 =? 60)%N; [|discriminate H]. destruct (c2 =? 119)%N; discriminate H.
  - destruct (c1 =? 60)%N; [|discriminate H]. destruct (c2 =? 119)%N; [|discriminate H].
    destruct (c3 =? 58)%N; discriminate H.
  - destruct (c1 =? 60)%N; [|discriminate H]. destruct (c2 =? 119)%N; [|discriminate H].
    destruct (c3 =? 58)%N; [|discriminate H]. destruct (c4 =? 112)%N; discriminate H.
  - exact H.
Qed.

(** *** The substitution keeps a paragraph element *)

Lemma outAttrs_cases a z s attrs0 t :
  outAttrs a z s attrs0 t = attrs0
  \/ forallb (fun x => negb (c_in "<" x)) (outAttrs a z s attrs0 t) = true.
Proof.
  unfold outAttrs, newAttrsOf.
  destruct (overlaps a z s (s + length t)); [|left; reflexivity].
  destruct (Nat.leb s a).
  - destruct (includes attrs0 preserveAttr); [left; reflexivity | right; reflexivity].
  - destruct (_ && _); [|left; reflexivity].
    destruct (includes attrs0 preserveAttr); [left; reflexivity | right; reflexivity].
Qed.

Lemma rewriteRuns_keepsClose a z newText : forall rs cum,
  forallb (fun x => negb (c_in "<" x)) newText = true ->
  forallb plainRun rs = true ->
  Forall2 keepsClose rs (rewriteRuns a z newText cum rs).
Proof.
  induction rs as [|r rs IH]; intros cum Hn H; [constructor|].
  cbn [forallb] in H. apply andb_true_iff in H as [Hr Hrs].
  unfold plainRun in Hr. apply andb_true_iff in Hr as [_ Ht].
  cbn [rewriteRuns]. constructor; [|apply IH; assumption].
  unfold keepsClose. cbn [gap runAttrs runText].
  split; [reflexivity|]. split; [apply outAttrs_cases|].
  apply outText_keeps; assumption.
Qed.

Lemma substituted_element b oldText newText :
  forallb (fun x => negb (c_in "<" x)) newText = true ->
  parses b -> paragraphElement (render b) = true ->
  paragraphElement (render (substituted b oldText newText)) = true.
Proof.
  intros Hn Hb H. unfold substituted.
  destruct (indexOf (blockText b) oldText) as [a|]; [|exact H].
  destruct (parses_structure b Hb) as [Hp _].
  pose proof (rewriteRuns_keepsClose a (a + length oldText) newText (runs b) 0 Hn Hp) as HK.
  unfold paragraphElement in *. apply andb_true_iff in H as [Hopen Hclose].
  unfold render in *. cbn [runs closing].
  apply andb_true_iff. split.
  - destruct (runs b) as [|r rs]; [exact Hopen|].
    cbn [rewriteRuns renderRuns gap] in *. unfold element, wt in *.
    rewrite <- !app_assoc in *. apply opensParagraph_app.
    exact (opens_before_element _ _ Hopen).
  - apply closesTail_closes. apply (closesTail_runs _ _ _ HK).
    apply closesParagraph_tail. exact Hclose.
Qed.

Lemma renderParagraphs_ext (f g : Block -> jsstring) ps :
  (forall lb, In lb ps -> f (snd lb) = g (snd lb)) ->
  renderParagraphs f ps = renderParagraphs g ps.
Proof.
  induction ps as [|[lead b] ps IH]; intros H; [reflexivity|].
  cbn [renderParagraphs].
  pose proof (H (lead, b) (or_introl eq_refl)) as Hb. cbn [snd] in Hb. rewrite Hb.
  rewrite IH; [reflexivity|]. intros lb Hlb. apply H. right. exact Hlb.
Qed.

Lemma renderParagraphs_map (h : Block -> Block) ps :
  renderParagraphs render (List.map (fun lb => (fst lb, h (snd lb))) ps)
  = renderParagraphs (fun b => render (h b)) ps.
Proof.
  induction ps as [|[lead b] ps IH]; [reflexivity|].
  cbn [List.map renderParagraphs fst snd]. rewrite IH. reflexivity.
Qed.

Lemma wellFormedDoc_map (h : Block -> Block) d :
  (forall b, parses b -> paragraphElement (render b) = true ->
             paragraphElement (render (h b)) = true) ->
  parsedDoc d -> wellFormedDoc d = true -> wellFormedDoc (mapDoc h d) = true.
Proof.
  intros Hh Hd H. unfold wellFormedDoc, mapDoc in *. cbn [paragraphs trailer].
  apply andb_true_iff in H as [Hps Ht]. rewrite Ht, andb_true_r.
  apply forallb_forall. intros lb' Hlb'. apply in_map_iff in Hlb' as (lb & <- & Hlb).
  cbn [fst snd].
  pose proof (proj1 (forallb_forall _ _) Hps lb Hlb) as H. cbv beta in H.
  apply andb_true_iff in H as [Hl Hb]. rewrite Hl.
  pose proof (proj1 (Forall_forall _ _) Hd lb Hlb) as Hpb. cbv beta in Hpb.
  rewrite (Hh _ Hpb Hb). reflexivity.
Qed.

Lemma parsedDoc_map (h : Block -> Block) d :
  (forall b, parses b -> parses (h b)) -> parsedDoc d -> parsedDoc (mapDoc h d).
Proof.
  intros Hh Hd. unfold parsedDoc, mapDoc in *. cbn [paragraphs].
  apply Forall_forall. intros lb' Hlb'. apply in_map_iff in Hlb' as (lb & <- & Hlb).
  cbn [snd]. apply Hh. exact (proj1 (Forall_forall _ _) Hd lb Hlb).
Qed.

Lemma safeReplaceInXml_doc d oldText newText :
  wellFormedDoc d = true ->
  safeReplaceInXml (renderDoc d) oldText newText
  = renderParagraphs (fun b => replaceInParagraph (render b) oldText newText)
      (paragraphs d) ++ trailer d.
Proof.
  intros H. unfold wellFormedDoc in H. apply andb_true_iff in H as [Hps Ht].
  unfold safeReplaceInXml. rewrite replaceAllFn_replaceFrom. unfold renderDoc.
  exact (doc_replace (fun para => replaceInParagraph para oldText newText)
           (trailer d) (paragraphs d) 0 Hps Ht).
Qed.

Lemma safeReplaceInXml_mapDoc d oldText newText :
  wellFormedDoc d = true -> parsedDoc d ->
  forallb (fun x => negb (c_in "<" x)) newText = true ->
  safeReplaceInXml (renderDoc d) oldText newText
  = renderDoc (mapDoc (fun b => substituted b oldText newText) d)
  /\ wellFormedDoc (mapDoc (fun b => substituted b oldText newText) d) = true
  /\ parsedDoc (mapDoc (fun b => substituted b oldText newText) d).
Proof.
  intros H Hd Hn. split; [|split].
  - rewrite (safeReplaceInXml_doc d oldText newText H).
    unfold renderDoc, mapDoc. cbn [paragraphs trailer]. f_equal.
    transitivity (renderParagraphs (fun b => render (substituted b oldText newText))
                    (paragraphs d));
      [|symmetry;
        exact (renderParagraphs_map (fun b => substituted b oldText newText) (paragraphs d))].
    apply renderParagraphs_ext. intros lb Hlb. apply replaceInParagraph_refines.
    exact (proj1 (Forall_forall _ _) Hd lb Hlb).
  - apply wellFormedDoc_map; [|exact Hd|exact H].
    intros b Hb He. apply substituted_element; assumption.
  - apply parsedDoc_map; [|exact Hd].
    intros b Hb. apply parses_substituted; assumption.
Qed.

(** X18: take a document that is a sequence of paragraph elements, each
    a string that begins with [<w:p] followed by a white-space character or
    [>], ends with [</w:p>] and holds [</w:p>] nowhere before its end,
    each after markup in which no such paragraph opening begins, with such
    markup after the last one.  safeReplaceInXml rewrites every paragraph
    element by itself and leaves the markup before, between and after the
    paragraphs as it was.  When moreover every paragraph is read by the
    scan of safeReplaceInXml as its runs (so that the markup around the
    runs may hold [<w:tab/>], [<w:tabs>] and the like, but nothing that the
    scan takes for a run) and the value written holds no [<], every
    paragraph comes back as its runs, as it was if its text does not hold
    the searched value, and with the first occurrence of the searched
    value, if that is not empty, replaced in its text; and the result is
    again such a document, read by the scan as the runs written. *)
Theorem safeReplaceInXml_every_paragraph (d : Doc) (oldText newText : jsstring) :
  wellFormedDoc d = true ->
  safeReplaceInXml (renderDoc d) oldText newText
  = renderParagraphs (fun b => replaceInParagraph (render b) oldText newText)
      (paragraphs d) ++ trailer d
  /\ (parsedDoc d ->
      forallb (fun x => negb (c_in "<" x)) newText = true ->
      safeReplaceInXml (renderDoc d) oldText newText
      = renderDoc (mapDoc (fun b => substituted b oldText newText) d)
      /\ wellFormedDoc (mapDoc (fun b => substituted b oldText newText) d) = true
      /\ parsedDoc (mapDoc (fun b => substituted b oldText newText) d)
      /\ (forall lead b, In (lead, b) (paragraphs d) ->
            (includes (blockText b) oldText = false ->
             substituted b oldText newText = b)
            /\ (forall pre post,
                  oldText <> [] -> blockText b = pre ++ oldText ++ post ->
                  indexOf (blockText b) oldText = Some (length pre) ->
                  blockText (substituted b oldText newText) = pre ++ newText ++ post))).
Proof.
  intros H. split.
  - apply safeReplaceInXml_doc. exact H.
  - intros Hd Hn.
    destruct (safeReplaceInXml_mapDoc d oldText newText H Hd Hn) as (E & H' & Hd').
    split; [exact E|]. split; [exact H'|]. split; [exact Hd'|].
    intros lead b _. split.
    + unfold includes, substituted.
      destruct (indexOf (blockText b) oldText); [discriminate | reflexivity].
    + intros pre post Hne Et Ei. exact (@substituted_text b oldText newText pre post Hne Et Ei).
Qed.

Lemma safeReplaceInXml_every_paragraph_witness :
  safeReplaceInXml (renderDoc twoParagraphs) (js "C") (js "X")
  = renderParagraphs (fun b => replaceInParagraph (render b) (js "C") (js "X"))
      (paragraphs twoParagraphs) ++ trailer twoParagraphs
  /\ safeReplaceInXml (renderDoc twoParagraphs) (js "C") (js "X")
     = renderDoc (mapDoc (fun b => substituted b (js "C") (js "X")) twoParagraphs)
  /\ List.map (fun lb => blockText (snd lb))
       (paragraphs (mapDoc (fun b => substituted b (js "C") (js "X")) twoParagraphs))
     = [js "ABXDEF"; js "令和6年9月分"; js "ABX D"].
Proof.
  assert (H : wellFormedDoc twoParagraphs = true) by (vm_compute; reflexivity).
  assert (P1 : parses abcdef) by (vm_compute; reflexivity).
  assert (P2 : parses threeRuns) by (vm_compute; reflexivity).
  assert (P3 : parses tabbedParagraph) by (vm_compute; reflexivity).
  assert (Hd : parsedDoc twoParagraphs).
  { unfold parsedDoc, twoParagraphs. cbn [paragraphs].
    apply Forall_cons; [exact P1|]. apply Forall_cons; [exact P2|].
    apply Forall_cons; [exact P3|]. apply Forall_nil. }
  assert (Hn : forallb (fun x => negb (c_in "<" x)) (js "X") = true)
    by (vm_compute; reflexivity).
  assert (T : List.map (fun lb => blockText (snd lb))
       (paragraphs (mapDoc (fun b => substituted b (js "C") (js "X")) twoParagraphs))
     = [js "ABXDEF"; js "令和6年9月分"; js "ABX D"]) by (vm_compute; reflexivity).
  pose proof (safeReplaceInXml_every_paragraph twoParagraphs (js "C") (js "X") H) as [E1 E2].
  split; [exact E1|]. split; [exact (proj1 (E2 Hd Hn)) | exact T].
Defined.

(** *** The cover letter, paragraph by paragraph *)

Lemma fold_left_if (A B : Type) (F : A -> B -> A) (c : bool) (l : list B) (x : A) :
  fold_left F (if c then l else []) x = if c then fold_left F l x else x.
Proof. destruct c; reflexivity. Qed.

(** [applyInfoToTemplate] is the chain of its substitutions. *)
Lemma applyInfoToTemplate_fold now docXml info documentTitle :
  applyInfoToTemplate now docXml info documentTitle
  = fold_left (fun xml on => safeReplaceInXml xml (fst on) (snd on))
      (substitutions now info documentTitle) docXml.
Proof.
  unfold applyInfoToTemplate, substitutions. cbv zeta.
  rewrite !fold_left_app, !fold_left_if. cbn [fold_left fst snd]. reflexivity.
Qed.

Lemma mapDoc_mapDoc (f g : Block -> Block) d :
  mapDoc g (mapDoc f d) = mapDoc (fun b => g (f b)) d.
Proof.
  unfold mapDoc. cbn [paragraphs trailer]. f_equal. rewrite map_map. reflexivity.
Qed.

Lemma mapDoc_id d : mapDoc (fun b => b) d = d.
Proof.
  destruct d as [ps t]. unfold mapDoc. cbn [paragraphs trailer]. f_equal.
  induction ps as [|[lead b] ps IH]; [reflexivity|]. cbn [List.map fst snd].
  rewrite IH. reflexivity.
Qed.

Lemma mapDoc_ext (f g : Block -> Block) d :
  (forall b, f b = g b) -> mapDoc f d = mapDoc g d.
Proof.
  intros H. unfold mapDoc. f_equal. apply map_ext. intros lb. rewrite H. reflexivity.
Qed.

Lemma fold_safeReplaceInXml subs : forall d,
  wellFormedDoc d = true -> parsedDoc d -> plainValues subs = true ->
  fold_left (fun xml on => safeReplaceInXml xml (fst on) (snd on)) subs (renderDoc d)
  = renderDoc (mapDoc (substituteAll subs) d)
  /\ wellFormedDoc (mapDoc (substituteAll subs) d) = true
  /\ parsedDoc (mapDoc (substituteAll subs) d).
Proof.
  induction subs as [|[o n] subs IH]; intros d H Hd Hp.
  - cbn [fold_left]. unfold substituteAll. cbn [fold_left].
    rewrite mapDoc_id. auto.
  - cbn [plainValues forallb snd] in Hp. apply andb_true_iff in Hp as [Hn Hp].
    cbn [fold_left fst snd].
    destruct (safeReplaceInXml_mapDoc d o n H Hd Hn) as (E & H' & Hd').
    rewrite E.
    destruct (IH _ H' Hd' Hp) as (E2 & H2 & Hd2).
    rewrite mapDoc_mapDoc in E2, H2, Hd2.
    assert (Ef : mapDoc (fun b => substituteAll subs (substituted b o n)) d
                 = mapDoc (substituteAll ((o, n) :: subs)) d)
      by (apply mapDoc_ext; intros b; reflexivity).
    rewrite Ef in E2, H2, Hd2. auto.
Qed.

(** X19: take a document that is a sequence of paragraph elements (each a
    string that begins with [<w:p] followed by a white-space character or
    [>], ends with [</w:p>] and holds [</w:p>] nowhere before its end),
    each after markup in which no such paragraph opening begins, with such
    markup after the last one; let every paragraph be read by the scan of
    safeReplaceInXml as its runs, and let no value to be written hold a
    [<].  Then applyInfoToTemplate works paragraph by paragraph: each
    paragraph comes back as its runs after the substitutions of the fields
    that are present, each replacing the first occurrence left of its
    template value, in the order of the source; the markup before, between
    and after the paragraphs stays as it was, and the result is again such
    a document. *)
Theorem applyInfoToTemplate_paragraphwise (now : Date) (d : Doc) (info : Info)
    (documentTitle : jsstring) :
  wellFormedDoc d = true ->
  parsedDoc d ->
  plainValues (substitutions now info documentTitle) = true ->
  applyInfoToTemplate now (renderDoc d) info documentTitle
  = renderDoc (mapDoc (substituteAll (substitutions now info documentTitle)) d)
  /\ wellFormedDoc (mapDoc (substituteAll (substitutions now info documentTitle)) d) = true
  /\ parsedDoc (mapDoc (substituteAll (substitutions now info documentTitle)) d).
Proof.
  intros H Hd Hp. rewrite applyInfoToTemplate_fold.
  apply fold_safeReplaceInXml; assumption.
Qed.

Lemma applyInfoToTemplate_paragraphwise_witness :
  applyInfoToTemplate sampleDay (renderDoc templateDoc) sampleInfo (js "被告第１準備書面")
  = renderDoc (mapDoc (substituteAll
                         (substitutions sampleDay sampleInfo (js "被告第１準備書面")))
                 templateDoc)
  /\ List.map (fun lb => blockText (snd lb))
       (paragraphs (mapDoc (substituteAll
                              (substitutions sampleDay sampleInfo (js "被告第１準備書面")))
                      templateDoc))
     = [ js "広島地方裁判所民事第２部　　　　　御中"; js "FAX 082-228-0197";
         js "被告第１準備書面" ].
Proof.
  assert (H : wellFormedDoc templateDoc = true) by (vm_compute; reflexivity).
  assert (Hd : parsedDoc templateDoc).
  { unfold parsedDoc, templateDoc. cbn [paragraphs].
    apply Forall_cons; [vm_compute; reflexivity|].
    apply Forall_cons; [vm_compute; reflexivity|].
    apply Forall_cons; [vm_compute; reflexivity|]. apply Forall_nil. }
  assert (Hp : plainValues (substitutions sampleDay sampleInfo (js "被告第１準備書面")) = true)
    by (vm_compute; reflexivity).
  assert (T : List.map (fun lb => blockText (snd lb))
       (paragraphs (mapDoc (substituteAll
                              (substitutions sampleDay sampleInfo (js "被告第１準備書面")))
                      templateDoc))
     = [ js "広島地方裁判所民事第２部　　　　　御中"; js "FAX 082-228-0197";
         js "被告第１準備書面" ]) by (vm_compute; reflexivity).
  split; [|exact T].
  exact (proj1 (applyInfoToTemplate_paragraphwise sampleDay templateDoc sampleInfo
                  (js "被告第１準備書面") H Hd Hp)).
Defined.

(** ** Fields that need a mark in the text *)

Unset Implicit Arguments.

Lemma Sem_needs c r w cs cs' :
  Sem r w cs cs' -> needs c r -> exists x, In x w /\ c x = true.
Proof.
  induction 1; cbn [needs]; intros Hn; try contradiction.
  - exists x. split; [left; reflexivity | auto].
  - destruct Hn as [Hn | Hn].
    + destruct (IHSem1 Hn) as (x & Hx & Hc). exists x. split; [|exact Hc].
      apply in_or_app. left. exact Hx.
    + destruct (IHSem2 Hn) as (x & Hx & Hc). exists x. split; [|exact Hc].
      apply in_or_app. right. exact Hx.
  - destruct Hn as [Hn _]. auto.
  - destruct Hn as [_ Hn]. auto.
  - destruct Hn as [Hn _]. lia.
  - destruct Hn as [_ Hn].
    destruct (IHSem1 Hn) as (x & Hx & Hc). exists x. split; [|exact Hc].
    apply in_or_app. left. exact Hx.
  - auto.
Qed.

Lemma exec_lacks c r s : needs c r -> lacks c s -> exec r s = None.
Proof.
  intros Hn Hs. apply (@exec_needs c r s); [|exact Hs].
  intros w cs cs' HS. exact (Sem_needs c r w cs cs' HS Hn).
Qed.

Lemma matchAll_lacks c r s : needs c r -> lacks c s -> matchAll r s = [].
Proof.
  intros Hn Hs. unfold matchAll. apply matchAll_from_none.
  exact (exec_lacks c r s Hn Hs).
Qed.

Lemma needs_seqs c l : Exists (needs c) l -> needs c (seqs l).
Proof.
  induction 1 as [r l H | r l _ IH].
  - destruct l; [exact H | left; exact H].
  - destruct l as [|r' l]; [inversion IH|]. right. exact IH.
Qed.

Lemma needs_alts c l : l <> [] -> Forall (needs c) l -> needs c (alts l).
Proof.
  intros Hne H. induction H as [|r l Hr Hl IH]; [congruence|].
  destruct l as [|r' l]; [exact Hr|]. split; [exact Hr|]. apply IH. discriminate.
Qed.

Lemma needs_chars c l :
  existsb c l = true -> needs c (seqs (List.map (fun a => Cls (c_is a)) l)).
Proof.
  intros H. apply needs_seqs. apply existsb_exists in H as (a & Ha & Hc).
  apply Exists_exists. exists (Cls (c_is a)). split.
  - apply in_map_iff. exists a. auto.
  - intros x Hx. apply N.eqb_eq in Hx. subst x. exact Hc.
Qed.

Lemma needs_lit c s : existsb c (js s) = true -> needs c (lit s).
Proof. apply needs_chars. Qed.

(** The mark is one of the literals of the sequence. *)
Ltac needs_lit_tac :=
  apply needs_seqs;
  repeat first
    [ apply Exists_cons_hd; apply needs_lit; vm_compute; reflexivity
    | apply Exists_cons_tl ].

Lemma lacks_not_in a s : ~ In a s -> lacks (c_is a) s.
Proof.
  intros H. apply Forall_forall. intros x Hx. apply N.eqb_neq. intros ->. auto.
Qed.

Lemma lacks_app_inv c a m z : lacks c (a ++ m ++ z) -> lacks c m.
Proof.
  intros H. apply Forall_app in H as [_ H]. apply Forall_app in H as [H _]. exact H.
Qed.

Lemma lacks_match c r s m : exec r s = Some m -> lacks c s -> lacks c (m0 m).
Proof.
  intros E H. apply (@scan_sound r 0 s m) in E as (_ & pre & s' & -> & _).
  exact (lacks_app_inv c pre (m0 m) s' H).
Qed.

(** A capture is made of characters of the match. *)
Lemma Sem_caps_within (P : char -> Prop) r w cs cs' :
  Sem r w cs cs' -> Forall P w ->
  (forall i v, getcap i cs = Some v -> Forall P v) ->
  forall i v, getcap i cs' = Some v -> Forall P v.
Proof.
  induction 1; intros Hw Hcs; try assumption.
  - apply Forall_app in Hw as [Hw1 Hw2]. apply IHSem2; [exact Hw2|]. apply IHSem1; assumption.
  - apply IHSem; assumption.
  - apply IHSem; assumption.
  - apply Forall_app in Hw as [Hw1 Hw2]. apply IHSem2; [exact Hw2|]. apply IHSem1; assumption.
  - intros j v. unfold setcap. cbn [getcap].
    destruct (Nat.eqb j i).
    + intros E. injection E as <-. exact Hw.
    + apply IHSem; assumption.
Qed.

Lemma lacks_cap c r s m i : exec r s = Some m -> lacks c s -> lacks c (cap i m).
Proof.
  intros E H. pose proof (lacks_match c r s m E H) as Hm.
  apply (@scan_sound r 0 s m) in E as (HS & _).
  unfold cap, group. destruct (getcap i (groups m)) as [v|] eqn:Ev; [|constructor].
  apply (Sem_caps_within (fun x => c x = false) r (m0 m) [] (groups m) HS Hm) with (i := i).
  - intros j v' Hj. discriminate Hj.
  - exact Ev.
Qed.

Lemma lacks_normalizeText c s : c 10%N = false -> lacks c s -> lacks c (normalizeText s).
Proof. intros H10 H. apply normalizeText_Forall; assumption. Qed.

Lemma needs_nth c l i r : nth_error l i = Some r -> needs c r -> needs c (seqs l).
Proof.
  intros E H. apply needs_seqs. apply Exists_exists. exists r. split; [|exact H].
  exact (nth_error_In l i E).
Qed.

(** The literal at place [i] of the sequence holds the mark. *)
Ltac needs_at i r :=
  apply (needs_nth _ _ i r); [reflexivity | apply needs_lit; vm_compute; reflexivity].

Ltac each_pattern := repeat apply Forall_cons; try apply Forall_nil.

Lemma not_in_existsb a s : existsb (fun x => N.eqb x a) s = false -> ~ In a s.
Proof.
  intros H Hin. assert (E : existsb (fun x => N.eqb x a) s = true).
  { apply existsb_exists. exists a. split; [exact Hin | apply N.eqb_refl]. }
  congruence.
Qed.

Lemma lacks_forallb c s : forallb (fun x => negb (c x)) s = true -> lacks c s.
Proof.
  intros H. apply Forall_forall. intros x Hx.
  rewrite forallb_forall in H. apply H in Hx. destruct (c x); [discriminate | reflexivity].
Qed.

Lemma lacks_mark a text : N.eqb 10 a = false -> ~ In a text -> lacks (c_is a) (normalizeText text).
Proof.
  intros H10 H. apply lacks_normalizeText; [exact H10 | apply lacks_not_in; exact H].
Qed.

Lemma courtPattern_needs : needs (c_is (ch "裁")) courtPattern.
Proof. unfold courtPattern. cbn [needs]. needs_at 4%nat (lit "裁判"). Qed.

Lemma caseNumberPatterns_need : Forall (needs (c_is (ch "号"))) caseNumberPatterns.
Proof.
  unfold caseNumberPatterns. each_pattern; cbn [needs].
  - needs_at 11%nat (lit "号").
  - needs_at 18%nat (lit "号").
  - needs_at 18%nat (lit "号").
  - needs_at 18%nat (lit "号").
Qed.

Lemma firstCaseNumber_lacks c ps s :
  Forall (needs c) ps -> lacks c s -> firstCaseNumber ps s = None.
Proof.
  intros H Hs. induction H as [|p ps Hp _ IH]; [reflexivity|].
  cbn [firstCaseNumber]. rewrite (exec_lacks c p s Hp Hs). exact IH.
Qed.

Lemma caseNumberFromDisplay_lacks s :
  lacks (c_is (ch "号")) s -> caseNumberFromDisplay s = (None, None).
Proof.
  intros Hs. unfold caseNumberFromDisplay.
  destruct (exec displaySection s) as [dm|] eqn:E; [|reflexivity].
  cbv zeta. pose proof (lacks_cap _ _ _ _ 1 E Hs) as Hc.
  rewrite (exec_lacks (c_is (ch "号")) displayFull (cap 1 dm)); [| |exact Hc].
  - rewrite (exec_lacks (c_is (ch "号")) displayNum (cap 1 dm)); [reflexivity| |exact Hc].
    unfold displayNum. needs_at 4%nat (lit "号").
  - unfold displayFull. needs_at 18%nat (lit "号").
Qed.

Lemma caseNamePatterns_need : Forall (needs (c_is (ch "件"))) caseNamePatterns.
Proof.
  unfold caseNamePatterns. each_pattern; cbn [needs].
  - needs_at 6%nat (lit "事件").
  - eapply (needs_nth _ _ 2%nat); [reflexivity|]. cbn [needs]. needs_at 3%nat (lit "事件").
  - apply needs_alts; [discriminate|].
    each_pattern; try (apply needs_lit; vm_compute; reflexivity).
    needs_at 1%nat (lit "請求事件").
  - needs_at 4%nat (lit "事件").
Qed.

Lemma firstCaseName_lacks c ps s :
  Forall (needs c) ps -> lacks c s -> firstCaseName ps s = None.
Proof.
  intros H Hs. induction H as [|p ps Hp _ IH]; [reflexivity|].
  cbn [firstCaseName]. rewrite (exec_lacks c p s Hp Hs). exact IH.
Qed.

Lemma firstPartyName_lacks c ps s :
  Forall (needs c) ps -> lacks c s -> firstPartyName ps s = None.
Proof.
  intros H Hs. induction H as [|p ps Hp _ IH]; [reflexivity|].
  cbn [firstPartyName]. rewrite (exec_lacks c p s Hp Hs). exact IH.
Qed.

Lemma extractParty_lacks c labelPattern fallback s :
  needs c labelPattern -> Forall (needs c) fallback -> lacks c s ->
  extractParty labelPattern fallback s = None.
Proof.
  intros Hl Hf Hs.
  assert (E : partyInSection labelPattern s = None).
  { unfold partyInSection.
    destruct (exec partySectionPattern s) as [ps|] eqn:E; [|reflexivity].
    rewrite (exec_lacks c labelPattern (m0 ps) Hl (lacks_match c _ _ _ E Hs)).
    reflexivity. }
  unfold extractParty. rewrite E. cbn [truthy].
  rewrite (firstPartyName_lacks c fallback s Hf Hs). reflexivity.
Qed.

Lemma lawyerCandidates_lacks cfg s :
  lacks (c_is (ch "士")) s -> lawyerCandidates cfg s = [].
Proof.
  intros Hs. unfold lawyerCandidates, formalCandidates, senderCandidates,
    ateCandidates, generalCandidates.
  rewrite (matchAll_lacks (c_is (ch "士")) formalPattern s); [| |exact Hs].
  - rewrite (matchAll_lacks (c_is (ch "士")) senderPattern s); [| |exact Hs].
    + rewrite (matchAll_lacks (c_is (ch "士")) atePattern s); [| |exact Hs].
      * rewrite (matchAll_lacks (c_is (ch "士")) generalPattern s); [reflexivity| |exact Hs].
        unfold generalPattern. needs_at 2%nat (lit "士").
      * unfold atePattern. needs_at 2%nat (lit "士").
    + unfold senderPattern. needs_at 4%nat (lit "士").
  - unfold formalPattern. needs_at 12%nat (lit "士").
Qed.

Lemma faxLabel_needs : needs c_faxStart faxLabel.
Proof.
  unfold faxLabel. apply needs_alts; [discriminate|].
  each_pattern; try (apply needs_lit; vm_compute; reflexivity).
  left. cbn [needs]. apply (c_in_sub c_faxStart). vm_compute. reflexivity.
Qed.

Lemma extractFaxes_lacks cfg s :
  lacks c_faxStart s -> extractFaxes cfg s = MkFaxState None None.
Proof.
  intros Hs. unfold extractFaxes, allExplicitFaxes, allFaxEntries.
  rewrite (exec_lacks c_faxStart explicitCourtFaxPattern s); [| |exact Hs].
  - rewrite (matchAll_lacks c_faxStart explicitFaxRegex s); [| |exact Hs].
    + rewrite (matchAll_lacks c_faxStart faxRegex s); [reflexivity| |exact Hs].
      unfold faxRegex.
      apply (needs_nth _ _ 0 faxLabel); [reflexivity | exact faxLabel_needs].
    + unfold explicitFaxRegex.
      apply (needs_nth _ _ 4 faxLabel); [reflexivity | exact faxLabel_needs].
  - unfold explicitCourtFaxPattern.
    apply (needs_nth _ _ 8 faxLabel); [reflexivity | exact faxLabel_needs].
Qed.

(** X20: a field is left out when the text lacks the character its patterns
    all require: no court name without 裁, no case number (found or guessed)
    without 号, no case name without 件, no plaintiff without 原, no
    defendant without 告 and no counsel of the plaintiff without 士. *)
Theorem fields_need_marks (cfg : Config) (text : jsstring) :
  let info := extractInfoFromText cfg text in
  (~ In (ch "裁") text -> courtName info = None)
  /\ (~ In (ch "号") text -> caseNumber info = None /\ caseNumberGuessed info = None)
  /\ (~ In (ch "件") text -> caseName info = None)
  /\ (~ In (ch "原") text -> plaintiffName info = None)
  /\ (~ In (ch "告") text -> defendantName info = None)
  /\ (~ In (ch "士") text -> plaintiffLawyer info = None).
Proof.
  cbv zeta. unfold extractInfoFromText. cbv zeta.
  cbn [courtName caseNumber caseNumberGuessed caseName plaintiffName defendantName
       plaintiffLawyer].
  split; [|split; [|split; [|split; [|split]]]]; intros H.
  - apply (lacks_mark _ text (eq_refl : N.eqb 10 (ch "裁") = false)) in H.
    unfold extractCourtName, courtCandidates.
    rewrite (matchAll_lacks _ courtPattern _ courtPattern_needs H). reflexivity.
  - apply (lacks_mark _ text (eq_refl : N.eqb 10 (ch "号") = false)) in H.
    unfold extractCaseNumber.
    rewrite (firstCaseNumber_lacks _ _ _ caseNumberPatterns_need H).
    rewrite (caseNumberFromDisplay_lacks _ H). split; reflexivity.
  - apply (lacks_mark _ text (eq_refl : N.eqb 10 (ch "件") = false)) in H.
    unfold extractCaseName. exact (firstCaseName_lacks _ _ _ caseNamePatterns_need H).
  - apply (lacks_mark _ text (eq_refl : N.eqb 10 (ch "原") = false)) in H.
    unfold extractPlaintiffName. apply (extractParty_lacks (c_is (ch "原"))); [| |exact H].
    + unfold plaintiffInPartyPattern. needs_at 0%nat (lit "原").
    + unfold plaintiffPatterns. each_pattern.
      * needs_at 2%nat (lit "原").
      * needs_at 0%nat (lit "原").
  - apply (lacks_mark _ text (eq_refl : N.eqb 10 (ch "告") = false)) in H.
    unfold extractDefendantName. apply (extractParty_lacks (c_is (ch "告"))); [| |exact H].
    + unfold defendantInPartyPattern. needs_at 2%nat (lit "告").
    + unfold defendantPatterns. each_pattern.
      * needs_at 4%nat (lit "告").
      * needs_at 2%nat (lit "告").
  - apply (lacks_mark _ text (eq_refl : N.eqb 10 (ch "士") = false)) in H.
    unfold extractPlaintiffLawyer. rewrite (lawyerCandidates_lacks cfg _ H). reflexivity.
Qed.

Lemma fields_need_marks_witness :
  let info := extractInfoFromText defaultConfig bareNotice in
  courtName info = Some (js "広島地方裁判所")
  /\ caseNumber info = Some (js "令和6年(ワ)第123号")
  /\ caseName info = None /\ plaintiffName info = None
  /\ defendantName info = None /\ plaintiffLawyer info = None.
Proof.
  assert (N1 : ~ In (ch "件") bareNotice) by (apply not_in_existsb; vm_compute; reflexivity).
  assert (N2 : ~ In (ch "原") bareNotice) by (apply not_in_existsb; vm_compute; reflexivity).
  assert (N3 : ~ In (ch "告") bareNotice) by (apply not_in_existsb; vm_compute; reflexivity).
  assert (N4 : ~ In (ch "士") bareNotice) by (apply not_in_existsb; vm_compute; reflexivity).
  assert (E1 : courtName (extractInfoFromText defaultConfig bareNotice)
               = Some (js "広島地方裁判所")) by (vm_compute; reflexivity).
  assert (E2 : caseNumber (extractInfoFromText defaultConfig bareNotice)
               = Some (js "令和6年(ワ)第123号")) by (vm_compute; reflexivity).
  pose proof (fields_need_marks defaultConfig bareNotice) as (_ & _ & H1 & H2 & H3 & H4).
  exact (conj E1 (conj E2 (conj (H1 N1) (conj (H2 N2) (conj (H3 N3) (H4 N4)))))).
Defined.

(** X21: in a text without F, Ｆ or f, the characters a fax label starts
    with, no fax number is read: neither the court's nor the counsel's, and
    the court fax is the dictionary's entry for the court name that was
    found, or absent when no court name was found. *)
Theorem no_label_no_fax (cfg : Config) (text : jsstring) :
  lacks c_faxStart text ->
  let info := extractInfoFromText cfg text in
  courtFaxFromPdf info = None
  /\ plaintiffLawyerFax info = None
  /\ (courtName info = None -> courtFax info = None)
  /\ (forall c, courtName info = Some c -> c <> [] ->
        courtFax info = Some (dictionaryFax c)).
Proof.
  intros H. apply (lacks_normalizeText c_faxStart text eq_refl) in H.
  cbv zeta. unfold extractInfoFromText. cbv zeta.
  cbn [courtName courtFax courtFaxFromPdf plaintiffLawyerFax].
  rewrite (extractFaxes_lacks cfg _ H). cbn [fromPdf counselFax truthy].
  split; [reflexivity|]. split; [reflexivity|]. split.
  - intros E. rewrite E. reflexivity.
  - intros c E Hc. rewrite E. destruct c as [|x c]; [congruence | reflexivity].
Qed.

Lemma no_label_no_fax_witness :
  let info := extractInfoFromText defaultConfig phoneOnly in
  lacks c_faxStart phoneOnly
  /\ courtFaxFromPdf info = None /\ plaintiffLawyerFax info = None
  /\ courtFax info = Some (js "082-228-0197").
Proof.
  assert (L : lacks c_faxStart phoneOnly) by (apply lacks_forallb; vm_compute; reflexivity).
  assert (E : courtName (extractInfoFromText defaultConfig phoneOnly)
              = Some (js "広島地方裁判所民事第２部")) by (vm_compute; reflexivity).
  assert (D : dictionaryFax (js "広島地方裁判所民事第２部") = js "082-228-0197")
    by (vm_compute; reflexivity).
  assert (Hne : js "広島地方裁判所民事第２部" <> []) by (vm_compute; discriminate).
  pose proof (no_label_no_fax defaultConfig phoneOnly L) as (H1 & H2 & _ & H3).
  specialize (H3 _ E Hne). rewrite D in H3.
  exact (conj L (conj H1 (conj H2 H3))).
Defined.

(** ** The words of an HOCR page *)

Unset Implicit Arguments.

Lemma re_body :
  re = Seq (lit "<span")
        (Seq (plus (Cls (c_not (c_in ">"))))
          (Seq (lit "class='ocrx_word'")
            (Seq (plus (Cls (c_not (c_in ">"))))
              (Seq (lit "title='bbox ")
                (Seq (Grp 1 (plus (Cls c_digit)))
                  (Seq (lit " ")
                    (Seq (Grp 2 (plus (Cls c_digit)))
                      (Seq (lit " ")
                        (Seq (Grp 3 (plus (Cls c_digit)))
                          (Seq (lit " ")
                            (Seq (Grp 4 (plus (Cls c_digit)))
                              (Seq (star (Cls (c_not (c_in ">"))))
                                (Seq (lit ">")
                                  (Seq (Grp 5 (Rep 0 None false (Cls c_all)))
                                       (lit "</span>"))))))))))))))).
Proof. reflexivity. Qed.

(** *** Where no word begins *)

Lemma openTag_closed s : forall i u,
  openTag s = false -> skipn i s = ch "<" :: u -> In (ch ">") u.
Proof.
  induction s as [|x s IH]; intros i u H E.
  - destruct i; discriminate E.
  - cbn [openTag] in H. apply orb_false_iff in H as [H1 H2].
    destruct i as [|i].
    + cbn [skipn] in E. injection E as -> ->.
      rewrite N.eqb_refl in H1. cbn [andb] in H1. apply negb_false_iff in H1.
      apply existsb_exists in H1 as (y & Hy & Ey). apply N.eqb_eq in Ey. subst y. exact Hy.
    + cbn [skipn] in E. exact (IH i u H2 E).
Qed.

Lemma inTag_spec s : inTag s = true -> ~ In (ch ">") s.
Proof.
  unfold inTag. intros H Hin. rewrite forallb_forall in H. apply H in Hin.
  vm_compute in Hin. discriminate Hin.
Qed.

Lemma inTag_allb s : inTag s = true -> allb (c_not (c_in ">")) s.
Proof. unfold inTag, allb. intros H. apply forallb_Forall. exact H. Qed.

Lemma try_at_re_gap sep t q i :
  wordFree sep = true -> i < length sep -> try_at re q (skipn i sep ++ t) = None.
Proof.
  intros Hw Hi. unfold wordFree in Hw. apply andb_true_iff in Hw as [Hc Ho].
  apply negb_true_iff in Hc. apply negb_true_iff in Ho.
  destruct (try_at re q (skipn i sep ++ t)) as [m|] eqn:E; [exfalso|reflexivity].
  apply (@try_at_sound re q _ m) in E as (_ & HS & s' & Hs).
  unfold re in HS.
  apply Sem_seqs_inv in HS as (w1 & w2 & cs1 & Ew & H1 & H2).
  apply Sem_lit_inv in H1. subst w1.
  apply Sem_seqs_inv in H2 as (r1 & w3 & cs2 & -> & H2 & H3).
  apply Sem_seqs_inv in H3 as (w4 & w5 & cs3 & -> & H3 & _).
  apply Sem_lit_inv in H3. subst w4.
  assert (Hr1 : Forall (fun x => x <> ch ">") r1).
  { apply (@Sem_chars (fun x => x <> ch ">") _ _ _ _ H2). cbn [chars_in plus].
    intros x Hx ->. vm_compute in Hx. discriminate Hx. }
  rewrite Ew in Hs. clear Ew.
  destruct (skipn i sep) as [|x u] eqn:Es.
  { apply (f_equal (@length char)) in Es. rewrite length_skipn in Es. simpl in Es. lia. }
  assert (Hx : x = ch "<").
  { cbn [app] in Hs. change (js "<span") with (ch "<" :: js "span") in Hs.
    cbn [app] in Hs. injection Hs as -> _. reflexivity. }
  subst x.
  pose proof (openTag_closed sep i u Ho Es) as Hin.
  apply in_split in Hin as (a' & z & ->).
  assert (Hp : exists z', ch "<" :: a' = (js "<span" ++ r1 ++ js "class='ocrx_word'") ++ z').
  { apply (app_prefix_mark (ch ">") _ _ (z ++ t) (w5 ++ s')).
    - rewrite <- !app_assoc. rewrite <- !app_assoc in Hs.
      cbn [app] in Hs. cbn [app]. rewrite <- Hs. rewrite <- app_assoc. reflexivity.
    - intros Hin. apply in_app_or in Hin as [Hin | Hin].
      + vm_compute in Hin. intuition discriminate.
      + apply in_app_or in Hin as [Hin | Hin].
        * rewrite Forall_forall in Hr1. exact (Hr1 _ Hin eq_refl).
        * vm_compute in Hin. intuition discriminate. }
  destruct Hp as [z' Hp].
  assert (Esep : sep = (firstn i sep ++ js "<span" ++ r1) ++ classAttr ++ (z' ++ ch ">" :: z)).
  { rewrite <- (firstn_skipn i sep) at 1. rewrite Es.
    change (ch "<" :: a' ++ ch ">" :: z) with ((ch "<" :: a') ++ ch ">" :: z).
    rewrite Hp. unfold classAttr. rewrite <- !app_assoc. reflexivity. }
  rewrite Esep in Hc. rewrite includes_intro in Hc. discriminate Hc.
Qed.

Lemma try_at_re_nil q : try_at re q [] = None.
Proof. reflexivity. Qed.

(** *** The match of a word element *)

Lemma step_plus_back c run back rest0 p cs (k : cont) res :
  allb c run -> run <> [] -> allb c back -> boundary c rest0 ->
  (forall n, 0 < n -> n <= length back ->
     k (MState (p + length run + n) (skipn n back ++ rest0) cs) = None) ->
  k (MState (p + length run) (back ++ rest0) cs) = Some res ->
  rmatch (plus (Cls c)) (MState p (run ++ back ++ rest0) cs) k = Some res.
Proof.
  intros Hr Hne Hb Hb0 Hfail Hk. rewrite rmatch_plus. cbn [rest].
  apply rep_cls_greedy_back; auto.
  - destruct run; [congruence | simpl; lia].
  - rewrite !length_app. lia.
Qed.

Lemma step_grp_plus i c d rest0 p cs (k : cont) res :
  allb c d -> d <> [] -> boundary c rest0 ->
  k (MState (p + length d) rest0 (setcap i d cs)) = Some res ->
  rmatch (Grp i (plus (Cls c))) (MState p (d ++ rest0) cs) k = Some res.
Proof.
  intros Hd Hne Hb Hk. rewrite rmatch_Grp. apply step_plus; auto.
  cbn [pos rest mcaps].
  replace (p + length d - p) with (length d) by lia.
  rewrite (@firstn_exact char d rest0 (length d) eq_refl). exact Hk.
Qed.

Lemma step_grp_lazy i u s p cs (k : cont) res :
  (forall j, j < length u ->
     k (MState (p + j) (skipn j u ++ s) (setcap i (firstn j u) cs)) = None) ->
  k (MState (p + length u) s (setcap i u cs)) = Some res ->
  rmatch (Grp i (Rep 0 None false (Cls c_all))) (MState p (u ++ s) cs) k = Some res.
Proof.
  intros Hfail Hk. rewrite rmatch_Grp, rmatch_lazy_all. cbn [rest].
  apply rep_lazy_all.
  - rewrite length_app. lia.
  - intros j Hj. cbn [pos rest mcaps].
    replace (p + j - p) with j by lia.
    rewrite firstn_app. replace (j - length u) with 0 by lia.
    cbn [firstn]. rewrite app_nil_r. apply Hfail. exact Hj.
  - cbn [pos rest mcaps].
    replace (p + length u - p) with (length u) by lia.
    rewrite (@firstn_exact char u s (length u) eq_refl). exact Hk.
Qed.

(** A literal that is not in what follows it in the tag does not begin
    again before the end of the tag. *)
Lemma absent_later (l after rest0 : jsstring) g r :
  rest0 = g :: r -> ~ In g l -> l <> [] -> includes after l = false ->
  (forall n X, 0 < n -> n < length l -> startsWith (skipn n l ++ X) l = false) ->
  forall n, 0 < n -> n <= length (l ++ after) ->
    startsWith (skipn n (l ++ after) ++ rest0) l = false.
Proof.
  intros -> Hg Hne Ha Hself n Hn Hle.
  destruct (Nat.ltb_spec n (length l)) as [Hlt | Hge].
  - rewrite skipn_app. replace (n - length l) with 0 by lia. cbn [skipn].
    rewrite <- app_assoc. apply Hself; assumption.
  - rewrite skipn_app. rewrite (skipn_all2 l) by lia. cbn [app].
    destruct (startsWith (skipn (n - length l) after ++ g :: r) l) eqn:E; [exfalso|reflexivity].
    apply startsWith_app_cases in E as [E | (p2 & Ep & Hp2 & E)].
    + rewrite (@startsWith_suffix after l (n - length l) Ha) in E. discriminate E.
    + destruct p2 as [|y p2]; [congruence|].
      cbn [startsWith] in E. apply andb_true_iff in E as [E _].
      apply N.eqb_eq in E. subst y. apply Hg. rewrite Ep.
      apply in_or_app. right. left. reflexivity.
Qed.

Lemma classAttr_self n X :
  0 < n -> n < length classAttr -> startsWith (skipn n classAttr ++ X) classAttr = false.
Proof.
  intros Hn Hlt. destruct n as [|n]; [lia|].
  do 16 (destruct n as [|n]; [reflexivity|]).
  vm_compute in Hlt. lia.
Qed.

Lemma titleAttr_self n X :
  0 < n -> n < length titleAttr -> startsWith (skipn n titleAttr ++ X) titleAttr = false.
Proof.
  intros Hn Hlt. destruct n as [|n]; [lia|].
  do 11 (destruct n as [|n]; [reflexivity|]).
  vm_compute in Hlt. lia.
Qed.

Lemma digit_inTag x : c_digit x = true -> negb (c_in ">" x) = true.
Proof.
  intros H. destruct (c_in ">" x) eqn:E; [|reflexivity].
  apply c_in_spec in E. vm_compute in E. destruct E as [E | []]. subst x.
  vm_compute in H. discriminate H.
Qed.

Lemma isNumber_spec d :
  isNumber d = true -> d <> [] /\ allb c_digit d /\ inTag d = true.
Proof.
  unfold isNumber. intros H. apply andb_true_iff in H as [H1 H2].
  split; [|split].
  - intros ->. discriminate H1.
  - apply forallb_Forall. exact H2.
  - unfold inTag. apply forallb_forall. intros x Hx.
    rewrite forallb_forall in H2. apply digit_inTag. exact (H2 x Hx).
Qed.

Lemma inTag_app a b : inTag a = true -> inTag b = true -> inTag (a ++ b) = true.
Proof. unfold inTag. intros Ha Hb. rewrite forallb_app, Ha, Hb. reflexivity. Qed.

Lemma nonempty_length (s : jsstring) : Nat.eqb (length s) 0 = false -> s <> [].
Proof. intros H ->. discriminate H. Qed.

Lemma try_at_span e t q :
  wellFormedSpan e = true ->
  try_at re q (renderSpan e ++ t) = Some (MkMatch q (renderSpan e) (spanCaps e)).
Proof.
  intros H. unfold wellFormedSpan in H.
  repeat (apply andb_true_iff in H as [H ?]).
  repeat match goal with
  | X : negb _ = true |- _ => apply negb_true_iff in X
  end.
  match goal with X : Nat.eqb (length (beforeClass e)) 0 = false |- _ =>
    apply nonempty_length in X; rename X into Hlead end.
  match goal with X : Nat.eqb (length (beforeTitle e)) 0 = false |- _ =>
    apply nonempty_length in X; rename X into Hmid end.
  match goal with X : isNumber (bx1 e) = true |- _ =>
    apply isNumber_spec in X; destruct X as (N1 & D1 & T1) end.
  match goal with X : isNumber (by1 e) = true |- _ =>
    apply isNumber_spec in X; destruct X as (N2 & D2 & T2) end.
  match goal with X : isNumber (bx2 e) = true |- _ =>
    apply isNumber_spec in X; destruct X as (N3 & D3 & T3) end.
  match goal with X : isNumber (by2 e) = true |- _ =>
    apply isNumber_spec in X; destruct X as (N4 & D4 & T4) end.
  match goal with X : inTag (beforeClass e) = true |- _ => rename X into Tl end.
  match goal with X : inTag (beforeTitle e) = true |- _ => rename X into Tm end.
  match goal with X : inTag (afterBox e) = true |- _ => rename X into Tt end.
  match goal with X : includes (afterClass e) classAttr = false |- _ => rename X into Ic end.
  match goal with X : includes (afterTitle e) titleAttr = false |- _ => rename X into It end.
  match goal with X : includes (content e) _ = false |- _ => rename X into Is end.
  match goal with X : match afterBox e with [] => _ | _ => _ end = true |- _ => rename X into Bt end.
  set (rest0 := ch ">" :: content e ++ js "</span>" ++ t).
  assert (Tsp : inTag (js " ") = true) by reflexivity.
  assert (TaT : inTag (afterTitle e) = true).
  { unfold afterTitle. repeat apply inTag_app; assumption. }
  assert (TaC : inTag (afterClass e) = true).
  { unfold afterClass. repeat apply inTag_app; try assumption; reflexivity. }
  refine (@try_at_of_rmatch re q _ (renderSpan e) (MState _ t (spanCaps e)) _ eq_refl).
  assert (Ein : renderSpan e ++ t
                = js "<span" ++ beforeClass e ++ (classAttr ++ afterClass e) ++ rest0).
  { unfold renderSpan, rest0. rewrite <- !app_assoc. reflexivity. }
  cbn [rest]. rewrite Ein. clear Ein. rewrite re_body.
  rewrite rmatch_Seq, step_lit.
  rewrite rmatch_Seq. apply step_plus_back.
  { apply inTag_allb. exact Tl. }
  { exact Hlead. }
  { apply inTag_allb. apply inTag_app; [reflexivity | exact TaC]. }
  { reflexivity. }
  { intros n Hn Hle. rewrite rmatch_Seq. unfold lit. apply rmatch_chars_absent.
    apply (absent_later classAttr (afterClass e) rest0 (ch ">") (content e ++ js "</span>" ++ t));
      auto.
    - vm_compute. intuition discriminate.
    - discriminate.
    - apply classAttr_self. }
  rewrite rmatch_Seq. unfold classAttr at 1. rewrite <- app_assoc. rewrite step_lit.
  unfold afterClass. rewrite <- app_assoc.
  rewrite rmatch_Seq. apply step_plus_back.
  { apply inTag_allb. exact Tm. }
  { exact Hmid. }
  { apply inTag_allb. apply inTag_app; [reflexivity | exact TaT]. }
  { reflexivity. }
  { intros n Hn Hle. rewrite rmatch_Seq. unfold lit. apply rmatch_chars_absent.
    apply (absent_later titleAttr (afterTitle e) rest0 (ch ">") (content e ++ js "</span>" ++ t));
      auto.
    - vm_compute. intuition discriminate.
    - discriminate.
    - apply titleAttr_self. }
  rewrite rmatch_Seq. unfold titleAttr at 1. rewrite <- app_assoc. rewrite step_lit.
  unfold afterTitle. rewrite <- !app_assoc.
  rewrite rmatch_Seq. apply step_grp_plus; [exact D1 | exact N1 | reflexivity |].
  rewrite rmatch_Seq, step_lit.
  rewrite rmatch_Seq. apply step_grp_plus; [exact D2 | exact N2 | reflexivity |].
  rewrite rmatch_Seq, step_lit.
  rewrite rmatch_Seq. apply step_grp_plus; [exact D3 | exact N3 | reflexivity |].
  rewrite rmatch_Seq, step_lit.
  rewrite rmatch_Seq. apply step_grp_plus; [exact D4 | exact N4 | |].
  { destruct (afterBox e) as [|x tl]; [reflexivity|].
    cbn [app boundary]. apply negb_true_iff in Bt. exact Bt. }
  rewrite rmatch_Seq. apply step_star; [apply inTag_allb; exact Tt | reflexivity |].
  rewrite rmatch_Seq. unfold rest0.
  change (ch ">" :: content e ++ js "</span>" ++ t)
    with (js ">" ++ content e ++ js "</span>" ++ t).
  rewrite step_lit.
  rewrite rmatch_Seq. apply step_grp_lazy.
  { intros j Hj. unfold lit. apply rmatch_chars_absent.
    change (js "</span>") with (ch "<" :: js "/span>").
    apply startsWith_no_straddle; auto.
    right. eexists. reflexivity. }
  rewrite step_lit. unfold spanCaps, setcap. reflexivity.
Qed.

Lemma renderSpan_not_nil e : renderSpan e <> [].
Proof. unfold renderSpan. intros H. apply (f_equal (@length char)) in H. simpl in H. lia. Qed.

Lemma wordOf_span q w e : wordOf (MkMatch q w (spanCaps e)) = spanWord e.
Proof. reflexivity. Qed.

(** The scan of a page finds the word elements, each where it is, and
    nothing else. *)
Lemma scan_spans footer0 : forall l p fuel,
  forallb (fun se => wordFree (fst se) && wellFormedSpan (snd se)) l = true ->
  wordFree footer0 = true ->
  length (renderSpans l ++ footer0) < fuel ->
  flat_map wordOf (matchAll_from fuel re p (renderSpans l ++ footer0))
  = flat_map (fun se => spanWord (snd se)) l.
Proof.
  intros l. induction l as [|[sep e] l IH]; intros p fuel Hl Hf Hfuel.
  - cbn [renderSpans app flat_map].
    rewrite (@matchAll_from_none re fuel p footer0); [reflexivity|].
    rewrite <- (app_nil_r footer0).
    rewrite (scan_skip_at re footer0 p []).
    + apply scan_end. apply try_at_re_nil.
    + intros i Hi. apply try_at_re_gap; assumption.
  - cbn [forallb fst snd] in Hl. apply andb_true_iff in Hl as [Hse Hl].
    apply andb_true_iff in Hse as [Hsep He].
    cbn [renderSpans flat_map snd]. cbn [renderSpans] in Hfuel.
    set (rest1 := renderSpans l ++ footer0).
    assert (Es : (sep ++ renderSpan e ++ renderSpans l) ++ footer0
                 = sep ++ renderSpan e ++ rest1).
    { unfold rest1. rewrite <- !app_assoc. reflexivity. }
    rewrite Es in Hfuel. rewrite Es. clear Es.
    assert (Hscan : scan re p (sep ++ renderSpan e ++ rest1)
                    = Some (MkMatch (p + length sep) (renderSpan e) (spanCaps e))).
    { rewrite (scan_skip_at re sep p (renderSpan e ++ rest1)).
      - apply scan_here. apply try_at_span. exact He.
      - intros i Hi. apply try_at_re_gap; assumption. }
    rewrite (@matchAll_from_step re fuel p _ _ Hfuel Hscan (renderSpan_not_nil e)).
    cbn [flat_map index m0]. rewrite wordOf_span. f_equal.
    replace (p + length sep + length (renderSpan e) - p)
      with (length sep + length (renderSpan e)) by lia.
    assert (Esk : skipn (length sep + length (renderSpan e)) (sep ++ renderSpan e ++ rest1)
                  = rest1).
    { rewrite app_assoc. apply skipn_exact. rewrite length_app. reflexivity. }
    rewrite Esk. apply IH; try assumption.
    assert (Hpos : 0 < length (renderSpan e)).
    { pose proof (renderSpan_not_nil e) as Hne.
      destruct (renderSpan e); [congruence | simpl; lia]. }
    rewrite !length_app in Hfuel. unfold rest1 in *. lia.
Qed.

Lemma tagRegex_needs : needs (c_is (ch "<")) tagRegex.
Proof. unfold tagRegex. needs_at 0%nat (lit "<"). Qed.

Lemma wordText_plain e :
  forallb (fun x => negb (c_in "<" x)) (content e) = true ->
  wordText e = trim (content e).
Proof.
  intros H. unfold wordText. rewrite replaceAll_none; [reflexivity|].
  apply (exec_lacks (c_is (ch "<")) tagRegex (content e) tagRegex_needs).
  apply Forall_forall. intros x Hx. rewrite forallb_forall in H.
  apply H in Hx. apply negb_true_iff in Hx.
  destruct (c_is (ch "<") x) eqn:E; [|reflexivity].
  apply N.eqb_eq in E. subst x. vm_compute in Hx. discriminate Hx.
Qed.

(** X22: from an HOCR page whose word elements are written as Tesseract
    writes them, in markup that names the class of a word nowhere else and
    leaves no tag open, the loop of runOcr collects one word for each word
    element, in the order of the page, with the four numbers of its box and
    its content without tags, trimmed, as text; an element of which no text
    is left gives no word, and the text of an element without [<] is its
    trimmed content. *)
Theorem hocr_words_read (d : Page) :
  wellFormedPage d = true ->
  hocrWords (renderPage d) = flat_map (fun se => spanWord (snd se)) (spans d)
  /\ (forall se, In se (spans d) ->
        forallb (fun x => negb (c_in "<" x)) (content (snd se)) = true ->
        wordText (snd se) = trim (content (snd se))).
Proof.
  intros H. unfold wellFormedPage in H. apply andb_true_iff in H as [Hl Hf].
  split.
  - unfold hocrWords, matchAll, renderPage. apply scan_spans; auto.
  - intros se _ Hc. apply wordText_plain. exact Hc.
Qed.

Lemma hocr_words_read_witness :
  hocrWords (renderPage sampleLine)
  = [ MkWord 36 92 96 116 (js "受領書"); MkWord 420 92 450 116 (js "行") ].
Proof.
  assert (H : wellFormedPage sampleLine = true) by (vm_compute; reflexivity).
  assert (E : flat_map (fun se => spanWord (snd se)) (spans sampleLine)
              = [ MkWord 36 92 96 116 (js "受領書"); MkWord 420 92 450 116 (js "行") ])
    by (vm_compute; reflexivity).
  exact (eq_trans (proj1 (hocr_words_read sampleLine H)) E).
Defined.
